(** * Risk/reward calculator: the position-sizing and leverage arithmetic

    A shallow embedding of the pure computation of the calculator
    component ([calculateRiskReward] and the helpers it calls) and the
    properties claimed of it.

    The component is JavaScript, so every number is an IEEE 754 binary64
    value and every arithmetic operator rounds to nearest-even.  The program
    is written once, over an interface of the Number operations it uses
    ([JSNumber]), and read at two instances:

    - [ieee]: Rocq's primitive [float] (binary64, the operations of the
      processor), which is what the code computes;
    - [exact]: unrounded rational arithmetic extended with [NaN] and the two
      infinities, the arithmetic the sentences of the specification are
      written in.  It is not the code's: a property of the code is stated
      and proved on [ieee], and [exact] only says, next to it, what the
      property is without rounding.

    [parseFloat] is the boundary of the model: the component state holds the
    parsed Numbers, with [NaN] for an empty or unparsable field. *)

From Stdlib Require Import ZArith QArith Qround Qabs Qpower Lia Lqa Bool String List.
From Stdlib Require Import Uint63 Floats.


(** ** The Number operations the component uses *)

Class JSNumber (T : Type) : Type := {
  (** the Number denoted by the decimal literal [m]e-[k] *)
  lit : Z -> nat -> T;
  add : T -> T -> T;
  sub : T -> T -> T;
  mul : T -> T -> T;
  div : T -> T -> T;
  (** [a < b] and [a <= b] *)
  lt : T -> T -> bool;
  le : T -> T -> bool;
  (** ToBoolean: [false] on NaN, +0 and -0 *)
  truthy : T -> bool;
  (** Math.abs, Math.round, Math.min, Math.max *)
  Math_abs : T -> T;
  Math_round : T -> T;
  Math_min : T -> T -> T;
  Math_max : T -> T -> T
}.

(** An integer literal. *)
Definition int {T : Type} {N : JSNumber T} (n : Z) : T := lit n 0.

Declare Scope js_scope.
Delimit Scope js_scope with js.
Infix "+" := add : js_scope.
Infix "-" := sub : js_scope.
Infix "*" := mul : js_scope.
Infix "/" := div : js_scope.
Notation "a <? b" := (lt a b) : js_scope.
Notation "a <=? b" := (le a b) : js_scope.
Notation "a >? b" := (lt b a) : js_scope.
Notation "a >=? b" := (le b a) : js_scope.

(** ** The component *)

Inductive PositionType : Type := long | short.

Section Component.
Context {T : Type} {N : JSNumber T}.
Local Open Scope js_scope.

(** The component state after [parseFloat]. *)
Record State : Type := {
  entryPrice : T;
  stopLoss : T;
  takeProfit : T;
  totalCapital : T;
  riskPercentage : T;
  assetAllocation : T;
  maxLeverage : T;
  positionType : PositionType;
  exchangeRate : T;
  enablePartialTP : bool;
  partialTP1Percent : T;
  partialTP2Percent : T
}.

Record LeverageInfo : Type := {
  optimal : T;
  riskPercentageMove : T;
  explanation : string
}.

(** A take-profit level.  The [label] and [description] strings of the
    source are display text and are not carried. *)
Record TPLevel : Type := { price : T; rMultiple : T }.

Record TPLevels : Type := { tp1 : TPLevel; tp2 : TPLevel; tp3 : TPLevel }.

Record TPLeg : Type := { assets : T; profit : T; percent : T }.

Record TPProfits : Type := {
  leg1 : TPLeg;
  leg2 : TPLeg;
  leg3 : TPLeg;
  totalProfit : T;
  avgExitRMultiple : T
}.

Record Result : Type := {
  riskPerCoin : T;
  rewardPerCoin : T;
  ratio : T;
  maxRiskAmount : T;
  allocatedAmount : T;
  leverageInfo : option LeverageInfo;
  recommendedAssets : T;
  potentialLoss : T;
  potentialProfit : T;
  positionValue : T;
  partialTPLevels : option TPLevels;
  partialTPProfits : option TPProfits
}.

(** What [calculateRiskReward] returns: [null], [{error: true,
    positionType}] or the result object (whose [error] is [false]). *)
Inductive Outcome : Type :=
| Null
| InvalidDirection (p : PositionType)
| Sized (r : Result).

Definition getLeverageExplanation (leverage riskMove : T) : string :=
  if riskMove >=? (int 10) then
    "High risk distance - using minimal leverage for safety"
  else if riskMove >=? (int 5) then
    "Moderate risk distance - conservative leverage recommended"
  else if riskMove >=? (int 3) then
    "Balanced risk distance - moderate leverage suitable"
  else if riskMove >=? (int 2) then
    "Low risk distance - higher leverage acceptable"
  else
    "Tight stop loss - maximum safe leverage calculated".

(** [optimalLeverage] of the source: the unrounded, unclamped leverage. *)
Definition optimalLeverage (entry stop capital riskPct allocation : T) : T :=
  let riskPerCoin := Math_abs (entry - stop) in
  let riskPercentageMove := (riskPerCoin / entry) * (int 100) in
  let maxRiskAmount := (capital * riskPct) / (int 100) in
  let allocatedCapital := (capital * allocation) / (int 100) in
  maxRiskAmount / (allocatedCapital * (riskPercentageMove / (int 100))).

(** The volatility ladder applied to the clamped leverage. *)
Definition safetyLadder (riskPercentageMove recommendedLeverage : T) : T :=
  if riskPercentageMove >=? (int 10) then Math_min recommendedLeverage (int 2)
  else if riskPercentageMove >=? (int 5) then Math_min recommendedLeverage (int 5)
  else if riskPercentageMove >=? (int 3) then Math_min recommendedLeverage (int 10)
  else if riskPercentageMove >=? (int 2) then Math_min recommendedLeverage (int 20)
  else recommendedLeverage.

Definition calculateOptimalLeverage
    (entry stop capital riskPct allocation maxLev : T) : LeverageInfo :=
  let riskPerCoin := Math_abs (entry - stop) in
  let riskPercentageMove := (riskPerCoin / entry) * (int 100) in
  let optimalLeverage := optimalLeverage entry stop capital riskPct allocation in
  let recommendedLeverage :=
    Math_max (int 1) (Math_min (Math_round optimalLeverage) maxLev) in
  let recommendedLeverage := safetyLadder riskPercentageMove recommendedLeverage in
  {| optimal := recommendedLeverage;
     riskPercentageMove := riskPercentageMove;
     explanation := getLeverageExplanation recommendedLeverage riskPercentageMove |}.

Definition calculatePartialTPLevels
    (entry stop target : T) (positionType : PositionType) : TPLevels :=
  let riskPerCoin := Math_abs (entry - stop) in
  let tp1Price :=
    match positionType with
    | long => entry + riskPerCoin
    | short => entry - riskPerCoin
    end in
  let totalReward := Math_abs (target - entry) in
  let rrRatio := totalReward / riskPerCoin in
  let tp2Price :=
    if rrRatio >=? (int 3) then
      match positionType with
      | long => entry + (riskPerCoin * (int 2))
      | short => entry - (riskPerCoin * (int 2))
      end
    else if rrRatio >=? (int 2) then
      match positionType with
      | long => entry + (riskPerCoin * lit 15 1)
      | short => entry - (riskPerCoin * lit 15 1)
      end
    else (tp1Price + target) / (int 2) in
  {| tp1 := {| price := tp1Price; rMultiple := (int 1) |};
     tp2 := {| price := tp2Price;
               rMultiple := Math_abs (tp2Price - entry) / riskPerCoin |};
     tp3 := {| price := target;
               rMultiple := Math_abs (target - entry) / riskPerCoin |} |}.

(** [calculatePartialTPProfits] reads the two percentages from the
    component state. *)
Definition calculatePartialTPProfits (st : State)
    (tpLevels : TPLevels) (recommendedAssets riskPerCoin entry : T) : TPProfits :=
  let tp1Percent := partialTP1Percent st / (int 100) in
  let tp2Percent := partialTP2Percent st / (int 100) in
  let tp3Percent := (int 1) - tp1Percent - tp2Percent in
  let tp1Assets := recommendedAssets * tp1Percent in
  let tp2Assets := recommendedAssets * tp2Percent in
  let tp3Assets := recommendedAssets * tp3Percent in
  let tp1Profit := tp1Assets * Math_abs (price (tp1 tpLevels) - entry) in
  let tp2Profit := tp2Assets * Math_abs (price (tp2 tpLevels) - entry) in
  let tp3Profit := tp3Assets * Math_abs (price (tp3 tpLevels) - entry) in
  let totalProfit := tp1Profit + tp2Profit + tp3Profit in
  let avgExitRMultiple := totalProfit / (recommendedAssets * riskPerCoin) in
  {| leg1 := {| assets := tp1Assets; profit := tp1Profit; percent := tp1Percent * (int 100) |};
     leg2 := {| assets := tp2Assets; profit := tp2Profit; percent := tp2Percent * (int 100) |};
     leg3 := {| assets := tp3Assets; profit := tp3Profit; percent := tp3Percent * (int 100) |};
     totalProfit := totalProfit;
     avgExitRMultiple := avgExitRMultiple |}.

(** The direction check and the two distances of [calculateRiskReward]
    (shared by both variants of the screen). *)
Definition distances (pt : PositionType) (entry stop target : T) : T * T * bool :=
  match pt with
  | long => (entry - stop, target - entry, (stop <? entry) && (target >? entry))
  | short => (stop - entry, entry - target, (stop >? entry) && (target <? entry))
  end.

Definition calculateRiskReward (st : State) : Outcome :=
  let entry := entryPrice st in
  let stop := stopLoss st in
  let target := takeProfit st in
  let capital := totalCapital st in
  let riskPct := riskPercentage st in
  let allocation := assetAllocation st in
  let maxLev := maxLeverage st in
  if negb (truthy entry) || negb (truthy stop) || negb (truthy target) then Null
  else
    let '(riskPerCoin, rewardPerCoin, isValid) :=
      distances (positionType st) entry stop target in
    if negb isValid || (riskPerCoin <=? (int 0)) || (rewardPerCoin <=? (int 0)) then
      InvalidDirection (positionType st)
    else
      let ratio := rewardPerCoin / riskPerCoin in
      if truthy capital then
        let maxRiskAmount := (capital * riskPct) / (int 100) in
        let allocatedAmount := (capital * allocation) / (int 100) in
        let leverageInfo :=
          calculateOptimalLeverage entry stop capital riskPct allocation maxLev in
        let positionValue := allocatedAmount * optimal leverageInfo in
        let recommendedAssets := positionValue / entry in
        let potentialLoss := recommendedAssets * riskPerCoin in
        let potentialProfit := recommendedAssets * rewardPerCoin in
        let partialTPLevels :=
          calculatePartialTPLevels entry stop target (positionType st) in
        let partialTPProfits :=
          if enablePartialTP st then
            Some (calculatePartialTPProfits st partialTPLevels
                    recommendedAssets riskPerCoin entry)
          else None in
        Sized {| riskPerCoin := riskPerCoin;
                 rewardPerCoin := rewardPerCoin;
                 ratio := ratio;
                 maxRiskAmount := maxRiskAmount;
                 allocatedAmount := allocatedAmount;
                 leverageInfo := Some leverageInfo;
                 recommendedAssets := recommendedAssets;
                 potentialLoss := potentialLoss;
                 potentialProfit := potentialProfit;
                 positionValue := positionValue;
                 partialTPLevels := Some partialTPLevels;
                 partialTPProfits := partialTPProfits |}
      else
        Sized {| riskPerCoin := riskPerCoin;
                 rewardPerCoin := rewardPerCoin;
                 ratio := ratio;
                 maxRiskAmount := (int 0);
                 allocatedAmount := (int 0);
                 leverageInfo := None;
                 recommendedAssets := (int 0);
                 potentialLoss := (int 0);
                 potentialProfit := (int 0);
                 positionValue := (int 0);
                 partialTPLevels := None;
                 partialTPProfits := None |}.

End Component.

Arguments State T : clear implicits.
Arguments LeverageInfo T : clear implicits.
Arguments TPLevel T : clear implicits.
Arguments TPLevels T : clear implicits.
Arguments TPLeg T : clear implicits.
Arguments TPProfits T : clear implicits.
Arguments Result T : clear implicits.
Arguments Outcome T : clear implicits.

(** ** The second variant of the screen (src/src/App.jsx)

    The leverage is entered by the user and there is no partial-exit plan;
    the direction check and the ratio are the same code. *)

Module Manual.
Section Component.
Context {T : Type} {N : JSNumber T}.
Local Open Scope js_scope.

Record State : Type := {
  entryPrice : T;
  stopLoss : T;
  takeProfit : T;
  totalCapital : T;
  riskPercentage : T;
  assetAllocation : T;
  leverage : T;
  positionType : PositionType;
  exchangeRate : T
}.

Record Recommendation : Type := {
  min : T; max : T; recommended : T; level : string
}.

Record Result : Type := {
  riskPerCoin : T;
  rewardPerCoin : T;
  ratio : T;
  maxRiskAmount : T;
  maxPositionSize : T;
  recommendedAssets : T;
  potentialLoss : T;
  potentialProfit : T;
  allocatedAmount : T;
  leverageRecommendation : Recommendation
}.

Inductive Outcome : Type :=
| Null
| InvalidDirection (p : PositionType)
| Sized (r : Result).

Definition getLeverageRecommendation (ratio riskPerCoin entry : T) : Recommendation :=
  let riskPercentage := (riskPerCoin / entry) * (int 100) in
  if (ratio >=? (int 3)) && (riskPercentage <=? (int 2)) then
    {| min := (int 3); max := (int 5); recommended := (int 3); level := "moderate" |}
  else if (ratio >=? (int 2)) && (riskPercentage <=? (int 3)) then
    {| min := (int 2); max := (int 3); recommended := (int 2); level := "conservative" |}
  else if (ratio >=? lit 15 1) && (riskPercentage <=? (int 5)) then
    {| min := (int 1); max := (int 2); recommended := (int 1); level := "very conservative" |}
  else
    {| min := (int 1); max := (int 1); recommended := (int 1); level := "spot only" |}.

Definition calculateRiskReward (st : State) : Outcome :=
  let entry := entryPrice st in
  let stop := stopLoss st in
  let target := takeProfit st in
  let capital := totalCapital st in
  let riskPct := riskPercentage st in
  let allocation := assetAllocation st in
  let lev := leverage st in
  if negb (truthy entry) || negb (truthy stop) || negb (truthy target) then Null
  else
    let '(riskPerCoin, rewardPerCoin, isValid) :=
      distances (positionType st) entry stop target in
    if negb isValid || (riskPerCoin <=? (int 0)) || (rewardPerCoin <=? (int 0)) then
      InvalidDirection (positionType st)
    else
      let ratio := rewardPerCoin / riskPerCoin in
      let leverageRecommendation :=
        getLeverageRecommendation ratio riskPerCoin entry in
      if truthy capital then
        let maxRiskAmount := (capital * riskPct) / (int 100) in
        let maxPositionSize := (capital * allocation) / (int 100) in
        let allocatedAmount := maxPositionSize in
        let recommendedAssets := (maxPositionSize * lev) / entry in
        let potentialLoss := recommendedAssets * riskPerCoin in
        let potentialProfit := recommendedAssets * rewardPerCoin in
        Sized {| riskPerCoin := riskPerCoin;
                 rewardPerCoin := rewardPerCoin;
                 ratio := ratio;
                 maxRiskAmount := maxRiskAmount;
                 maxPositionSize := maxPositionSize;
                 recommendedAssets := recommendedAssets;
                 potentialLoss := potentialLoss;
                 potentialProfit := potentialProfit;
                 allocatedAmount := allocatedAmount;
                 leverageRecommendation := leverageRecommendation |}
      else
        Sized {| riskPerCoin := riskPerCoin;
                 rewardPerCoin := rewardPerCoin;
                 ratio := ratio;
                 maxRiskAmount := (int 0);
                 maxPositionSize := (int 0);
                 recommendedAssets := (int 0);
                 potentialLoss := (int 0);
                 potentialProfit := (int 0);
                 allocatedAmount := (int 0);
                 leverageRecommendation := leverageRecommendation |}.
End Component.

Arguments State T : clear implicits.
Arguments Result T : clear implicits.
Arguments Outcome T : clear implicits.
End Manual.

(** ** Binary64: the Numbers of the running code *)

Module IEEE.
Local Open Scope float_scope.

(** An integer as a Number; exact up to [2^53]. *)
Definition of_Z (z : Z) : float :=
  match z with
  | Z0 => zero
  | Zpos _ => of_uint63 (Uint63.of_Z z)
  | Zneg p => - of_uint63 (Uint63.of_Z (Zpos p))
  end.

(** A decimal literal [m]e-[k].  [m] and [10^k] are exact binary64 values
    for the literals of the component, so the correctly rounded quotient is
    the Number the literal denotes. *)
Definition lit (m : Z) (k : nat) : float :=
  match k with
  | O => of_Z m
  | _ => of_Z m / of_Z (10 ^ Z.of_nat k)
  end.

Definition truthy (x : float) : bool := negb (is_nan x || is_zero x).

(** Math.round: the integral Number closest to [x], ties towards
    [+Infinity]; NaN, the infinities and the zeros are returned as they
    are, and a result of zero keeps the sign of [x]. *)
Definition round (x : float) : float :=
  match Prim2SF x with
  | S754_finite s m e =>
      if (0 <=? e)%Z then x
      else
        match Z.shiftr (2 * cond_Zopp s (Zpos m) + 2 ^ (- e)) (1 - e) with
        | Z0 => if s then neg_zero else zero
        | Zpos p => of_uint63 (Uint63.of_Z (Zpos p))
        | Zneg p => - of_uint63 (Uint63.of_Z (Zpos p))
        end
  | _ => x
  end.

(** Math.min and Math.max of two arguments: NaN if either is NaN, and -0
    is below +0. *)
Definition min (a b : float) : float :=
  if is_nan a || is_nan b then nan
  else if a <? b then a
  else if b <? a then b
  else if get_sign a then a else b.

Definition max (a b : float) : float :=
  if is_nan a || is_nan b then nan
  else if a <? b then b
  else if b <? a then a
  else if get_sign a then b else a.

(** Number.isInteger, on the decoded Number [(-1)^s * m * 2^e] *)
Definition SFis_integer (x : spec_float) : bool :=
  match x with
  | S754_zero _ => true
  | S754_finite _ m e => (0 <=? e)%Z || (Zpos m mod 2 ^ (- e) =? 0)%Z
  | _ => false
  end.

Definition is_integer (x : float) : bool := SFis_integer (Prim2SF x).

(** The sign of a Number that is neither NaN nor a zero. *)
Definition has_sign (s : bool) (x : spec_float) : Prop :=
  match x with
  | S754_finite s' _ _ | S754_infinity s' => s' = s
  | _ => False
  end.
End IEEE.

#[export] Instance ieee : JSNumber float := {
  lit := IEEE.lit;
  add := PrimFloat.add;
  sub := PrimFloat.sub;
  mul := PrimFloat.mul;
  div := PrimFloat.div;
  lt := PrimFloat.ltb;
  le := PrimFloat.leb;
  truthy := IEEE.truthy;
  Math_abs := PrimFloat.abs;
  Math_round := IEEE.round;
  Math_min := IEEE.min;
  Math_max := IEEE.max
}.

(** ** Unrounded arithmetic: the Numbers of the specification

    The component computes in binary64: [ieee] above is its arithmetic, and
    what is proved of the code is proved there.  The arithmetic below is not
    the code's.  It is the one the sentences of the specification are
    written in: a Number is NaN, an infinity or a rational, and no
    operation rounds.  The definitions of the component are read in it only
    to say what a sentence of the specification means without rounding,
    next to the statement on binary64 of the same property; what it
    returns is not what the code returns whenever an operation of the code
    rounds.
    There is one zero: a division by zero takes the sign of the dividend.
    Rationals are kept reduced, so equal Numbers are equal terms. *)

Module Exact.
Inductive num : Type :=
| NaN
| Inf (neg : bool)
| Fin (q : Q).

Definition fin (q : Q) : num := Fin (Qred q).

Definition is_neg (q : Q) : bool := negb (Qle_bool 0 q).
Definition is_zero (q : Q) : bool := Qeq_bool q 0.

Definition lit (m : Z) (k : nat) : num :=
  fin (inject_Z m / inject_Z (10 ^ Z.of_nat k)).

Definition add (x y : num) : num :=
  match x, y with
  | NaN, _ | _, NaN => NaN
  | Inf a, Inf b => if Bool.eqb a b then Inf a else NaN
  | Inf a, Fin _ => Inf a
  | Fin _, Inf b => Inf b
  | Fin p, Fin q => fin (p + q)
  end.

Definition sub (x y : num) : num :=
  match x, y with
  | NaN, _ | _, NaN => NaN
  | Inf a, Inf b => if Bool.eqb a b then NaN else Inf a
  | Inf a, Fin _ => Inf a
  | Fin _, Inf b => Inf (negb b)
  | Fin p, Fin q => fin (p - q)
  end.

Definition mul (x y : num) : num :=
  match x, y with
  | NaN, _ | _, NaN => NaN
  | Inf a, Inf b => Inf (xorb a b)
  | Inf a, Fin q | Fin q, Inf a =>
      if is_zero q then NaN else Inf (xorb a (is_neg q))
  | Fin p, Fin q => fin (p * q)
  end.

Definition div (x y : num) : num :=
  match x, y with
  | NaN, _ | _, NaN => NaN
  | Inf _, Inf _ => NaN
  | Inf a, Fin q => Inf (xorb a (is_neg q))
  | Fin _, Inf _ => fin 0
  | Fin p, Fin q =>
      if is_zero q then
        if is_zero p then NaN else Inf (is_neg p)
      else fin (p / q)
  end.

Definition lt (x y : num) : bool :=
  match x, y with
  | NaN, _ | _, NaN => false
  | Inf a, Inf b => a && negb b
  | Inf a, Fin _ => a
  | Fin _, Inf b => negb b
  | Fin p, Fin q => negb (Qle_bool q p)
  end.

Definition le (x y : num) : bool :=
  match x, y with
  | NaN, _ | _, NaN => false
  | Inf a, Inf b => a || negb b
  | Inf a, Fin _ => a
  | Fin _, Inf b => negb b
  | Fin p, Fin q => Qle_bool p q
  end.

Definition truthy (x : num) : bool :=
  match x with
  | NaN => false
  | Inf _ => true
  | Fin q => negb (is_zero q)
  end.

Definition abs (x : num) : num :=
  match x with
  | NaN => NaN
  | Inf _ => Inf false
  | Fin q => fin (Qabs q)
  end.

(** Math.round: [floor (q + 1/2)] *)
Definition round (x : num) : num :=
  match x with
  | Fin q => fin (inject_Z (Qfloor (q + (1 # 2))))
  | _ => x
  end.

Definition min (a b : num) : num :=
  match a, b with
  | NaN, _ | _, NaN => NaN
  | _, _ => if lt b a then b else a
  end.

Definition max (a b : num) : num :=
  match a, b with
  | NaN, _ | _, NaN => NaN
  | _, _ => if lt a b then b else a
  end.

End Exact.

#[export] Instance exact : JSNumber Exact.num := {
  lit := Exact.lit;
  add := Exact.add;
  sub := Exact.sub;
  mul := Exact.mul;
  div := Exact.div;
  lt := Exact.lt;
  le := Exact.le;
  truthy := Exact.truthy;
  Math_abs := Exact.abs;
  Math_round := Exact.round;
  Math_min := Exact.min;
  Math_max := Exact.max
}.

(** ** The exchange-rate refresh

    [fetchExchangeRate] asks the sources in order.  A source fails (the
    request or the parsing throws), answers without a rate
    ([data.rates.PHP] is missing or falsy, and [rate] stays [null]), or
    answers with a rate.  The rate is a Number, or a truthy value that is
    not a Number (a string such as ["56.1"], [true], an array, an object);
    such a value is given by the Number it is converted to, in [rate > 0]
    and in a product.

    A Number that is truthy and above zero is stored and ends the loop.  A
    value that is not a Number and converts to a Number above zero passes
    [rate && rate > 0] as well and is stored, but it has no method
    [toFixed]: [rate.toFixed(4)] throws a TypeError inside the [try], the
    [break] is not reached, and the loop goes on with the next source.

    The state holds the rate as the Number it is read as: its only reader
    is the product [usdAmount * exchangeRate] of [formatPHP].  Nothing else
    of the state is written. *)

Inductive Response (T : Type) : Type :=
| Failed
| NoRate
| Rate (rate : T)
| NonNumber (number : T).
Arguments Failed {T}.
Arguments NoRate {T}.
Arguments Rate {T} rate.
Arguments NonNumber {T} number.

Section ExchangeRate.
Context {T : Type} {N : JSNumber T}.
Local Open Scope js_scope.

Definition setExchangeRate (rate : T) (st : State T) : State T :=
  {| entryPrice := entryPrice st;
     stopLoss := stopLoss st;
     takeProfit := takeProfit st;
     totalCapital := totalCapital st;
     riskPercentage := riskPercentage st;
     assetAllocation := assetAllocation st;
     maxLeverage := maxLeverage st;
     positionType := positionType st;
     exchangeRate := rate;
     enablePartialTP := enablePartialTP st;
     partialTP1Percent := partialTP1Percent st;
     partialTP2Percent := partialTP2Percent st |}.

Fixpoint fetchExchangeRate (apis : list (Response T)) (st : State T) : State T :=
  match apis with
  | nil => st
  | cons (Rate rate) rest =>
      if truthy rate && (rate >? int 0) then setExchangeRate rate st
      else fetchExchangeRate rest st
  | cons (NonNumber number) rest =>
      if number >? int 0 then fetchExchangeRate rest (setExchangeRate number st)
      else fetchExchangeRate rest st
  | cons _ rest => fetchExchangeRate rest st
  end.
End ExchangeRate.

(** ** The vocabulary of the specification *)

Section Vocabulary.
Context {T : Type} {N : JSNumber T}.
Local Open Scope js_scope.

(** The directional ordering: [stopLoss < entryPrice < takeProfit] for a
    long, [takeProfit < entryPrice < stopLoss] for a short. *)
Definition ordered (pt : PositionType) (entry stop target : T) : bool :=
  match pt with
  | long => (stop <? entry) && (entry <? target)
  | short => (target <? entry) && (entry <? stop)
  end.

(** The stop distance as a percentage of the entry price. *)
Definition riskPercentMove (entry stop : T) : T :=
  (Math_abs (entry - stop) / entry) * int 100.

(** The state of a trade with the default risk settings of the screen. *)
Definition trade (pt : PositionType) (entry stop target capital riskPct allocation maxLev : T)
    (partial : bool) (tp1Percent tp2Percent : T) : State T :=
  {| entryPrice := entry;
     stopLoss := stop;
     takeProfit := target;
     totalCapital := capital;
     riskPercentage := riskPct;
     assetAllocation := allocation;
     maxLeverage := maxLev;
     positionType := pt;
     exchangeRate := lit 5852 2;
     enablePartialTP := partial;
     partialTP1Percent := tp1Percent;
     partialTP2Percent := tp2Percent |}.

(** The trade scaled by [c]: entry, stop and target multiplied by [c]. *)
Definition scaled (c : T) (st : State T) : State T :=
  {| entryPrice := entryPrice st * c;
     stopLoss := stopLoss st * c;
     takeProfit := takeProfit st * c;
     totalCapital := totalCapital st;
     riskPercentage := riskPercentage st;
     assetAllocation := assetAllocation st;
     maxLeverage := maxLeverage st;
     positionType := positionType st;
     exchangeRate := exchangeRate st;
     enablePartialTP := enablePartialTP st;
     partialTP1Percent := partialTP1Percent st;
     partialTP2Percent := partialTP2Percent st |}.
(** The trade passes the three checks of [calculateRiskReward]. *)
Definition accepted (pt : PositionType) (entry stop target : T) : bool :=
  let '(risk, reward, valid) := distances pt entry stop target in
  truthy entry && truthy stop && truthy target
  && valid && negb (risk <=? int 0) && negb (reward <=? int 0).

(** The scaled trade on the other variant of the screen. *)
Definition scaled' (c : T) (st : Manual.State T) : Manual.State T :=
  {| Manual.entryPrice := Manual.entryPrice st * c;
     Manual.stopLoss := Manual.stopLoss st * c;
     Manual.takeProfit := Manual.takeProfit st * c;
     Manual.totalCapital := Manual.totalCapital st;
     Manual.riskPercentage := Manual.riskPercentage st;
     Manual.assetAllocation := Manual.assetAllocation st;
     Manual.leverage := Manual.leverage st;
     Manual.positionType := Manual.positionType st;
     Manual.exchangeRate := Manual.exchangeRate st |}.
End Vocabulary.

(** ** The leverage recommendation on rationals

    What [calculateOptimalLeverage] computes in unrounded arithmetic when
    every input is a rational and no divisor is zero: the clamp of the
    rounded optimal leverage and the volatility ladder. *)

Definition Qmin (p q : Q) : Q := if Qle_bool p q then p else q.
Definition Qmax (p q : Q) : Q := if Qle_bool q p then p else q.

Definition clampQ (maxLev opt : Q) : Q :=
  Qmax 1 (Qmin (inject_Z (Qfloor (opt + (1 # 2)))) maxLev).

Definition ladderQ (rpm lev : Q) : Q :=
  if Qle_bool 10 rpm then Qmin lev 2
  else if Qle_bool 5 rpm then Qmin lev 5
  else if Qle_bool 3 rpm then Qmin lev 10
  else if Qle_bool 2 rpm then Qmin lev 20
  else lev.

(** *** The direction check on rationals *)

Definition risk_of (pt : PositionType) (e s : Q) : Q :=
  match pt with long => (e - s)%Q | short => (s - e)%Q end.

Definition reward_of (pt : PositionType) (e t : Q) : Q :=
  match pt with long => (t - e)%Q | short => (e - t)%Q end.

Definition ordered_of (pt : PositionType) (e s t : Q) : Prop :=
  match pt with
  | long => (s < e)%Q /\ (e < t)%Q
  | short => (t < e)%Q /\ (e < s)%Q
  end.

(** ** The worked scenario *)

Section Scenario.
Context {T : Type} {N : JSNumber T}.

(** The long trade of the worked scenario: entry 100, stop 95, target 115,
    capital 10000, risk 1%, allocation 10%, maximal leverage 75, with the
    default partial exits of 50% and 30%. *)
Definition scenario : State T :=
  trade long (int 100) (int 95) (int 115) (int 10000) (int 1) (int 10) (int 75)
    true (int 50) (int 30).

(** The same trade on the other variant of the screen, at leverage 1. *)
Definition scenario' : Manual.State T :=
  {| Manual.entryPrice := int 100;
     Manual.stopLoss := int 95;
     Manual.takeProfit := int 115;
     Manual.totalCapital := int 10000;
     Manual.riskPercentage := int 1;
     Manual.assetAllocation := int 10;
     Manual.leverage := int 1;
     Manual.positionType := long;
     Manual.exchangeRate := lit 5852 2 |}.
End Scenario.

(** An integer between 1 and [maxLev] (binary64). *)
Definition in_range (maxLev lev : float) : Prop :=
  IEEE.is_integer lev = true /\ (int 1 <=? lev)%js = true /\ (lev <=? maxLev)%js = true.

(** ** Rounding to binary64

    The vocabulary of the facts about rounding.  Nothing here is code of
    the component: these are notions about [SpecFloat], the specification
    of the primitive operations in the standard library.  An operation of
    [SpecFloat] computes a mantissa with the position of the exact result
    between two mantissas, and rounds it ([binary_round_aux]): two shifts to
    the exponent of the format, with a rounding to nearest, ties to even, in
    between. *)

Module Round.
Local Open Scope Z_scope.

(** A bit as a number. *)
Definition b2z (b : bool) : Z := if b then 1 else 0.

(** The position of a value among the multiples of the unit, in quarters of
    the unit with the stickiness of the last quarter. *)
Definition code (r : shr_record) : Z :=
  4 * shr_m r + 2 * b2z (shr_r r) + b2z (shr_s r).

(** The exponent a shift of [shr_fexp] brings a mantissa [m] at exponent
    [e] to. *)
Definition target (m e : Z) : Z :=
  Z.max e (SpecFloat.fexp prec emax (Zdigits2 m + e)).

(** The mantissa and the exponent that [binary_round_aux] arrives at. *)
Definition core (m e : Z) (l : location) : Z * Z :=
  let '(mrs', e') := shr_fexp prec emax m e l in
  let '(mrs'', e'') :=
    shr_fexp prec emax
      (round_nearest_even (shr_m mrs') (loc_of_shr_record mrs')) e' loc_Exact in
  (shr_m mrs'', e'').

(** The Number [binary_round_aux] returns for such a mantissa and
    exponent. *)
Definition of_core (s : bool) (c : Z * Z) : spec_float :=
  match fst c with
  | Z0 => S754_zero s
  | Zpos p =>
      if snd c <=? emax - prec then S754_finite s p (snd c) else S754_infinity s
  | Zneg _ => S754_nan
  end.

(** The position of the quotient [n / d] on the grid of the quarters:
    twice the number of halves below it, plus one if it is not a half. *)
Definition rcode (n d : Z) : Z :=
  2 * (2 * n / d) + (if 2 * n mod d =? 0 then 0 else 1).

(** The mantissa has the digits the format asks for at exponent [e], or
    more. *)
Definition enough (m e : Z) : Prop :=
  e <= SpecFloat.fexp prec emax (Zdigits2 m + e).

(** A Number with a clear sign bit: [+0], [+Infinity] or a positive
    finite. *)
Definition unsigned (x : spec_float) : bool :=
  match x with
  | S754_zero s | S754_infinity s | S754_finite s _ _ => negb s
  | S754_nan => false
  end.

(** The sign bit of a Number. *)
Definition sign_of (x : spec_float) : bool :=
  match x with
  | S754_zero s | S754_infinity s | S754_finite s _ _ => s
  | S754_nan => false
  end.

(** The opposite of [x] if [s] is set, [x] otherwise. *)
Definition cond_opp (s : bool) (x : spec_float) : spec_float :=
  if s then SFopp x else x.

(** [x <= y] among the unsigned Numbers, or one of them is NaN. *)
Definition ule (x y : spec_float) : Prop :=
  x = S754_nan \/ y = S754_nan \/
  (unsigned x = true /\ unsigned y = true /\ SFleb x y = true).

(** A Number with a clear sign bit, or NaN. *)
Definition unsigned_or_nan (x : spec_float) : Prop :=
  x = S754_nan \/ unsigned x = true.

(** Math.round on the decoded Numbers: [IEEE.round] read through
    [Prim2SF]. *)
Definition SFround (x : spec_float) : spec_float :=
  match x with
  | S754_finite s m e =>
      if 0 <=? e then x
      else
        match Z.shiftr (2 * cond_Zopp s (Zpos m) + 2 ^ (- e)) (1 - e) with
        | Z0 => S754_zero s
        | Zpos p => binary_round prec emax false p 0
        | Zneg p => SFopp (binary_round prec emax false p 0)
        end
  | _ => x
  end.

(** The integer Math.round computes, for a finite Number below [2^53]. *)
Definition half_up (m : positive) (e : Z) : Z :=
  (2 * Zpos m + 2 ^ (- e)) / 2 ^ (- e + 1).

(** The value of a finite Number in units of [2^e0]. *)
Definition units (e0 : Z) (s : bool) (m : positive) (e : Z) : Z :=
  cond_Zopp s (Zpos m) * 2 ^ (e - e0).

(** A Number that is a zero or finite. *)
Definition SFis_finite (x : spec_float) : bool :=
  match x with
  | S754_zero _ | S754_finite _ _ _ => true
  | _ => false
  end.

(** The value of a finite Number in units of [2^emin], 0 for the others. *)
Definition ival (x : spec_float) : Z :=
  match x with
  | S754_finite s m e => units emin s m e
  | _ => 0
  end.

(** The Number 2. *)
Abbreviation two := (S754_finite false 4503599627370496 (-51)).
End Round.

(** ** Scaling by a power of two

    The vocabulary of the statements on a scaling that does not round:
    the constant is a power of two, and the Numbers it multiplies stay in
    the range where neither they nor their differences lose digits. *)

(** The finite Number [x] with its exponent moved by [k]: [x * 2^k]. *)
Definition SFshift (k : Z) (x : spec_float) : spec_float :=
  match x with
  | S754_finite s m e => S754_finite s m (e + k)
  | _ => x
  end.

(** The Number [c] is the power of two [2^k], for [k] from -1022 to
    1023 (a mantissa of [2^52]). *)
Definition power_of_two (k : Z) (c : float) : Prop :=
  Prim2SF c = S754_finite false 4503599627370496 (k - 52).

(** [x] and [x * 2^k] are finite with exponents from -1021 to 969: their
    magnitudes are [2^-969] or more and below [2^1022]. *)
Definition in_window (k : Z) (x : float) : Prop :=
  match Prim2SF x with
  | S754_finite _ _ e => (-1021 <= e <= 969 /\ -1021 <= e + k <= 969)%Z
  | _ => False
  end.

(** ** The value of a Number

    The vocabulary of the statements on how far a rounded result is from
    another. *)

(** The value of a finite Number, as a rational; 0 for the others. *)
Definition SF2Q (x : spec_float) : Q :=
  match x with
  | S754_finite s m e => (inject_Z (cond_Zopp s (Zpos m)) * 2 ^ e)%Q
  | _ => 0%Q
  end.

(** The value of a Number: 0 for NaN and the infinities. *)
Definition value (x : float) : Q := SF2Q (Prim2SF x).

(** A positive finite Number with an exponent from -1073 to 970: it is
    [2^-1021] or more and below [2^1023], and no subnormal Number. *)
Definition normal (x : float) : Prop :=
  match Prim2SF x with
  | S754_finite false _ e => (-1074 < e <= 970)%Z
  | _ => False
  end.

Section Antitone.
Local Open Scope js_scope.

(** The recommended leverage of [calculateOptimalLeverage] as a function of
    the risk-percent move, for fixed amounts: what its [optimal] field
    unfolds to. *)
Definition leverage_of (maxRiskAmount allocatedCapital maxLev rpm : float) : float :=
  safetyLadder rpm
    (Math_max (int 1)
       (Math_min
          (Math_round (maxRiskAmount / (allocatedCapital * (rpm / int 100))))
          maxLev)).

(** [x <= y], or one of them is NaN. *)
Definition fle (x y : float) : Prop :=
  is_nan x = true \/ is_nan y = true \/ (x <=? y) = true.
End Antitone.

(** ** The rest of the screen

    The helpers of the component that the render calls, and the part of the
    render that reads the result.  What is printed ([toFixed],
    [toLocaleString]) is not modelled: a helper returns the Number it hands
    to the printer.  The capital is read twice, as the Number [parseFloat]
    gives and as the text of its field: [totalCapital && ...] holds when the
    text is not empty, whatever it parses to. *)

(** ToBoolean of a string. *)
Definition nonempty (text : string) : bool :=
  match text with
  | EmptyString => false
  | String _ _ => true
  end.

(** What [formatPHP] returns: the fixed label of a zero amount, or the
    amount in pesos, printed with two decimals. *)
Inductive Pesos (T : Type) : Type :=
| ZeroLabel
| Amount (phpAmount : T).
Arguments ZeroLabel {T}.
Arguments Amount {T} phpAmount.

(** What a block of the render comes to: it is left out, the expression of
    one of its cells throws a TypeError, or it is shown. *)
Inductive Rendered (A : Type) : Type :=
| LeftOut
| TypeError
| Shown (a : A).
Arguments LeftOut {A}.
Arguments TypeError {A}.
Arguments Shown {A} a.

Section Screen.
Context {T : Type} {N : JSNumber T}.
Local Open Scope js_scope.

(** A source of [fetchExchangeRate] whose answer is stored: it has a rate
    that passes [rate && rate > 0], a Number that is truthy and above zero
    or a value that is not a Number and converts to a Number above zero. *)
Definition usable (response : Response T) : bool :=
  match response with
  | Rate rate => truthy rate && (rate >? int 0)
  | NonNumber number => number >? int 0
  | _ => false
  end.

(** A source whose answer ends the loop: its rate is stored and the
    [break] is reached. *)
Definition breaks (response : Response T) : bool :=
  match response with
  | Rate rate => truthy rate && (rate >? int 0)
  | _ => false
  end.

Definition formatPHP (st : State T) (usdAmount : T) : Pesos T :=
  if negb (truthy usdAmount) then ZeroLabel
  else
    let phpAmount := usdAmount * exchangeRate st in
    Amount phpAmount.

Definition getRatioColor (ratio : T) : string :=
  if ratio >=? int 3 then "emerald"
  else if ratio >=? int 2 then "blue"
  else if ratio >=? int 1 then "amber"
  else "rose".

Definition getRatioLabel (ratio : T) : string :=
  if ratio >=? int 3 then "Excellent"
  else if ratio >=? int 2 then "Good"
  else if ratio >=? int 1 then "Fair"
  else "Poor".

Definition color (results : Outcome T) : string :=
  match results with
  | Sized r => getRatioColor (ratio r)
  | _ => "slate"
  end.

Definition isRiskManagementValid (totalCapitalText : string) (st : State T) : bool :=
  match calculateRiskReward st with
  | Sized _ =>
      if negb (nonempty totalCapitalText) then true
      else
        let riskPct := riskPercentage st in
        let allocation := assetAllocation st in
        let isSafeRisk := (riskPct >=? int 1) && (riskPct <=? int 2) in
        let isSafeAllocation := (allocation >=? int 10) && (allocation <=? int 25) in
        isSafeRisk && isSafeAllocation
  | _ => true
  end.

(** The tag beside the position-size field: ["Optimal"] or ["Review"]. *)
Definition allocationTag (st : State T) : string :=
  let allocation := assetAllocation st in
  if (allocation >=? int 10) && (allocation <=? int 25) then "Optimal" else "Review".

(** The Numbers of the two cards of the block [Position Details]. *)
Record PositionDetails : Type := {
  allocatedCapital : T;
  positionSize : T;
  totalPositionValue : T;
  riskMove : T;
  winRateNeeded : T;
  rrRatio : T
}.

(** The block [Position Details] of the render.  It is inside
    [results && !results.error && ...] and guarded by the text of the
    capital only; its cell [Risk % Move] reads
    [results.leverageInfo.riskPercentageMove], which throws when
    [leverageInfo] is [null]. *)
Definition positionDetails (totalCapitalText : string) (results : Outcome T)
    : Rendered PositionDetails :=
  match results with
  | Sized r =>
      if nonempty totalCapitalText then
        match leverageInfo r with
        | None => TypeError
        | Some info =>
            Shown {| allocatedCapital := allocatedAmount r;
                     positionSize := recommendedAssets r;
                     totalPositionValue := positionValue r;
                     riskMove := riskPercentageMove info;
                     winRateNeeded := int 100 / (int 1 + ratio r);
                     rrRatio := ratio r |}
        end
      else LeftOut
  | _ => LeftOut
  end.

End Screen.

Arguments PositionDetails T : clear implicits.

(** The same helpers on the second variant of the screen, where the risk
    per trade is a free field with its own tag. *)
Module ManualScreen.
Section Screen.
Context {T : Type} {N : JSNumber T}.
Local Open Scope js_scope.

Definition isRiskManagementValid (totalCapitalText : string) (st : Manual.State T) : bool :=
  match Manual.calculateRiskReward st with
  | Manual.Sized _ =>
      if negb (nonempty totalCapitalText) then true
      else
        let riskPct := Manual.riskPercentage st in
        let allocation := Manual.assetAllocation st in
        let isSafeRisk := (riskPct >=? int 1) && (riskPct <=? int 2) in
        let isSafeAllocation := (allocation >=? int 10) && (allocation <=? int 25) in
        isSafeRisk && isSafeAllocation
  | _ => true
  end.

(** The tag beside the risk field: ["Safe"] or ["High Risk"]. *)
Definition riskTag (st : Manual.State T) : string :=
  if Manual.riskPercentage st <=? int 2 then "Safe" else "High Risk".

(** The tag beside the allocation field: ["Optimal"] or ["Review"]. *)
Definition allocationTag (st : Manual.State T) : string :=
  let allocation := Manual.assetAllocation st in
  if (allocation >=? int 10) && (allocation <=? int 25) then "Optimal" else "Review".
End Screen.
End ManualScreen.

(** * Properties

    The helper facts come first: what a result holds whatever the Numbers
    are, the binary64 arithmetic the code runs on, and unrounded arithmetic.
    The claims follow, each with the facts that are its own. *)

Local Open Scope js_scope.

(** ** What a result holds, whatever the Numbers are *)

Section Results.
Context {T : Type} {N : JSNumber T}.

Lemma Sized_accepted (st : State T) :
  (exists r, calculateRiskReward st = Sized r) <->
  accepted (positionType st) (entryPrice st) (stopLoss st) (takeProfit st) = true.
Proof.
  unfold calculateRiskReward, accepted.
  destruct (distances _ _ _ _) as [[risk reward] valid].
  destruct (truthy (entryPrice st)), (truthy (stopLoss st)), (truthy (takeProfit st));
    cbn [negb orb andb];
    try (split; [intros [r Hr]; discriminate | discriminate]).
  destruct valid, (risk <=? int 0), (reward <=? int 0); cbn [negb orb andb];
    try (split; [intros [r Hr]; discriminate | discriminate]).
  split; [reflexivity | ]. intros _.
  destruct (truthy (totalCapital st)); eexists; reflexivity.
Qed.

Lemma Manual_Sized_accepted (st : Manual.State T) :
  (exists r, Manual.calculateRiskReward st = Manual.Sized r) <->
  accepted (Manual.positionType st) (Manual.entryPrice st) (Manual.stopLoss st)
    (Manual.takeProfit st) = true.
Proof.
  unfold Manual.calculateRiskReward, accepted.
  destruct (distances _ _ _ _) as [[risk reward] valid].
  destruct (truthy (Manual.entryPrice st)), (truthy (Manual.stopLoss st)),
    (truthy (Manual.takeProfit st));
    cbn [negb orb andb];
    try (split; [intros [r Hr]; discriminate | discriminate]).
  destruct valid, (risk <=? int 0), (reward <=? int 0); cbn [negb orb andb];
    try (split; [intros [r Hr]; discriminate | discriminate]).
  split; [reflexivity | ]. intros _.
  destruct (truthy (Manual.totalCapital st)); eexists; reflexivity.
Qed.

Lemma Manual_Sized_distances (st : Manual.State T) (r : Manual.Result T) :
  Manual.calculateRiskReward st = Manual.Sized r ->
  distances (Manual.positionType st) (Manual.entryPrice st) (Manual.stopLoss st)
    (Manual.takeProfit st)
    = (Manual.riskPerCoin r, Manual.rewardPerCoin r, true) /\
  Manual.ratio r = Manual.rewardPerCoin r / Manual.riskPerCoin r.
Proof.
  unfold Manual.calculateRiskReward.
  destruct (negb _ || _ || _); try discriminate.
  destruct (distances _ _ _ _) as [[risk reward] valid].
  destruct valid; cbn [negb orb]; try discriminate.
  destruct (_ || _); try discriminate.
  destruct (truthy (Manual.totalCapital st)); intros [= <-]; cbn; split; reflexivity.
Qed.

Lemma Sized_distances (st : State T) (r : Result T) :
  calculateRiskReward st = Sized r ->
  distances (positionType st) (entryPrice st) (stopLoss st) (takeProfit st)
    = (riskPerCoin r, rewardPerCoin r, true) /\
  ratio r = rewardPerCoin r / riskPerCoin r.
Proof.
  unfold calculateRiskReward.
  destruct (negb _ || _ || _); try discriminate.
  destruct (distances _ _ _ _) as [[risk reward] valid].
  destruct valid; cbn [negb orb]; try discriminate.
  destruct (_ || _); try discriminate.
  destruct (truthy (totalCapital st)); intros [= <-]; cbn; split; reflexivity.
Qed.

Lemma Sized_sizing (st : State T) (r : Result T) :
  calculateRiskReward st = Sized r ->
  truthy (totalCapital st) = true ->
  let entry := entryPrice st in
  let info := calculateOptimalLeverage entry (stopLoss st) (totalCapital st)
                (riskPercentage st) (assetAllocation st) (maxLeverage st) in
  let levels := calculatePartialTPLevels entry (stopLoss st) (takeProfit st)
                  (positionType st) in
  leverageInfo r = Some info /\
  recommendedAssets r
    = (((totalCapital st * assetAllocation st) / int 100) * optimal info) / entry /\
  partialTPLevels r = Some levels /\
  partialTPProfits r =
    if enablePartialTP st then
      Some (calculatePartialTPProfits st levels (recommendedAssets r)
              (riskPerCoin r) entry)
    else None.
Proof.
  unfold calculateRiskReward. intros H Hc. rewrite Hc in H. revert H.
  destruct (negb _ || _ || _); try discriminate.
  destruct (distances _ _ _ _) as [[risk reward] valid].
  destruct (negb valid || _ || _); try discriminate.
  intros [= <-]; cbn; repeat split.
Qed.
Lemma Sized_unsized (st : State T) (r : Result T) :
  calculateRiskReward st = Sized r ->
  truthy (totalCapital st) = false ->
  recommendedAssets r = int 0 /\ leverageInfo r = None /\
  partialTPLevels r = None /\ partialTPProfits r = None.
Proof.
  unfold calculateRiskReward. intros H Hc. rewrite Hc in H. revert H.
  destruct (negb _ || _ || _); try discriminate.
  destruct (distances _ _ _ _) as [[risk reward] valid].
  destruct (negb valid || _ || _); try discriminate.
  intros [= <-]; cbn; repeat split.
Qed.

(** The second level, by the ratio of total reward to risk. *)
Lemma tp2_price (entry stop target : T) (pt : PositionType) :
  let risk := Math_abs (entry - stop) in
  let rrRatio := Math_abs (target - entry) / risk in
  let sign x := match pt with long => entry + x | short => entry - x end in
  price (tp2 (calculatePartialTPLevels entry stop target pt)) =
    if rrRatio >=? int 3 then sign (risk * int 2)
    else if rrRatio >=? int 2 then sign (risk * lit 15 1)
    else (sign risk + target) / int 2.
Proof.
  cbn [calculatePartialTPLevels tp2 price].
  destruct (Math_abs (target - entry) / Math_abs (entry - stop) >=? int 3),
    (Math_abs (target - entry) / Math_abs (entry - stop) >=? int 2), pt;
    reflexivity.
Qed.
End Results.

(** ** Binary64 arithmetic

    Facts about the bit-level specification of binary64 ([SpecFloat]) that
    the properties of the component rest on: the sign of a difference, the
    order, and the integers. *)

Module SF.
Import IEEE.
Local Open Scope Z_scope.

Abbreviation fexp := (SpecFloat.fexp prec emax).

Lemma digits2_pos_bounds (m : positive) :
  2 ^ (Zpos (digits2_pos m) - 1) <= Zpos m < 2 ^ Zpos (digits2_pos m).
Proof.
  induction m as [m IH | m IH | ]; cbn [digits2_pos].
  - rewrite Pos2Z.inj_succ, Z.pow_succ_r by lia.
    replace (Z.succ (Zpos (digits2_pos m)) - 1) with (Z.succ (Zpos (digits2_pos m) - 1)) by lia.
    rewrite Z.pow_succ_r by lia. lia.
  - rewrite Pos2Z.inj_succ, Z.pow_succ_r by lia.
    replace (Z.succ (Zpos (digits2_pos m)) - 1) with (Z.succ (Zpos (digits2_pos m) - 1)) by lia.
    rewrite Z.pow_succ_r by lia. lia.
  - cbn. lia.
Qed.

Lemma iter_xO_spec (d m : positive) :
  Zpos (Pos.iter xO m d) = Zpos m * 2 ^ Zpos d.
Proof.
  induction d as [ | d IH] using Pos.peano_ind.
  - cbn. lia.
  - rewrite Pos.iter_succ, Pos2Z.inj_xO, IH, Pos2Z.inj_succ, Z.pow_succ_r by lia. lia.
Qed.

Lemma digits2_iter_xO (d m : positive) :
  digits2_pos (Pos.iter xO m d) = (digits2_pos m + d)%positive.
Proof.
  induction d as [ | d IH] using Pos.peano_ind.
  - cbn. lia.
  - rewrite Pos.iter_succ. cbn [digits2_pos]. rewrite IH. lia.
Qed.

(** Shifting a record right divides its mantissa. *)
Lemma shr_1_m (r : shr_record) :
  0 <= shr_m r -> shr_m (shr_1 r) = shr_m r / 2.
Proof.
  destruct r as [m r s]. cbn [shr_m shr_1]. intros Hm.
  destruct m as [ | [p | p | ] | p ]; cbn [shr_m].
  - reflexivity.
  - apply Z.div_unique with 1; lia.
  - apply Z.div_unique with 0; lia.
  - reflexivity.
  - lia.
Qed.

Lemma iter_pos_nat {A} (f : A -> A) (p : positive) (x : A) :
  iter_pos f p x = Nat.iter (Pos.to_nat p) f x.
Proof.
  revert x. induction p as [p IH | p IH | ]; intros x; cbn [iter_pos].
  - rewrite !IH, Pos2Nat.inj_xI.
    replace (2 * Pos.to_nat p)%nat with (Pos.to_nat p + Pos.to_nat p)%nat by lia.
    now rewrite Nat.iter_succ_r, Nat.iter_add.
  - rewrite !IH, Pos2Nat.inj_xO.
    replace (2 * Pos.to_nat p)%nat with (Pos.to_nat p + Pos.to_nat p)%nat by lia.
    now rewrite Nat.iter_add.
  - reflexivity.
Qed.

Lemma shr_iter_m (n : nat) (r : shr_record) :
  0 <= shr_m r ->
  0 <= shr_m (Nat.iter n shr_1 r) /\
  shr_m (Nat.iter n shr_1 r) = shr_m r / 2 ^ Z.of_nat n.
Proof.
  intros Hr. induction n as [ | n [IH0 IH]].
  - change (Nat.iter 0 shr_1 r) with r. rewrite Z.div_1_r. auto.
  - rewrite Nat.iter_succ, shr_1_m by assumption. split.
    + apply Z.div_pos; lia.
    + rewrite IH, Nat2Z.inj_succ, Z.pow_succ_r by lia.
      rewrite Z.div_div by lia. f_equal. lia.
Qed.

Lemma shr_m_iter_pos (p : positive) (r : shr_record) :
  0 <= shr_m r -> shr_m (iter_pos shr_1 p r) = shr_m r / 2 ^ Zpos p.
Proof.
  intros Hr. rewrite iter_pos_nat.
  destruct (shr_iter_m (Pos.to_nat p) r Hr) as [_ ->].
  now rewrite positive_nat_Z.
Qed.

Lemma shr_record_of_loc_m (m : Z) (l : location) :
  shr_m (shr_record_of_loc m l) = m.
Proof. destruct l as [ | [ | | ]]; reflexivity. Qed.

(** One rounding shift keeps a positive mantissa positive as long as the
    exponent is not below [emin]. *)
Lemma shr_fexp_pos (m e : Z) (l : location) :
  0 < m -> emin <= e ->
  0 < shr_m (fst (shr_fexp prec emax m e l)) /\
  emin <= snd (shr_fexp prec emax m e l).
Proof.
  intros Hm He. unfold shr_fexp, shr.
  destruct m as [ | p | p]; try lia. cbn [Zdigits2].
  pose proof (digits2_pos_bounds p) as Hd.
  set (d := Zpos (digits2_pos p)) in *.
  destruct (SpecFloat.fexp prec emax (d + e) - e) as [ | n | n] eqn:Hn;
    cbn [fst snd]; rewrite ?shr_record_of_loc_m; try (split; lia).
  unfold SpecFloat.fexp, emin, SpecFloat.emin, prec, emax in *.
  rewrite shr_m_iter_pos by (rewrite shr_record_of_loc_m; lia).
  rewrite shr_record_of_loc_m. split; [ | lia].
  assert (Hnd : Zpos n = d - 53) by lia.
  apply Z.div_str_pos. split; [lia | ].
  apply Z.le_trans with (2 ^ (d - 1)); [ | lia].
  apply Z.pow_le_mono_r; lia.
Qed.

Lemma round_nearest_even_pos (m : Z) (l : location) :
  0 < m -> 0 < round_nearest_even m l.
Proof.
  intros Hm. destruct l as [ | [ | | ]]; cbn [round_nearest_even]; try lia.
  destruct (Z.even m); lia.
Qed.

Lemma binary_round_aux_sign (s : bool) (m e : Z) (l : location) :
  0 < m -> emin <= e -> has_sign s (binary_round_aux prec emax s m e l).
Proof.
  intros Hm He. unfold binary_round_aux.
  destruct (shr_fexp_pos m e l Hm He) as [H1 H1e].
  destruct (shr_fexp prec emax m e l) as [mrs' e']. cbn [fst snd] in *.
  pose proof (round_nearest_even_pos (shr_m mrs') (loc_of_shr_record mrs') H1) as H2.
  destruct (shr_fexp_pos _ e' loc_Exact H2 H1e) as [H3 _].
  destruct (shr_fexp prec emax _ e' loc_Exact) as [mrs'' e'']. cbn [fst snd] in *.
  destruct (shr_m mrs'') as [ | q | q]; try lia.
  destruct (e'' <=? emax - prec); reflexivity.
Qed.

Lemma binary_round_sign (s : bool) (m : positive) (e : Z) :
  emin <= e -> has_sign s (binary_round prec emax s m e).
Proof.
  intros He. unfold binary_round, shl_align.
  destruct (SpecFloat.fexp prec emax (Zpos (digits2_pos m) + e) - e) eqn:Hd;
    apply binary_round_aux_sign; try lia.
  unfold SpecFloat.fexp in *. lia.
Qed.

Lemma binary_normalize_sign (z e : Z) (b : bool) :
  emin <= e -> z <> 0 ->
  has_sign (z <? 0) (binary_normalize prec emax z e b).
Proof.
  intros He Hz. destruct z as [ | p | p]; try congruence;
    cbn [binary_normalize]; now apply binary_round_sign.
Qed.

(** What validity says of a finite Number. *)
Lemma valid_finite_inv (s : bool) (m : positive) (e : Z) :
  valid_binary (S754_finite s m e) = true ->
  emin <= e /\ Zpos (digits2_pos m) <= prec /\
  (emin < e -> Zpos (digits2_pos m) = prec).
Proof.
  cbn [SpecFloat.valid_binary]. unfold bounded, canonical_mantissa.
  intros H. apply andb_true_iff in H. destruct H as [H _].
  apply Z.eqb_eq in H. unfold SpecFloat.fexp in H. lia.
Qed.

Lemma shl_align_fst (m : positive) (e e' : Z) :
  e' <= e -> Zpos (fst (shl_align m e e')) = Zpos m * 2 ^ (e - e').
Proof.
  intros He. unfold shl_align.
  destruct (e' - e) as [ | d | d] eqn:Hd; cbn [fst]; try lia.
  - replace (e - e') with 0 by lia. lia.
  - rewrite iter_xO_spec. f_equal. f_equal. lia.
Qed.

(** Among valid finite Numbers a larger exponent is a larger magnitude. *)
Lemma magnitude_lt_exp (s1 s2 : bool) (m1 m2 : positive) (e1 e2 : Z) :
  valid_binary (S754_finite s1 m1 e1) = true ->
  valid_binary (S754_finite s2 m2 e2) = true ->
  e1 < e2 ->
  Zpos m1 < Zpos m2 * 2 ^ (e2 - e1).
Proof.
  intros H1 H2 He.
  apply valid_finite_inv in H1. apply valid_finite_inv in H2.
  destruct H1 as (H1e & H1d & _). destruct H2 as (H2e & _ & H2d).
  pose proof (digits2_pos_bounds m1) as B1.
  pose proof (digits2_pos_bounds m2) as B2.
  rewrite H2d in B2 by lia. unfold prec in *.
  assert (Zpos m1 < 2 ^ 53).
  { apply Z.lt_le_trans with (2 ^ Zpos (digits2_pos m1)); [lia | ].
    apply Z.pow_le_mono_r; lia. }
  assert (2 ^ 1 <= 2 ^ (e2 - e1)) by (apply Z.pow_le_mono_r; lia).
  change (2 ^ (53 - 1)) with 4503599627370496 in B2.
  change (2 ^ 53) with 9007199254740992 in *.
  change (2 ^ 1) with 2 in *. nia.
Qed.

(** [x < y] makes [y - x] a positive Number or [+Infinity]. *)
Lemma SFsub_positive (x y : spec_float) :
  valid_binary x = true -> valid_binary y = true ->
  SFltb x y = true -> has_sign false (SF64sub y x).
Proof.
  intros Vx Vy. unfold SFltb, SF64sub.
  destruct x as [sx | sx | | sx mx ex], y as [sy | sy | | sy my ey];
    cbn [SFcompare SFsub has_sign]; try discriminate;
    try (destruct sx; try discriminate);
    try (destruct sy; try discriminate); try reflexivity.
  all: intros Hc.
  all: pose proof (valid_finite_inv _ _ _ Vx) as (Hex & _ & _).
  all: pose proof (valid_finite_inv _ _ _ Vy) as (Hey & _ & _).
  all: cbn [cond_Zopp] in *.
  all: rewrite !shl_align_fst by lia.
  all: match goal with
       | |- has_sign false (binary_normalize _ _ ?z ?e ?b) =>
           assert (Hz : 0 < z); [ | 
             pose proof (binary_normalize_sign z e b ltac:(lia) ltac:(lia)) as Hs;
             replace (z <? 0) with false in Hs by (symmetry; apply Z.ltb_ge; lia);
             exact Hs ]
       end.
  - (* both negative: the magnitude of [x] is the larger *)
    destruct (Z.compare_spec ex ey) as [He | He | He]; try discriminate.
    + subst ey. rewrite Z.min_id, Z.sub_diag, !Z.mul_1_r.
      change (PosDef.Pos.compare_cont Eq mx my) with (Pos.compare mx my) in Hc.
      destruct (Pos.compare_spec mx my); cbn in Hc; try discriminate. lia.
    + pose proof (magnitude_lt_exp _ _ _ _ _ _ Vy Vx He).
      rewrite Z.min_l by lia. rewrite Z.sub_diag, Z.mul_1_r. lia.
  - (* [x] negative, [y] positive *)
    assert (0 < 2 ^ (ex - Z.min ey ex)) by (apply Z.pow_pos_nonneg; lia).
    assert (0 < 2 ^ (ey - Z.min ey ex)) by (apply Z.pow_pos_nonneg; lia).
    nia.
  - (* both positive *)
    destruct (Z.compare_spec ex ey) as [He | He | He]; try discriminate.
    + subst ey. rewrite Z.min_id, Z.sub_diag, !Z.mul_1_r.
      change (PosDef.Pos.compare_cont Eq mx my) with (Pos.compare mx my) in Hc.
      destruct (Pos.compare_spec mx my); cbn in Hc; try discriminate. lia.
    + pose proof (magnitude_lt_exp _ _ _ _ _ _ Vx Vy He).
      rewrite Z.min_r by lia. rewrite Z.sub_diag, Z.mul_1_r. lia.
Qed.

(** *** The order *)

Ltac cmp_cases :=
  repeat match goal with
    | H : context [PosDef.Pos.compare_cont Eq ?a ?b] |- _ =>
        change (PosDef.Pos.compare_cont Eq a b) with (Pos.compare a b) in H
    | |- context [PosDef.Pos.compare_cont Eq ?a ?b] =>
        change (PosDef.Pos.compare_cont Eq a b) with (Pos.compare a b)
    end;
  repeat match goal with
    | H : context [Z.compare ?a ?b] |- _ => destruct (Z.compare_spec a b)
    | |- context [Z.compare ?a ?b] => destruct (Z.compare_spec a b)
    | H : context [Pos.compare ?a ?b] |- _ => destruct (Pos.compare_spec a b)
    | |- context [Pos.compare ?a ?b] => destruct (Pos.compare_spec a b)
    end;
  cbn [CompOpp] in *; subst; try discriminate; try reflexivity; try lia.

Lemma SFcompare_refl (x : spec_float) :
  x <> S754_nan -> SFcompare x x = Some Eq.
Proof.
  destruct x as [[] | [] | | [] m e]; cbn [SFcompare]; try congruence;
    intros _; rewrite Z.compare_refl;
    change (PosDef.Pos.compare_cont Eq m m) with (Pos.compare m m);
    now rewrite Pos.compare_refl.
Qed.

Lemma SFleb_refl (x : spec_float) : x <> S754_nan -> SFleb x x = true.
Proof. intros H. unfold SFleb. now rewrite SFcompare_refl. Qed.

Lemma SFleb_trans (x y z : spec_float) :
  SFleb x y = true -> SFleb y z = true -> SFleb x z = true.
Proof.
  unfold SFleb.
  destruct x as [[] | [] | | [] mx ex], y as [[] | [] | | [] my ey],
    z as [[] | [] | | [] mz ez]; cbn [SFcompare];
    try discriminate; try reflexivity; intros H1 H2; cmp_cases.
Qed.

Lemma SFltb_leb (x y : spec_float) : SFltb x y = true -> SFleb x y = true.
Proof. unfold SFltb, SFleb. now destruct (SFcompare x y) as [[] | ]. Qed.

(** Two Numbers neither of which is below the other compare equal. *)
Lemma SFleb_total (x y : spec_float) :
  x <> S754_nan -> y <> S754_nan ->
  SFltb x y = false -> SFleb y x = true.
Proof.
  unfold SFltb, SFleb.
  destruct x as [[] | [] | | [] mx ex], y as [[] | [] | | [] my ey];
    cbn [SFcompare]; try congruence; intros _ _ H; cmp_cases.
Qed.

(** *** Integers *)

Lemma digits2_pos_le (p : positive) (k : Z) :
  Zpos p < 2 ^ k -> Zpos (digits2_pos p) <= k.
Proof.
  intros H. pose proof (digits2_pos_bounds p) as [B _].
  destruct (Z_le_gt_dec (Zpos (digits2_pos p)) k) as [ | Hgt]; [assumption | ].
  assert (2 ^ k <= 2 ^ (Zpos (digits2_pos p) - 1)).
  { apply Z.pow_le_mono_r; lia. }
  lia.
Qed.

(** A positive integer below [2^53] is a Number: converting it rounds
    nothing. *)
Lemma binary_round_small (s : bool) (p : positive) :
  Zpos p < 2 ^ 53 ->
  exists m e, binary_round prec emax s p 0 = S754_finite s m e /\
              e <= 0 /\ Zpos m = Zpos p * 2 ^ (- e).
Proof.
  intros Hp. pose proof (digits2_pos_le p 53 Hp) as Hd.
  pose proof (Pos2Z.is_pos (digits2_pos p)) as Hd0.
  unfold binary_round, shl_align.
  assert (Hf : SpecFloat.fexp prec emax (Zpos (digits2_pos p) + 0) =
               Zpos (digits2_pos p) - 53).
  { unfold SpecFloat.fexp, SpecFloat.emin, prec, emax. lia. }
  rewrite Hf.
  assert (Haux : forall (m : positive) (e : Z),
             Zpos (digits2_pos m) = 53 -> -52 <= e <= 0 ->
             binary_round_aux prec emax s (Zpos m) e loc_Exact = S754_finite s m e).
  { intros m e Hm He. unfold binary_round_aux, shr_fexp.
    cbn [Zdigits2 shr_record_of_loc]. rewrite Hm.
    assert (Hz : SpecFloat.fexp prec emax (53 + e) - e = 0).
    { unfold SpecFloat.fexp, SpecFloat.emin, prec, emax. lia. }
    rewrite Hz. cbn [shr shr_m loc_of_shr_record round_nearest_even Zdigits2].
    rewrite Hm, Hz. cbn [shr shr_m].
    replace (e <=? emax - prec) with true; [reflexivity | ].
    symmetry. apply Z.leb_le. unfold emax, prec. lia. }
  destruct (Zpos (digits2_pos p) - 53 - 0) as [ | d | d] eqn:Hdd; try lia.
  - exists p, 0. rewrite Haux by lia. repeat split; lia.
  - exists (Pos.iter xO p d), (Zpos (digits2_pos p) - 53).
    rewrite Haux.
    + repeat split; try lia. rewrite iter_xO_spec. f_equal. f_equal. lia.
    + rewrite digits2_iter_xO. lia.
    + lia.
Qed.

Lemma binary_round_small_integer (s : bool) (p : positive) :
  Zpos p < 2 ^ 53 -> SFis_integer (binary_round prec emax s p 0) = true.
Proof.
  intros Hp. destruct (binary_round_small s p Hp) as (m & e & -> & He & Hm).
  cbn [SFis_integer]. apply orb_true_iff. right. apply Z.eqb_eq.
  rewrite Hm. apply Z.mod_mul.
  apply Z.pow_nonzero; lia.
Qed.
End SF.

(** The same facts on the primitive Numbers, through the specification of
    the primitive operations. *)

Module F64.
Import IEEE.
Local Open Scope float_scope.

Lemma is_nan_false (x : float) :
  is_nan x = false <-> Prim2SF x <> S754_nan.
Proof.
  unfold is_nan. rewrite eqb_spec. unfold SFeqb. split.
  - intros H E. rewrite E in H. discriminate.
  - intros H. now rewrite SF.SFcompare_refl.
Qed.

Lemma Prim2SF_zero : Prim2SF zero = S754_zero false.
Proof. reflexivity. Qed.

(** [x < y] makes [y - x] positive. *)
Lemma sub_positive (x y : float) :
  (x <? y) = true -> has_sign false (Prim2SF (y - x)).
Proof.
  rewrite ltb_spec, sub_spec. apply SF.SFsub_positive; apply Prim2SF_valid.
Qed.

Lemma positive_not_le_zero (x : float) :
  has_sign false (Prim2SF x) -> (x <=? zero) = false.
Proof.
  rewrite leb_spec, Prim2SF_zero.
  destruct (Prim2SF x) as [ | | | s m e]; cbn [has_sign]; try tauto;
    intros ->; reflexivity.
Qed.

Lemma leb_refl (x : float) : is_nan x = false -> (x <=? x) = true.
Proof. rewrite is_nan_false, leb_spec. apply SF.SFleb_refl. Qed.

Lemma leb_trans (x y z : float) :
  (x <=? y) = true -> (y <=? z) = true -> (x <=? z) = true.
Proof. rewrite !leb_spec. apply SF.SFleb_trans. Qed.

(** Math.min and Math.max return one of their arguments, the lower and
    the higher one. *)
Lemma min_cases (a b : float) :
  is_nan a = false -> is_nan b = false ->
  (IEEE.min a b = a /\ (a <=? b) = true) \/
  (IEEE.min a b = b /\ (b <=? a) = true).
Proof.
  intros Ha Hb. unfold IEEE.min. rewrite Ha, Hb. cbn [orb].
  apply is_nan_false in Ha. apply is_nan_false in Hb.
  destruct (a <? b) eqn:Hab.
  { left. split; [reflexivity | ]. rewrite ltb_spec in Hab. rewrite leb_spec.
    now apply SF.SFltb_leb. }
  destruct (b <? a) eqn:Hba.
  { right. split; [reflexivity | ]. rewrite ltb_spec in Hba. rewrite leb_spec.
    now apply SF.SFltb_leb. }
  rewrite ltb_spec in Hab, Hba.
  destruct (get_sign a); [left | right]; (split; [reflexivity | ]);
    rewrite leb_spec; now apply SF.SFleb_total.
Qed.

Lemma max_cases (a b : float) :
  is_nan a = false -> is_nan b = false ->
  (IEEE.max a b = a /\ (b <=? a) = true) \/
  (IEEE.max a b = b /\ (a <=? b) = true).
Proof.
  intros Ha Hb. unfold IEEE.max. rewrite Ha, Hb. cbn [orb].
  apply is_nan_false in Ha. apply is_nan_false in Hb.
  destruct (a <? b) eqn:Hab.
  { right. split; [reflexivity | ]. rewrite ltb_spec in Hab. rewrite leb_spec.
    now apply SF.SFltb_leb. }
  destruct (b <? a) eqn:Hba.
  { left. split; [reflexivity | ]. rewrite ltb_spec in Hba. rewrite leb_spec.
    now apply SF.SFltb_leb. }
  rewrite ltb_spec in Hab, Hba.
  destruct (get_sign a); [right | left]; (split; [reflexivity | ]);
    rewrite leb_spec; now apply SF.SFleb_total.
Qed.

Lemma is_integer_not_nan (x : float) : is_integer x = true -> is_nan x = false.
Proof.
  unfold is_integer. rewrite is_nan_false.
  destruct (Prim2SF x); cbn [SFis_integer]; congruence.
Qed.

Lemma of_uint63_integer (p : positive) :
  (Zpos p < 2 ^ 53)%Z -> is_integer (of_uint63 (Uint63.of_Z (Zpos p))) = true.
Proof.
  intros Hp. unfold is_integer. rewrite of_uint63_spec, Uint63.of_Z_spec.
  rewrite Z.mod_small.
  - cbn [binary_normalize]. now apply SF.binary_round_small_integer.
  - split; [lia | ]. apply Z.lt_trans with (2 ^ 53)%Z; [assumption | reflexivity].
Qed.

Lemma opp_integer (x : float) : is_integer (- x) = is_integer x.
Proof.
  unfold is_integer. rewrite opp_spec. now destruct (Prim2SF x).
Qed.

(** Math.round returns an integer, unless its argument is NaN or an
    infinity, which it returns. *)
Lemma round_integer (x : float) :
  is_integer (IEEE.round x) = true \/
  Prim2SF x = S754_nan /\ IEEE.round x = x \/
  (exists s, Prim2SF x = S754_infinity s) /\ IEEE.round x = x.
Proof.
  unfold IEEE.round. pose proof (Prim2SF_valid x) as V.
  destruct (Prim2SF x) as [s | s | | s m e] eqn:E.
  - left. unfold is_integer. now rewrite E.
  - right. right. split; [now exists s | reflexivity].
  - right. left. split; reflexivity.
  - left. destruct (0 <=? e)%Z eqn:He.
    { unfold is_integer. rewrite E. cbn [SFis_integer]. now rewrite He. }
    apply Z.leb_gt in He.
    apply SF.valid_finite_inv in V. destruct V as (_ & Vd & _).
    pose proof (SF.digits2_pos_bounds m) as [_ Bm].
    assert (Hm : (Zpos m < 2 ^ 53)%Z).
    { apply Z.lt_le_trans with (2 ^ Zpos (digits2_pos m))%Z; [assumption | ].
      apply Z.pow_le_mono_r; unfold prec in Vd; lia. }
    set (k := (- e)%Z). assert (Hk : (1 <= k)%Z) by (unfold k; lia).
    replace (1 - e)%Z with (k + 1)%Z by (unfold k; lia).
    rewrite Z.shiftr_div_pow2 by lia.
    assert (H2k : (2 <= 2 ^ k)%Z).
    { change 2%Z with (2 ^ 1)%Z at 1. apply Z.pow_le_mono_r; lia. }
    assert (Hb : (- 2 ^ 53 < (2 * cond_Zopp s (Zpos m) + 2 ^ k) / 2 ^ (k + 1) < 2 ^ 53)%Z).
    { rewrite Z.pow_add_r, Z.pow_1_r by lia. split.
      - apply Z.lt_le_trans with (- Zpos m)%Z; [lia | ].
        apply Z.div_le_lower_bound; [lia | ]. destruct s; cbn [cond_Zopp]; nia.
      - apply Z.div_lt_upper_bound; [lia | ]. destruct s; cbn [cond_Zopp]; nia. }
    destruct ((2 * cond_Zopp s (Zpos m) + 2 ^ k) / 2 ^ (k + 1))%Z as [ | p | p].
    + destruct s; reflexivity.
    + apply of_uint63_integer. lia.
    + rewrite opp_integer. apply of_uint63_integer. lia.
Qed.
End F64.

(** ** Monotone rounding

    Rounding to binary64 is monotone, and so are the product, the quotient
    and Math.round on the Numbers with a clear sign bit. *)

Module Mono.
Import IEEE Round.
Local Open Scope Z_scope.

Lemma code_shr_1_mono (r1 r2 : shr_record) :
  0 <= shr_m r1 -> code r1 <= code r2 -> code (shr_1 r1) <= code (shr_1 r2).
Proof.
  destruct r1 as [m1 a1 b1], r2 as [m2 a2 b2]. unfold code. cbn [shr_m shr_r shr_s].
  intros H1 H. assert (H2 : 0 <= m2) by (destruct a1, b1, a2, b2; cbn [b2z] in *; lia).
  destruct m1 as [ | [p1 | p1 | ] | p1]; try lia;
    destruct m2 as [ | [p2 | p2 | ] | p2]; try lia;
    destruct a1, b1, a2, b2; cbn [shr_1 shr_m shr_r shr_s b2z orb] in *; lia.
Qed.

Lemma shr_1_nonneg (r : shr_record) : 0 <= shr_m r -> 0 <= shr_m (shr_1 r).
Proof.
  destruct r as [m a b]. cbn [shr_m].
  destruct m as [ | [p | p | ] | p]; cbn [shr_1 shr_m]; lia.
Qed.

Lemma code_iter_mono (n : nat) (r1 r2 : shr_record) :
  0 <= shr_m r1 -> code r1 <= code r2 ->
  0 <= shr_m (Nat.iter n shr_1 r1) /\
  code (Nat.iter n shr_1 r1) <= code (Nat.iter n shr_1 r2).
Proof.
  intros H1 H. induction n as [ | n [IH1 IH]].
  - now split.
  - rewrite !Nat.iter_succ. split.
    + now apply shr_1_nonneg.
    + now apply code_shr_1_mono.
Qed.

(** Rounding to nearest, ties to even, is monotone in the position. *)
Lemma rne_mono (r1 r2 : shr_record) :
  0 <= shr_m r1 -> code r1 <= code r2 ->
  round_nearest_even (shr_m r1) (loc_of_shr_record r1)
  <= round_nearest_even (shr_m r2) (loc_of_shr_record r2).
Proof.
  destruct r1 as [m1 a1 b1], r2 as [m2 a2 b2]. unfold code. cbn [shr_m shr_r shr_s].
  intros H1 H.
  destruct a1, b1, a2, b2; cbn [b2z loc_of_shr_record round_nearest_even] in *;
    try lia;
    repeat match goal with
      | |- context [Z.even ?m] =>
          let E := fresh "E" in
          destruct (Z.even m) eqn:E;
          [apply Z.even_spec in E; destruct E as [? E]
          | apply (f_equal negb) in E; rewrite Z.negb_even in E; cbn in E;
            apply Z.odd_spec in E; destruct E as [? E]]
      end; lia.
Qed.

(** *** Digits *)

Lemma Zdigits2_nonneg (m : Z) : 0 <= Zdigits2 m.
Proof. destruct m; cbn; lia. Qed.

Lemma Zdigits2_bounds (m : Z) :
  0 < m -> 2 ^ (Zdigits2 m - 1) <= m < 2 ^ Zdigits2 m.
Proof. destruct m as [ | p | p]; try lia. intros _. apply SF.digits2_pos_bounds. Qed.

Lemma Zdigits2_le (m k : Z) : 0 <= m -> 0 <= k -> m < 2 ^ k -> Zdigits2 m <= k.
Proof.
  intros Hm Hk H. destruct m as [ | p | p]; cbn [Zdigits2]; try lia.
  now apply SF.digits2_pos_le.
Qed.

Lemma Zdigits2_gt (m k : Z) : 0 <= k -> 2 ^ k <= m -> k < Zdigits2 m.
Proof.
  intros Hk H. assert (Hm : 0 < m) by (pose proof (Z.pow_pos_nonneg 2 k); lia).
  pose proof (Zdigits2_bounds m Hm) as [_ B]. pose proof (Zdigits2_nonneg m).
  destruct (Z_lt_le_dec k (Zdigits2 m)) as [ | Hle]; [assumption | ].
  assert (2 ^ Zdigits2 m <= 2 ^ k) by (apply Z.pow_le_mono_r; lia). lia.
Qed.

Lemma Zdigits2_mono (m1 m2 : Z) : 0 <= m1 <= m2 -> Zdigits2 m1 <= Zdigits2 m2.
Proof.
  intros [H1 H2]. destruct (Z.eq_dec m2 0) as [-> | Hz].
  - assert (m1 = 0) by lia. subst. lia.
  - apply Zdigits2_le; [lia | apply Zdigits2_nonneg | ].
    pose proof (Zdigits2_bounds m2). lia.
Qed.

(** *** One rounding shift *)

Lemma shr_nat (r : shr_record) (e n : Z) :
  shr r e n = (Nat.iter (Z.to_nat n) shr_1 r, e + Z.max 0 n).
Proof.
  destruct n as [ | p | p]; cbn [shr Z.to_nat].
  - now rewrite Z.add_0_r.
  - rewrite SF.iter_pos_nat. reflexivity.
  - now rewrite Z.add_0_r.
Qed.

Lemma shr_fexp_spec (m e : Z) (l : location) :
  shr_fexp prec emax m e l
  = (Nat.iter (Z.to_nat (target m e - e)) shr_1 (shr_record_of_loc m l), target m e).
Proof.
  unfold shr_fexp, target. rewrite shr_nat. f_equal.
  - f_equal. destruct (Z_le_gt_dec (SpecFloat.fexp prec emax (Zdigits2 m + e)) e).
    + rewrite Z.max_l by lia. rewrite Z.sub_diag.
      destruct (SpecFloat.fexp prec emax (Zdigits2 m + e) - e) eqn:E; try reflexivity; lia.
    + rewrite Z.max_r by lia. reflexivity.
  - lia.
Qed.

Lemma code_of_loc (m : Z) (l : location) :
  4 * m <= code (shr_record_of_loc m l) <= 4 * m + 3.
Proof. destruct l as [ | [ | | ]]; unfold code; cbn; lia. Qed.

Lemma code_m (r : shr_record) : 4 * shr_m r <= code r <= 4 * shr_m r + 3.
Proof. destruct r as [m [ | ] [ | ]]; unfold code; cbn; lia. Qed.

Lemma rne_bounds (r : shr_record) :
  shr_m r <= round_nearest_even (shr_m r) (loc_of_shr_record r) <= shr_m r + 1.
Proof.
  destruct r as [m [ | ] [ | ]]; cbn; try lia. destruct (Z.even m); lia.
Qed.

(** *** The two shifts of a rounding *)

Lemma binary_round_aux_core (s : bool) (m e : Z) (l : location) :
  binary_round_aux prec emax s m e l = of_core s (core m e l).
Proof.
  unfold binary_round_aux, core, of_core.
  destruct (shr_fexp prec emax m e l) as [mrs' e'].
  destruct (shr_fexp prec emax _ e' loc_Exact) as [mrs'' e'']. reflexivity.
Qed.

Lemma target_ge (m e : Z) : e <= target m e /\ emin <= target m e.
Proof. unfold target, SpecFloat.fexp. lia. Qed.

Lemma target_mono (m1 m2 e : Z) : 0 <= m1 <= m2 -> target m1 e <= target m2 e.
Proof.
  intros H. pose proof (Zdigits2_mono m1 m2 H). unfold target, SpecFloat.fexp. lia.
Qed.

Lemma pow2_pos (k : Z) : 0 <= k -> 0 < 2 ^ k.
Proof. intros. now apply Z.pow_pos_nonneg. Qed.

(** The mantissa after the first shift has at most 53 digits. *)
Lemma shifted_lt (m e : Z) :
  0 <= m -> m / 2 ^ (target m e - e) < 2 ^ 53.
Proof.
  intros Hm. pose proof (target_ge m e) as [He _].
  destruct (Z.eq_dec m 0) as [-> | Hz]; [now rewrite Z.div_0_l by (pose proof (pow2_pos (target 0 e - e)); lia) | ].
  pose proof (Zdigits2_bounds m ltac:(lia)) as [_ B].
  pose proof (Zdigits2_nonneg m) as Hd.
  apply Z.div_lt_upper_bound; [apply pow2_pos; lia | ].
  rewrite <- Z.pow_add_r by lia.
  apply Z.lt_le_trans with (2 ^ Zdigits2 m); [assumption | ].
  apply Z.pow_le_mono_r; [lia | ]. unfold target, SpecFloat.fexp, prec. lia.
Qed.

(** What the two shifts arrive at, from a mantissa [m] at exponent [e]. *)
Lemma core_facts (m e : Z) (l : location) :
  0 <= m ->
  let e' := target m e in
  let r' := Nat.iter (Z.to_nat (e' - e)) shr_1 (shr_record_of_loc m l) in
  let m'' := round_nearest_even (shr_m r') (loc_of_shr_record r') in
  let E := target m'' e' in
  core m e l = (m'' / 2 ^ (E - e'), E) /\
  0 <= m'' <= 2 ^ 53 /\
  e' <= E <= e' + 1 /\
  (E = e' + 1 -> m'' / 2 ^ (E - e') = 2 ^ 52) /\
  (E = e' -> m'' / 2 ^ (E - e') = m'') /\
  (emin < E -> e < E -> 2 ^ 52 <= m'' / 2 ^ (E - e')).
Proof.
  intros Hm e' r' m'' E.
  pose proof (target_ge m e) as [He Hemin]. fold e' in He, Hemin.
  assert (Hr0 : 0 <= shr_m (shr_record_of_loc m l)) by now rewrite SF.shr_record_of_loc_m.
  destruct (SF.shr_iter_m (Z.to_nat (e' - e)) _ Hr0) as [Hm'0 Hm'].
  fold r' in Hm'0, Hm'. rewrite SF.shr_record_of_loc_m, Z2Nat.id in Hm' by lia.
  pose proof (shifted_lt m e Hm) as Hlt. fold e' in Hlt. rewrite <- Hm' in Hlt.
  pose proof (rne_bounds r') as Hrne. fold m'' in Hrne.
  assert (Hm'' : 0 <= m'' <= 2 ^ 53) by lia.
  assert (Hd : Zdigits2 m'' <= 54).
  { apply Zdigits2_le; lia. }
  pose proof (Zdigits2_nonneg m'') as Hd0.
  assert (HE : e' <= E <= e' + 1).
  { unfold E, target, SpecFloat.fexp, prec. unfold emin, SpecFloat.emin, prec, emax in *. lia. }
  assert (HE1 : E = e' + 1 -> m'' = 2 ^ 53).
  { intros H1. assert (54 <= Zdigits2 m'').
    { unfold E, target, SpecFloat.fexp, prec in H1.
      unfold emin, SpecFloat.emin, prec, emax in *. lia. }
    destruct (Z_lt_le_dec m'' (2 ^ 53)) as [Hs | ]; [ | lia].
    pose proof (Zdigits2_le m'' 53 ltac:(lia) ltac:(lia) Hs). lia. }
  split; [ | split; [assumption | split; [assumption | split; [ | split]]]].
  - unfold core. rewrite shr_fexp_spec. fold e' r' m''. rewrite shr_fexp_spec.
    fold E. f_equal.
    assert (H0 : 0 <= shr_m (shr_record_of_loc m'' loc_Exact)) by (cbn; lia).
    destruct (SF.shr_iter_m (Z.to_nat (E - e')) _ H0) as [_ ->].
    cbn [shr_record_of_loc shr_m]. rewrite Z2Nat.id by lia. reflexivity.
  - intros H1. rewrite (HE1 H1), H1. replace (e' + 1 - e') with 1 by lia. reflexivity.
  - intros H1. rewrite H1, Z.sub_diag. apply Z.div_1_r.
  - intros H1 H2. destruct (Z.eq_dec E (e' + 1)) as [H3 | H3].
    + rewrite (HE1 H3), H3. replace (e' + 1 - e') with 1 by lia. cbn. lia.
    + assert (H4 : E = e') by lia. rewrite H4, Z.sub_diag, Z.div_1_r.
      apply Z.le_trans with (shr_m r'); [ | lia]. rewrite Hm'.
      assert (Hpos : 0 < m).
      { destruct (Z.eq_dec m 0) as [Hz | ]; [ | lia]. exfalso. subst m.
        unfold e', target, SpecFloat.fexp in *. cbn [Zdigits2] in *.
        unfold emin, SpecFloat.emin, prec, emax in *. lia. }
      pose proof (Zdigits2_bounds m Hpos) as [B _].
      assert (Hk : e' - e = Zdigits2 m - 53).
      { unfold e', target, SpecFloat.fexp, prec in *.
        unfold emin, SpecFloat.emin, prec, emax in *. lia. }
      rewrite Hk. apply Z.div_le_lower_bound; [apply pow2_pos; lia | ].
      rewrite <- Z.pow_add_r by lia.
      replace (Zdigits2 m - 53 + 52) with (Zdigits2 m - 1) by lia. assumption.
Qed.

Lemma new_location_cases (d r : Z) :
  0 < d ->
  new_location d r =
  if r =? 0 then loc_Exact else loc_Inexact (2 * r ?= d).
Proof.
  intros Hd. unfold new_location, new_location_even, new_location_odd.
  destruct (Z.even d) eqn:Hev; [reflexivity | ].
  destruct (r =? 0); [reflexivity | ]. f_equal.
  assert (Hodd : Z.odd d = true) by (rewrite <- Z.negb_even, Hev; reflexivity).
  apply Z.odd_spec in Hodd. destruct Hodd as [k Hk].
  destruct (Z.compare_spec (2 * r + 1) d), (Z.compare_spec (2 * r) d);
    try reflexivity; lia.
Qed.

Lemma rcode_div_eucl (n d : Z) :
  0 <= n -> 0 < d ->
  code (shr_record_of_loc (n / d) (new_location d (n mod d))) = rcode n d.
Proof.
  intros Hn Hd. rewrite new_location_cases by assumption. unfold rcode.
  pose proof (Z.div_mod n d ltac:(lia)) as E.
  pose proof (Z.mod_pos_bound n d Hd) as B.
  set (q := n / d) in *. set (r := n mod d) in *. clearbody q r.
  destruct (Z.eqb_spec r 0) as [Hr | Hr].
  - assert (E2 : 2 * n = 2 * q * d + 0) by lia.
    rewrite <- (Z.div_unique (2 * n) d (2 * q) 0) by lia.
    rewrite <- (Z.mod_unique (2 * n) d (2 * q) 0) by lia.
    unfold code; cbn [shr_record_of_loc shr_m shr_r shr_s b2z Z.eqb]; lia.
  - destruct (Z.compare_spec (2 * r) d) as [H | H | H].
    + rewrite <- (Z.div_unique (2 * n) d (2 * q + 1) 0) by lia.
      rewrite <- (Z.mod_unique (2 * n) d (2 * q + 1) 0) by lia.
      unfold code; cbn [shr_record_of_loc shr_m shr_r shr_s b2z Z.eqb]; lia.
    + rewrite <- (Z.div_unique (2 * n) d (2 * q) (2 * r)) by lia.
      rewrite <- (Z.mod_unique (2 * n) d (2 * q) (2 * r)) by lia.
      destruct (Z.eqb_spec (2 * r) 0); [lia | ]. unfold code; cbn [shr_record_of_loc shr_m shr_r shr_s b2z Z.eqb]; lia.
    + rewrite <- (Z.div_unique (2 * n) d (2 * q + 1) (2 * r - d)) by lia.
      rewrite <- (Z.mod_unique (2 * n) d (2 * q + 1) (2 * r - d)) by lia.
      destruct (Z.eqb_spec (2 * r - d) 0); [lia | ]. unfold code; cbn [shr_record_of_loc shr_m shr_r shr_s b2z Z.eqb]; lia.
Qed.

Lemma rcode_exact (n : Z) : code (shr_record_of_loc n loc_Exact) = rcode n 1.
Proof.
  unfold rcode. rewrite Z.div_1_r, Z.mod_1_r. unfold code; cbn [shr_record_of_loc shr_m shr_r shr_s b2z Z.eqb]; lia.
Qed.

(** The grid position grows with the quotient. *)
Lemma rcode_mono (n1 d1 n2 d2 : Z) :
  0 <= n1 -> 0 < d1 -> 0 < d2 -> n1 * d2 <= n2 * d1 ->
  rcode n1 d1 <= rcode n2 d2.
Proof.
  intros Hn1 Hd1 Hd2 H. unfold rcode.
  pose proof (Z.div_mod (2 * n1) d1 ltac:(lia)) as E1.
  pose proof (Z.mod_pos_bound (2 * n1) d1 Hd1) as B1.
  pose proof (Z.div_mod (2 * n2) d2 ltac:(lia)) as E2.
  pose proof (Z.mod_pos_bound (2 * n2) d2 Hd2) as B2.
  set (Q1 := 2 * n1 / d1) in *. set (R1 := (2 * n1) mod d1) in *.
  set (Q2 := 2 * n2 / d2) in *. set (R2 := (2 * n2) mod d2) in *.
  assert (HQ : Q1 <= Q2 \/ Q2 + 1 <= Q1) by lia.
  destruct HQ as [HQ | HQ].
  - destruct (Z.eqb_spec R1 0), (Z.eqb_spec R2 0); try lia.
    assert (Q1 < Q2 \/ Q1 = Q2) as [ | Heq] by lia; [lia | ].
    exfalso. subst Q2. nia.
  - exfalso.
    assert (d1 * d2 * (Q2 + 1) <= d1 * d2 * Q1) by nia.
    nia.
Qed.

Lemma code_shr_1 (r : shr_record) :
  0 <= shr_m r ->
  code (shr_1 r) = 2 * shr_m r + b2z (shr_r r || shr_s r).
Proof.
  destruct r as [m r s]. cbn [shr_m shr_r shr_s]. intros Hm. unfold code.
  destruct m as [ | [p | p | ] | p]; cbn [shr_1 shr_m shr_r shr_s b2z]; lia.
Qed.

(** One shift halves the quotient. *)
Lemma rcode_shr_1 (r : shr_record) (n d : Z) :
  0 <= n -> 0 < d -> 0 <= shr_m r ->
  code r = rcode n d -> code (shr_1 r) = rcode n (2 * d).
Proof.
  intros Hn Hd Hm Hc. rewrite code_shr_1 by assumption.
  unfold code, rcode in *.
  pose proof (Z.div_mod (2 * n) d ltac:(lia)) as E1.
  pose proof (Z.mod_pos_bound (2 * n) d Hd) as B1.
  pose proof (Z.div_mod (2 * n) (2 * d) ltac:(lia)) as E2.
  pose proof (Z.mod_pos_bound (2 * n) (2 * d) ltac:(lia)) as B2.
  set (Q1 := 2 * n / d) in *. set (R1 := (2 * n) mod d) in *.
  set (Q2 := 2 * n / (2 * d)) in *. set (R2 := (2 * n) mod (2 * d)) in *.
  clearbody Q1 R1 Q2 R2.
  assert (HQ : Q1 = 2 * Q2 /\ R1 = R2 \/ Q1 = 2 * Q2 + 1 /\ R2 = R1 + d).
  { assert (Hb : -1 < Q1 - 2 * Q2 < 2) by nia.
    assert (Q1 - 2 * Q2 = 0 \/ Q1 - 2 * Q2 = 1) as [H0 | H0] by lia;
      [left | right]; nia. }
  destruct r as [m [ | ] [ | ]]; cbn [shr_m shr_r shr_s b2z orb] in *;
    destruct (Z.eqb_spec R1 0), (Z.eqb_spec R2 0); lia.
Qed.

Lemma rcode_iter (k : nat) (r : shr_record) (n d : Z) :
  0 <= n -> 0 < d -> 0 <= shr_m r ->
  code r = rcode n d ->
  code (Nat.iter k shr_1 r) = rcode n (d * 2 ^ Z.of_nat k).
Proof.
  intros Hn Hd Hm Hc. induction k as [ | k IH].
  - cbn [Nat.iter]. change (Z.of_nat 0) with 0. rewrite Z.pow_0_r, Z.mul_1_r.
    exact Hc.
  - rewrite Nat.iter_succ.
    destruct (SF.shr_iter_m k r Hm) as [H0 _].
    rewrite (rcode_shr_1 _ n (d * 2 ^ Z.of_nat k)); try assumption.
    + f_equal. rewrite Nat2Z.inj_succ, Z.pow_succ_r by lia. lia.
    + apply Z.mul_pos_pos; [assumption | apply pow2_pos; lia].
Qed.

Lemma rcode_m (r : shr_record) (n d : Z) :
  0 <= n -> 0 < d -> code r = rcode n d -> shr_m r = n / d.
Proof.
  intros Hn Hd Hc. unfold code, rcode in Hc.
  pose proof (Z.div_mod (2 * n) d ltac:(lia)) as E1.
  pose proof (Z.mod_pos_bound (2 * n) d Hd) as B1.
  set (Q1 := 2 * n / d) in *. set (R1 := (2 * n) mod d) in *.
  clearbody Q1 R1.
  destruct r as [m [ | ] [ | ]]; cbn [shr_m shr_r shr_s b2z] in *;
    destruct (Z.eqb_spec R1 0); try lia;
    apply Z.div_unique with (n - d * m); nia.
Qed.

Lemma enough_target (m e : Z) :
  enough m e -> target m e = SpecFloat.fexp prec emax (Zdigits2 m + e).
Proof. unfold enough, target. lia. Qed.

Lemma core_normal (m e : Z) (l : location) :
  0 <= m -> enough m e -> emin < snd (core m e l) ->
  2 ^ 52 <= fst (core m e l).
Proof.
  intros Hm Hen. pose proof (core_facts m e l Hm) as H. cbv zeta in H.
  destruct H as (-> & Hm'' & HE & _ & HM & Hn). cbn [fst snd]. intros Hmin.
  pose proof (target_ge m e) as [He _].
  set (e' := target m e) in *.
  set (m'' := round_nearest_even _ _) in *.
  set (E := target m'' e') in *.
  destruct (Z_lt_le_dec e E) as [Hlt | Hge]; [now apply Hn | ].
  assert (HEe : E = e') by lia. assert (He' : e' = e) by lia.
  rewrite (HM HEe). unfold m''. rewrite He', Z.sub_diag.
  change (Z.to_nat 0) with O.
  change (Nat.iter 0 shr_1 (shr_record_of_loc m l)) with (shr_record_of_loc m l).
  pose proof (rne_bounds (shr_record_of_loc m l)) as B.
  rewrite SF.shr_record_of_loc_m in B |- *.
  apply Z.le_trans with m; [ | lia].
  pose proof (enough_target m e Hen) as Ht. fold e' in Ht.
  assert (Hd : Zdigits2 m = 53).
  { unfold SpecFloat.fexp, prec in Ht.
    unfold emin, SpecFloat.emin, prec, emax in *. lia. }
  assert (Hpos : 0 < m).
  { destruct (Z.eq_dec m 0) as [-> | ]; [discriminate Hd | lia]. }
  pose proof (Zdigits2_bounds m Hpos) as [B1 _]. rewrite Hd in B1. exact B1.
Qed.

Lemma core_nonneg (m e : Z) (l : location) :
  0 <= m -> 0 <= fst (core m e l) /\ emin <= snd (core m e l).
Proof.
  intros Hm. pose proof (core_facts m e l Hm) as H. cbv zeta in H.
  destruct H as (-> & Hm'' & HE & _). cbn [fst snd].
  pose proof (target_ge m e) as [_ He]. split; [ | lia].
  apply Z.div_pos; [lia | apply pow2_pos; lia].
Qed.

(** Comparison of two rounded values from their mantissas and exponents. *)
Lemma of_core_le (c1 c2 : Z * Z) :
  0 <= fst c1 -> 0 <= fst c2 -> snd c1 <= snd c2 ->
  (snd c1 = snd c2 -> fst c1 <= fst c2) ->
  (snd c1 < snd c2 -> 0 < fst c2) ->
  SFleb (of_core false c1) (of_core false c2) = true.
Proof.
  destruct c1 as [M1 E1], c2 as [M2 E2]. unfold of_core, SFleb. cbn [fst snd].
  intros H1 H2 HE Heq Hlt.
  destruct M1 as [ | p1 | p1], M2 as [ | p2 | p2]; try lia.
  - reflexivity.
  - destruct (E2 <=? emax - prec); reflexivity.
  - destruct (Z.leb_spec E1 (emax - prec)), (Z.leb_spec E2 (emax - prec));
      cbn [SFcompare]; try reflexivity; try lia.
    destruct (Z.compare_spec E1 E2) as [He | He | He]; try reflexivity; try lia.
    change (PosDef.Pos.compare_cont Eq p1 p2) with (Pos.compare p1 p2).
    specialize (Heq He).
    destruct (Pos.compare_spec p1 p2); try reflexivity; lia.
Qed.

Lemma pow2_split (a b : Z) : 0 <= a -> 0 <= b -> 2 ^ (a + b) = 2 ^ a * 2 ^ b.
Proof. intros. now apply Z.pow_add_r. Qed.

Lemma pow2_le (a b : Z) : 0 <= a <= b -> 2 ^ a <= 2 ^ b.
Proof. intros. apply Z.pow_le_mono_r; lia. Qed.

Lemma pow_cross (X Y a b K : Z) :
  0 <= a <= K -> 0 <= b <= K ->
  X * 2 ^ a <= Y * 2 ^ b -> X * 2 ^ (K - b) <= Y * 2 ^ (K - a).
Proof.
  intros Ha Hb H.
  pose proof (pow2_pos a ltac:(lia)) as Pa.
  pose proof (pow2_pos b ltac:(lia)) as Pb.
  pose proof (pow2_pos (K - b) ltac:(lia)) as Pu.
  pose proof (pow2_pos (K - a) ltac:(lia)) as Pv.
  assert (E : 2 ^ (K - b) * 2 ^ b = 2 ^ (K - a) * 2 ^ a).
  { rewrite <- !pow2_split by lia. f_equal. lia. }
  set (A := 2 ^ a) in *. set (B := 2 ^ b) in *.
  set (U := 2 ^ (K - b)) in *. set (V := 2 ^ (K - a)) in *.
  clearbody A B U V.
  apply Z.mul_le_mono_pos_r with A; [assumption | ].
  replace (Y * V * A) with (Y * B * U)
    by (replace (Y * V * A) with (Y * (V * A)) by ring; rewrite <- E; ring).
  replace (X * U * A) with (X * A * U) by ring.
  apply Z.mul_le_mono_nonneg_r; lia.
Qed.

(** The number of digits of a quotient, from its value. *)
Lemma digits_order (n1 d1 e1 n2 d2 e2 e0 : Z) :
  0 <= n1 -> 0 < d1 -> 0 <= n2 -> 0 < d2 ->
  e0 <= e1 -> e0 <= e2 ->
  n1 * d2 * 2 ^ (e1 - e0) <= n2 * d1 * 2 ^ (e2 - e0) ->
  0 < n1 / d1 ->
  Zdigits2 (n1 / d1) + e1 <= Zdigits2 (n2 / d2) + e2.
Proof.
  intros Hn1 Hd1 Hn2 Hd2 He1 He2 H Hpos.
  destruct (Z_le_gt_dec (Zdigits2 (n1 / d1) + e1) (Zdigits2 (n2 / d2) + e2))
    as [ | Hgt]; [assumption | exfalso].
  pose proof (Zdigits2_bounds _ Hpos) as [B1 _].
  pose proof (Zdigits2_nonneg (n2 / d2)) as D2.
  assert (B2 : n2 / d2 + 1 <= 2 ^ Zdigits2 (n2 / d2)).
  { assert (Hq : 0 <= n2 / d2) by (apply Z.div_pos; lia).
    destruct (Z.eq_dec (n2 / d2) 0) as [-> | Hz]; [cbn; lia | ].
    pose proof (Zdigits2_bounds (n2 / d2) ltac:(lia)). lia. }
  pose proof (Z.div_mod n1 d1 ltac:(lia)) as E1.
  pose proof (Z.mod_pos_bound n1 d1 Hd1) as R1.
  pose proof (Z.div_mod n2 d2 ltac:(lia)) as E2.
  pose proof (Z.mod_pos_bound n2 d2 Hd2) as R2.
  set (q1 := n1 / d1) in *. set (q2 := n2 / d2) in *.
  set (g1 := Zdigits2 q1) in *. set (g2 := Zdigits2 q2) in *.
  assert (G1 : 1 <= g1).
  { destruct (Z_le_gt_dec 1 g1); [assumption | exfalso].
    assert (g1 - 1 < 0) by lia.
    rewrite Z.pow_neg_r in B1 by assumption.
    pose proof (Zdigits2_bounds q1 Hpos) as [_ B]. fold g1 in B.
    pose proof (Zdigits2_nonneg q1). fold g1 in H1.
    assert (g1 = 0) by lia. rewrite H2 in B. cbn in B. lia. }
  (* 2^(g2 + e2 - e0) <= 2^(g1 - 1 + e1 - e0) *)
  assert (P : 2 ^ g2 * 2 ^ (e2 - e0) <= 2 ^ (g1 - 1) * 2 ^ (e1 - e0)).
  { rewrite <- !pow2_split by lia. apply pow2_le. lia. }
  pose proof (pow2_pos (e1 - e0) ltac:(lia)) as P1.
  pose proof (pow2_pos (e2 - e0) ltac:(lia)) as P2.
  set (A := 2 ^ (e1 - e0)) in *. set (B := 2 ^ (e2 - e0)) in *.
  set (G1' := 2 ^ (g1 - 1)) in *. set (G2' := 2 ^ g2) in *.
  clearbody A B G1' G2' q1 q2.
  (* n2 < G2' * d2 and G1' * d1 <= n1 *)
  assert (K2 : n2 < G2' * d2) by nia.
  assert (K1 : G1' * d1 <= n1) by nia.
  assert (Pd : 0 < d1 * d2) by (apply Z.mul_pos_pos; lia).
  assert (L2 : n2 * (d1 * B) < G2' * d2 * (d1 * B)).
  { apply Z.mul_lt_mono_pos_r; [apply Z.mul_pos_pos; lia | assumption]. }
  assert (L1 : G1' * d1 * (d2 * A) <= n1 * (d2 * A)).
  { apply Z.mul_le_mono_nonneg_r; [apply Z.mul_nonneg_nonneg; lia | assumption]. }
  assert (L3 : G2' * B * (d1 * d2) <= G1' * A * (d1 * d2)).
  { apply Z.mul_le_mono_nonneg_r; lia. }
  lia.
Qed.

(** Rounding is monotone: of two quotients scaled by powers of two, the
    larger rounds to the larger value. *)
Lemma round_le (m1 e1 : Z) (l1 : location) (m2 e2 : Z) (l2 : location)
    (n1 d1 n2 d2 e0 : Z) :
  0 <= n1 -> 0 < d1 -> 0 <= n2 -> 0 < d2 ->
  code (shr_record_of_loc m1 l1) = rcode n1 d1 ->
  code (shr_record_of_loc m2 l2) = rcode n2 d2 ->
  enough m1 e1 -> enough m2 e2 ->
  e0 <= e1 -> e0 <= e2 ->
  n1 * d2 * 2 ^ (e1 - e0) <= n2 * d1 * 2 ^ (e2 - e0) ->
  SFleb (binary_round_aux prec emax false m1 e1 l1)
        (binary_round_aux prec emax false m2 e2 l2) = true.
Proof.
  intros Hn1 Hd1 Hn2 Hd2 Hc1 Hc2 Hen1 Hen2 He1 He2 Hle.
  pose proof (rcode_m _ n1 d1 Hn1 Hd1 Hc1) as Hm1.
  pose proof (rcode_m _ n2 d2 Hn2 Hd2 Hc2) as Hm2.
  rewrite SF.shr_record_of_loc_m in Hm1, Hm2.
  assert (Hm1' : 0 <= m1) by (rewrite Hm1; apply Z.div_pos; lia).
  assert (Hm2' : 0 <= m2) by (rewrite Hm2; apply Z.div_pos; lia).
  rewrite !binary_round_aux_core.
  pose proof (core_nonneg m1 e1 l1 Hm1') as [N1 Emin1].
  pose proof (core_nonneg m2 e2 l2 Hm2') as [N2 Emin2].
  pose proof (core_normal m2 e2 l2 Hm2' Hen2) as Nrm2.
  pose proof (core_facts m1 e1 l1 Hm1') as F1.
  pose proof (core_facts m2 e2 l2 Hm2') as F2. cbv zeta in F1, F2.
  pose proof (target_ge m1 e1) as [Ht1 Ht1'].
  pose proof (target_ge m2 e2) as [Ht2 Ht2'].
  (* the exponents after the first shift *)
  assert (Hee : target m1 e1 <= target m2 e2).
  { rewrite (enough_target _ _ Hen1), (enough_target _ _ Hen2).
    destruct (Z.eq_dec m1 0) as [Hz | Hz].
    - subst m1. rewrite Hz in *. unfold enough in *. cbn [Zdigits2] in *.
      unfold SpecFloat.fexp, emin, SpecFloat.emin, prec, emax in *. lia.
    - assert (Zdigits2 m1 + e1 <= Zdigits2 m2 + e2).
      { rewrite Hm1, Hm2. apply digits_order with e0; try assumption.
        rewrite <- Hm1. lia. }
      unfold SpecFloat.fexp. lia. }
  set (e1' := target m1 e1) in *. set (e2' := target m2 e2) in *.
  set (r1 := Nat.iter (Z.to_nat (e1' - e1)) shr_1 (shr_record_of_loc m1 l1)) in *.
  set (r2 := Nat.iter (Z.to_nat (e2' - e2)) shr_1 (shr_record_of_loc m2 l2)) in *.
  set (m1'' := round_nearest_even (shr_m r1) (loc_of_shr_record r1)) in *.
  set (m2'' := round_nearest_even (shr_m r2) (loc_of_shr_record r2)) in *.
  destruct F1 as (C1 & B1 & HE1 & Hup1 & Hsame1 & _).
  destruct F2 as (C2 & B2 & HE2 & Hup2 & Hsame2 & _).
  rewrite C1, C2 in *. cbn [fst snd] in *.
  assert (Hmm : e1' = e2' -> m1'' <= m2'').
  { intros Heq. apply rne_mono.
    - apply SF.shr_iter_m. now rewrite SF.shr_record_of_loc_m.
    - unfold r1, r2.
      rewrite (rcode_iter _ _ n1 d1), (rcode_iter _ _ n2 d2);
        try assumption; try (rewrite SF.shr_record_of_loc_m; assumption).
      rewrite !Z2Nat.id by lia.
      apply rcode_mono;
        [ assumption
        | apply Z.mul_pos_pos; [lia | apply pow2_pos; lia]
        | apply Z.mul_pos_pos; [lia | apply pow2_pos; lia]
        | ].
      rewrite <- Heq.
      replace (e1' - e2) with ((e1' - e0) - (e2 - e0)) by lia.
      replace (e1' - e1) with ((e1' - e0) - (e1 - e0)) by lia.
      rewrite !Z.mul_assoc. apply pow_cross; lia. }
  apply of_core_le; cbn [fst snd]; try assumption.
  - (* exponents *)
    destruct (Z.eq_dec e1' e2') as [Heq | Hne]; [ | lia].
    specialize (Hmm Heq). rewrite <- Heq. apply target_mono. lia.
  - (* equal exponents *)
    intros HEE.
    destruct (Z.eq_dec e1' e2') as [Heq | Hne].
    + specialize (Hmm Heq).
      rewrite HEE, Heq. apply Z.div_le_mono; [apply pow2_pos; lia | assumption].
    + assert (Hup : target m1'' e1' = e1' + 1) by lia.
      rewrite (Hup1 Hup). apply Nrm2. lia.
  - (* a larger exponent has a positive mantissa *)
    intros Hlt. assert (2 ^ 52 <= m2'' / 2 ^ (target m2'' e2' - e2')) by (apply Nrm2; lia).
    lia.
Qed.

Lemma of_core_opp (s : bool) (c : Z * Z) :
  SFopp (of_core s c) = of_core (negb s) c.
Proof.
  unfold of_core. destruct (fst c); [reflexivity | | reflexivity].
  now destruct (snd c <=? emax - prec).
Qed.

Lemma binary_round_aux_opp (s : bool) (m e : Z) (l : location) :
  SFopp (binary_round_aux prec emax s m e l) =
  binary_round_aux prec emax (negb s) m e l.
Proof. rewrite !binary_round_aux_core. apply of_core_opp. Qed.

Lemma of_core_unsigned (c : Z * Z) :
  0 <= fst c -> unsigned (of_core false c) = true.
Proof.
  unfold of_core. destruct (fst c); try lia; try reflexivity.
  now destruct (snd c <=? emax - prec).
Qed.

Lemma binary_round_aux_unsigned (m e : Z) (l : location) :
  0 <= m -> unsigned (binary_round_aux prec emax false m e l) = true.
Proof.
  intros Hm. rewrite binary_round_aux_core. apply of_core_unsigned.
  now apply core_nonneg.
Qed.

Lemma zero_le_unsigned (x : spec_float) :
  unsigned x = true -> SFleb (S754_zero false) x = true.
Proof. now destruct x as [[] | [] | | [] m e]. Qed.

Lemma unsigned_le_infinity (x : spec_float) :
  unsigned x = true -> SFleb x (S754_infinity false) = true.
Proof. now destruct x as [[] | [] | | [] m e]. Qed.

Lemma SFmul_opp_l (x y : spec_float) :
  SFmul prec emax (SFopp x) y = SFopp (SFmul prec emax x y).
Proof.
  destruct x as [sx | sx | | sx mx ex], y as [sy | sy | | sy my ey];
    cbn [SFmul SFopp]; try reflexivity;
    try (now destruct sx, sy).
  rewrite binary_round_aux_opp. now destruct sx, sy.
Qed.

Lemma SFdiv_opp_l (x y : spec_float) :
  SFdiv prec emax (SFopp x) y = SFopp (SFdiv prec emax x y).
Proof.
  destruct x as [sx | sx | | sx mx ex], y as [sy | sy | | sy my ey];
    cbn [SFdiv SFopp]; try reflexivity;
    try (now destruct sx, sy).
  destruct (SFdiv_core_binary prec emax (Zpos mx) ex (Zpos my) ey) as [[q e'] l].
  rewrite binary_round_aux_opp. now destruct sx, sy.
Qed.

Lemma SFdiv_opp_r (x y : spec_float) :
  SFdiv prec emax x (SFopp y) = SFopp (SFdiv prec emax x y).
Proof.
  destruct x as [sx | sx | | sx mx ex], y as [sy | sy | | sy my ey];
    cbn [SFdiv SFopp]; try reflexivity;
    try (now destruct sx, sy).
  destruct (SFdiv_core_binary prec emax (Zpos mx) ex (Zpos my) ey) as [[q e'] l].
  rewrite binary_round_aux_opp. now destruct sx, sy.
Qed.

Lemma cond_opp_abs (x : spec_float) : x = cond_opp (sign_of x) (SFabs x).
Proof. now destruct x as [[] | [] | | [] m e]. Qed.

(** *** The order of the finite Numbers is the order of their values *)

Lemma finite_le_value (m1 : positive) (e1 : Z) (m2 : positive) (e2 e0 : Z) :
  valid_binary (S754_finite false m1 e1) = true ->
  valid_binary (S754_finite false m2 e2) = true ->
  SFleb (S754_finite false m1 e1) (S754_finite false m2 e2) = true ->
  e0 <= e1 -> e0 <= e2 ->
  Zpos m1 * 2 ^ (e1 - e0) <= Zpos m2 * 2 ^ (e2 - e0).
Proof.
  intros V1 V2 H He1 He2. unfold SFleb in H. cbn [SFcompare] in H.
  destruct (Z.compare_spec e1 e2) as [He | He | He]; try discriminate.
  - change (PosDef.Pos.compare_cont Eq m1 m2) with (Pos.compare m1 m2) in H.
    subst e2. apply Z.mul_le_mono_nonneg_r.
    + pose proof (pow2_pos (e1 - e0)); lia.
    + destruct (Pos.compare_spec m1 m2); try discriminate; lia.
  - pose proof (SF.magnitude_lt_exp _ _ _ _ _ _ V1 V2 He) as L.
    replace (e2 - e0) with ((e2 - e1) + (e1 - e0)) by lia.
    rewrite pow2_split by lia. rewrite Z.mul_assoc.
    apply Z.mul_le_mono_nonneg_r; [ | lia].
    pose proof (pow2_pos (e1 - e0)); lia.
Qed.

(** *** Products *)

Lemma Zdigits2_mul (a b : positive) :
  Zdigits2 (Zpos a) + Zdigits2 (Zpos b) - 1 <= Zdigits2 (Zpos (a * b)).
Proof.
  pose proof (Zdigits2_bounds (Zpos a) ltac:(lia)) as [A _].
  pose proof (Zdigits2_bounds (Zpos b) ltac:(lia)) as [B _].
  pose proof (Zdigits2_nonneg (Zpos a)). pose proof (Zdigits2_nonneg (Zpos b)).
  assert (Ha : 1 <= Zdigits2 (Zpos a)) by (cbn [Zdigits2]; lia).
  assert (Hb : 1 <= Zdigits2 (Zpos b)) by (cbn [Zdigits2]; lia).
  assert (H1 : 2 ^ (Zdigits2 (Zpos a) - 1 + (Zdigits2 (Zpos b) - 1)) <= Zpos (a * b)).
  { rewrite pow2_split by lia. rewrite Pos2Z.inj_mul.
    apply Z.mul_le_mono_nonneg; try assumption;
      apply Z.lt_le_incl, pow2_pos; lia. }
  apply Zdigits2_gt in H1; lia.
Qed.

Lemma mul_enough (sa : bool) (ma : positive) (ea : Z) (sy : bool) (my : positive) (ey : Z) :
  valid_binary (S754_finite sa ma ea) = true ->
  valid_binary (S754_finite sy my ey) = true ->
  enough (Zpos (ma * my)) (ea + ey).
Proof.
  intros Va Vy.
  apply SF.valid_finite_inv in Va, Vy.
  destruct Va as (Ea & Da & Na), Vy as (Ey & Dy & Ny).
  pose proof (Zdigits2_mul ma my) as D. cbn [Zdigits2] in D.
  pose proof (Pos2Z.is_pos (digits2_pos ma)).
  pose proof (Pos2Z.is_pos (digits2_pos my)).
  unfold enough, SpecFloat.fexp. cbn [Zdigits2].
  unfold emin, SpecFloat.emin, prec, emax in *. lia.
Qed.

Lemma SFmul_le (a y1 y2 : spec_float) :
  valid_binary a = true -> valid_binary y1 = true -> valid_binary y2 = true ->
  unsigned a = true -> a <> S754_nan -> ule y1 y2 ->
  ule (SFmul prec emax a y1) (SFmul prec emax a y2).
Proof.
  intros Va V1 V2 Ua Na [-> | [-> | (U1 & U2 & H)]].
  - left. now destruct a.
  - right; left. now destruct a.
  - destruct a as [[] | [] | | [] ma ea]; try discriminate; try congruence;
      destruct y1 as [[] | [] | | [] m1 e1]; try discriminate;
      destruct y2 as [[] | [] | | [] m2 e2]; try discriminate;
      cbn [SFmul xorb];
      try (now left); try (now right; left);
      try (right; right; repeat split; reflexivity).
    + (* a * 0 <= a * y *)
      right; right. repeat split.
      * apply binary_round_aux_unsigned. lia.
      * apply zero_le_unsigned, binary_round_aux_unsigned. lia.
    + (* a * y <= a * infinity *)
      right; right. repeat split.
      * apply binary_round_aux_unsigned. lia.
      * apply unsigned_le_infinity, binary_round_aux_unsigned. lia.
    + right; right. repeat split; try (apply binary_round_aux_unsigned; lia).
      apply round_le with (n1 := Zpos (ma * m1)) (d1 := 1)
                          (n2 := Zpos (ma * m2)) (d2 := 1)
                          (e0 := ea + Z.min e1 e2);
        try lia; try apply rcode_exact; try (eapply mul_enough; eassumption).
      rewrite !Z.mul_1_r, !Pos2Z.inj_mul, <- !Z.mul_assoc.
      apply Z.mul_le_mono_nonneg_l; [lia | ].
      replace (ea + e1 - (ea + Z.min e1 e2)) with (e1 - Z.min e1 e2) by lia.
      replace (ea + e2 - (ea + Z.min e1 e2)) with (e2 - Z.min e1 e2) by lia.
      apply finite_le_value; try assumption; lia.
Qed.

(** *** Quotients *)

(** The division of the mantissas: the quotient of [mx * 2^s] by [my] with
    its position, and enough digits. *)
Lemma div_core_spec (mx : positive) (ex : Z) (my : positive) (ey : Z) :
  exists q e' l s,
    SFdiv_core_binary prec emax (Zpos mx) ex (Zpos my) ey = (q, e', l) /\
    0 <= s /\ e' + s = ex - ey /\
    code (shr_record_of_loc q l) = rcode (Zpos mx * 2 ^ s) (Zpos my) /\
    0 <= q /\ enough q e'.
Proof.
  unfold SFdiv_core_binary.
  set (d1 := Zdigits2 (Zpos mx)). set (d2 := Zdigits2 (Zpos my)).
  set (e' := Z.min (SpecFloat.fexp prec emax (d1 + ex - (d2 + ey))) (ex - ey)).
  set (s := ex - ey - e').
  assert (Hs : 0 <= s) by (unfold s, e'; lia).
  set (m' := match s with 0 => Zpos mx | Zpos _ => Z.shiftl (Zpos mx) s | Zneg _ => 0 end).
  assert (Hm' : m' = Zpos mx * 2 ^ s).
  { unfold m'. destruct s as [ | p | p] eqn:E; try lia.
    apply Z.shiftl_mul_pow2. lia. }
  assert (Hm'0 : 0 < m').
  { rewrite Hm'. apply Z.mul_pos_pos; [lia | now apply pow2_pos]. }
  pose proof (rcode_div_eucl m' (Zpos my) ltac:(lia) ltac:(lia)) as Hc.
  pose proof (Z.div_pos m' (Zpos my) ltac:(lia) ltac:(lia)) as Hq0.
  assert (Hq : e' <= emin \/ 2 ^ 52 <= m' / Zpos my).
  { destruct (Z_le_gt_dec e' emin) as [ | Hgt]; [now left | right].
    pose proof (Zdigits2_bounds (Zpos mx) ltac:(lia)) as [B1 _].
    pose proof (Zdigits2_bounds (Zpos my) ltac:(lia)) as [_ B2].
    fold d1 in B1. fold d2 in B2.
    assert (D1 : 1 <= d1) by (unfold d1; cbn [Zdigits2]; lia).
    assert (D2 : 1 <= d2) by (unfold d2; cbn [Zdigits2]; lia).
    assert (Hs' : 53 + d2 - d1 <= s).
    { unfold s, e', SpecFloat.fexp in *.
      unfold emin, SpecFloat.emin, prec, emax in *. lia. }
    apply Z.div_le_lower_bound; [lia | ]. rewrite Hm'.
    apply Z.le_trans with (2 ^ (d1 - 1) * 2 ^ s).
    - rewrite <- pow2_split by lia.
      apply Z.le_trans with (2 ^ d2 * 2 ^ 52).
      + apply Z.mul_le_mono_nonneg_r; lia.
      + rewrite <- pow2_split by lia. apply pow2_le. lia.
    - apply Z.mul_le_mono_nonneg_r; [ | assumption].
      apply Z.lt_le_incl, pow2_pos. lia. }
  unfold Z.div, Z.modulo in Hc, Hq0, Hq.
  destruct (Z.div_eucl m' (Zpos my)) as [q r].
  exists q, e', (new_location (Zpos my) r), s.
  split; [reflexivity | ]. split; [assumption | ]. split; [unfold s; lia | ].
  split; [now rewrite <- Hm' | ]. split; [assumption | ].
  unfold enough, SpecFloat.fexp. destruct Hq as [Hq | Hq].
  - lia.
  - apply Zdigits2_gt in Hq; [ | lia]. unfold prec. lia.
Qed.

Lemma SFdiv_finite (sx : bool) (mx : positive) (ex : Z) (sy : bool) (my : positive) (ey : Z) :
  exists q e' l s,
    SFdiv prec emax (S754_finite sx mx ex) (S754_finite sy my ey) =
      binary_round_aux prec emax (xorb sx sy) q e' l /\
    0 <= s /\ e' + s = ex - ey /\
    code (shr_record_of_loc q l) = rcode (Zpos mx * 2 ^ s) (Zpos my) /\
    0 <= q /\ enough q e'.
Proof.
  destruct (div_core_spec mx ex my ey) as (q & e' & l & s & E & H).
  exists q, e', l, s. split; [ | exact H]. cbn [SFdiv]. now rewrite E.
Qed.

Lemma SFdiv_unsigned (mx : positive) (ex : Z) (my : positive) (ey : Z) :
  unsigned (SFdiv prec emax (S754_finite false mx ex) (S754_finite false my ey)) = true.
Proof.
  destruct (SFdiv_finite false mx ex false my ey) as (q & e' & l & s & -> & _ & _ & _ & Hq & _).
  now apply binary_round_aux_unsigned.
Qed.

(** A quotient grows with its dividend. *)
Lemma SFdiv_le_l (x1 x2 c : spec_float) :
  valid_binary x1 = true -> valid_binary x2 = true ->
  unsigned c = true -> ule x1 x2 ->
  ule (SFdiv prec emax x1 c) (SFdiv prec emax x2 c).
Proof.
  intros V1 V2 Uc [-> | [-> | (U1 & U2 & H)]].
  - now left.
  - right; left. now destruct x1.
  - destruct c as [[] | [] | | [] mc ec]; try discriminate;
      destruct x1 as [[] | [] | | [] m1 e1]; try discriminate;
      destruct x2 as [[] | [] | | [] m2 e2]; try discriminate;
      try (now left); try (now right; left);
      try (right; right; repeat split; reflexivity).
    + right; right. repeat split; try apply SFdiv_unsigned.
      apply zero_le_unsigned, SFdiv_unsigned.
    + right; right. repeat split; try apply SFdiv_unsigned.
      apply unsigned_le_infinity, SFdiv_unsigned.
    + right; right. repeat split; try apply SFdiv_unsigned.
      destruct (SFdiv_finite false m1 e1 false mc ec)
        as (q1 & e1' & l1 & s1 & -> & Hs1 & He1 & Hc1 & Hq1 & Hen1).
      destruct (SFdiv_finite false m2 e2 false mc ec)
        as (q2 & e2' & l2 & s2 & -> & Hs2 & He2 & Hc2 & Hq2 & Hen2).
      cbn [xorb].
      pose proof (pow2_pos s1 Hs1). pose proof (pow2_pos s2 Hs2).
      apply round_le with (n1 := Zpos m1 * 2 ^ s1) (d1 := Zpos mc)
                          (n2 := Zpos m2 * 2 ^ s2) (d2 := Zpos mc)
                          (e0 := Z.min e1' e2');
        try assumption; try lia.
      pose proof (finite_le_value m1 e1 m2 e2 (ec + Z.min e1' e2') V1 V2 H
                    ltac:(lia) ltac:(lia)) as L.
      replace (e1 - (ec + Z.min e1' e2')) with (s1 + (e1' - Z.min e1' e2')) in L by lia.
      replace (e2 - (ec + Z.min e1' e2')) with (s2 + (e2' - Z.min e1' e2')) in L by lia.
      rewrite !pow2_split in L by lia.
      set (A := 2 ^ (e1' - Z.min e1' e2')) in *.
      set (B := 2 ^ (e2' - Z.min e1' e2')) in *.
      replace (Zpos m1 * 2 ^ s1 * Zpos mc * A)
        with (Zpos m1 * (2 ^ s1 * A) * Zpos mc) by ring.
      replace (Zpos m2 * 2 ^ s2 * Zpos mc * B)
        with (Zpos m2 * (2 ^ s2 * B) * Zpos mc) by ring.
      apply Z.mul_le_mono_nonneg_r; lia.
Qed.

(** A quotient shrinks as its divisor grows. *)
Lemma SFdiv_le_r (r z1 z2 : spec_float) :
  valid_binary z1 = true -> valid_binary z2 = true ->
  unsigned r = true -> ule z1 z2 ->
  ule (SFdiv prec emax r z2) (SFdiv prec emax r z1).
Proof.
  intros V1 V2 Ur [-> | [-> | (U1 & U2 & H)]].
  - right; left. now destruct r.
  - left. now destruct r.
  - destruct r as [[] | [] | | [] mr er]; try discriminate;
      destruct z1 as [[] | [] | | [] m1 e1]; try discriminate;
      destruct z2 as [[] | [] | | [] m2 e2]; try discriminate;
      try (now left); try (now right; left);
      try (right; right; repeat split; reflexivity).
    + right; right. repeat split; try apply SFdiv_unsigned.
      apply unsigned_le_infinity, SFdiv_unsigned.
    + right; right. repeat split; try apply SFdiv_unsigned.
      apply zero_le_unsigned, SFdiv_unsigned.
    + right; right. repeat split; try apply SFdiv_unsigned.
      destruct (SFdiv_finite false mr er false m1 e1)
        as (q1 & e1' & l1 & s1 & -> & Hs1 & He1 & Hc1 & Hq1 & Hen1).
      destruct (SFdiv_finite false mr er false m2 e2)
        as (q2 & e2' & l2 & s2 & -> & Hs2 & He2 & Hc2 & Hq2 & Hen2).
      cbn [xorb].
      pose proof (pow2_pos s1 Hs1). pose proof (pow2_pos s2 Hs2).
      apply round_le with (n1 := Zpos mr * 2 ^ s2) (d1 := Zpos m2)
                          (n2 := Zpos mr * 2 ^ s1) (d2 := Zpos m1)
                          (e0 := Z.min e1' e2');
        try assumption; try lia.
      pose proof (finite_le_value m1 e1 m2 e2 (Z.min e1 e2) V1 V2 H
                    ltac:(lia) ltac:(lia)) as L.
      apply (pow_cross _ _ _ _ (er - Z.min e1' e2' - Z.min e1 e2)) in L; [ | lia | lia].
      replace (er - Z.min e1' e2' - Z.min e1 e2 - (e2 - Z.min e1 e2))
        with (s2 + (e2' - Z.min e1' e2')) in L by lia.
      replace (er - Z.min e1' e2' - Z.min e1 e2 - (e1 - Z.min e1 e2))
        with (s1 + (e1' - Z.min e1' e2')) in L by lia.
      rewrite !pow2_split in L by lia.
      set (A := 2 ^ (e1' - Z.min e1' e2')) in *.
      set (B := 2 ^ (e2' - Z.min e1' e2')) in *.
      replace (Zpos mr * 2 ^ s2 * Zpos m1 * B)
        with (Zpos mr * (Zpos m1 * (2 ^ s2 * B))) by ring.
      replace (Zpos mr * 2 ^ s1 * Zpos m2 * A)
        with (Zpos mr * (Zpos m2 * (2 ^ s1 * A))) by ring.
      apply Z.mul_le_mono_nonneg_l; lia.
Qed.

(** *** Math.round *)

Lemma finite_lt_pow (s : bool) (m : positive) (e : Z) :
  valid_binary (S754_finite s m e) = true -> Zpos m < 2 ^ 53.
Proof.
  intros V. apply SF.valid_finite_inv in V. destruct V as (_ & Vd & _).
  pose proof (SF.digits2_pos_bounds m) as [_ Bm].
  apply Z.lt_le_trans with (2 ^ Zpos (digits2_pos m)); [assumption | ].
  apply Z.pow_le_mono_r; unfold prec in Vd; lia.
Qed.

Lemma half_up_bounds (s : bool) (m : positive) (k : Z) :
  1 <= k -> Zpos m < 2 ^ 53 ->
  - 2 ^ 53 < (2 * cond_Zopp s (Zpos m) + 2 ^ k) / 2 ^ (k + 1) <= 2 ^ 52 /\
  (s = false -> 0 <= (2 * cond_Zopp s (Zpos m) + 2 ^ k) / 2 ^ (k + 1)) /\
  (s = true -> (2 * cond_Zopp s (Zpos m) + 2 ^ k) / 2 ^ (k + 1) <= 0).
Proof.
  intros Hk Hm.
  assert (H2k : 2 <= 2 ^ k).
  { change 2 with (2 ^ 1) at 1. apply Z.pow_le_mono_r; lia. }
  rewrite Z.pow_add_r, Z.pow_1_r by lia. repeat split.
  - apply Z.lt_le_trans with (- Zpos m); [lia | ].
    apply Z.div_le_lower_bound; [lia | ]. destruct s; cbn [cond_Zopp]; nia.
  - assert ((2 * cond_Zopp s (Zpos m) + 2 ^ k) / (2 ^ k * 2) < 2 ^ 52 + 1); [ | lia].
    apply Z.div_lt_upper_bound; [lia | ]. destruct s; cbn [cond_Zopp]; nia.
  - intros ->. cbn [cond_Zopp]. apply Z.div_pos; lia.
  - intros ->. cbn [cond_Zopp].
    assert ((2 * - Zpos m + 2 ^ k) / (2 ^ k * 2) < 1); [ | lia].
    apply Z.div_lt_upper_bound; lia.
Qed.

Lemma round_spec (x : float) : Prim2SF (IEEE.round x) = SFround (Prim2SF x).
Proof.
  unfold IEEE.round. pose proof (Prim2SF_valid x) as V.
  destruct (Prim2SF x) as [s | s | | s m e] eqn:E; try exact E.
  cbn [SFround]. destruct (0 <=? e) eqn:He; [exact E | ].
  apply Z.leb_gt in He. pose proof (finite_lt_pow s m e V) as Hm.
  replace (1 - e) with (- e + 1) by lia.
  rewrite Z.shiftr_div_pow2 by lia.
  destruct (half_up_bounds s m (- e) ltac:(lia) Hm) as (B & _).
  assert (Hof : forall p, Zpos p < 2 ^ 53 ->
            Prim2SF (of_uint63 (Uint63.of_Z (Zpos p))) = binary_round prec emax false p 0).
  { intros p Hp. rewrite of_uint63_spec, Uint63.of_Z_spec, Z.mod_small.
    - reflexivity.
    - split; [lia | ]. apply Z.lt_trans with (2 ^ 53); [assumption | reflexivity]. }
  destruct ((2 * cond_Zopp s (Zpos m) + 2 ^ (- e)) / 2 ^ (- e + 1)) as [ | p | p].
  - now destruct s.
  - apply Hof. lia.
  - rewrite opp_spec. f_equal. apply Hof. lia.
Qed.

(** *** Conversion of an integer *)

Lemma Zdigits2_shift (p : positive) (k : Z) :
  0 <= k -> Zdigits2 (Zpos p * 2 ^ k) = Zdigits2 (Zpos p) + k.
Proof.
  intros Hk. pose proof (pow2_pos k Hk) as P.
  pose proof (Zdigits2_bounds (Zpos p) ltac:(lia)) as [B1 B2].
  assert (D : 1 <= Zdigits2 (Zpos p)) by (cbn [Zdigits2]; lia).
  apply Z.le_antisymm.
  - apply Zdigits2_le; try lia. rewrite pow2_split by lia.
    apply Z.mul_lt_mono_pos_r; assumption.
  - assert (H : 2 ^ (Zdigits2 (Zpos p) - 1 + k) <= Zpos p * 2 ^ k).
    { rewrite pow2_split by lia. apply Z.mul_le_mono_nonneg_r; lia. }
    apply Zdigits2_gt in H; lia.
Qed.

(** [binary_round] is a rounding of the mantissa aligned to enough digits. *)
Lemma binary_round_aligned (s : bool) (p : positive) (e : Z) :
  exists mz ez,
    binary_round prec emax s p e =
      binary_round_aux prec emax s (Zpos mz) ez loc_Exact /\
    ez <= e /\ Zpos mz = Zpos p * 2 ^ (e - ez) /\ enough (Zpos mz) ez.
Proof.
  unfold binary_round.
  set (e' := SpecFloat.fexp prec emax (Zpos (digits2_pos p) + e)).
  pose proof (SF.shl_align_fst p e (Z.min e e') ltac:(lia)) as Hf.
  assert (Hs : shl_align p e e' = shl_align p e (Z.min e e')).
  { unfold shl_align. destruct (Z.min_spec e e') as [[Hlt ->] | [Hge ->]].
    - rewrite Z.sub_diag. destruct (e' - e) eqn:Hd; try reflexivity; lia.
    - reflexivity. }
  assert (Hsnd : snd (shl_align p e (Z.min e e')) = Z.min e e').
  { unfold shl_align. destruct (Z.min e e' - e) eqn:Hd; cbn [snd]; lia. }
  rewrite Hs. destruct (shl_align p e (Z.min e e')) as [mz ez].
  cbn [fst snd] in *. subst ez.
  exists mz, (Z.min e e'). split; [reflexivity | ]. split; [lia | ].
  split; [assumption | ].
  unfold enough. rewrite Hf, Zdigits2_shift by lia. cbn [Zdigits2].
  replace (Zpos (digits2_pos p) + (e - Z.min e e') + Z.min e e')
    with (Zpos (digits2_pos p) + e) by lia.
  fold e'. lia.
Qed.

Lemma binary_round_unsigned (p : positive) (e : Z) :
  unsigned (binary_round prec emax false p e) = true.
Proof.
  destruct (binary_round_aligned false p e) as (mz & ez & -> & _).
  apply binary_round_aux_unsigned. lia.
Qed.

Lemma binary_round_le (p1 p2 : positive) :
  (p1 <= p2)%positive ->
  SFleb (binary_round prec emax false p1 0) (binary_round prec emax false p2 0) = true.
Proof.
  intros H.
  destruct (binary_round_aligned false p1 0) as (m1 & e1 & -> & He1 & Hm1 & Hen1).
  destruct (binary_round_aligned false p2 0) as (m2 & e2 & -> & He2 & Hm2 & Hen2).
  apply round_le with (n1 := Zpos m1) (d1 := 1) (n2 := Zpos m2) (d2 := 1)
                      (e0 := Z.min e1 e2);
    try lia; try apply rcode_exact; try assumption.
  rewrite !Z.mul_1_r, Hm1, Hm2, <- !Z.mul_assoc, <- !pow2_split by lia.
  replace (0 - e1 + (e1 - Z.min e1 e2)) with (- Z.min e1 e2) by lia.
  replace (0 - e2 + (e2 - Z.min e1 e2)) with (- Z.min e1 e2) by lia.
  apply Z.mul_le_mono_nonneg_r; [ | lia].
  apply Z.lt_le_incl, pow2_pos. lia.
Qed.

(** A Number of the format rounds to itself. *)
Lemma binary_round_aux_canonical (s : bool) (m : positive) (e : Z) :
  valid_binary (S754_finite s m e) = true ->
  binary_round_aux prec emax s (Zpos m) e loc_Exact = S754_finite s m e.
Proof.
  intros V. cbn [SpecFloat.valid_binary] in V. unfold bounded, canonical_mantissa in V.
  apply andb_true_iff in V. destruct V as [C B].
  apply Z.eqb_eq in C. apply Z.leb_le in B.
  rewrite binary_round_aux_core.
  pose proof (core_facts (Zpos m) e loc_Exact ltac:(lia)) as F. cbv zeta in F.
  assert (Ht : target (Zpos m) e = e).
  { unfold target. cbn [Zdigits2]. rewrite C. lia. }
  rewrite Ht, Z.sub_diag in F. change (Z.to_nat 0) with O in F.
  change (Nat.iter 0 shr_1 (shr_record_of_loc (Zpos m) loc_Exact))
    with (shr_record_of_loc (Zpos m) loc_Exact) in F.
  cbn [shr_record_of_loc shr_m loc_of_shr_record round_nearest_even] in F.
  rewrite Ht, Z.sub_diag, Z.div_1_r in F. destruct F as (-> & _).
  unfold of_core. cbn [fst snd].
  apply Z.leb_le in B. now rewrite B.
Qed.

(** Math.round of an unsigned Number is unsigned. *)
Lemma SFround_unsigned (x : spec_float) :
  valid_binary x = true -> unsigned x = true -> unsigned (SFround x) = true.
Proof.
  intros V U. destruct x as [[] | [] | | [] m e]; try discriminate; try reflexivity.
  cbn [SFround]. destruct (0 <=? e) eqn:He; [reflexivity | ].
  apply Z.leb_gt in He. pose proof (finite_lt_pow _ _ _ V) as Hm.
  replace (1 - e) with (- e + 1) by lia. rewrite Z.shiftr_div_pow2 by lia.
  destruct (half_up_bounds false m (- e) ltac:(lia) Hm) as (_ & B & _).
  specialize (B eq_refl).
  destruct ((2 * cond_Zopp false (Zpos m) + 2 ^ (- e)) / 2 ^ (- e + 1)) as [ | p | p];
    try lia; [reflexivity | apply binary_round_unsigned].
Qed.

Lemma half_up_scale (m : positive) (e e0 : Z) :
  e < 0 -> e0 <= e ->
  half_up m e = (2 * (Zpos m * 2 ^ (e - e0)) + 2 ^ (- e0)) / 2 ^ (- e0 + 1).
Proof.
  intros He He0. unfold half_up.
  pose proof (pow2_pos (e - e0) ltac:(lia)) as P.
  replace (- e0) with (- e + (e - e0)) by lia.
  replace (- e + (e - e0) + 1) with (- e + 1 + (e - e0)) by lia.
  rewrite !pow2_split by lia.
  replace (2 * (Zpos m * 2 ^ (e - e0)) + 2 ^ (- e) * 2 ^ (e - e0))
    with ((2 * Zpos m + 2 ^ (- e)) * 2 ^ (e - e0)) by ring.
  rewrite Z.div_mul_cancel_r; lia.
Qed.

Lemma half_up_mono (m1 : positive) (e1 : Z) (m2 : positive) (e2 : Z) :
  valid_binary (S754_finite false m1 e1) = true ->
  valid_binary (S754_finite false m2 e2) = true ->
  SFleb (S754_finite false m1 e1) (S754_finite false m2 e2) = true ->
  e1 < 0 -> e2 < 0 -> half_up m1 e1 <= half_up m2 e2.
Proof.
  intros V1 V2 H He1 He2.
  pose proof (finite_le_value m1 e1 m2 e2 (Z.min e1 e2) V1 V2 H ltac:(lia) ltac:(lia)) as L.
  rewrite (half_up_scale m1 e1 (Z.min e1 e2)), (half_up_scale m2 e2 (Z.min e1 e2)) by lia.
  apply Z.div_le_mono; [apply pow2_pos; lia | lia].
Qed.

(** Math.round is monotone on the unsigned Numbers. *)
Lemma SFround_le (x1 x2 : spec_float) :
  valid_binary x1 = true -> valid_binary x2 = true ->
  ule x1 x2 -> ule (SFround x1) (SFround x2).
Proof.
  intros V1 V2 [-> | [-> | (U1 & U2 & H)]]; [now left | now right; left | ].
  right; right. repeat split; try (now apply SFround_unsigned).
  destruct x1 as [[] | [] | | [] m1 e1]; try discriminate;
    destruct x2 as [[] | [] | | [] m2 e2]; try discriminate;
    try reflexivity.
  - apply zero_le_unsigned. now apply SFround_unsigned.
  - apply unsigned_le_infinity. now apply SFround_unsigned.
  - cbn [SFround].
    assert (Hee : e1 <= e2).
    { unfold SFleb in H. cbn [SFcompare] in H.
      destruct (Z.compare_spec e1 e2); try discriminate; lia. }
    pose proof (finite_lt_pow _ _ _ V1) as Hm1.
    pose proof (finite_lt_pow _ _ _ V2) as Hm2.
    destruct (Z.leb_spec 0 e1) as [He1 | He1], (Z.leb_spec 0 e2) as [He2 | He2];
      try lia; try exact H.
    + (* x1 below 2^52, x2 an integer of at least 2^52 *)
      replace (1 - e1) with (- e1 + 1) by lia. rewrite Z.shiftr_div_pow2 by lia.
      destruct (half_up_bounds false m1 (- e1) ltac:(lia) Hm1) as ([_ Bu] & B & _).
      specialize (B eq_refl).
      destruct ((2 * cond_Zopp false (Zpos m1) + 2 ^ (- e1)) / 2 ^ (- e1 + 1))
        as [ | p | p]; try lia; [reflexivity | ].
      rewrite <- (binary_round_aux_canonical false m2 e2 V2).
      destruct (binary_round_aligned false p 0) as (mz & ez & -> & Hez & Hmz & Henz).
      apply SF.valid_finite_inv in V2. destruct V2 as (_ & _ & N2).
      specialize (N2 ltac:(unfold emin, SpecFloat.emin, prec, emax; lia)).
      pose proof (SF.digits2_pos_bounds m2) as [B2 _]. rewrite N2 in B2.
      apply round_le with (n1 := Zpos mz) (d1 := 1) (n2 := Zpos m2) (d2 := 1)
                          (e0 := ez);
        try lia; try apply rcode_exact; try assumption.
      * unfold enough. cbn [Zdigits2]. rewrite N2.
        unfold SpecFloat.fexp, prec. lia.
      * rewrite !Z.mul_1_r, Z.sub_diag, Z.pow_0_r, Z.mul_1_r, Hmz.
        replace (e2 - ez) with (e2 + (0 - ez)) by lia.
        rewrite pow2_split by lia. rewrite Z.mul_assoc.
        apply Z.mul_le_mono_nonneg_r; [apply Z.lt_le_incl, pow2_pos; lia | ].
        pose proof (pow2_pos e2 He2). change (2 ^ (prec - 1)) with (2 ^ 52) in B2. nia.
    + (* both below 2^52 *)
      pose proof (half_up_mono m1 e1 m2 e2 V1 V2 H He1 He2) as Hmono.
      unfold half_up in Hmono.
      replace (1 - e1) with (- e1 + 1) by lia.
      replace (1 - e2) with (- e2 + 1) by lia.
      rewrite !Z.shiftr_div_pow2 by lia. cbn [cond_Zopp].
      destruct (half_up_bounds false m1 (- e1) ltac:(lia) Hm1) as (_ & B1 & _).
      destruct (half_up_bounds false m2 (- e2) ltac:(lia) Hm2) as (_ & B2 & _).
      specialize (B1 eq_refl). specialize (B2 eq_refl). cbn [cond_Zopp] in B1, B2.
      destruct ((2 * Zpos m1 + 2 ^ (- e1)) / 2 ^ (- e1 + 1)) as [ | p1 | p1];
        destruct ((2 * Zpos m2 + 2 ^ (- e2)) / 2 ^ (- e2 + 1)) as [ | p2 | p2];
        try lia.
      * reflexivity.
      * apply zero_le_unsigned, binary_round_unsigned.
      * apply binary_round_le. lia.
Qed.

(** Math.round of a Number with the sign bit set is at most zero. *)
Lemma SFround_signed (x : spec_float) :
  valid_binary x = true -> unsigned x = true ->
  SFleb (SFround (SFopp x)) (S754_zero false) = true.
Proof.
  intros V U. destruct x as [[] | [] | | [] m e]; try discriminate; try reflexivity.
  cbn [SFopp negb SFround]. destruct (0 <=? e) eqn:He; [reflexivity | ].
  apply Z.leb_gt in He. pose proof (finite_lt_pow _ _ _ V) as Hm.
  replace (1 - e) with (- e + 1) by lia. rewrite Z.shiftr_div_pow2 by lia.
  destruct (half_up_bounds true m (- e) ltac:(lia) Hm) as (_ & _ & B).
  specialize (B eq_refl).
  destruct ((2 * cond_Zopp true (Zpos m) + 2 ^ (- e)) / 2 ^ (- e + 1)) as [ | p | p];
    try lia; [reflexivity | ].
  pose proof (binary_round_unsigned p 0) as Hu.
  now destruct (binary_round prec emax false p 0) as [[] | [] | | [] m' e'].
Qed.
End Mono.

(** The order of the primitive Numbers through the rounding, the clamp and
    the ladder of the leverage recommendation. *)

Module Antitone.
Import IEEE Round Mono.
Local Open Scope float_scope.

Lemma is_nan_true (x : float) : is_nan x = true <-> Prim2SF x = S754_nan.
Proof.
  pose proof (F64.is_nan_false x) as [H1 H2]. split.
  - intros E. destruct (Prim2SF x) eqn:P; try reflexivity;
      rewrite H2 in E by discriminate; discriminate E.
  - intros E. destruct (is_nan x); [reflexivity | ].
    exfalso. now apply H1.
Qed.

Lemma leb_not_nan (x y : float) :
  (x <=? y) = true -> is_nan x = false /\ is_nan y = false.
Proof.
  rewrite leb_spec, !F64.is_nan_false. unfold SFleb.
  destruct (Prim2SF x), (Prim2SF y); cbn [SFcompare]; try discriminate;
    split; discriminate.
Qed.

Lemma fle_not_lt (x y : float) : fle y x -> (x <? y) = false.
Proof.
  rewrite ltb_spec. intros [H | [H | H]].
  - apply is_nan_true in H. rewrite H. unfold SFltb. now destruct (Prim2SF x).
  - apply is_nan_true in H. rewrite H. reflexivity.
  - rewrite leb_spec in H. unfold SFleb, SFltb in *.
    destruct (Prim2SF x) as [[] | [] | | [] mx ex], (Prim2SF y) as [[] | [] | | [] my ey];
      cbn [SFcompare] in *; try discriminate; try reflexivity; SF.cmp_cases.
Qed.

Lemma min_nan_l (a c : float) : is_nan a = true -> is_nan (IEEE.min a c) = true.
Proof. intros H. unfold IEEE.min. now rewrite H. Qed.

Lemma min_nan_r (a c : float) : is_nan c = true -> is_nan (IEEE.min a c) = true.
Proof. intros H. unfold IEEE.min. now rewrite H, orb_true_r. Qed.

Lemma max_nan_r (c a : float) : is_nan a = true -> is_nan (IEEE.max c a) = true.
Proof. intros H. unfold IEEE.max. now rewrite H, orb_true_r. Qed.

Lemma min_not_nan (a c : float) :
  is_nan a = false -> is_nan c = false -> is_nan (IEEE.min a c) = false.
Proof.
  intros Ha Hc. destruct (F64.min_cases a c Ha Hc) as [[-> _] | [-> _]]; assumption.
Qed.

(** Math.min is monotone. *)
Lemma min_fle (a b c d : float) :
  fle a b -> (c <=? d) = true -> fle (IEEE.min a c) (IEEE.min b d).
Proof.
  intros H Hcd. destruct (leb_not_nan _ _ Hcd) as [Nc Nd].
  destruct H as [H | [H | H]].
  - left. now apply min_nan_l.
  - right; left. now apply min_nan_l.
  - destruct (leb_not_nan _ _ H) as [Na Nb]. right; right.
    destruct (F64.min_cases a c Na Nc) as [[-> H1] | [-> H1]],
             (F64.min_cases b d Nb Nd) as [[-> H2] | [-> H2]].
    + assumption.
    + eapply F64.leb_trans; [exact H1 | exact Hcd].
    + eapply F64.leb_trans; [exact H1 | exact H].
    + assumption.
Qed.

Lemma min_fle_l (a b c : float) :
  fle a b -> is_nan c = false -> fle (IEEE.min a c) b.
Proof.
  intros H Nc. destruct H as [H | [H | H]].
  - left. now apply min_nan_l.
  - right; left. assumption.
  - destruct (leb_not_nan _ _ H) as [Na Nb]. right; right.
    destruct (F64.min_cases a c Na Nc) as [[-> H1] | [-> H1]].
    + assumption.
    + eapply F64.leb_trans; [exact H1 | exact H].
Qed.

(** Math.max is monotone. *)
Lemma max_fle (c a b : float) :
  is_nan c = false -> fle a b -> fle (IEEE.max c a) (IEEE.max c b).
Proof.
  intros Nc H. destruct H as [H | [H | H]].
  - left. now apply max_nan_r.
  - right; left. now apply max_nan_r.
  - destruct (leb_not_nan _ _ H) as [Na Nb]. right; right.
    destruct (F64.max_cases c a Nc Na) as [[-> H1] | [-> H1]],
             (F64.max_cases c b Nc Nb) as [[-> H2] | [-> H2]].
    + now apply F64.leb_refl.
    + assumption.
    + eapply F64.leb_trans; [exact H | exact H2].
    + assumption.
Qed.

(** The ladder is antitone in the move and monotone in the leverage. *)
Lemma safetyLadder_fle (rpm1 rpm2 t1 t2 : float) :
  (rpm1 <=? rpm2) = true -> fle t2 t1 ->
  fle (safetyLadder rpm2 t2) (safetyLadder rpm1 t1).
Proof.
  intros Hr Ht. unfold safetyLadder. cbn [le lt Math_min ieee].
  assert (Up : forall c : float, (c <=? rpm1) = true -> (c <=? rpm2) = true).
  { intros c Hc. eapply F64.leb_trans; eassumption. }
  destruct (int 10 <=? rpm1)%float eqn:A1;
    [rewrite (Up _ A1); apply min_fle; [assumption | reflexivity] | ].
  destruct (int 5 <=? rpm1)%float eqn:A2.
  { rewrite (Up _ A2).
    destruct (int 10 <=? rpm2)%float; apply min_fle; try assumption; reflexivity. }
  destruct (int 3 <=? rpm1)%float eqn:A3.
  { rewrite (Up _ A3).
    destruct (int 10 <=? rpm2)%float; [apply min_fle; [assumption | reflexivity] | ].
    destruct (int 5 <=? rpm2)%float; apply min_fle; try assumption; reflexivity. }
  destruct (int 2 <=? rpm1)%float eqn:A4.
  { rewrite (Up _ A4).
    destruct (int 10 <=? rpm2)%float; [apply min_fle; [assumption | reflexivity] | ].
    destruct (int 5 <=? rpm2)%float; [apply min_fle; [assumption | reflexivity] | ].
    destruct (int 3 <=? rpm2)%float; apply min_fle; try assumption; reflexivity. }
  destruct (int 10 <=? rpm2)%float; [apply min_fle_l; [assumption | reflexivity] | ].
  destruct (int 5 <=? rpm2)%float; [apply min_fle_l; [assumption | reflexivity] | ].
  destruct (int 3 <=? rpm2)%float; [apply min_fle_l; [assumption | reflexivity] | ].
  destruct (int 2 <=? rpm2)%float; [apply min_fle_l; [assumption | reflexivity] | ].
  assumption.
Qed.

Lemma safetyLadder_nan (rpm t : float) :
  is_nan t = true -> is_nan (safetyLadder rpm t) = true.
Proof.
  intros H. unfold safetyLadder. cbn [le lt Math_min ieee].
  repeat match goal with
         | |- context [if ?c then _ else _] => destruct c
         end; try (now apply min_nan_l); assumption.
Qed.

Lemma safetyLadder_one (rpm : float) : safetyLadder rpm (int 1) = int 1.
Proof.
  unfold safetyLadder. cbn [le lt Math_min ieee].
  repeat match goal with
         | |- context [if ?c then _ else _] => destruct c
         end; reflexivity.
Qed.

(** A value that is at most zero is clamped to one. *)
Lemma clamp_low (v maxLev : float) :
  (v <=? int 0) = true ->
  is_nan (IEEE.max (int 1) (IEEE.min v maxLev)) = true \/
  IEEE.max (int 1) (IEEE.min v maxLev) = int 1.
Proof.
  intros Hv. destruct (leb_not_nan _ _ Hv) as [Nv _].
  destruct (is_nan maxLev) eqn:Nm.
  { left. apply max_nan_r. now apply min_nan_r. }
  assert (Hu : (IEEE.min v maxLev <=? int 0) = true).
  { destruct (F64.min_cases v maxLev Nv Nm) as [[-> H1] | [-> H1]];
      [assumption | eapply F64.leb_trans; eassumption]. }
  assert (N1 : is_nan (int 1) = false) by reflexivity.
  destruct (F64.max_cases (int 1) (IEEE.min v maxLev) N1 (min_not_nan _ _ Nv Nm))
    as [[-> _] | [_ H1]]; [now right | exfalso].
  pose proof (F64.leb_trans _ _ _ H1 Hu) as F. discriminate F.
Qed.

Lemma SFopp_involutive (x : spec_float) : SFopp (SFopp x) = x.
Proof. destruct x; cbn [SFopp]; now rewrite ?negb_involutive. Qed.

Lemma SFabs_unsigned (x : spec_float) : x <> S754_nan -> unsigned (SFabs x) = true.
Proof. destruct x; intros H; try reflexivity. congruence. Qed.

Lemma SFabs_valid (x : spec_float) :
  valid_binary x = true -> valid_binary (SFabs x) = true.
Proof. now destruct x. Qed.

Lemma unsigned_or_nan_mul (x y : spec_float) :
  unsigned_or_nan x -> unsigned_or_nan y -> unsigned_or_nan (SFmul prec emax x y).
Proof.
  intros [-> | Ux] [-> | Uy]; try (now left); try (left; now destruct x).
  destruct x as [[] | [] | | [] mx ex]; try discriminate;
    destruct y as [[] | [] | | [] my ey]; try discriminate;
    try (now left); try (now right).
  right. cbn [SFmul xorb]. apply binary_round_aux_unsigned. lia.
Qed.

Lemma unsigned_or_nan_div (x y : spec_float) :
  unsigned_or_nan x -> unsigned_or_nan y -> unsigned_or_nan (SFdiv prec emax x y).
Proof.
  intros [-> | Ux] [-> | Uy]; try (now left); try (left; now destruct x).
  destruct x as [[] | [] | | [] mx ex]; try discriminate;
    destruct y as [[] | [] | | [] my ey]; try discriminate;
    try (now left); try (now right).
  right. apply SFdiv_unsigned.
Qed.

(** The sign of the optimal leverage is the sign of the risked amount
    times the sign of the allocated capital. *)
Lemma quotient_sign (R A y : float) :
  Prim2SF (R / (A * y)) =
  cond_opp (xorb (sign_of (Prim2SF R)) (sign_of (Prim2SF A)))
    (Prim2SF (abs R / (abs A * y))).
Proof.
  rewrite !div_spec, !mul_spec, !abs_spec. unfold SF64div, SF64mul.
  assert (H : forall s1 s2 r a,
             SFdiv prec emax (cond_opp s1 r) (SFmul prec emax (cond_opp s2 a) (Prim2SF y)) =
             cond_opp (xorb s1 s2) (SFdiv prec emax r (SFmul prec emax a (Prim2SF y)))).
  { intros [] [] r a; cbn [cond_opp xorb];
      rewrite ?SFmul_opp_l, ?SFdiv_opp_l, ?SFdiv_opp_r, ?SFopp_involutive; reflexivity. }
  rewrite <- H, <- !cond_opp_abs. reflexivity.
Qed.

Lemma ule_fle (x y : float) : ule (Prim2SF x) (Prim2SF y) -> fle x y.
Proof.
  intros [H | [H | (_ & _ & H)]].
  - left. now apply is_nan_true.
  - right; left. now apply is_nan_true.
  - right; right. now rewrite leb_spec.
Qed.

(** NaN goes through the rounding, the clamp and the ladder. *)
Lemma recommended_nan (w maxLev rpm : float) :
  is_nan w = true ->
  is_nan (safetyLadder rpm (IEEE.max (int 1) (IEEE.min (IEEE.round w) maxLev))) = true.
Proof.
  intros H. apply safetyLadder_nan, max_nan_r, min_nan_l.
  apply is_nan_true. rewrite round_spec. apply is_nan_true in H. now rewrite H.
Qed.

(** A signed optimal leverage is recommended as 1. *)
Lemma recommended_signed (w w' maxLev rpm : float) :
  Prim2SF w = SFopp (Prim2SF w') -> unsigned_or_nan (Prim2SF w') ->
  let lev := safetyLadder rpm (IEEE.max (int 1) (IEEE.min (IEEE.round w) maxLev)) in
  is_nan lev = true \/ lev = int 1.
Proof.
  intros E [N | U] lev; subst lev.
  - left. apply recommended_nan. apply is_nan_true. now rewrite E, N.
  - assert (Hv : (IEEE.round w <=? int 0) = true).
    { rewrite leb_spec, round_spec, E.
      apply SFround_signed; [apply Prim2SF_valid | assumption]. }
    destruct (clamp_low _ maxLev Hv) as [H | ->].
    + left. now apply safetyLadder_nan.
    + right. apply safetyLadder_one.
Qed.

(** For fixed amounts the recommended leverage is antitone in the move. *)
Lemma leverage_of_antitone (R A maxLev rpm1 rpm2 : float) :
  unsigned (Prim2SF rpm1) = true -> unsigned (Prim2SF rpm2) = true ->
  (rpm1 <=? rpm2) = true ->
  (leverage_of R A maxLev rpm1 <? leverage_of R A maxLev rpm2) = false.
Proof.
  intros U1 U2 Hle. apply fle_not_lt. unfold leverage_of.
  cbn [Math_max Math_min Math_round div mul ieee].
  set (w1 := R / (A * (rpm1 / int 100))). set (w2 := R / (A * (rpm2 / int 100))).
  set (w1' := abs R / (abs A * (rpm1 / int 100))).
  set (w2' := abs R / (abs A * (rpm2 / int 100))).
  pose proof (quotient_sign R A (rpm1 / int 100)) as Q1. fold w1 w1' in Q1.
  pose proof (quotient_sign R A (rpm2 / int 100)) as Q2. fold w2 w2' in Q2.
  set (s := xorb (sign_of (Prim2SF R)) (sign_of (Prim2SF A))) in *.
  (* NaN amounts *)
  destruct (is_nan R) eqn:NR.
  { left. apply recommended_nan, is_nan_true. unfold w2.
    rewrite div_spec. apply is_nan_true in NR. now rewrite NR. }
  destruct (is_nan A) eqn:NA.
  { left. apply recommended_nan, is_nan_true. unfold w2.
    rewrite div_spec, mul_spec. apply is_nan_true in NA. rewrite NA.
    cbn. now destruct (Prim2SF R). }
  apply F64.is_nan_false in NR, NA.
  (* the unsigned quotients *)
  assert (Y : ule (Prim2SF (rpm1 / int 100)) (Prim2SF (rpm2 / int 100))).
  { rewrite !div_spec. apply SFdiv_le_l; try apply Prim2SF_valid; [reflexivity | ].
    right; right. rewrite <- leb_spec. auto. }
  assert (Z : ule (Prim2SF (abs A * (rpm1 / int 100)))
                  (Prim2SF (abs A * (rpm2 / int 100)))).
  { rewrite !mul_spec. apply SFmul_le; try apply Prim2SF_valid; try assumption.
    - rewrite abs_spec. now apply SFabs_unsigned.
    - rewrite abs_spec. intros E. apply NA.
      destruct (Prim2SF A); try discriminate E; reflexivity. }
  assert (W : ule (Prim2SF w2') (Prim2SF w1')).
  { unfold w1', w2'. rewrite !div_spec. apply SFdiv_le_r; try apply Prim2SF_valid; try assumption.
    rewrite abs_spec. now apply SFabs_unsigned. }
  assert (UN : forall rpm : float, unsigned (Prim2SF rpm) = true ->
             unsigned_or_nan (Prim2SF (abs R / (abs A * (rpm / int 100))))).
  { intros rpm U. rewrite div_spec, mul_spec, div_spec, !abs_spec.
    apply unsigned_or_nan_div; [right; now apply SFabs_unsigned | ].
    apply unsigned_or_nan_mul; [right; now apply SFabs_unsigned | ].
    apply unsigned_or_nan_div; [now right | now right]. }
  destruct s; cbn [cond_opp] in Q1, Q2.
  - (* a signed optimal leverage *)
    destruct (recommended_signed w1 w1' maxLev rpm1 Q1 (UN rpm1 U1)) as [H1 | H1];
      [right; left; exact H1 | ].
    destruct (recommended_signed w2 w2' maxLev rpm2 Q2 (UN rpm2 U2)) as [H2 | H2];
      [left; exact H2 | ].
    right; right. cbv zeta in H1, H2. rewrite H1, H2. reflexivity.
  - (* an unsigned one *)
    destruct (is_nan maxLev) eqn:Nm.
    { left. apply safetyLadder_nan, max_nan_r. now apply min_nan_r. }
    apply safetyLadder_fle; [assumption | ].
    apply max_fle; [reflexivity | ].
    apply min_fle; [ | now apply F64.leb_refl].
    apply ule_fle. rewrite !round_spec, Q1, Q2.
    apply SFround_le; try apply Prim2SF_valid. assumption.
Qed.

Lemma riskPercentMove_unsigned (entry stop : float) :
  (int 0 <? entry) = true ->
  unsigned_or_nan (Prim2SF (riskPercentMove entry stop)).
Proof.
  intros He. unfold riskPercentMove. cbn [Math_abs div mul sub ieee].
  rewrite mul_spec, div_spec, abs_spec.
  apply unsigned_or_nan_mul; [ | now right].
  apply unsigned_or_nan_div.
  - destruct (Prim2SF (entry - stop)); [right | right | left | right]; reflexivity.
  - right. rewrite ltb_spec in He. unfold SFltb in He.
    change (Prim2SF (int 0)) with (S754_zero false) in He.
    now destruct (Prim2SF entry) as [[] | [] | | [] m e].
Qed.
End Antitone.

(** ** Sums, differences and midpoints

    The conversion of an integer to binary64 is monotone, and so are the
    sums and the differences of the code; the midpoint of two Numbers lies
    between them when their sum is finite. *)

Module Sum.
Import IEEE Round Mono.
Local Open Scope Z_scope.

(** *** Sums and differences *)

Lemma binary_round_opp (p : positive) (e : Z) :
  binary_round prec emax true p e = SFopp (binary_round prec emax false p e).
Proof.
  unfold binary_round. destruct (shl_align _ _ _) as [mz ez].
  now rewrite binary_round_aux_opp.
Qed.

Lemma pow2_shift (a b c : Z) : c <= b -> b <= a -> 2 ^ (a - c) = 2 ^ (a - b) * 2 ^ (b - c).
Proof. intros. rewrite <- pow2_split by lia. f_equal. lia. Qed.

(** The conversion of a positive integer scaled by a power of two is
    monotone. *)
Lemma binary_round_mono (p1 : positive) (e1 : Z) (p2 : positive) (e2 e0 : Z) :
  e0 <= e1 -> e0 <= e2 ->
  Zpos p1 * 2 ^ (e1 - e0) <= Zpos p2 * 2 ^ (e2 - e0) ->
  SFleb (binary_round prec emax false p1 e1) (binary_round prec emax false p2 e2) = true.
Proof.
  intros He1 He2 H.
  destruct (binary_round_aligned false p1 e1) as (m1 & z1 & -> & Hz1 & Hm1 & Hen1).
  destruct (binary_round_aligned false p2 e2) as (m2 & z2 & -> & Hz2 & Hm2 & Hen2).
  set (z := Z.min e0 (Z.min z1 z2)).
  apply round_le with (n1 := Zpos m1) (d1 := 1) (n2 := Zpos m2) (d2 := 1) (e0 := z);
    try lia; try apply rcode_exact; try assumption; try (unfold z; lia).
  rewrite !Z.mul_1_r, Hm1, Hm2, <- !Z.mul_assoc.
  rewrite <- (pow2_shift e1 z1 z), <- (pow2_shift e2 z2 z) by (unfold z; lia).
  rewrite (pow2_shift e1 e0 z), (pow2_shift e2 e0 z) by (unfold z; lia).
  rewrite !Z.mul_assoc. apply Z.mul_le_mono_nonneg_r; [ | assumption].
  apply Z.lt_le_incl, pow2_pos. unfold z. lia.
Qed.

Lemma opp_le_opp (a b : spec_float) :
  unsigned a = true -> unsigned b = true ->
  SFleb b a = true -> SFleb (SFopp a) (SFopp b) = true.
Proof.
  unfold SFleb.
  destruct a as [[] | [] | | [] ma ea], b as [[] | [] | | [] mb eb];
    cbn [unsigned negb SFopp SFcompare]; try discriminate; try reflexivity;
    intros _ _ H; SF.cmp_cases.
Qed.

Lemma opp_le_unsigned (a b : spec_float) :
  unsigned a = true -> unsigned b = true -> SFleb (SFopp a) b = true.
Proof.
  now destruct a as [[] | [] | | [] ma ea], b as [[] | [] | | [] mb eb].
Qed.

Lemma zero_le_unsigned' (s : bool) (x : spec_float) :
  unsigned x = true -> SFleb (S754_zero s) x = true.
Proof. now destruct x as [[] | [] | | [] m e]. Qed.

Lemma opp_le_zero (s : bool) (x : spec_float) :
  unsigned x = true -> SFleb (SFopp x) (S754_zero s) = true.
Proof. now destruct x as [[] | [] | | [] m e]. Qed.

(** The conversion of an integer scaled by a power of two is monotone. *)
Lemma binary_normalize_mono (n1 e1 n2 e2 e0 : Z) (b1 b2 : bool) :
  e0 <= e1 -> e0 <= e2 ->
  n1 * 2 ^ (e1 - e0) <= n2 * 2 ^ (e2 - e0) ->
  SFleb (binary_normalize prec emax n1 e1 b1) (binary_normalize prec emax n2 e2 b2) = true.
Proof.
  intros He1 He2 H.
  pose proof (pow2_pos (e1 - e0) ltac:(lia)) as P1.
  pose proof (pow2_pos (e2 - e0) ltac:(lia)) as P2.
  destruct n1 as [ | p1 | p1], n2 as [ | p2 | p2]; cbn [binary_normalize];
    try (exfalso; nia).
  - reflexivity.
  - apply zero_le_unsigned', binary_round_unsigned.
  - now apply binary_round_mono with e0.
  - rewrite binary_round_opp. apply opp_le_zero, binary_round_unsigned.
  - rewrite binary_round_opp. apply opp_le_unsigned; apply binary_round_unsigned.
  - rewrite !binary_round_opp.
    apply opp_le_opp; try apply binary_round_unsigned.
    apply binary_round_mono with e0; try assumption. lia.
Qed.

(** A Number of the format is the conversion of its mantissa. *)
Lemma binary_normalize_finite (s : bool) (m : positive) (e : Z) (b : bool) :
  valid_binary (S754_finite s m e) = true ->
  binary_normalize prec emax (cond_Zopp s (Zpos m)) e b = S754_finite s m e.
Proof.
  intros V. pose proof V as V'.
  cbn [SpecFloat.valid_binary] in V'. unfold bounded, canonical_mantissa in V'.
  apply andb_true_iff in V'. destruct V' as [C _]. apply Z.eqb_eq in C.
  assert (R : forall s', binary_round prec emax s' m e =
                         binary_round_aux prec emax s' (Zpos m) e loc_Exact).
  { intros s'. unfold binary_round. rewrite C. unfold shl_align.
    now rewrite Z.sub_diag. }
  destruct s; cbn [cond_Zopp Z.opp binary_normalize]; rewrite R;
    now apply binary_round_aux_canonical.
Qed.

Lemma shl_align_units (s : bool) (m : positive) (e ez : Z) :
  ez <= e ->
  cond_Zopp s (Zpos (fst (shl_align m e ez))) = units ez s m e.
Proof.
  intros H. rewrite SF.shl_align_fst by assumption. unfold units.
  destruct s; cbn [cond_Zopp]; lia.
Qed.

Lemma units_shift (e0 e1 : Z) (s : bool) (m : positive) (e : Z) :
  e0 <= e1 -> e1 <= e -> units e0 s m e = units e1 s m e * 2 ^ (e1 - e0).
Proof.
  intros H1 H2. unfold units. rewrite (pow2_shift e e1 e0) by lia. ring.
Qed.

Lemma SFadd_finite (sx : bool) (mx : positive) (ex : Z) (sy : bool) (my : positive) (ey : Z) :
  SFadd prec emax (S754_finite sx mx ex) (S754_finite sy my ey) =
  binary_normalize prec emax
    (units (Z.min ex ey) sx mx ex + units (Z.min ex ey) sy my ey) (Z.min ex ey) false.
Proof. cbn [SFadd]. rewrite !shl_align_units by lia. reflexivity. Qed.

Lemma SFsub_finite (sx : bool) (mx : positive) (ex : Z) (sy : bool) (my : positive) (ey : Z) :
  SFsub prec emax (S754_finite sx mx ex) (S754_finite sy my ey) =
  binary_normalize prec emax
    (units (Z.min ex ey) sx mx ex - units (Z.min ex ey) sy my ey) (Z.min ex ey) false.
Proof. cbn [SFsub]. rewrite !shl_align_units by lia. reflexivity. Qed.

Lemma SFltb_not_le (a b : spec_float) : SFltb a b = true -> SFleb b a = false.
Proof.
  unfold SFltb, SFleb.
  destruct a as [[] | [] | | [] ma ea], b as [[] | [] | | [] mb eb];
    cbn [SFcompare]; try discriminate; try reflexivity; intros H; SF.cmp_cases.
Qed.

(** If the rounded difference [t - e] is below [r], the rounded sum
    [e + r] is not below [t]. *)
Lemma add_reaches (se : bool) (me : positive) (ee : Z)
    (st : bool) (mt : positive) (et : Z) (sr : bool) (mr : positive) (er : Z) :
  valid_binary (S754_finite st mt et) = true ->
  valid_binary (S754_finite sr mr er) = true ->
  SFltb (SFsub prec emax (S754_finite st mt et) (S754_finite se me ee))
        (S754_finite sr mr er) = true ->
  SFleb (S754_finite st mt et)
        (SFadd prec emax (S754_finite se me ee) (S754_finite sr mr er)) = true.
Proof.
  intros Vt Vr H. apply SFltb_not_le in H.
  rewrite SFsub_finite in H. rewrite SFadd_finite.
  rewrite <- (binary_normalize_finite st mt et false Vt) at 1.
  rewrite <- (binary_normalize_finite sr mr er false Vr) in H.
  set (e0 := Z.min (Z.min ee et) er).
  apply binary_normalize_mono with e0; try (unfold e0; lia).
  destruct (Z_le_gt_dec (units e0 sr mr er)
              (units e0 st mt et - units e0 se me ee)) as [Hle | Hgt].
  - exfalso.
    rewrite (binary_normalize_mono _ _ _ _ e0) in H; try discriminate;
      try (unfold e0; lia).
    rewrite Z.mul_sub_distr_r.
    rewrite <- !units_shift by (unfold e0; lia).
    fold (units e0 sr mr er). exact Hle.
  - rewrite Z.mul_add_distr_r.
    rewrite <- !units_shift by (unfold e0; lia).
    fold (units e0 st mt et). lia.
Qed.

(** If the rounded difference [e - t] is below [r], the rounded difference
    [e - r] is not above [t]. *)
Lemma sub_reaches (se : bool) (me : positive) (ee : Z)
    (st : bool) (mt : positive) (et : Z) (sr : bool) (mr : positive) (er : Z) :
  valid_binary (S754_finite st mt et) = true ->
  valid_binary (S754_finite sr mr er) = true ->
  SFltb (SFsub prec emax (S754_finite se me ee) (S754_finite st mt et))
        (S754_finite sr mr er) = true ->
  SFleb (SFsub prec emax (S754_finite se me ee) (S754_finite sr mr er))
        (S754_finite st mt et) = true.
Proof.
  intros Vt Vr H. apply SFltb_not_le in H.
  rewrite SFsub_finite in H. rewrite SFsub_finite.
  rewrite <- (binary_normalize_finite st mt et false Vt).
  rewrite <- (binary_normalize_finite sr mr er false Vr) in H.
  set (e0 := Z.min (Z.min ee et) er).
  apply binary_normalize_mono with e0; try (unfold e0; lia).
  destruct (Z_le_gt_dec (units e0 sr mr er)
              (units e0 se me ee - units e0 st mt et)) as [Hle | Hgt].
  - exfalso.
    rewrite (binary_normalize_mono _ _ _ _ e0) in H; try discriminate;
      try (unfold e0; lia).
    rewrite Z.mul_sub_distr_r.
    rewrite <- !units_shift by (unfold e0; lia).
    fold (units e0 sr mr er). exact Hle.
  - rewrite Z.mul_sub_distr_r.
    rewrite <- !units_shift by (unfold e0; lia).
    fold (units e0 st mt et). lia.
Qed.

Lemma has_sign_unsigned (x : spec_float) : has_sign false x -> unsigned x = true.
Proof. destruct x as [s | s | | s m e]; cbn; try tauto; now intros ->. Qed.

(** A Number divided by itself is not below 1. *)
Lemma one_le_self_div (m : positive) (e : Z) :
  SFleb (Prim2SF one)
        (SFdiv prec emax (S754_finite false m e) (S754_finite false m e)) = true.
Proof.
  change (Prim2SF one) with (S754_finite false 4503599627370496 (-52)).
  rewrite <- (binary_round_aux_canonical false 4503599627370496 (-52) eq_refl).
  destruct (SFdiv_finite false m e false m e)
    as (q & e' & l & s & -> & Hs & He & Hc & Hq & Hen).
  cbn [xorb].
  pose proof (pow2_pos s Hs) as Ps.
  apply round_le with (n1 := 4503599627370496) (d1 := 1)
                      (n2 := Zpos m * 2 ^ s) (d2 := Zpos m)
                      (e0 := Z.min (-52) e').
  - lia.
  - lia.
  - apply Z.mul_nonneg_nonneg; lia.
  - lia.
  - apply rcode_exact.
  - exact Hc.
  - unfold enough. cbv. discriminate.
  - exact Hen.
  - lia.
  - lia.
  - assert (E : s = - e') by lia. subst s.
    change 4503599627370496 with (2 ^ 52).
    rewrite Z.mul_1_r.
    replace (2 ^ 52 * Zpos m * 2 ^ (-52 - Z.min (-52) e'))
      with (Zpos m * (2 ^ 52 * 2 ^ (-52 - Z.min (-52) e'))) by ring.
    rewrite <- !Z.mul_assoc, <- !pow2_split by lia.
    apply Z.mul_le_mono_nonneg_l; [lia | ].
    apply pow2_le. lia.
Qed.

(** A quotient below 1 has a dividend below the divisor. *)
Lemma div_below_one (w k : spec_float) :
  valid_binary w = true -> valid_binary k = true ->
  unsigned w = true -> unsigned k = true ->
  SFltb (SFdiv prec emax w k) (Prim2SF one) = true -> SFltb w k = true.
Proof.
  intros Vw Vk Uw Uk H. destruct (SFltb w k) eqn:L; [reflexivity | exfalso].
  apply SF.SFleb_total in L;
    [ | destruct w; discriminate | destruct k; discriminate].
  destruct k as [[] | [] | | [] mk ek]; try discriminate;
    destruct w as [[] | [] | | [] mw ew]; try discriminate.
  pose proof (SFdiv_le_l (S754_finite false mk ek) (S754_finite false mw ew)
                (S754_finite false mk ek) Vk Vw eq_refl
                (or_intror (or_intror (conj eq_refl (conj eq_refl L))))) as D.
  pose proof (one_le_self_div mk ek) as O.
  pose proof (SFltb_not_le _ _ H) as H'.
  destruct D as [D | [D | (_ & _ & D)]].
  - rewrite D in O. discriminate O.
  - rewrite D in H. discriminate H.
  - rewrite (SF.SFleb_trans _ _ _ O D) in H'. discriminate H'.
Qed.

Lemma binary_normalize_opp (n e : Z) (b : bool) :
  n <> 0 ->
  binary_normalize prec emax (- n) e b = SFopp (binary_normalize prec emax n e b).
Proof.
  intros Hn. destruct n as [ | p | p]; try congruence;
    cbn [Z.opp binary_normalize]; rewrite binary_round_opp; [reflexivity | ].
  destruct (binary_round prec emax false p e); cbn [SFopp];
    now rewrite ?negb_involutive.
Qed.

(** The two differences of two Numbers are opposite. *)
Lemma SFsub_swap (x y : spec_float) :
  has_sign false (SFsub prec emax y x) ->
  SFsub prec emax x y = SFopp (SFsub prec emax y x).
Proof.
  destruct x as [sx | sx | | sx mx ex], y as [sy | sy | | sy my ey];
    try (cbn [SFsub SFopp has_sign]; tauto);
    try (cbn [SFsub SFopp has_sign]; intros _; now rewrite ?negb_involutive);
    try (destruct sx, sy; cbn [SFsub SFopp has_sign negb]; tauto || reflexivity).
  rewrite !SFsub_finite. rewrite (Z.min_comm ey ex). intros H.
  set (n := units (Z.min ex ey) sy my ey - units (Z.min ex ey) sx mx ex) in *.
  replace (units (Z.min ex ey) sx mx ex - units (Z.min ex ey) sy my ey) with (- n)
    by (unfold n; ring).
  apply binary_normalize_opp. intros E. rewrite E in H. exact H.
Qed.

Lemma SFabs_sub_swap (x y : spec_float) :
  valid_binary x = true -> valid_binary y = true ->
  SFltb x y = true -> SFabs (SFsub prec emax x y) = SFsub prec emax y x.
Proof.
  intros Vx Vy H. pose proof (SF.SFsub_positive x y Vx Vy H) as P.
  unfold SF64sub in P. rewrite (SFsub_swap x y P).
  destruct (SFsub prec emax y x) as [s | s | | s m e]; cbn in P |- *;
    try tauto; now subst.
Qed.

Lemma SFabs_positive (x : spec_float) : has_sign false x -> SFabs x = x.
Proof. destruct x as [s | s | | s m e]; cbn; try tauto; now intros ->. Qed.

Ltac unfold_consts := unfold emin, SpecFloat.emin, prec, emax in *.

Lemma units_sign (e0 : Z) (s : bool) (m : positive) (e : Z) :
  e0 <= e -> if s then units e0 s m e < 0 else 0 < units e0 s m e.
Proof.
  intros H. pose proof (pow2_pos (e - e0) ltac:(lia)) as P. unfold units.
  destruct s; cbn [cond_Zopp]; nia.
Qed.

Lemma units_opp (e0 : Z) (s : bool) (m : positive) (e : Z) :
  units e0 (negb s) m e = - units e0 s m e.
Proof. unfold units. destruct s; cbn [cond_Zopp negb]; lia. Qed.

Lemma valid_emin (s : bool) (m : positive) (e : Z) :
  valid_binary (S754_finite s m e) = true -> emin <= e <= 971.
Proof.
  intros V. pose proof (SF.valid_finite_inv _ _ _ V) as (H & _).
  cbn [SpecFloat.valid_binary] in V. unfold bounded in V.
  apply andb_true_iff in V. destruct V as [_ B]. apply Z.leb_le in B.
  unfold_consts. lia.
Qed.

Lemma valid_sign (s s' : bool) (m : positive) (e : Z) :
  valid_binary (S754_finite s m e) = true -> valid_binary (S754_finite s' m e) = true.
Proof. intros V. exact V. Qed.

(** The order of the finite Numbers is the order of their values. *)
Lemma SFleb_ival (x y : spec_float) :
  valid_binary x = true -> valid_binary y = true ->
  SFis_finite x = true -> SFis_finite y = true ->
  SFleb x y = true -> ival x <= ival y.
Proof.
  intros Vx Vy Fx Fy H.
  destruct x as [sx | sx | | sx mx ex], y as [sy | sy | | sy my ey];
    cbn [SFis_finite] in Fx, Fy; try discriminate; cbn [ival].
  - pose proof (units_sign emin sy my ey (proj1 (valid_emin _ _ _ Vy))) as S.
    destruct sy; [discriminate H | lia].
  - pose proof (units_sign emin sx mx ex (proj1 (valid_emin _ _ _ Vx))) as S.
    destruct sx; [lia | discriminate H].
  - pose proof (valid_emin _ _ _ Vx) as [Ex _].
    pose proof (valid_emin _ _ _ Vy) as [Ey _].
    pose proof (units_sign emin sx mx ex Ex) as Sx.
    pose proof (units_sign emin sy my ey Ey) as Sy.
    destruct sx, sy; try lia.
    + (* both negative *)
      assert (H' : SFleb (S754_finite false my ey) (S754_finite false mx ex) = true).
      { unfold SFleb in *. cbn [SFcompare] in *. SF.cmp_cases. }
      pose proof (finite_le_value my ey mx ex emin Vy Vx H' Ey Ex) as L.
      unfold units. cbn [cond_Zopp]. lia.
    + discriminate H.
    + pose proof (finite_le_value mx ex my ey emin Vx Vy H Ex Ey) as L.
      unfold units. cbn [cond_Zopp]. lia.
Qed.

(** No finite Number is beyond the largest one. *)
Lemma ival_bounds (x : spec_float) :
  valid_binary x = true ->
  - ((2 ^ 53 - 1) * 2 ^ (971 - emin)) <= ival x <= (2 ^ 53 - 1) * 2 ^ (971 - emin).
Proof.
  intros V. destruct x as [s | s | | s m e]; cbn [ival];
    try (assert (0 < 2 ^ (971 - emin)) by (apply pow2_pos; unfold_consts; lia); lia).
  pose proof (valid_emin _ _ _ V) as [E1 E2].
  pose proof (finite_lt_pow _ _ _ V) as M.
  assert (P : 2 ^ (e - emin) <= 2 ^ (971 - emin)) by (apply pow2_le; lia).
  pose proof (pow2_pos (e - emin) ltac:(lia)) as P0.
  assert (B : Zpos m * 2 ^ (e - emin) <= (2 ^ 53 - 1) * 2 ^ (971 - emin)).
  { apply Z.mul_le_mono_nonneg; lia. }
  unfold units. destruct s; cbn [cond_Zopp]; lia.
Qed.

(** The double of a Number below [2^1023] is a Number. *)
Lemma double_finite (s : bool) (m : positive) (e : Z) :
  valid_binary (S754_finite s m e) = true -> e < 971 ->
  exists m' e', valid_binary (S754_finite s m' e') = true /\
                units emin s m' e' = 2 * units emin s m e.
Proof.
  intros V He. pose proof (valid_emin _ _ _ V) as [E1 _].
  pose proof (SF.valid_finite_inv _ _ _ V) as (_ & D & N).
  destruct (Z.eq_dec (Zpos (digits2_pos m)) prec) as [Hd | Hd].
  - exists m, (e + 1). split.
    + cbn [SpecFloat.valid_binary]. unfold bounded, canonical_mantissa.
      apply andb_true_iff. split; [apply Z.eqb_eq | apply Z.leb_le].
      * rewrite Hd. unfold SpecFloat.fexp. unfold_consts. lia.
      * unfold_consts. lia.
    + unfold units. replace (e + 1 - emin) with (1 + (e - emin)) by lia.
      rewrite pow2_split by lia. change (2 ^ 1) with 2. ring.
  - assert (Ee : e = emin).
    { destruct (Z.eq_dec e emin); [assumption | ]. exfalso. apply Hd, N. lia. }
    exists (m~0)%positive, e. split.
    + cbn [SpecFloat.valid_binary]. unfold bounded, canonical_mantissa.
      apply andb_true_iff. split; [apply Z.eqb_eq | apply Z.leb_le].
      * cbn [digits2_pos]. rewrite Pos2Z.inj_succ.
        unfold SpecFloat.fexp. unfold_consts. lia.
      * unfold_consts. lia.
    + unfold units. destruct s; cbn [cond_Zopp]; lia.
Qed.

(** *** Halving *)

Lemma two_valid : valid_binary (S754_finite false 4503599627370496 (-51)) = true.
Proof. reflexivity. Qed.

Lemma pos_le_half (ma : positive) (ea : Z) (ms : positive) (es : Z) :
  valid_binary (S754_finite false ma ea) = true ->
  valid_binary (S754_finite false ms es) = true ->
  2 * units emin false ma ea <= units emin false ms es ->
  SFleb (S754_finite false ma ea)
        (SFdiv prec emax (S754_finite false ms es)
           (S754_finite false 4503599627370496 (-51))) = true.
Proof.
  intros Va Vs H. unfold units in H. cbn [cond_Zopp] in H.
  pose proof (valid_emin _ _ _ Va) as [Ea _].
  pose proof (valid_emin _ _ _ Vs) as [Es _].
  rewrite <- (binary_round_aux_canonical false ma ea Va).
  destruct (SFdiv_finite false ms es false 4503599627370496 (-51))
    as (q & e' & l & k & -> & Hk & He & Hc & Hq & Hen).
  cbn [xorb]. pose proof (pow2_pos k Hk) as Pk.
  set (e0 := Z.min emin e').
  apply round_le with (n1 := Zpos ma) (d1 := 1)
                      (n2 := Zpos ms * 2 ^ k) (d2 := 4503599627370496) (e0 := e0).
  - lia.
  - lia.
  - apply Z.mul_nonneg_nonneg; lia.
  - lia.
  - apply rcode_exact.
  - exact Hc.
  - cbn [SpecFloat.valid_binary] in Va. unfold bounded, canonical_mantissa in Va.
    apply andb_true_iff in Va. destruct Va as [C _]. apply Z.eqb_eq in C.
    unfold enough. cbn [Zdigits2]. lia.
  - exact Hen.
  - unfold e0. lia.
  - unfold e0. lia.
  - assert (E1 : 2 ^ (ea - e0) = 2 ^ (ea - emin) * 2 ^ (emin - e0))
      by (apply pow2_shift; unfold e0; lia).
    assert (E2 : 2 ^ k * 2 ^ (e' - e0) = 2 ^ 51 * 2 ^ (es - emin) * 2 ^ (emin - e0)).
    { rewrite <- !pow2_split by (unfold e0; lia). f_equal. lia. }
    pose proof (pow2_pos (emin - e0) ltac:(unfold e0; lia)) as Pj.
    replace (Zpos ms * 2 ^ k * 1 * 2 ^ (e' - e0))
      with (Zpos ms * (2 ^ k * 2 ^ (e' - e0))) by ring.
    rewrite E1, E2. change 4503599627370496 with (2 * 2 ^ 51).
    set (A := Zpos ma * 2 ^ (ea - emin)) in *.
    set (S := Zpos ms * 2 ^ (es - emin)) in *.
    replace (Zpos ma * (2 * 2 ^ 51) * (2 ^ (ea - emin) * 2 ^ (emin - e0)))
      with (2 * A * (2 ^ 51 * 2 ^ (emin - e0))) by (unfold A; ring).
    replace (Zpos ms * (2 ^ 51 * 2 ^ (es - emin) * 2 ^ (emin - e0)))
      with (S * (2 ^ 51 * 2 ^ (emin - e0))) by (unfold S; ring).
    apply Z.mul_le_mono_nonneg_r; [ | assumption].
    apply Z.mul_nonneg_nonneg; lia.
Qed.

Lemma half_le_pos (ms : positive) (es : Z) (mb : positive) (eb : Z) :
  valid_binary (S754_finite false mb eb) = true ->
  valid_binary (S754_finite false ms es) = true ->
  units emin false ms es <= 2 * units emin false mb eb ->
  SFleb (SFdiv prec emax (S754_finite false ms es)
           (S754_finite false 4503599627370496 (-51)))
        (S754_finite false mb eb) = true.
Proof.
  intros Vb Vs H. unfold units in H. cbn [cond_Zopp] in H.
  pose proof (valid_emin _ _ _ Vb) as [Eb _].
  pose proof (valid_emin _ _ _ Vs) as [Es _].
  rewrite <- (binary_round_aux_canonical false mb eb Vb).
  destruct (SFdiv_finite false ms es false 4503599627370496 (-51))
    as (q & e' & l & k & -> & Hk & He & Hc & Hq & Hen).
  cbn [xorb]. pose proof (pow2_pos k Hk) as Pk.
  set (e0 := Z.min emin e').
  apply round_le with (n2 := Zpos mb) (d2 := 1)
                      (n1 := Zpos ms * 2 ^ k) (d1 := 4503599627370496) (e0 := e0).
  - apply Z.mul_nonneg_nonneg; lia.
  - lia.
  - lia.
  - lia.
  - exact Hc.
  - apply rcode_exact.
  - exact Hen.
  - cbn [SpecFloat.valid_binary] in Vb. unfold bounded, canonical_mantissa in Vb.
    apply andb_true_iff in Vb. destruct Vb as [C _]. apply Z.eqb_eq in C.
    unfold enough. cbn [Zdigits2]. lia.
  - unfold e0. lia.
  - unfold e0. lia.
  - assert (E1 : 2 ^ (eb - e0) = 2 ^ (eb - emin) * 2 ^ (emin - e0))
      by (apply pow2_shift; unfold e0; lia).
    assert (E2 : 2 ^ k * 2 ^ (e' - e0) = 2 ^ 51 * 2 ^ (es - emin) * 2 ^ (emin - e0)).
    { rewrite <- !pow2_split by (unfold e0; lia). f_equal. lia. }
    pose proof (pow2_pos (emin - e0) ltac:(unfold e0; lia)) as Pj.
    replace (Zpos ms * 2 ^ k * 1 * 2 ^ (e' - e0))
      with (Zpos ms * (2 ^ k * 2 ^ (e' - e0))) by ring.
    rewrite E1, E2. change 4503599627370496 with (2 * 2 ^ 51).
    set (B := Zpos mb * 2 ^ (eb - emin)) in *.
    set (S := Zpos ms * 2 ^ (es - emin)) in *.
    replace (Zpos mb * (2 * 2 ^ 51) * (2 ^ (eb - emin) * 2 ^ (emin - e0)))
      with (2 * B * (2 ^ 51 * 2 ^ (emin - e0))) by (unfold B; ring).
    replace (Zpos ms * (2 ^ 51 * 2 ^ (es - emin) * 2 ^ (emin - e0)))
      with (S * (2 ^ 51 * 2 ^ (emin - e0))) by (unfold S; ring).
    apply Z.mul_le_mono_nonneg_r; [ | assumption].
    apply Z.mul_nonneg_nonneg; lia.
Qed.

(** Half of [s] is not below [a] when [s] is not below the double of [a]. *)
Lemma half_lower (sa : bool) (ma : positive) (ea : Z) (s : spec_float) :
  valid_binary (S754_finite sa ma ea) = true -> valid_binary s = true ->
  SFis_finite s = true ->
  2 * ival (S754_finite sa ma ea) <= ival s ->
  SFleb (S754_finite sa ma ea) (SFdiv prec emax s two) = true.
Proof.
  intros Va Vs Fs H. cbn [ival] in H.
  pose proof (valid_emin _ _ _ Va) as [Ea _].
  pose proof (units_sign emin sa ma ea Ea) as Sa.
  destruct s as [ss | ss | | ss ms es]; try discriminate; cbn [ival] in H.
  - destruct sa; [ | lia]. now destruct ss.
  - pose proof (valid_emin _ _ _ Vs) as [Es _].
    pose proof (units_sign emin ss ms es Es) as Ss.
    destruct sa, ss; try lia.
    + change (S754_finite true ms es) with (SFopp (S754_finite false ms es)).
      change (S754_finite true ma ea) with (SFopp (S754_finite false ma ea)).
      rewrite SFdiv_opp_l. apply opp_le_opp; [reflexivity | apply SFdiv_unsigned | ].
      apply half_le_pos; try assumption.
      change true with (negb false) in H. rewrite !units_opp in H. lia.
    + change (S754_finite true ma ea) with (SFopp (S754_finite false ma ea)).
      apply opp_le_unsigned; [reflexivity | apply SFdiv_unsigned].
    + now apply pos_le_half.
Qed.

(** Half of [s] is not above [b] when [s] is not above the double of [b]. *)
Lemma half_upper (sb : bool) (mb : positive) (eb : Z) (s : spec_float) :
  valid_binary (S754_finite sb mb eb) = true -> valid_binary s = true ->
  SFis_finite s = true ->
  ival s <= 2 * ival (S754_finite sb mb eb) ->
  SFleb (SFdiv prec emax s two) (S754_finite sb mb eb) = true.
Proof.
  intros Vb Vs Fs H. cbn [ival] in H.
  pose proof (valid_emin _ _ _ Vb) as [Eb _].
  pose proof (units_sign emin sb mb eb Eb) as Sb.
  destruct s as [ss | ss | | ss ms es]; try discriminate; cbn [ival] in H.
  - destruct sb; [lia | ]. now destruct ss.
  - pose proof (valid_emin _ _ _ Vs) as [Es _].
    pose proof (units_sign emin ss ms es Es) as Ss.
    destruct sb, ss; try lia.
    + change (S754_finite true ms es) with (SFopp (S754_finite false ms es)).
      change (S754_finite true mb eb) with (SFopp (S754_finite false mb eb)).
      rewrite SFdiv_opp_l. apply opp_le_opp; [apply SFdiv_unsigned | reflexivity | ].
      apply pos_le_half; try assumption.
      change true with (negb false) in H. rewrite !units_opp in H. lia.
    + change (S754_finite true ms es) with (SFopp (S754_finite false ms es)).
      rewrite SFdiv_opp_l. apply opp_le_unsigned; [apply SFdiv_unsigned | reflexivity].
    + now apply half_le_pos.
Qed.

Lemma normal_mantissa (s : bool) (m : positive) (e : Z) :
  valid_binary (S754_finite s m e) = true -> emin < e -> 2 ^ 52 <= Zpos m.
Proof.
  intros V He. pose proof (SF.valid_finite_inv _ _ _ V) as (_ & _ & N).
  specialize (N He). pose proof (SF.digits2_pos_bounds m) as [B _].
  rewrite N in B. exact B.
Qed.

Lemma sum_units (sx : bool) (mx : positive) (ex : Z) (sy : bool) (my : positive) (ey : Z) :
  emin <= ex -> emin <= ey ->
  (units (Z.min ex ey) sx mx ex + units (Z.min ex ey) sy my ey)
    * 2 ^ (Z.min ex ey - emin)
  = units emin sx mx ex + units emin sy my ey.
Proof.
  intros Hx Hy. rewrite Z.mul_add_distr_r, <- !units_shift by lia. reflexivity.
Qed.

(** A finite sum of two Numbers is not below the double of the lower
    one. *)
Lemma sum_ge_double (sa : bool) (ma : positive) (ea : Z) (b : spec_float) :
  valid_binary (S754_finite sa ma ea) = true -> valid_binary b = true ->
  SFis_finite b = true ->
  SFleb (S754_finite sa ma ea) b = true ->
  valid_binary (SFadd prec emax b (S754_finite sa ma ea)) = true ->
  SFis_finite (SFadd prec emax b (S754_finite sa ma ea)) = true ->
  2 * ival (S754_finite sa ma ea) <= ival (SFadd prec emax b (S754_finite sa ma ea)).
Proof.
  intros Va Vb Fb Hab Vs Fs.
  pose proof (SFleb_ival _ _ Va Vb eq_refl Fb Hab) as L.
  pose proof (valid_emin _ _ _ Va) as [Ea Ea'].
  destruct b as [sb | sb | | sb mb eb]; try discriminate.
  - cbn [SFadd ival] in *. lia.
  - pose proof (valid_emin _ _ _ Vb) as [Eb _].
    pose proof (sum_units sb mb eb sa ma ea Eb Ea) as U.
    rewrite SFadd_finite in *. cbn [ival] in L.
    set (s := binary_normalize prec emax _ _ _) in *.
    destruct (Z_lt_le_dec ea 971) as [Hlt | Hge].
    + destruct (double_finite sa ma ea Va Hlt) as (m' & e' & V2 & E2).
      pose proof (valid_emin _ _ _ V2) as [E2' _].
      cbn [ival]. rewrite <- E2.
      change (units emin sa m' e') with (ival (S754_finite sa m' e')).
      apply SFleb_ival; try assumption; try reflexivity.
      rewrite <- (binary_normalize_finite sa m' e' false V2). unfold s.
      apply binary_normalize_mono with emin; try lia.
      rewrite U. fold (units emin sa m' e'). lia.
    + assert (ea = 971) by lia. subst ea.
      pose proof (normal_mantissa _ _ _ Va ltac:(unfold_consts; lia)) as Nm.
      pose proof (pow2_pos (971 - emin) ltac:(unfold_consts; lia)) as P.
      destruct sa.
      * pose proof (ival_bounds s Vs) as [B _].
        cbn [ival]. unfold units. cbn [cond_Zopp]. nia.
      * exfalso.
        assert (I : SFleb (S754_infinity false) s = true).
        { change (S754_infinity false)
            with (binary_normalize prec emax (2 ^ 53) 971 false).
          unfold s. apply binary_normalize_mono with emin; try lia.
          rewrite U. unfold units in *. cbn [cond_Zopp] in *. nia. }
        destruct s as [[] | [] | | [] ? ?]; discriminate.
Qed.

(** A finite sum of two Numbers is not above the double of the higher
    one. *)
Lemma sum_le_double (a : spec_float) (sb : bool) (mb : positive) (eb : Z) :
  valid_binary a = true -> valid_binary (S754_finite sb mb eb) = true ->
  SFis_finite a = true ->
  SFleb a (S754_finite sb mb eb) = true ->
  valid_binary (SFadd prec emax a (S754_finite sb mb eb)) = true ->
  SFis_finite (SFadd prec emax a (S754_finite sb mb eb)) = true ->
  ival (SFadd prec emax a (S754_finite sb mb eb)) <= 2 * ival (S754_finite sb mb eb).
Proof.
  intros Va Vb Fa Hab Vs Fs.
  pose proof (SFleb_ival _ _ Va Vb Fa eq_refl Hab) as L.
  pose proof (valid_emin _ _ _ Vb) as [Eb Eb'].
  destruct a as [sa | sa | | sa ma ea]; try discriminate.
  - cbn [SFadd ival] in *. lia.
  - pose proof (valid_emin _ _ _ Va) as [Ea _].
    pose proof (sum_units sa ma ea sb mb eb Ea Eb) as U.
    rewrite SFadd_finite in *. cbn [ival] in L.
    set (s := binary_normalize prec emax _ _ _) in *.
    destruct (Z_lt_le_dec eb 971) as [Hlt | Hge].
    + destruct (double_finite sb mb eb Vb Hlt) as (m' & e' & V2 & E2).
      pose proof (valid_emin _ _ _ V2) as [E2' _].
      cbn [ival]. rewrite <- E2.
      change (units emin sb m' e') with (ival (S754_finite sb m' e')).
      apply SFleb_ival; try assumption; try reflexivity.
      rewrite <- (binary_normalize_finite sb m' e' false V2). unfold s.
      apply binary_normalize_mono with emin; try lia.
      rewrite U. fold (units emin sb m' e'). lia.
    + assert (eb = 971) by lia. subst eb.
      pose proof (normal_mantissa _ _ _ Vb ltac:(unfold_consts; lia)) as Nm.
      pose proof (pow2_pos (971 - emin) ltac:(unfold_consts; lia)) as P.
      destruct sb.
      * exfalso.
        assert (I : SFleb s (S754_infinity true) = true).
        { change (S754_infinity true)
            with (binary_normalize prec emax (- 2 ^ 53) 971 false).
          unfold s. apply binary_normalize_mono with emin; try lia.
          rewrite U. unfold units in *. cbn [cond_Zopp] in *. nia. }
        destruct s as [[] | [] | | [] ? ?]; discriminate.
      * pose proof (ival_bounds s Vs) as [_ B].
        cbn [ival]. unfold units. cbn [cond_Zopp]. nia.
Qed.
End Sum.

(** The same facts on the primitive Numbers. *)

Module Levels.
Import IEEE Round Mono Sum.
Local Open Scope float_scope.

Lemma truthy_nonzero (x : float) :
  IEEE.truthy x = true ->
  match Prim2SF x with S754_zero _ | S754_nan => False | _ => True end.
Proof.
  unfold IEEE.truthy, is_nan, is_zero. rewrite !eqb_spec.
  change (Prim2SF zero) with (S754_zero false).
  destruct (Prim2SF x) as [[] | [] | | [] m e]; cbn; try discriminate; tauto.
Qed.

(** The first level of a long trade with a ratio below 1 is not below the
    target. *)
Lemma first_level_long (entry stop target : float) :
  IEEE.truthy entry = true -> IEEE.truthy target = true ->
  (stop <? entry) = true -> (entry <? target) = true ->
  ((target - entry) / (entry - stop) <? one) = true ->
  (target <=? entry + abs (entry - stop)) = true.
Proof.
  intros Te Tt Hse Het Hr.
  pose proof (F64.sub_positive _ _ Hse) as Prisk.
  pose proof (F64.sub_positive _ _ Het) as Preward.
  rewrite ltb_spec, div_spec in Hr.
  apply div_below_one in Hr; try apply Prim2SF_valid; try now apply has_sign_unsigned.
  rewrite leb_spec, add_spec, abs_spec, (SFabs_positive _ Prisk).
  pose proof (Prim2SF_valid target) as Vt.
  pose proof (Prim2SF_valid (entry - stop)) as Vr.
  rewrite sub_spec in Hr. unfold SF64sub, SF64add in *.
  apply truthy_nonzero in Te, Tt. rewrite ltb_spec in Hse, Het.
  destruct (Prim2SF entry) as [se | se | | se me ee]; try tauto.
  { exfalso. destruct se, (Prim2SF stop) as [[] | [] | | [] ? ?], (Prim2SF target) as [[] | [] | | [] ? ?];
      discriminate. }
  destruct (Prim2SF (entry - stop)) as [sr | sr | | sr mr er]; cbn [has_sign] in Prisk;
    try tauto; subst sr.
  - destruct (Prim2SF target) as [[] | [] | | [] ? ?]; try tauto; reflexivity.
  - destruct (Prim2SF target) as [st | st | | st mt et]; try tauto.
    + destruct st; [discriminate Het | ]. destruct se; discriminate Hr.
    + now apply add_reaches.
Qed.

(** The first level of a short trade with a ratio below 1 is not above the
    target. *)
Lemma first_level_short (entry stop target : float) :
  IEEE.truthy entry = true -> IEEE.truthy target = true ->
  (entry <? stop) = true -> (target <? entry) = true ->
  ((entry - target) / (stop - entry) <? one) = true ->
  (entry - abs (entry - stop) <=? target) = true.
Proof.
  intros Te Tt Hes Hte Hr.
  pose proof (F64.sub_positive _ _ Hes) as Prisk.
  pose proof (F64.sub_positive _ _ Hte) as Preward.
  rewrite ltb_spec, div_spec in Hr.
  apply div_below_one in Hr; try apply Prim2SF_valid; try now apply has_sign_unsigned.
  rewrite leb_spec, sub_spec, abs_spec, sub_spec.
  rewrite ltb_spec in Hes, Hte.
  unfold SF64sub in *.
  rewrite (SFabs_sub_swap _ _ (Prim2SF_valid entry) (Prim2SF_valid stop) Hes).
  pose proof (Prim2SF_valid target) as Vt.
  pose proof (Prim2SF_valid (stop - entry)) as Vr.
  rewrite (sub_spec stop entry) in Hr, Prisk, Vr.
  rewrite (sub_spec entry target) in Hr. unfold SF64sub in *.
  apply truthy_nonzero in Te, Tt.
  destruct (Prim2SF entry) as [se | se | | se me ee]; try tauto.
  { exfalso. destruct se, (Prim2SF stop) as [[] | [] | | [] ? ?], (Prim2SF target) as [[] | [] | | [] ? ?];
      discriminate. }
  destruct (SFsub prec emax (Prim2SF stop) (S754_finite se me ee)) as [sr | sr | | sr mr er];
    cbn [has_sign] in Prisk; try tauto; subst sr.
  - destruct (Prim2SF target) as [[] | [] | | [] ? ?]; try tauto; reflexivity.
  - destruct (Prim2SF target) as [st | st | | st mt et]; try tauto.
    + destruct st; [ | discriminate Hte]. destruct se; discriminate Hr.
    + now apply sub_reaches.
Qed.

Lemma is_finite_SF (x : float) :
  is_finite x = true -> SFis_finite (Prim2SF x) = true.
Proof.
  unfold is_finite, is_nan, is_infinity. rewrite !eqb_spec, abs_spec.
  change (Prim2SF infinity) with (S754_infinity false).
  destruct (Prim2SF x) as [[] | [] | | [] m e]; cbn; try discriminate; reflexivity.
Qed.

(** The midpoint of two Numbers is not below the lower one, when their sum
    is finite. *)
Lemma midpoint_lower (a b : float) :
  IEEE.truthy a = true -> (a <=? b) = true -> is_finite (b + a) = true ->
  (a <=? (b + a) / 2) = true.
Proof.
  intros Ta H F. apply truthy_nonzero in Ta. apply is_finite_SF in F.
  pose proof (Prim2SF_valid (b + a)) as Vs.
  rewrite leb_spec in *. rewrite div_spec. rewrite add_spec in *.
  change (Prim2SF 2) with two. unfold SF64div, SF64add in *.
  pose proof (Prim2SF_valid a) as Va. pose proof (Prim2SF_valid b) as Vb.
  destruct (Prim2SF a) as [sa | sa | | sa ma ea]; try tauto.
  { exfalso. destruct (Prim2SF b) as [[] | [] | | [] ? ?], sa; discriminate. }
  assert (Fb : SFis_finite (Prim2SF b) = true).
  { destruct (Prim2SF b) as [[] | [] | | [] ? ?]; try reflexivity; discriminate. }
  apply half_lower; try assumption.
  now apply sum_ge_double.
Qed.

(** The midpoint of two Numbers is not above the higher one, when their
    sum is finite. *)
Lemma midpoint_upper (a b : float) :
  IEEE.truthy b = true -> (a <=? b) = true -> is_finite (a + b) = true ->
  ((a + b) / 2 <=? b) = true.
Proof.
  intros Tb H F. apply truthy_nonzero in Tb. apply is_finite_SF in F.
  pose proof (Prim2SF_valid (a + b)) as Vs.
  rewrite leb_spec in *. rewrite div_spec. rewrite add_spec in *.
  change (Prim2SF 2) with two. unfold SF64div, SF64add in *.
  pose proof (Prim2SF_valid a) as Va. pose proof (Prim2SF_valid b) as Vb.
  destruct (Prim2SF b) as [sb | sb | | sb mb eb]; try tauto.
  { exfalso. destruct (Prim2SF a) as [[] | [] | | [] ? ?], sb; discriminate. }
  assert (Fa : SFis_finite (Prim2SF a) = true).
  { destruct (Prim2SF a) as [[] | [] | | [] ? ?]; try reflexivity; discriminate. }
  apply half_upper; try assumption.
  now apply sum_le_double.
Qed.

Lemma abs_positive (x : float) : has_sign false (Prim2SF x) -> abs x = x.
Proof.
  intros H. apply Prim2SF_inj. rewrite abs_spec. now apply SFabs_positive.
Qed.

Lemma abs_sub_swap (x y : float) : (x <? y) = true -> abs (x - y) = y - x.
Proof.
  intros H. apply Prim2SF_inj. rewrite abs_spec, !sub_spec.
  rewrite ltb_spec in H. apply SFabs_sub_swap; try apply Prim2SF_valid. exact H.
Qed.

(** A ratio below 1 is not 2 or more. *)
Lemma below_one_not_above (x : float) :
  (x <? one) = true -> (2 <=? x) = false /\ (3 <=? x) = false.
Proof.
  rewrite ltb_spec, !leb_spec. intros H1.
  assert (G : forall c, SFltb (Prim2SF one) c = true -> SFleb c (Prim2SF x) = false).
  { intros c H2.
    destruct (SFleb c (Prim2SF x)) eqn:E; [exfalso | reflexivity].
    apply SF.SFltb_leb in H1.
    pose proof (SF.SFleb_trans _ _ _ E H1) as L.
    apply SFltb_not_le in H2. congruence. }
  split; apply G; reflexivity.
Qed.
End Levels.

(** ** Unrounded arithmetic *)

Module X.
Local Open Scope Q_scope.
Local Open Scope js_scope.

Abbreviation fin := Exact.fin.

Lemma fin_eq (p q : Q) : p == q -> fin p = fin q.
Proof. intros H. unfold Exact.fin. f_equal. now apply Qred_complete. Qed.

Lemma fin_inj (p q : Q) : fin p = fin q -> p == q.
Proof.
  unfold Exact.fin. intros [= H].
  rewrite <- (Qred_correct p), <- (Qred_correct q), H. reflexivity.
Qed.

Lemma Qle_bool_false (p q : Q) : Qle_bool p q = false <-> (q < p)%Q.
Proof.
  rewrite <- not_true_iff_false, Qle_bool_iff. split; [apply Qnot_le_lt | apply Qlt_not_le].
Qed.

Lemma Qeq_bool_false (p q : Q) : Qeq_bool p q = false <-> ~ p == q.
Proof. now rewrite <- not_true_iff_false, Qeq_bool_iff. Qed.

(** The operations on rationals. *)
Lemma add_fin (p q : Q) : fin p + fin q = fin (p + q).
Proof. change (fin (Qred p + Qred q) = fin (p + q)). apply fin_eq. now rewrite !Qred_correct. Qed.

Lemma sub_fin (p q : Q) : fin p - fin q = fin (p - q).
Proof. change (fin (Qred p - Qred q) = fin (p - q)). apply fin_eq. now rewrite !Qred_correct. Qed.

Lemma mul_fin (p q : Q) : fin p * fin q = fin (p * q).
Proof. change (fin (Qred p * Qred q) = fin (p * q)). apply fin_eq. now rewrite !Qred_correct. Qed.

Lemma div_fin (p q : Q) : ~ q == 0 -> fin p / fin q = fin (p / q).
Proof.
  intros H.
  change ((if Exact.is_zero (Qred q)
           then if Exact.is_zero (Qred p) then Exact.NaN
                else Exact.Inf (Exact.is_neg (Qred p))
           else fin (Qred p / Qred q)) = fin (p / q)).
  unfold Exact.is_zero.
  destruct (Qeq_bool (Qred q) 0) eqn:E.
  - apply Qeq_bool_iff in E. rewrite Qred_correct in E. contradiction.
  - apply fin_eq. now rewrite !Qred_correct.
Qed.

Lemma abs_fin (p : Q) : Math_abs (fin p) = fin (Qabs p).
Proof. change (fin (Qabs (Qred p)) = fin (Qabs p)). apply fin_eq. now rewrite Qred_correct. Qed.

Lemma round_fin (p : Q) :
  Math_round (fin p) = fin (inject_Z (Qfloor (p + (1 # 2)))).
Proof.
  change (fin (inject_Z (Qfloor (Qred p + (1 # 2))))
          = fin (inject_Z (Qfloor (p + (1 # 2))))).
  apply fin_eq. now rewrite Qred_correct.
Qed.

Lemma int_fin (n : Z) : int n = fin (inject_Z n).
Proof.
  change (fin (inject_Z n / inject_Z 1) = fin (inject_Z n)). apply fin_eq. field.
Qed.

Lemma lit_fin (m : Z) (k : nat) :
  lit m k = fin (inject_Z m / inject_Z (10 ^ Z.of_nat k)).
Proof. reflexivity. Qed.

Lemma lt_fin (p q : Q) : (fin p <? fin q) = true <-> (p < q)%Q.
Proof.
  change (negb (Qle_bool (Qred q) (Qred p)) = true <-> (p < q)%Q).
  rewrite negb_true_iff, Qle_bool_false, !Qred_correct. reflexivity.
Qed.

Lemma lt_fin_false (p q : Q) : (fin p <? fin q) = false <-> (q <= p)%Q.
Proof.
  change (negb (Qle_bool (Qred q) (Qred p)) = false <-> (q <= p)%Q).
  rewrite negb_false_iff, Qle_bool_iff, !Qred_correct. reflexivity.
Qed.

Lemma le_fin (p q : Q) : (fin p <=? fin q) = true <-> (p <= q)%Q.
Proof.
  change (Qle_bool (Qred p) (Qred q) = true <-> (p <= q)%Q).
  rewrite Qle_bool_iff, !Qred_correct. reflexivity.
Qed.

Lemma le_fin_false (p q : Q) : (fin p <=? fin q) = false <-> (q < p)%Q.
Proof.
  change (Qle_bool (Qred p) (Qred q) = false <-> (q < p)%Q).
  rewrite Qle_bool_false, !Qred_correct. reflexivity.
Qed.

Lemma truthy_fin (p : Q) : truthy (fin p) = true <-> ~ p == 0.
Proof.
  change (negb (Qeq_bool (Qred p) 0) = true <-> ~ p == 0).
  rewrite negb_true_iff, Qeq_bool_false, Qred_correct. reflexivity.
Qed.

Lemma min_fin (p q : Q) :
  Math_min (fin p) (fin q) = fin (if Qle_bool p q then p else q).
Proof.
  change ((if negb (Qle_bool (Qred p) (Qred q)) then fin q else fin p)
          = fin (if Qle_bool p q then p else q)).
  destruct (Qle_bool p q) eqn:E.
  - apply Qle_bool_iff in E. rewrite <- (Qred_correct p), <- (Qred_correct q) in E.
    apply Qle_bool_iff in E. now rewrite E.
  - apply Qle_bool_false in E. rewrite <- (Qred_correct p), <- (Qred_correct q) in E.
    apply Qle_bool_false in E. now rewrite E.
Qed.

Lemma max_fin (p q : Q) :
  Math_max (fin p) (fin q) = fin (if Qle_bool q p then p else q).
Proof.
  change ((if negb (Qle_bool (Qred q) (Qred p)) then fin q else fin p)
          = fin (if Qle_bool q p then p else q)).
  destruct (Qle_bool q p) eqn:E.
  - apply Qle_bool_iff in E. rewrite <- (Qred_correct p), <- (Qred_correct q) in E.
    apply Qle_bool_iff in E. now rewrite E.
  - apply Qle_bool_false in E. rewrite <- (Qred_correct p), <- (Qred_correct q) in E.
    apply Qle_bool_false in E. now rewrite E.
Qed.

(** Rewrite an expression over rationals to a single [fin]. *)
Ltac to_fin :=
  repeat first
    [ rewrite int_fin | rewrite lit_fin | rewrite add_fin | rewrite sub_fin
    | rewrite mul_fin | rewrite abs_fin | rewrite round_fin
    | rewrite min_fin | rewrite max_fin ].

Ltac to_fin_in H :=
  repeat first
    [ rewrite int_fin in H | rewrite lit_fin in H | rewrite add_fin in H
    | rewrite sub_fin in H | rewrite mul_fin in H | rewrite abs_fin in H
    | rewrite round_fin in H | rewrite min_fin in H | rewrite max_fin in H ].

Lemma distances_fin (pt : PositionType) (e s t : Q) :
  distances pt (fin e) (fin s) (fin t)
    = (fin (risk_of pt e s), fin (reward_of pt e t),
       ordered pt (fin e) (fin s) (fin t)).
Proof.
  destruct pt; unfold distances, ordered; to_fin;
    [reflexivity | rewrite andb_comm; reflexivity].
Qed.

Lemma ordered_fin (pt : PositionType) (e s t : Q) :
  ordered pt (fin e) (fin s) (fin t) = true <-> ordered_of pt e s t.
Proof.
  destruct pt; unfold ordered, ordered_of;
    rewrite andb_true_iff, !lt_fin; reflexivity.
Qed.

Lemma accepted_fin (pt : PositionType) (e s t : Q) :
  accepted pt (fin e) (fin s) (fin t) = true <->
  ~ e == 0 /\ ~ s == 0 /\ ~ t == 0 /\ ordered_of pt e s t.
Proof.
  unfold accepted. rewrite distances_fin.
  rewrite !andb_true_iff, !negb_true_iff, !truthy_fin, ordered_fin.
  rewrite int_fin, !le_fin_false. change (inject_Z 0) with 0.
  destruct pt; unfold ordered_of, risk_of, reward_of; intuition lra.
Qed.

(** The distances and the ratio of an accepted trade. *)
Lemma distances_accepted (pt : PositionType) (e s t : Q) (risk reward : Exact.num) :
  accepted pt (fin e) (fin s) (fin t) = true ->
  distances pt (fin e) (fin s) (fin t) = (risk, reward, true) ->
  risk = fin (risk_of pt e s) /\ reward = fin (reward_of pt e t) /\
  reward / risk = fin (reward_of pt e t / risk_of pt e s) /\
  (0 < risk_of pt e s)%Q /\ (0 < reward_of pt e t)%Q.
Proof.
  intros A D. apply accepted_fin in A. destruct A as (_ & _ & _ & A).
  rewrite distances_fin in D. injection D as E1 E2 _. rewrite <- E1, <- E2.
  assert (0 < risk_of pt e s /\ 0 < reward_of pt e t)%Q as [P1 P2].
  { destruct pt; unfold ordered_of, risk_of, reward_of in *; lra. }
  repeat split; try assumption.
  rewrite div_fin; [reflexivity | lra].
Qed.

(** Scaling the three prices by a positive rational keeps the trade
    accepted and its ratio. *)
Lemma accepted_scaled (pt : PositionType) (e s t c : Q) :
  (0 < c)%Q ->
  accepted pt (fin e) (fin s) (fin t) = true ->
  accepted pt (fin e * fin c) (fin s * fin c) (fin t * fin c) = true.
Proof.
  intros Hc. rewrite !mul_fin, !accepted_fin.
  assert (Z : forall x, ~ x == 0 -> ~ x * c == 0).
  { intros x Hx E. apply Hx. nra. }
  destruct pt; unfold ordered_of; intros (He & Hs & Ht & Ho);
    repeat split; try (now apply Z); nra.
Qed.

Lemma ratio_scaled (pt : PositionType) (e s t c : Q) :
  (0 < c)%Q -> (0 < risk_of pt e s)%Q ->
  reward_of pt (e * c) (t * c) / risk_of pt (e * c) (s * c)
  == reward_of pt e t / risk_of pt e s.
Proof.
  intros Hc Hr. destruct pt; unfold risk_of, reward_of in *; field; split; nra.
Qed.

Lemma div_fin_zero (p q : Q) :
  q == 0 -> fin p / fin q = Exact.NaN \/ exists b, fin p / fin q = Exact.Inf b.
Proof.
  intros H.
  change (fin p / fin q) with
    (if Exact.is_zero (Qred q)
     then if Exact.is_zero (Qred p) then Exact.NaN
          else Exact.Inf (Exact.is_neg (Qred p))
     else fin (Qred p / Qred q)).
  unfold Exact.is_zero.
  replace (Qeq_bool (Qred q) 0) with true.
  - destruct (Qeq_bool (Qred p) 0); [now left | right; eauto].
  - symmetry. apply Qeq_bool_iff. now rewrite Qred_correct.
Qed.

(** A quotient of rationals that is a rational has a nonzero divisor. *)
Lemma div_fin_inv (p q v : Q) :
  fin p / fin q = fin v -> ~ q == 0 /\ p / q == v.
Proof.
  intros H. destruct (Qeq_dec q 0) as [Z | Z].
  - destruct (div_fin_zero p q Z) as [E | [b E]]; rewrite E in H; discriminate.
  - split; [assumption | ]. rewrite div_fin in H by assumption. now apply fin_inj.
Qed.

Lemma Qabs_pos_lt (x : Q) : ~ x == 0 -> (0 < Qabs x)%Q.
Proof.
  intros H. pose proof (Qabs_nonneg x) as N.
  destruct (Qeq_dec (Qabs x) 0) as [Z | Z]; [ | lra].
  exfalso. apply H. revert Z. apply Qabs_case; intros; lra.
Qed.

Lemma le_fin_bool (p q : Q) : (fin p <=? fin q) = Qle_bool p q.
Proof.
  destruct (Qle_bool p q) eqn:E.
  - apply le_fin. now apply Qle_bool_iff.
  - apply le_fin_false. now apply Qle_bool_false.
Qed.

Lemma safetyLadder_fin (rpm lev : Q) :
  safetyLadder (fin rpm) (fin lev) = fin (ladderQ rpm lev).
Proof.
  unfold safetyLadder, ladderQ. rewrite !int_fin, !le_fin_bool, !min_fin.
  change (inject_Z 10) with 10. change (inject_Z 5) with 5.
  change (inject_Z 3) with 3. change (inject_Z 2) with 2.
  change (inject_Z 20) with 20.
  destruct (Qle_bool 10 rpm), (Qle_bool 5 rpm), (Qle_bool 3 rpm), (Qle_bool 2 rpm);
    reflexivity.
Qed.

Lemma safetyLadder_NaN (rpm : Exact.num) : safetyLadder rpm Exact.NaN = Exact.NaN.
Proof.
  unfold safetyLadder.
  destruct (int 10 <=? rpm), (int 5 <=? rpm), (int 3 <=? rpm), (int 2 <=? rpm);
    reflexivity.
Qed.

Ltac tests :=
  unfold Qmin, Qmax in *;
  repeat match goal with
    | |- context [Qle_bool ?p ?q] =>
        lazymatch p with
        | context [Qle_bool _ _] => fail
        | _ =>
            lazymatch q with
            | context [Qle_bool _ _] => fail
            | _ =>
                let E := fresh "E" in
                destruct (Qle_bool p q) eqn:E;
                [apply Qle_bool_iff in E | apply Qle_bool_false in E]
            end
        end
    end.

(** The ladder is monotone: a larger move and a smaller leverage give a
    smaller leverage. *)
Lemma ladderQ_mono (p1 p2 r1 r2 : Q) :
  (p1 <= p2)%Q -> (r2 <= r1)%Q -> (ladderQ p2 r2 <= ladderQ p1 r1)%Q.
Proof. intros Hp Hr. unfold ladderQ. tests; lra. Qed.

Lemma clampQ_mono (m o1 o2 : Q) :
  (o2 <= o1)%Q -> (clampQ m o2 <= clampQ m o1)%Q.
Proof.
  intros Ho. unfold clampQ.
  assert (F : (inject_Z (Qfloor (o2 + (1 # 2))) <= inject_Z (Qfloor (o1 + (1 # 2))))%Q).
  { rewrite <- Zle_Qle. apply Qfloor_resp_le. lra. }
  set (n1 := inject_Z (Qfloor (o1 + (1 # 2)))) in *.
  set (n2 := inject_Z (Qfloor (o2 + (1 # 2)))) in *.
  tests; lra.
Qed.

(** A negative optimal leverage is clamped to 1. *)
Lemma clampQ_negative (m o : Q) : (o < 0)%Q -> clampQ m o == 1.
Proof.
  intros Ho. unfold clampQ.
  assert (F : (inject_Z (Qfloor (o + (1 # 2))%Q) <= 0)%Q).
  { pose proof (Qfloor_le (o + (1 # 2))%Q) as L.
    assert (L1 : (inject_Z (Qfloor (o + (1 # 2))%Q) < inject_Z 1)%Q).
    { change (inject_Z 1) with 1%Q. lra. }
    rewrite <- Zlt_Qlt in L1. change 0%Q with (inject_Z 0). rewrite <- Zle_Qle. lia. }
  set (n := inject_Z (Qfloor (o + (1 # 2))%Q)) in *.
  tests; lra.
Qed.

Lemma riskPercentMove_fin (e s : Q) :
  ~ e == 0 ->
  riskPercentMove (fin e) (fin s) = fin (Qabs (e - s) / e * 100).
Proof.
  intros He. unfold riskPercentMove. to_fin. rewrite div_fin by assumption.
  now to_fin.
Qed.

(** The optimal leverage as a function of the move. *)
Lemma optimalLeverage_fin (e s c rp al : Q) :
  ~ e == 0 ->
  optimalLeverage (fin e) (fin s) (fin c) (fin rp) (fin al)
  = fin (c * rp / 100) / fin (c * al / 100 * (Qabs (e - s) / e * 100 / 100)).
Proof.
  intros He. unfold optimalLeverage.
  assert (Z100 : ~ inject_Z 100 == 0) by (change (inject_Z 100) with 100%Q; lra).
  to_fin. rewrite !div_fin by assumption. to_fin.
  rewrite !div_fin by assumption. now to_fin.
Qed.

Lemma recommended_fin (e s c rp al m : Q) :
  ~ e == 0 ->
  optimal (calculateOptimalLeverage (fin e) (fin s) (fin c) (fin rp) (fin al) (fin m))
  = safetyLadder (fin (Qabs (e - s) / e * 100))
      (Math_max (int 1)
         (Math_min (Math_round (optimalLeverage (fin e) (fin s) (fin c) (fin rp) (fin al)))
            (fin m))).
Proof.
  intros He. cbn [calculateOptimalLeverage optimal].
  now rewrite <- (riskPercentMove_fin e s He).
Qed.

Lemma clamp_fin (m o : Q) :
  Math_max (int 1) (Math_min (Math_round (fin o)) (fin m)) = fin (clampQ m o).
Proof. rewrite round_fin, min_fin, int_fin, max_fin. reflexivity. Qed.

(** The clamp of an optimal leverage that is not a rational does not depend
    on the move. *)
Lemma clamp_not_fin (m : Q) (x : Exact.num) :
  (forall q, x <> Exact.Fin q) ->
  let r := Math_max (int 1) (Math_min (Math_round x) (fin m)) in
  r = Exact.NaN \/ exists q, r = fin q.
Proof.
  intros Hx r. subst r. destruct x as [ | [ | ] | q].
  - left. reflexivity.
  - right. exists 1%Q. rewrite int_fin. reflexivity.
  - right. change (Math_min (Math_round (Exact.Inf false)) (fin m)) with (fin m).
    rewrite int_fin, max_fin. eexists. reflexivity.
  - now destruct (Hx q).
Qed.
End X.

(** Accepted trades with rational prices. *)

Lemma ratio_fin (pt : PositionType) (e s t : Q) (risk reward : Exact.num) :
  accepted pt (X.fin e) (X.fin s) (X.fin t) = true ->
  distances pt (X.fin e) (X.fin s) (X.fin t) = (risk, reward, true) ->
  reward / risk = X.fin (reward_of pt e t / risk_of pt e s)
  /\ (0 < risk_of pt e s)%Q.
Proof.
  intros A D. destruct (X.distances_accepted pt e s t risk reward A D)
    as (_ & _ & R & P & _). now split.
Qed.

Lemma ratio_scaled_fin (pt : PositionType) (e s t c : Q)
    (risk reward risk' reward' : Exact.num) :
  (0 < c)%Q ->
  accepted pt (X.fin e) (X.fin s) (X.fin t) = true ->
  distances pt (X.fin e) (X.fin s) (X.fin t) = (risk, reward, true) ->
  distances pt (X.fin e * X.fin c) (X.fin s * X.fin c) (X.fin t * X.fin c)
    = (risk', reward', true) ->
  reward' / risk' = reward / risk.
Proof.
  intros Hc A D D'.
  pose proof (X.accepted_scaled pt e s t c Hc A) as A'.
  rewrite !X.mul_fin in A', D'.
  destruct (ratio_fin pt e s t risk reward A D) as [-> P].
  destruct (ratio_fin pt _ _ _ risk' reward' A' D') as [-> _].
  apply X.fin_eq. now apply X.ratio_scaled.
Qed.

Lemma Sized_fin (st : State Exact.num) (r : Result Exact.num) (e s t : Q) :
  entryPrice st = Exact.fin e -> stopLoss st = Exact.fin s ->
  takeProfit st = Exact.fin t ->
  calculateRiskReward st = Sized r ->
  let risk := risk_of (positionType st) e s in
  let reward := reward_of (positionType st) e t in
  riskPerCoin r = Exact.fin risk /\ rewardPerCoin r = Exact.fin reward /\
  ratio r = Exact.fin (reward / risk) /\
  (0 < risk)%Q /\ (0 < reward)%Q /\ ~ e == 0.
Proof.
  intros He Hs Ht H risk reward.
  assert (A : accepted (positionType st) (X.fin e) (X.fin s) (X.fin t) = true).
  { rewrite <- He, <- Hs, <- Ht. apply Sized_accepted. now exists r. }
  apply Sized_distances in H. destruct H as [D ->]. rewrite He, Hs, Ht in D.
  destruct (X.distances_accepted _ e s t _ _ A D) as (E1 & E2 & E3 & P1 & P2).
  apply X.accepted_fin in A. destruct A as (Z & _).
  now repeat split.
Qed.

(** On an accepted trade the two absolute distances are the risk and the
    reward. *)
Lemma Qabs_distances (pt : PositionType) (e s t : Q) :
  (0 < risk_of pt e s)%Q -> (0 < reward_of pt e t)%Q ->
  Qabs (e - s) == risk_of pt e s /\ Qabs (t - e) == reward_of pt e t.
Proof.
  destruct pt; unfold risk_of, reward_of; intros P1 P2; split.
  - apply Qabs_pos. lra.
  - apply Qabs_pos. lra.
  - rewrite Qabs_neg; lra.
  - rewrite Qabs_neg; lra.
Qed.

(** With rational prices the three levels are rationals. *)
Lemma levels_fin (pt : PositionType) (e s t : Q) :
  let levels := calculatePartialTPLevels (Exact.fin e) (Exact.fin s) (Exact.fin t) pt in
  exists q1 q2,
    price (tp1 levels) = Exact.fin q1 /\ price (tp2 levels) = Exact.fin q2 /\
    price (tp3 levels) = Exact.fin t.
Proof.
  intros levels.
  assert (Z2 : ~ inject_Z 2 == 0) by (change (inject_Z 2) with 2; lra).
  assert (H1 : exists q1, price (tp1 levels) = Exact.fin q1).
  { unfold levels. cbn [calculatePartialTPLevels tp1 price].
    destruct pt; X.to_fin; eexists; reflexivity. }
  destruct H1 as [q1 H1]. exists q1.
  assert (H2 : exists q2, price (tp2 levels) = Exact.fin q2).
  { unfold levels. rewrite tp2_price.
    destruct (_ <=? _); [ | destruct (_ <=? _)];
      destruct pt; X.to_fin; rewrite ?X.div_fin by assumption; eexists; reflexivity. }
  destruct H2 as [q2 H2]. exists q2. now repeat split.
Qed.

(** ** C1: the direction check *)

Section DirectionCheck.
Import IEEE.
Local Open Scope js_scope.

(** The guard of [calculateRiskReward] lets a trade through exactly when
    it is ordered: the two distances of an ordered trade are positive. *)
Lemma guard_ordered (pt : PositionType) (entry stop target : float) :
  (let '(riskPerCoin, rewardPerCoin, isValid) := distances pt entry stop target in
   negb isValid || (riskPerCoin <=? int 0) || (rewardPerCoin <=? int 0))
  = negb (ordered pt entry stop target).
Proof.
  change (@int float ieee 0) with zero.
  destruct pt; cbn [distances ordered lt le sub ieee].
  - destruct (PrimFloat.ltb stop entry) eqn:H1; [ | reflexivity].
    destruct (PrimFloat.ltb entry target) eqn:H2; [ | reflexivity].
    cbn [andb negb orb].
    rewrite (F64.positive_not_le_zero _ (F64.sub_positive _ _ H1)).
    rewrite (F64.positive_not_le_zero _ (F64.sub_positive _ _ H2)).
    reflexivity.
  - rewrite andb_comm.
    destruct (PrimFloat.ltb target entry) eqn:H1; [ | reflexivity].
    destruct (PrimFloat.ltb entry stop) eqn:H2; [ | reflexivity].
    cbn [andb negb orb].
    rewrite (F64.positive_not_le_zero _ (F64.sub_positive _ _ H1)).
    rewrite (F64.positive_not_le_zero _ (F64.sub_positive _ _ H2)).
    reflexivity.
Qed.
End DirectionCheck.

(** C1.  When entry, stop and target all parse to nonzero Numbers,
    [calculateRiskReward] (in both variants of the screen) returns the
    InvalidDirection error, carrying the position type, exactly when the
    directional ordering fails, and a result exactly when it holds:
    [stopLoss < entryPrice < takeProfit] for a long,
    [takeProfit < entryPrice < stopLoss] for a short.  Proved for binary64
    Numbers. *)
Theorem direction_check (st : State float) (st' : Manual.State float) :
  truthy (entryPrice st) && truthy (stopLoss st) && truthy (takeProfit st) = true ->
  truthy (Manual.entryPrice st') && truthy (Manual.stopLoss st')
    && truthy (Manual.takeProfit st') = true ->
  let ok := ordered (positionType st) (entryPrice st) (stopLoss st) (takeProfit st) in
  let ok' := ordered (Manual.positionType st') (Manual.entryPrice st')
               (Manual.stopLoss st') (Manual.takeProfit st') in
  (calculateRiskReward st = InvalidDirection (positionType st) <-> ok = false) /\
  ((exists r, calculateRiskReward st = Sized r) <-> ok = true) /\
  (Manual.calculateRiskReward st' = Manual.InvalidDirection (Manual.positionType st')
     <-> ok' = false) /\
  ((exists r, Manual.calculateRiskReward st' = Manual.Sized r) <-> ok' = true).
Proof.
  intros H H' ok ok'.
  apply andb_true_iff in H. destruct H as [H H3].
  apply andb_true_iff in H. destruct H as [H1 H2].
  apply andb_true_iff in H'. destruct H' as [H' H3'].
  apply andb_true_iff in H'. destruct H' as [H1' H2'].
  unfold calculateRiskReward, Manual.calculateRiskReward.
  rewrite H1, H2, H3, H1', H2', H3'. cbn [negb orb].
  pose proof (guard_ordered (positionType st) (entryPrice st) (stopLoss st)
                (takeProfit st)) as G.
  pose proof (guard_ordered (Manual.positionType st') (Manual.entryPrice st')
                (Manual.stopLoss st') (Manual.takeProfit st')) as G'.
  fold ok in G. fold ok' in G'.
  destruct (distances (positionType st) _ _ _) as [[risk reward] valid].
  destruct (distances (Manual.positionType st') _ _ _) as [[risk' reward'] valid'].
  rewrite G, G'.
  repeat split.
  - destruct ok; cbn [negb]; [ | reflexivity].
    destruct (truthy (totalCapital st)); discriminate.
  - intros ->. reflexivity.
  - destruct ok; cbn [negb]; [reflexivity | ]. intros [r Hr]. discriminate.
  - intros ->. cbn [negb]. destruct (truthy (totalCapital st)); eexists; reflexivity.
  - destruct ok'; cbn [negb]; [ | reflexivity].
    destruct (truthy (Manual.totalCapital st')); discriminate.
  - intros ->. reflexivity.
  - destruct ok'; cbn [negb]; [reflexivity | ]. intros [r Hr]. discriminate.
  - intros ->. cbn [negb].
    destruct (truthy (Manual.totalCapital st')); eexists; reflexivity.
Qed.

Lemma direction_check_scenario :
  (exists r : Result float, calculateRiskReward scenario = Sized r) /\
  (exists r : Manual.Result float, Manual.calculateRiskReward scenario' = Manual.Sized r).
Proof.
  destruct (direction_check scenario scenario') as (_ & H & _ & H');
    [reflexivity | reflexivity | ].
  split; [apply H | apply H']; reflexivity.
Defined.

(** ** C2: the range of the recommended leverage *)

Section LeverageRange.
Import IEEE.

Lemma in_range_min (maxLev lev cap : float) :
  is_integer cap = true -> (int 1 <=? cap) = true ->
  in_range maxLev lev -> in_range maxLev (Math_min lev cap).
Proof.
  intros Ic Lc (Il & L1 & L2). cbn [Math_min ieee].
  destruct (F64.min_cases lev cap) as [[-> _] | [-> Hle]].
  - now apply F64.is_integer_not_nan.
  - now apply F64.is_integer_not_nan.
  - now repeat split.
  - repeat split; try assumption. cbn [le ieee] in *.
    now apply F64.leb_trans with lev.
Qed.

Lemma safetyLadder_in_range (maxLev rpm lev : float) :
  in_range maxLev lev -> in_range maxLev (safetyLadder rpm lev).
Proof.
  intros H. unfold safetyLadder.
  repeat match goal with
         | |- context [if ?c then _ else _] => destruct c
         end; try assumption; apply in_range_min; try assumption; reflexivity.
Qed.

Lemma infinity_not_in_range (maxLev x : float) (s : bool) :
  Prim2SF x = S754_infinity s -> is_integer maxLev = true ->
  (int 1 <=? x) = true -> (x <=? maxLev) = true -> False.
Proof.
  cbn [le ieee]. unfold is_integer. rewrite !leb_spec. intros ->.
  change (Prim2SF (int 1)) with (Prim2SF one).
  destruct (Prim2SF maxLev) as [ | | | sm m e], s; cbn; discriminate.
Qed.
End LeverageRange.

(** C2, amended.  When the maximal leverage is an integer of at least 1 and
    the unrounded optimal leverage is a Number (not NaN), the recommended
    leverage returned by [calculateOptimalLeverage] is an integer in
    [[1, maxLeverage]].  Proved for binary64 Numbers. *)
Theorem leverage_in_range (entry stop capital riskPct allocation maxLev : float) :
  IEEE.is_integer maxLev = true ->
  (int 1 <=? maxLev) = true ->
  is_nan (optimalLeverage entry stop capital riskPct allocation) = false ->
  let lev := optimal (calculateOptimalLeverage entry stop capital riskPct allocation maxLev) in
  IEEE.is_integer lev = true /\ (int 1 <=? lev) = true /\ (lev <=? maxLev) = true.
Proof.
  intros Im L1 Hopt lev. subst lev. cbn [optimal calculateOptimalLeverage].
  apply safetyLadder_in_range.
  set (opt := optimalLeverage entry stop capital riskPct allocation) in *.
  cbn [Math_max Math_min Math_round ieee].
  pose proof (F64.is_integer_not_nan _ Im) as Nm.
  assert (Hro : is_nan (IEEE.round opt) = false).
  { destruct (F64.round_integer opt) as [H | [[H _] | [_ H]]].
    - now apply F64.is_integer_not_nan.
    - apply F64.is_nan_false in Hopt. contradiction.
    - now rewrite H. }
  assert (N1 : is_nan (int 1) = false) by reflexivity.
  destruct (F64.min_cases (IEEE.round opt) maxLev Hro Nm) as [[Em Hm] | [Em Hm]];
    rewrite Em.
  - destruct (F64.max_cases (int 1) (IEEE.round opt) N1 Hro) as [[-> H] | [-> H]].
    + now repeat split.
    + destruct (F64.round_integer opt) as [Hi | [[Hn _] | [[s Hs] Hr]]].
      * now repeat split.
      * apply F64.is_nan_false in Hopt. contradiction.
      * exfalso. rewrite Hr in H, Hm.
        exact (infinity_not_in_range maxLev opt s Hs Im H Hm).
  - destruct (F64.max_cases (int 1) maxLev N1 Nm) as [[-> H] | [-> H]].
    + now repeat split.
    + repeat split; try assumption. now apply F64.leb_refl.
Qed.

(** A maximal leverage of 75, a stop 5% below the entry. *)
Lemma leverage_in_range_scenario :
  let lev := optimal (calculateOptimalLeverage (int 100) (int 95) (int 10000)
                        (int 1) (int 10) (int 75)) in
  IEEE.is_integer lev = true /\ (int 1 <=? lev) = true /\ (lev <=? int 75) = true.
Proof.
  apply (leverage_in_range (int 100) (int 95) (int 10000) (int 1) (int 10) (int 75));
    reflexivity.
Defined.

(** C2 as stated fails: with the maximal-leverage field empty the
    recommendation is NaN; with a maximal leverage of 0.5 it is 1, above the
    maximum; with a maximal leverage of 2.5 it is 2.5, not an integer; and
    with the allocation field empty it is NaN. *)
Lemma leverage_out_of_range :
  let lev maxLev allocation :=
    optimal (calculateOptimalLeverage (int 100) (int 99) (int 10000) (int 1)
               allocation maxLev) in
  is_nan (lev nan (int 10)) = true /\
  (lev (lit 5 1) (int 10) = int 1 /\ (lev (lit 5 1) (int 10) <=? lit 5 1) = false) /\
  (lev (lit 25 1) (int 10) = lit 25 1 /\ IEEE.is_integer (lev (lit 25 1) (int 10)) = false) /\
  is_nan (lev (int 75) nan) = true.
Proof. vm_compute. repeat split. Qed.

(** ** C3: the worked scenario *)

(** C3.  For the long trade entry 100, stop 95, target 115 with capital
    10000, risk 1%, allocation 10% and maximal leverage 75, the result has
    riskPerUnit 5, rewardPerUnit 15, ratio 3, riskPercentMove 5%,
    recommended leverage 2, position value 2000, 20 units held, potential
    loss 100 and potential profit 300 (binary64 evaluation; every value is
    exact). *)
Theorem scenario_values :
  exists (r : Result float) (info : LeverageInfo float),
    calculateRiskReward scenario = Sized r /\
    leverageInfo r = Some info /\
    riskPerCoin r = int 5 /\
    rewardPerCoin r = int 15 /\
    ratio r = int 3 /\
    riskPercentageMove info = int 5 /\
    optimal info = int 2 /\
    positionValue r = int 2000 /\
    recommendedAssets r = int 20 /\
    potentialLoss r = int 100 /\
    potentialProfit r = int 300.
Proof.
  eexists. eexists. split; [vm_compute; reflexivity | ].
  repeat split; vm_compute; reflexivity.
Qed.

(** ** C4: monotonicity of the recommended leverage *)

(** The ladder only caps (binary64). *)
Lemma safetyLadder_caps (rpm lev : float) :
  is_nan lev = false -> (safetyLadder rpm lev <=? lev) = true.
Proof.
  intros Hl. unfold safetyLadder.
  assert (M : forall cap : float, is_nan cap = false ->
                (Math_min lev cap <=? lev) = true).
  { intros cap Hc. cbn [Math_min le ieee].
    destruct (F64.min_cases lev cap Hl Hc) as [[-> _] | [-> H]];
      [now apply F64.leb_refl | assumption]. }
  repeat match goal with
         | |- context [if ?c then _ else _] => destruct c
         end; try (apply M; reflexivity).
  now apply F64.leb_refl.
Qed.

(** In unrounded arithmetic the recommendation is antitone in the move, for
    rational amounts and prices. *)
Lemma recommended_antitone (c rp al m e1 s1 e2 s2 : Q) :
  (0 < e1)%Q -> (0 < e2)%Q -> ~ e1 == s1 -> ~ e2 == s2 ->
  (Qabs (e1 - s1) / e1 * 100 <= Qabs (e2 - s2) / e2 * 100)%Q ->
  let lev e s :=
    optimal (calculateOptimalLeverage (Exact.fin e) (Exact.fin s) (Exact.fin c)
               (Exact.fin rp) (Exact.fin al) (Exact.fin m)) in
  (lev e1 s1 <? lev e2 s2) = false.
Proof.
  intros He1 He2 Hs1 Hs2 Hp lev. subst lev. cbv beta.
  rewrite !X.recommended_fin, !X.optimalLeverage_fin by lra.
  set (p1 := (Qabs (e1 - s1) / e1 * 100)%Q) in *.
  set (p2 := (Qabs (e2 - s2) / e2 * 100)%Q) in *.
  assert (P1 : (0 < p1)%Q).
  { unfold p1. assert (0 < Qabs (e1 - s1))%Q by (apply X.Qabs_pos_lt; lra).
    assert (0 < Qabs (e1 - s1) / e1)%Q by (apply Qlt_shift_div_l; lra). lra. }
  assert (P2 : (0 < p2)%Q) by lra.
  clearbody p1 p2.
  destruct (Qeq_dec (c * al / 100) 0) as [Za | Za].
  - (* no allocated capital: the optimal leverage is not a rational *)
    assert (E : X.fin (c * al / 100 * (p2 / 100)) = X.fin (c * al / 100 * (p1 / 100))).
    { apply X.fin_eq. rewrite Za. ring. }
    rewrite E.
    assert (O : exists x, (forall q, x <> Exact.Fin q) /\
                  X.fin (c * rp / 100) / X.fin (c * al / 100 * (p1 / 100)) = x).
    { destruct (X.div_fin_zero (c * rp / 100) (c * al / 100 * (p1 / 100)))
        as [O | [b O]]; [rewrite Za; ring | | ]; rewrite O;
        eexists; (split; [ | reflexivity]); discriminate. }
    destruct O as (x & Hx & ->).
    destruct (X.clamp_not_fin m x Hx) as [R | [q R]]; rewrite R.
    + rewrite !X.safetyLadder_NaN. reflexivity.
    + rewrite !X.safetyLadder_fin. apply X.lt_fin_false.
      apply X.ladderQ_mono; lra.
  - assert (D : forall p, (0 < p)%Q -> ~ c * al / 100 * (p / 100) == 0).
    { intros p Pp E. apply Qmult_integral in E. destruct E as [E | E]; [now apply Za | ].
      unfold Qdiv in E. change (/ 100)%Q with (1 # 100)%Q in E. lra. }
    pose proof (D p1 P1) as D1. pose proof (D p2 P2) as D2.
    rewrite !X.div_fin by assumption. rewrite !X.clamp_fin, !X.safetyLadder_fin.
    apply X.lt_fin_false. apply X.ladderQ_mono; [assumption | ].
    set (k := (c * rp / 100 / (c * al / 100))%Q).
    set (o1 := (c * rp / 100 / (c * al / 100 * (p1 / 100)))%Q).
    set (o2 := (c * rp / 100 / (c * al / 100 * (p2 / 100)))%Q).
    assert (Zc : ~ c == 0) by (intros E; apply Za; rewrite E; field).
    assert (Zal : ~ al == 0) by (intros E; apply Za; rewrite E; field).
    assert (K1 : o1 * p1 == 100 * k)
      by (unfold o1, k; field; repeat split; try assumption; lra).
    assert (K2 : o2 * p2 == 100 * k)
      by (unfold o2, k; field; repeat split; try assumption; lra).
    destruct (Qlt_le_dec k 0) as [Kn | Kp].
    + assert (o1 < 0)%Q by nra. assert (o2 < 0)%Q by nra.
      rewrite !X.clampQ_negative by assumption. lra.
    + apply X.clampQ_mono. assert (0 <= o1)%Q by nra. nra.
Qed.

(** C4, amended.  On binary64, for fixed capital, risk percentage,
    allocation percentage and maximal leverage (any Numbers, NaN and the
    infinities included), and two entry/stop pairs with positive entry
    prices, the recommended leverage of [calculateOptimalLeverage] is
    non-increasing in the risk-percent move: the pair with the larger move
    never receives a strictly larger leverage.  And each branch of the
    volatility ladder only caps the clamped value: its result is never above
    it. *)
Theorem leverage_monotone
    (entry1 stop1 entry2 stop2 capital riskPct allocation maxLev : float) :
  (int 0 <? entry1) = true -> (int 0 <? entry2) = true ->
  let info e s := calculateOptimalLeverage e s capital riskPct allocation maxLev in
  (riskPercentageMove (info entry1 stop1) <=? riskPercentageMove (info entry2 stop2)) = true ->
  (optimal (info entry1 stop1) <? optimal (info entry2 stop2)) = false /\
  (forall rpm lev : float,
     is_nan lev = false -> (safetyLadder rpm lev <=? lev) = true).
Proof.
  intros He1 He2 info Hle. split; [ | exact safetyLadder_caps].
  subst info. cbv beta in *.
  change (optimal (calculateOptimalLeverage entry1 stop1 capital riskPct allocation maxLev))
    with (leverage_of ((capital * riskPct) / int 100) ((capital * allocation) / int 100)
            maxLev (riskPercentMove entry1 stop1)).
  change (optimal (calculateOptimalLeverage entry2 stop2 capital riskPct allocation maxLev))
    with (leverage_of ((capital * riskPct) / int 100) ((capital * allocation) / int 100)
            maxLev (riskPercentMove entry2 stop2)).
  change ((riskPercentMove entry1 stop1 <=? riskPercentMove entry2 stop2)%float = true) in Hle.
  destruct (Antitone.leb_not_nan _ _ Hle) as [N1 N2].
  apply F64.is_nan_false in N1, N2.
  apply Antitone.leverage_of_antitone; try assumption.
  - destruct (Antitone.riskPercentMove_unsigned entry1 stop1 He1); [congruence | assumption].
  - destruct (Antitone.riskPercentMove_unsigned entry2 stop2 He2); [congruence | assumption].
Qed.

Lemma leverage_monotone_example :
  let info (e s : float) :=
    calculateOptimalLeverage e s (int 10000) (int 1) (int 10) (int 75) in
  (optimal (info (int 100) (int 99)) <? optimal (info (int 100) (int 95))) = false.
Proof.
  refine (proj1 (leverage_monotone (int 100) (int 99) (int 100) (int 95)
                   (int 10000) (int 1) (int 10) (int 75) _ _ _));
    reflexivity.
Defined.

(** C4 as stated fails: prices are not checked to be positive.  The long
    trade with entry -100, stop -105 and target -90 is accepted; its move is
    -5% and its leverage 1, while entry 100 and stop 99.9 give a larger move,
    0.1%, and a larger leverage, 75 (binary64; the same holds in unrounded
    arithmetic). *)
Lemma leverage_not_monotone :
  let info (entry stop : float) :=
    calculateOptimalLeverage entry stop (int 10000) (int 1) (int 10) (int 75) in
  let low := info (int (-100)) (int (-105)) in
  let high := info (int 100) (lit 999 1) in
  (exists r,
     calculateRiskReward
       (trade long (int (-100)) (int (-105)) (int (-90)) (int 10000) (int 1)
          (int 10) (int 75) true (int 50) (int 30)) = Sized r /\
     leverageInfo r = Some low) /\
  riskPercentageMove low = int (-5) /\
  (riskPercentageMove low <? riskPercentageMove high) = true /\
  optimal low = int 1 /\ optimal high = int 75 /\
  (optimal low <? optimal high) = true.
Proof.
  split; [eexists; split; vm_compute; reflexivity | ].
  vm_compute. repeat split.
Qed.

(** ** A scaling that does not round *)

Module Scale.
Import IEEE Round Mono Sum.
Local Open Scope Z_scope.

Lemma target_shift (m e k : Z) :
  emin <= e -> emin <= e + k -> target m (e + k) = target m e + k.
Proof.
  intros H1 H2. unfold target, SpecFloat.fexp. unfold_consts. lia.
Qed.

(** The two shifts of [binary_round_aux] do not depend on the exponent,
    above the least exponent. *)
Lemma core_shift (m e k : Z) (l : location) :
  0 <= m -> emin <= e -> emin <= e + k ->
  core m (e + k) l = (fst (core m e l), snd (core m e l) + k).
Proof.
  intros Hm H1 H2.
  destruct (core_facts m e l Hm) as (C1 & _ & H3 & _).
  destruct (core_facts m (e + k) l Hm) as (C2 & _).
  cbv zeta in *. rewrite C1, C2. cbn [fst snd].
  pose proof (target_ge m e) as [T1 T2].
  rewrite !(target_shift m e k) by assumption.
  replace (target m e + k - (e + k)) with (target m e - e) by lia.
  set (m'' := round_nearest_even _ _).
  rewrite (target_shift m'' (target m e) k) by lia.
  f_equal. f_equal. f_equal. lia.
Qed.

(** A rounding does not depend on the exponent, away from the subnormal
    Numbers and from overflow. *)
Lemma binary_round_aux_shift (s : bool) (m e k : Z) (l : location) :
  0 <= m -> emin <= e -> emin <= e + k ->
  SFis_finite (binary_round_aux prec emax s m e l) = true ->
  (forall s' q e', binary_round_aux prec emax s m e l = S754_finite s' q e' ->
                   e' + k <= emax - prec) ->
  binary_round_aux prec emax s m (e + k) l
  = SFshift k (binary_round_aux prec emax s m e l).
Proof.
  intros Hm H1 H2 F B. rewrite !binary_round_aux_core in *.
  rewrite core_shift by assumption. unfold of_core in *. cbn [fst snd].
  destruct (fst (core m e l)) as [ | q | q]; cbn beta iota in *.
  - reflexivity.
  - destruct (snd (core m e l) <=? emax - prec) eqn:L; try discriminate.
    specialize (B _ _ _ eq_refl). apply Z.leb_le in B. cbn [SFshift]. now rewrite B.
  - discriminate.
Qed.

Lemma shl_align_shift (p : positive) (e f k : Z) :
  shl_align p (e + k) (f + k) = (fst (shl_align p e f), snd (shl_align p e f) + k).
Proof.
  unfold shl_align. replace (f + k - (e + k)) with (f - e) by lia.
  destruct (f - e); reflexivity.
Qed.

Lemma shl_align_snd (p : positive) (e f : Z) :
  snd (shl_align p e f) = Z.min e f.
Proof. unfold shl_align. destruct (f - e) eqn:E; cbn [snd]; lia. Qed.

(** The conversion of a mantissa does not depend on its exponent, away from
    the subnormal Numbers and from overflow. *)
Lemma binary_round_shift (s : bool) (p : positive) (e k : Z) :
  emin + 52 <= e -> emin + 52 <= e + k ->
  SFis_finite (binary_round prec emax s p e) = true ->
  (forall s' q e', binary_round prec emax s p e = S754_finite s' q e' ->
                   e' + k <= emax - prec) ->
  binary_round prec emax s p (e + k) = SFshift k (binary_round prec emax s p e).
Proof.
  intros H1 H2 F B. unfold binary_round in *.
  assert (D : 1 <= Zpos (digits2_pos p)) by lia.
  assert (E : SpecFloat.fexp prec emax (Zpos (digits2_pos p) + (e + k))
              = SpecFloat.fexp prec emax (Zpos (digits2_pos p) + e) + k).
  { unfold SpecFloat.fexp. unfold_consts. lia. }
  rewrite E, shl_align_shift.
  pose proof (shl_align_snd p e (SpecFloat.fexp prec emax (Zpos (digits2_pos p) + e))) as Hs.
  destruct (shl_align p e _) as [mz ez]. cbn [fst snd] in *.
  apply binary_round_aux_shift; try assumption; try lia.
  - subst ez. unfold SpecFloat.fexp. unfold_consts. lia.
  - subst ez. unfold SpecFloat.fexp. unfold_consts. lia.
Qed.

(** The same for an integer of either sign. *)
Lemma binary_normalize_shift (n e k : Z) (b : bool) :
  emin + 52 <= e -> emin + 52 <= e + k ->
  SFis_finite (binary_normalize prec emax n e b) = true ->
  (forall s q e', binary_normalize prec emax n e b = S754_finite s q e' ->
                  e' + k <= emax - prec) ->
  binary_normalize prec emax n (e + k) b = SFshift k (binary_normalize prec emax n e b).
Proof.
  intros H1 H2 F B. destruct n as [ | p | p]; cbn [binary_normalize] in *.
  - reflexivity.
  - now apply binary_round_shift.
  - now apply binary_round_shift.
Qed.

(** The exponent of a conversion, from the size of the integer. *)
Lemma binary_round_exponent (s : bool) (p : positive) (e B X : Z) :
  Zpos p < 2 ^ B -> 0 <= B ->
  e <= X -> B + e - 53 <= X -> emin <= X -> X + 1 <= emax - prec ->
  SFis_finite (binary_round prec emax s p e) = true /\
  (forall s' q e', binary_round prec emax s p e = S754_finite s' q e' -> e' <= X + 1).
Proof.
  intros Hp HB H1 H2 H3 H4.
  destruct (binary_round_aligned s p e) as (mz & ez & -> & Hez & Hmz & Hen).
  rewrite binary_round_aux_core.
  destruct (core_facts (Zpos mz) ez loc_Exact ltac:(lia)) as (C & _ & HE & _).
  cbv zeta in C, HE. rewrite C. unfold of_core. cbn [fst snd].
  set (e' := target (Zpos mz) ez) in *.
  set (E := target _ e') in *.
  assert (Hd : Zdigits2 (Zpos mz) + ez = Zdigits2 (Zpos p) + e).
  { rewrite Hmz, Zdigits2_shift by lia. lia. }
  assert (Hdp : Zdigits2 (Zpos p) <= B) by (apply Zdigits2_le; lia).
  assert (He' : e' <= X).
  { unfold e', target, SpecFloat.fexp. rewrite Hd. unfold_consts. lia. }
  assert (HEX : E <= X + 1) by lia.
  pose proof (core_nonneg (Zpos mz) ez loc_Exact ltac:(lia)) as [N _].
  rewrite C in N. cbn [fst] in N. fold e' in N. fold E in N.
  destruct (_ / _) as [ | q | q]; cbn beta iota.
  - split; [reflexivity | discriminate].
  - assert (L : (E <=? emax - prec) = true) by (apply Z.leb_le; lia).
    rewrite L. split; [reflexivity | ]. intros s' q' e'' [= _ _ <-]. exact HEX.
  - lia.
Qed.

(** An integer of at most [54 + Emax - e] digits at exponent [e], in the
    window: its conversion is finite and shifts with the exponent. *)
Lemma binary_normalize_window (n e k Emax : Z) (b : bool) :
  Z.abs n < 2 ^ (54 + Emax - e) ->
  emin + 53 <= e -> emin + 53 <= e + k ->
  e <= Emax -> Emax <= 969 -> Emax + k <= 969 ->
  binary_normalize prec emax n (e + k) b = SFshift k (binary_normalize prec emax n e b) /\
  SFis_finite (binary_normalize prec emax n e b) = true.
Proof.
  intros Hn H1 H2 H3 H4 H5.
  assert (G : SFis_finite (binary_normalize prec emax n e b) = true /\
              (forall s q e', binary_normalize prec emax n e b = S754_finite s q e' ->
                              e' + k <= emax - prec)).
  { destruct n as [ | p | p]; cbn [binary_normalize].
    - split; [reflexivity | discriminate].
    - destruct (binary_round_exponent false p e (54 + Emax - e) (Emax + 1))
        as [F B]; try (unfold_consts; lia).
      split; [exact F | ]. intros s q e' E. specialize (B s q e' E).
      unfold_consts. lia.
    - destruct (binary_round_exponent true p e (54 + Emax - e) (Emax + 1))
        as [F B]; try (unfold_consts; lia).
      split; [exact F | ]. intros s q e' E. specialize (B s q e' E).
      unfold_consts. lia. }
  destruct G as [F B]. split; [ | exact F].
  apply binary_normalize_shift; try assumption; lia.
Qed.

Lemma units_shifted (e0 k : Z) (s : bool) (m : positive) (e : Z) :
  units (e0 + k) s m (e + k) = units e0 s m e.
Proof. unfold units. f_equal. f_equal. lia. Qed.

Lemma units_abs (e0 : Z) (s : bool) (m : positive) (e Emax : Z) :
  valid_binary (S754_finite s m e) = true -> e0 <= e -> e <= Emax ->
  Z.abs (units e0 s m e) < 2 ^ (53 + Emax - e0).
Proof.
  intros V H1 H2. pose proof (finite_lt_pow s m e V) as B.
  unfold units. rewrite Z.abs_mul.
  replace (Z.abs (cond_Zopp s (Zpos m))) with (Zpos m) by (destruct s; reflexivity).
  rewrite Z.abs_eq by (apply Z.lt_le_incl, pow2_pos; lia).
  apply Z.lt_le_trans with (2 ^ 53 * 2 ^ (e - e0)).
  - apply Z.mul_lt_mono_pos_r; [apply pow2_pos; lia | exact B].
  - rewrite <- pow2_split by lia. apply pow2_le. lia.
Qed.

(** The difference of two finite Numbers of the window is finite, and
    shifts with them. *)
Lemma SFsub_shift (k : Z) (sx : bool) (mx : positive) (ex : Z)
    (sy : bool) (my : positive) (ey : Z) :
  valid_binary (S754_finite sx mx ex) = true ->
  valid_binary (S754_finite sy my ey) = true ->
  -1021 <= ex <= 969 -> -1021 <= ex + k <= 969 ->
  -1021 <= ey <= 969 -> -1021 <= ey + k <= 969 ->
  SFsub prec emax (S754_finite sx mx (ex + k)) (S754_finite sy my (ey + k))
  = SFshift k (SFsub prec emax (S754_finite sx mx ex) (S754_finite sy my ey)) /\
  SFis_finite (SFsub prec emax (S754_finite sx mx ex) (S754_finite sy my ey)) = true.
Proof.
  intros Vx Vy Wx Wx' Wy Wy'. rewrite !SFsub_finite.
  replace (Z.min (ex + k) (ey + k)) with (Z.min ex ey + k) by lia.
  rewrite !units_shifted.
  set (e0 := Z.min ex ey). set (Emax := Z.max ex ey).
  apply binary_normalize_window with (Emax := Emax);
    try (unfold e0, Emax; unfold_consts; lia).
  pose proof (units_abs e0 sx mx ex Emax Vx ltac:(unfold e0; lia) ltac:(unfold Emax; lia)) as Bx.
  pose proof (units_abs e0 sy my ey Emax Vy ltac:(unfold e0; lia) ltac:(unfold Emax; lia)) as By.
  replace (54 + Emax - e0) with (1 + (53 + Emax - e0)) by lia.
  rewrite pow2_split by (unfold e0, Emax; lia).
  change (2 ^ 1) with 2. lia.
Qed.

(** The order does not see a common shift. *)
Lemma SFcompare_shift (k : Z) (x y : spec_float) :
  SFcompare (SFshift k x) (SFshift k y) = SFcompare x y.
Proof.
  destruct x as [sx | sx | | sx mx ex], y as [sy | sy | | sy my ey];
    cbn [SFshift SFcompare]; try reflexivity.
  now rewrite (Z.add_comm ex k), (Z.add_comm ey k), Z.add_compare_mono_l.
Qed.

(** Neither does a quotient of two finite Numbers. *)
Lemma SFdiv_shift (k : Z) (sx : bool) (mx : positive) (ex : Z)
    (sy : bool) (my : positive) (ey : Z) :
  SFdiv prec emax (S754_finite sx mx (ex + k)) (S754_finite sy my (ey + k))
  = SFdiv prec emax (S754_finite sx mx ex) (S754_finite sy my ey).
Proof.
  cbn [SFdiv]. unfold SFdiv_core_binary.
  replace (Zdigits2 (Zpos mx) + (ex + k) - (Zdigits2 (Zpos my) + (ey + k)))
    with (Zdigits2 (Zpos mx) + ex - (Zdigits2 (Zpos my) + ey)) by lia.
  replace (ex + k - (ey + k)) with (ex - ey) by lia.
  reflexivity.
Qed.
End Scale.

Module Pow2.
Import IEEE Round Mono Sum Scale.
Local Open Scope Z_scope.

(** Two Numbers each at most the other, one of them finite and positive,
    are the same Number. *)
Lemma SFleb_antisym (a : spec_float) (m : positive) (e : Z) :
  SFleb a (S754_finite false m e) = true ->
  SFleb (S754_finite false m e) a = true ->
  a = S754_finite false m e.
Proof.
  unfold SFleb.
  destruct a as [[] | [] | | [] ma ea]; cbn [SFcompare]; try discriminate.
  destruct (Z.compare_spec ea e) as [E | E | E], (Z.compare_spec e ea) as [E' | E' | E'];
    try lia; try discriminate.
  subst ea.
  change (PosDef.Pos.compare_cont Eq ma m) with (Pos.compare ma m).
  change (PosDef.Pos.compare_cont Eq m ma) with (Pos.compare m ma).
  destruct (Pos.compare_spec ma m), (Pos.compare_spec m ma);
    try lia; try discriminate. now subst.
Qed.

(** A Number of the window, at the shifted exponent, is a Number of the
    format. *)
Lemma valid_shift (s : bool) (m : positive) (e k : Z) :
  valid_binary (S754_finite s m e) = true ->
  -1021 <= e -> -1021 <= e + k <= 971 ->
  valid_binary (S754_finite s m (e + k)) = true.
Proof.
  intros V H1 H2. pose proof (SF.valid_finite_inv _ _ _ V) as (_ & _ & D).
  cbn [SpecFloat.valid_binary]. unfold bounded, canonical_mantissa.
  apply andb_true_iff. split.
  - apply Z.eqb_eq. unfold SpecFloat.fexp. unfold_consts. lia.
  - apply Z.leb_le. unfold_consts. lia.
Qed.

(** The product of a Number of the format by a power of two is the Number
    at the shifted exponent, when that is a Number of the format. *)
Lemma SFmul_pow2 (s : bool) (m : positive) (e k : Z) :
  valid_binary (S754_finite s m (e + k)) = true ->
  SFmul prec emax (S754_finite s m e) (S754_finite false 4503599627370496 (k - 52))
  = S754_finite s m (e + k).
Proof.
  intros V. cbn [SFmul]. rewrite xorb_false_r.
  assert (U : valid_binary (S754_finite false m (e + k)) = true) by exact V.
  pose proof (binary_round_aux_canonical false m (e + k) U) as C.
  pose proof (SF.valid_finite_inv _ _ _ U) as (Emin & D & _).
  assert (P : Zpos (m * 4503599627370496) = Zpos m * 2 ^ 52) by reflexivity.
  assert (En1 : enough (Zpos (m * 4503599627370496)) (e + (k - 52))).
  { unfold enough. rewrite P, Zdigits2_shift by lia. cbn [Zdigits2].
    cbn [SpecFloat.valid_binary] in U. unfold bounded, canonical_mantissa in U.
    apply andb_true_iff in U. destruct U as [U _]. apply Z.eqb_eq in U.
    replace (Zpos (digits2_pos m) + 52 + (e + (k - 52)))
      with (Zpos (digits2_pos m) + (e + k)) by lia.
    rewrite U. lia. }
  assert (En2 : enough (Zpos m) (e + k)).
  { unfold enough. cbn [Zdigits2].
    cbn [SpecFloat.valid_binary] in U. unfold bounded, canonical_mantissa in U.
    apply andb_true_iff in U. destruct U as [U _]. apply Z.eqb_eq in U.
    rewrite U. lia. }
  assert (Eq : binary_round_aux prec emax false (Zpos (m * 4503599627370496))
                 (e + (k - 52)) loc_Exact = S754_finite false m (e + k)).
  { apply SFleb_antisym; rewrite <- C.
    - apply round_le with (n1 := Zpos (m * 4503599627370496)) (d1 := 1)
                          (n2 := Zpos m) (d2 := 1) (e0 := e + (k - 52));
        try lia; try apply rcode_exact; try assumption.
      rewrite P, Z.sub_diag. replace (e + k - (e + (k - 52))) with 52 by lia. lia.
    - apply round_le with (n1 := Zpos m) (d1 := 1)
                          (n2 := Zpos (m * 4503599627370496)) (d2 := 1)
                          (e0 := e + (k - 52));
        try lia; try apply rcode_exact; try assumption.
      rewrite P, Z.sub_diag. replace (e + k - (e + (k - 52))) with 52 by lia. lia. }
  destruct s; [ | exact Eq].
  change true with (negb false). rewrite <- binary_round_aux_opp, Eq. reflexivity.
Qed.
End Pow2.

Module ScaleF.
Import IEEE Round Mono Sum Levels Scale Pow2.
Local Open Scope float_scope.

Lemma in_window_inv (k : Z) (x : float) :
  in_window k x ->
  exists s m e,
    Prim2SF x = S754_finite s m e /\
    valid_binary (S754_finite s m e) = true /\
    (-1021 <= e <= 969)%Z /\ (-1021 <= e + k <= 969)%Z /\
    valid_binary (S754_finite s m (e + k)) = true.
Proof.
  unfold in_window. pose proof (Prim2SF_valid x) as V.
  destruct (Prim2SF x) as [ | | | s m e]; try tauto. intros [H1 H2].
  exists s, m, e.
  split; [reflexivity | ]. split; [exact V | ]. split; [exact H1 | ].
  split; [exact H2 | ]. apply valid_shift; try assumption; lia.
Qed.

(** A Number of the window times the power of two. *)
Lemma mul_scaled (k : Z) (c x : float) :
  power_of_two k c -> in_window k x -> Prim2SF (x * c) = SFshift k (Prim2SF x).
Proof.
  intros Hc W. destruct (in_window_inv k x W) as (s & m & e & E & _ & _ & _ & V).
  rewrite mul_spec, E, Hc. cbn [SFshift]. now apply SFmul_pow2.
Qed.

Lemma truthy_scaled (k : Z) (c x : float) :
  power_of_two k c -> in_window k x -> IEEE.truthy (x * c) = true.
Proof.
  intros Hc W. pose proof (mul_scaled k c x Hc W) as M.
  destruct (in_window_inv k x W) as (s & m & e & E & _).
  rewrite E in M. cbn [SFshift] in M.
  unfold IEEE.truthy.
  assert (Nn : is_nan (x * c) = false) by (apply F64.is_nan_false; now rewrite M).
  rewrite Nn. unfold is_zero. rewrite eqb_spec, M.
  change (Prim2SF zero) with (S754_zero false). now destruct s.
Qed.

Lemma ltb_scaled (k : Z) (c x y : float) :
  power_of_two k c -> in_window k x -> in_window k y ->
  (x * c <? y * c) = (x <? y).
Proof.
  intros Hc Wx Wy. rewrite !ltb_spec, (mul_scaled k c x Hc Wx), (mul_scaled k c y Hc Wy).
  unfold SFltb. now rewrite SFcompare_shift.
Qed.

(** The difference of two Numbers of the window is finite and scales with
    them. *)
Lemma sub_scaled (k : Z) (c x y : float) :
  power_of_two k c -> in_window k x -> in_window k y ->
  Prim2SF (x * c - y * c) = SFshift k (Prim2SF (x - y)) /\
  SFis_finite (Prim2SF (x - y)) = true.
Proof.
  intros Hc Wx Wy.
  rewrite !sub_spec, (mul_scaled k c x Hc Wx), (mul_scaled k c y Hc Wy).
  destruct (in_window_inv k x Wx) as (sx & mx & ex & -> & Vx & Bx & Bx' & _).
  destruct (in_window_inv k y Wy) as (sy & my & ey & -> & Vy & By & By' & _).
  cbn [SFshift]. now apply SFsub_shift.
Qed.

(** The quotient of two positive finite Numbers does not see a common
    shift. *)
Lemma div_scaled (k : Z) (a b a' b' : float) :
  Prim2SF a' = SFshift k (Prim2SF a) -> Prim2SF b' = SFshift k (Prim2SF b) ->
  has_sign false (Prim2SF a) -> has_sign false (Prim2SF b) ->
  SFis_finite (Prim2SF a) = true -> SFis_finite (Prim2SF b) = true ->
  a' / b' = a / b.
Proof.
  intros Ea Eb Pa Pb Fa Fb. apply Prim2SF_inj. rewrite !div_spec, Ea, Eb.
  destruct (Prim2SF a) as [ | | | sa ma ea]; cbn [has_sign] in Pa; try tauto;
    try discriminate.
  destruct (Prim2SF b) as [ | | | sb mb eb]; cbn [has_sign] in Pb; try tauto;
    try discriminate.
  cbn [SFshift]. apply SFdiv_shift.
Qed.

Lemma leb_zero_scaled (k : Z) (a a' : float) :
  Prim2SF a' = SFshift k (Prim2SF a) -> (a' <=? zero) = (a <=? zero).
Proof.
  intros E. rewrite !leb_spec, E. change (Prim2SF zero) with (SFshift k (S754_zero false)).
  unfold SFleb. rewrite SFcompare_shift. reflexivity.
Qed.

(** The trade of the window scaled by the power of two: it is accepted as
    the trade is, and the quotient of its distances is the same Number. *)
Lemma accepted_pow2 (k : Z) (c : float) (pt : PositionType) (entry stop target : float) :
  power_of_two k c ->
  in_window k entry -> in_window k stop -> in_window k target ->
  accepted pt entry stop target = true ->
  accepted pt (entry * c)%js (stop * c)%js (target * c)%js = true /\
  (let '(risk, reward, _) := distances pt entry stop target in
   let '(risk', reward', _) :=
     distances pt (entry * c)%js (stop * c)%js (target * c)%js in
   (reward' / risk')%js = (reward / risk)%js).
Proof.
  intros Hc We Ws Wt A. unfold accepted in *.
  change (@int float ieee 0) with zero in *.
  cbn [truthy ieee mul]. 
  rewrite !(truthy_scaled k c) by assumption.
  destruct pt; cbn [distances lt le sub mul div ieee] in *;
    rewrite !(ltb_scaled k c) by assumption.
  - destruct (sub_scaled k c entry stop Hc We Ws) as [R FR].
    destruct (sub_scaled k c target entry Hc Wt We) as [W FW].
    rewrite (leb_zero_scaled k _ _ R), (leb_zero_scaled k _ _ W).
    apply andb_prop in A. destruct A as [A A1]. apply andb_prop in A. destruct A as [A A2].
    apply andb_prop in A. destruct A as [A A3]. rewrite A1, A2, A3.
    split; [reflexivity | ].
    apply andb_prop in A3. destruct A3 as [L1 L2].
    apply (div_scaled k); try assumption; now apply F64.sub_positive.
  - destruct (sub_scaled k c stop entry Hc Ws We) as [R FR].
    destruct (sub_scaled k c entry target Hc We Wt) as [W FW].
    rewrite (leb_zero_scaled k _ _ R), (leb_zero_scaled k _ _ W).
    apply andb_prop in A. destruct A as [A A1]. apply andb_prop in A. destruct A as [A A2].
    apply andb_prop in A. destruct A as [A A3]. rewrite A1, A2, A3.
    split; [reflexivity | ].
    apply andb_prop in A3. destruct A3 as [L1 L2].
    apply (div_scaled k); try assumption; now apply F64.sub_positive.
Qed.
End ScaleF.

(** *** Sums and differences are monotone *)

Module AddMono.
Import IEEE Round Mono Sum.
Local Open Scope Z_scope.

(** A sum of two finite Numbers is the conversion of the sum of their
    values. *)
Lemma SFadd_ival (x y : spec_float) :
  valid_binary x = true -> valid_binary y = true ->
  SFis_finite x = true -> SFis_finite y = true ->
  exists n e b,
    SFadd prec emax x y = binary_normalize prec emax n e b /\
    emin <= e /\ n * 2 ^ (e - emin) = ival x + ival y.
Proof.
  intros Vx Vy Fx Fy.
  destruct x as [sx | sx | | sx mx ex], y as [sy | sy | | sy my ey];
    cbn [SFis_finite] in Fx, Fy; try discriminate.
  - exists 0, emin. destruct sx, sy; cbn [SFadd ival];
      [exists true | exists false | exists false | exists false];
      repeat split; lia.
  - exists (cond_Zopp sy (Zpos my)), ey, false. cbn [SFadd ival].
    pose proof (valid_emin _ _ _ Vy) as [E _].
    rewrite binary_normalize_finite by assumption. unfold units. repeat split; lia.
  - exists (cond_Zopp sx (Zpos mx)), ex, false. cbn [SFadd ival].
    pose proof (valid_emin _ _ _ Vx) as [E _].
    rewrite binary_normalize_finite by assumption. unfold units. repeat split; lia.
  - pose proof (valid_emin _ _ _ Vx) as [Ex _].
    pose proof (valid_emin _ _ _ Vy) as [Ey _].
    eexists _, (Z.min ex ey), false. rewrite SFadd_finite.
    split; [reflexivity | ]. split; [lia | ]. cbn [ival].
    now apply sum_units.
Qed.

(** So is a difference. *)
Lemma SFsub_ival (x y : spec_float) :
  valid_binary x = true -> valid_binary y = true ->
  SFis_finite x = true -> SFis_finite y = true ->
  exists n e b,
    SFsub prec emax x y = binary_normalize prec emax n e b /\
    emin <= e /\ n * 2 ^ (e - emin) = ival x - ival y.
Proof.
  intros Vx Vy Fx Fy.
  destruct x as [sx | sx | | sx mx ex], y as [sy | sy | | sy my ey];
    cbn [SFis_finite] in Fx, Fy; try discriminate.
  - exists 0, emin. destruct sx, sy; cbn [SFsub ival];
      [exists false | exists true | exists false | exists false];
      repeat split; lia.
  - exists (cond_Zopp (negb sy) (Zpos my)), ey, false. cbn [SFsub ival].
    pose proof (valid_emin _ _ _ Vy) as [E _].
    rewrite binary_normalize_finite by exact Vy.
    split; [reflexivity | ]. split; [lia | ].
    fold (units emin (negb sy) my ey). rewrite units_opp. lia.
  - exists (cond_Zopp sx (Zpos mx)), ex, false. cbn [SFsub ival].
    pose proof (valid_emin _ _ _ Vx) as [E _].
    rewrite binary_normalize_finite by assumption. unfold units. repeat split; lia.
  - pose proof (valid_emin _ _ _ Vx) as [Ex _].
    pose proof (valid_emin _ _ _ Vy) as [Ey _].
    eexists _, (Z.min ex ey), false. rewrite SFsub_finite.
    split; [reflexivity | ]. split; [lia | ]. cbn [ival].
    rewrite Z.mul_sub_distr_r, <- !units_shift by lia. reflexivity.
Qed.

Lemma binary_normalize_not_nan (n e : Z) (b : bool) :
  binary_normalize prec emax n e b <> S754_nan.
Proof.
  destruct n as [ | p | p]; cbn [binary_normalize]; try discriminate.
  - pose proof (binary_round_unsigned p e) as U.
    destruct (binary_round prec emax false p e); discriminate.
  - rewrite binary_round_opp. pose proof (binary_round_unsigned p e) as U.
    destruct (binary_round prec emax false p e); discriminate.
Qed.

Lemma infinity_le (x : spec_float) :
  x = S754_nan \/ SFleb (S754_infinity true) x = true.
Proof. destruct x as [[] | [] | | [] m e]; (now left) || (now right). Qed.

Lemma le_infinity (x : spec_float) :
  x = S754_nan \/ SFleb x (S754_infinity false) = true.
Proof. destruct x as [[] | [] | | [] m e]; (now left) || (now right). Qed.

(** [x + y] grows with [y], when neither sum is NaN. *)
Lemma SFadd_le_r (x y1 y2 : spec_float) :
  valid_binary x = true -> valid_binary y1 = true -> valid_binary y2 = true ->
  SFleb y1 y2 = true ->
  SFadd prec emax x y1 = S754_nan \/ SFadd prec emax x y2 = S754_nan \/
  SFleb (SFadd prec emax x y1) (SFadd prec emax x y2) = true.
Proof.
  intros Vx V1 V2 H.
  destruct (SFis_finite x) eqn:Fx, (SFis_finite y1) eqn:F1, (SFis_finite y2) eqn:F2.
  - right; right.
    destruct (SFadd_ival x y1 Vx V1 Fx F1) as (n1 & e1 & b1 & -> & E1 & N1).
    destruct (SFadd_ival x y2 Vx V2 Fx F2) as (n2 & e2 & b2 & -> & E2 & N2).
    apply binary_normalize_mono with emin; try assumption.
    pose proof (SFleb_ival y1 y2 V1 V2 F1 F2 H). lia.
  - (* y2 is an infinity or NaN *)
    destruct y2 as [s2 | [] | | s2 m2 e2]; try discriminate.
    + exfalso. destruct y1 as [[] | [] | | [] ? ?]; discriminate.
    + right; right.
      replace (SFadd prec emax x (S754_infinity false)) with (S754_infinity false)
        by (now destruct x as [[] | [] | | [] m e]).
      destruct (le_infinity (SFadd prec emax x y1)) as [E | E]; [ | exact E].
      exfalso. destruct (SFadd_ival _ _ Vx V1 Fx F1) as (n & e' & b & Ea & _).
      rewrite Ea in E. now apply binary_normalize_not_nan in E.
    + exfalso. destruct y1 as [[] | [] | | [] ? ?]; discriminate.
  - (* y1 is an infinity or NaN *)
    destruct y1 as [s1 | [] | | s1 m1 e1]; try discriminate.
    + right; right.
      replace (SFadd prec emax x (S754_infinity true)) with (S754_infinity true)
        by (now destruct x as [[] | [] | | [] m e]).
      destruct (infinity_le (SFadd prec emax x y2)) as [E | E]; [ | exact E].
      exfalso. destruct (SFadd_ival _ _ Vx V2 Fx F2) as (n & e' & b & Ea & _).
      rewrite Ea in E. now apply binary_normalize_not_nan in E.
    + exfalso. destruct y2 as [[] | [] | | [] ? ?]; discriminate.
  - destruct x as [[] | [] | | [] m e]; try discriminate;
      destruct y1 as [[] | [] | | [] m1 e1]; try discriminate;
      destruct y2 as [[] | [] | | [] m2 e2]; try discriminate;
      cbn [SFadd]; auto.
  - destruct x as [[] | [] | | [] m e]; try discriminate;
      destruct y1 as [[] | [] | | [] m1 e1]; try discriminate;
      destruct y2 as [[] | [] | | [] m2 e2]; try discriminate;
      cbn [SFadd]; auto.
  - destruct x as [[] | [] | | [] m e]; try discriminate;
      destruct y1 as [[] | [] | | [] m1 e1]; try discriminate;
      destruct y2 as [[] | [] | | [] m2 e2]; try discriminate;
      cbn [SFadd]; auto.
  - destruct x as [[] | [] | | [] m e]; try discriminate;
      destruct y1 as [[] | [] | | [] m1 e1]; try discriminate;
      destruct y2 as [[] | [] | | [] m2 e2]; try discriminate;
      cbn [SFadd]; auto.
  - destruct x as [[] | [] | | [] m e]; try discriminate;
      destruct y1 as [[] | [] | | [] m1 e1]; try discriminate;
      destruct y2 as [[] | [] | | [] m2 e2]; try discriminate;
      cbn [SFadd]; auto.
Qed.

(** [x - y] shrinks as [y] grows, when neither difference is NaN. *)
Lemma SFsub_le_r (x y1 y2 : spec_float) :
  valid_binary x = true -> valid_binary y1 = true -> valid_binary y2 = true ->
  SFleb y1 y2 = true ->
  SFsub prec emax x y2 = S754_nan \/ SFsub prec emax x y1 = S754_nan \/
  SFleb (SFsub prec emax x y2) (SFsub prec emax x y1) = true.
Proof.
  intros Vx V1 V2 H.
  destruct (SFis_finite x) eqn:Fx, (SFis_finite y1) eqn:F1, (SFis_finite y2) eqn:F2.
  - right; right.
    destruct (SFsub_ival x y1 Vx V1 Fx F1) as (n1 & e1 & b1 & -> & E1 & N1).
    destruct (SFsub_ival x y2 Vx V2 Fx F2) as (n2 & e2 & b2 & -> & E2 & N2).
    apply binary_normalize_mono with emin; try assumption.
    pose proof (SFleb_ival y1 y2 V1 V2 F1 F2 H). lia.
  - (* y2 is an infinity or NaN *)
    destruct y2 as [s2 | [] | | s2 m2 e2]; try discriminate.
    + exfalso. destruct y1 as [[] | [] | | [] ? ?]; discriminate.
    + right; right.
      replace (SFsub prec emax x (S754_infinity false)) with (S754_infinity true)
        by (now destruct x as [[] | [] | | [] m e]).
      destruct (infinity_le (SFsub prec emax x y1)) as [E | E]; [ | exact E].
      exfalso. destruct (SFsub_ival _ _ Vx V1 Fx F1) as (n & e' & b & Ea & _).
      rewrite Ea in E. now apply binary_normalize_not_nan in E.
    + exfalso. destruct y1 as [[] | [] | | [] ? ?]; discriminate.
  - (* y1 is an infinity or NaN *)
    destruct y1 as [s1 | [] | | s1 m1 e1]; try discriminate.
    + right; right.
      replace (SFsub prec emax x (S754_infinity true)) with (S754_infinity false)
        by (now destruct x as [[] | [] | | [] m e]).
      destruct (le_infinity (SFsub prec emax x y2)) as [E | E]; [ | exact E].
      exfalso. destruct (SFsub_ival _ _ Vx V2 Fx F2) as (n & e' & b & Ea & _).
      rewrite Ea in E. now apply binary_normalize_not_nan in E.
    + exfalso. destruct y2 as [[] | [] | | [] ? ?]; discriminate.
  - destruct x as [[] | [] | | [] m e]; try discriminate;
      destruct y1 as [[] | [] | | [] m1 e1]; try discriminate;
      destruct y2 as [[] | [] | | [] m2 e2]; try discriminate;
      cbn [SFsub negb]; auto.
  - destruct x as [[] | [] | | [] m e]; try discriminate;
      destruct y1 as [[] | [] | | [] m1 e1]; try discriminate;
      destruct y2 as [[] | [] | | [] m2 e2]; try discriminate;
      cbn [SFsub negb]; auto.
  - destruct x as [[] | [] | | [] m e]; try discriminate;
      destruct y1 as [[] | [] | | [] m1 e1]; try discriminate;
      destruct y2 as [[] | [] | | [] m2 e2]; try discriminate;
      cbn [SFsub negb]; auto.
  - destruct x as [[] | [] | | [] m e]; try discriminate;
      destruct y1 as [[] | [] | | [] m1 e1]; try discriminate;
      destruct y2 as [[] | [] | | [] m2 e2]; try discriminate;
      cbn [SFsub negb]; auto.
  - destruct x as [[] | [] | | [] m e]; try discriminate;
      destruct y1 as [[] | [] | | [] m1 e1]; try discriminate;
      destruct y2 as [[] | [] | | [] m2 e2]; try discriminate;
      cbn [SFsub negb]; auto.
Qed.
End AddMono.

Module AddMonoF.
Import IEEE Round Mono Sum AddMono.
Local Open Scope float_scope.

Lemma fle_SF (x y : float) :
  Prim2SF x = S754_nan \/ Prim2SF y = S754_nan \/ SFleb (Prim2SF x) (Prim2SF y) = true ->
  fle x y.
Proof.
  intros [H | [H | H]].
  - left. now apply Antitone.is_nan_true.
  - right; left. now apply Antitone.is_nan_true.
  - right; right. now rewrite leb_spec.
Qed.

(** [x + y] grows with [y], up to NaN. *)
Lemma add_fle (x y1 y2 : float) : fle y1 y2 -> fle (x + y1) (x + y2).
Proof.
  intros [H | [H | H]]; apply fle_SF; rewrite !add_spec.
  - left. apply Antitone.is_nan_true in H. rewrite H. now destruct (Prim2SF x).
  - right; left. apply Antitone.is_nan_true in H. rewrite H. now destruct (Prim2SF x).
  - rewrite leb_spec in H. apply SFadd_le_r; try apply Prim2SF_valid. exact H.
Qed.

(** [x - y] shrinks as [y] grows, up to NaN. *)
Lemma sub_fle (x y1 y2 : float) : fle y1 y2 -> fle (x - y2) (x - y1).
Proof.
  intros [H | [H | H]]; apply fle_SF; rewrite !sub_spec.
  - right; left. apply Antitone.is_nan_true in H. rewrite H. now destruct (Prim2SF x).
  - left. apply Antitone.is_nan_true in H. rewrite H. now destruct (Prim2SF x).
  - rewrite leb_spec in H. apply SFsub_le_r; try apply Prim2SF_valid. exact H.
Qed.

(** One and a half times a distance is not beyond twice the distance. *)
Lemma half_more_fle (x : float) : fle (abs x * lit 15 1) (abs x * int 2).
Proof.
  destruct (is_nan x) eqn:Nx.
  - left. apply Antitone.is_nan_true. rewrite mul_spec, abs_spec.
    apply Antitone.is_nan_true in Nx. now rewrite Nx.
  - apply Antitone.ule_fle. rewrite !mul_spec, abs_spec.
    apply F64.is_nan_false in Nx.
    apply SFmul_le.
    + apply Antitone.SFabs_valid, Prim2SF_valid.
    + apply Prim2SF_valid.
    + apply Prim2SF_valid.
    + now apply Antitone.SFabs_unsigned.
    + destruct (Prim2SF x); try discriminate; congruence.
    + right; right. repeat split; reflexivity.
Qed.
End AddMonoF.

(** *** A position that leaves at the final target *)

Module ExitAll.
Import IEEE Round Mono Sum Scale Pow2.
Local Open Scope Z_scope.

Abbreviation SFone := (S754_finite false 4503599627370496 (-52)).

(** A Number times 1 is the Number. *)
Lemma SFmul_one (x : spec_float) :
  valid_binary x = true -> SFmul prec emax x SFone = x.
Proof.
  intros V. destruct x as [[] | [] | | s m e]; try reflexivity.
  pose proof (SFmul_pow2 s m e 0) as H. rewrite Z.add_0_r in H. now apply H.
Qed.

(** The product by a power of two on the left. *)
Lemma SFmul_pow2_l (s : bool) (m : positive) (e k : Z) :
  valid_binary (S754_finite s m (e + k)) = true ->
  SFmul prec emax (S754_finite false 4503599627370496 (k - 52)) (S754_finite s m e)
  = S754_finite s m (e + k).
Proof.
  intros V. rewrite <- (SFmul_pow2 s m e k V). cbn [SFmul].
  now rewrite Pos.mul_comm, Z.add_comm, xorb_false_l, xorb_false_r.
Qed.

(** The sign of a product is the product of the signs. *)
Lemma SFmul_sign (a d : spec_float) :
  SFmul prec emax a (SFabs d) = S754_nan \/
  sign_of (SFmul prec emax a (SFabs d)) = sign_of a.
Proof.
  destruct a as [sa | sa | | sa ma ea], d as [sd | sd | | sd md ed];
    cbn [SFmul SFabs sign_of]; try (now left); try (right; now rewrite xorb_false_r).
  right. rewrite xorb_false_r, binary_round_aux_core. unfold of_core.
  pose proof (core_nonneg (Zpos (ma * md)) (ea + ed) loc_Exact ltac:(lia)) as [N _].
  destruct (fst (core _ _ _)); try lia; try reflexivity.
  now destruct (_ <=? _).
Qed.

(** With nothing sold at the first two levels, a total profit that is a
    Number is the profit of the third leg: the first two legs hold and
    earn a zero of the sign of the position. *)
Lemma total_at_target (a d1 d2 d3 : spec_float) :
  let z := SFmul prec emax a (S754_zero false) in
  let p1 := SFmul prec emax z (SFabs d1) in
  let p2 := SFmul prec emax z (SFabs d2) in
  let p3 := SFmul prec emax a (SFabs d3) in
  SFadd prec emax (SFadd prec emax p1 p2) p3 <> S754_nan ->
  SFadd prec emax (SFadd prec emax p1 p2) p3 = p3 /\
  SFis_finite a = true /\ SFis_finite (SFabs d1) = true /\ SFis_finite (SFabs d2) = true /\
  z = S754_zero (sign_of a) /\ p1 = S754_zero (sign_of a) /\ p2 = S754_zero (sign_of a).
Proof.
  intros z p1 p2 p3 H.
  assert (Fa : SFis_finite a = true).
  { destruct a as [sa | sa | | sa ma ea]; try reflexivity; exfalso; apply H; reflexivity. }
  assert (Z : z = S754_zero (sign_of a)).
  { unfold z. destruct a as [sa | sa | | sa ma ea]; try discriminate;
      cbn [SFmul sign_of]; now rewrite xorb_false_r. }
  assert (F1 : SFis_finite (SFabs d1) = true).
  { destruct d1 as [s1 | s1 | | s1 m1 e1]; try reflexivity; exfalso; apply H;
      unfold p1; rewrite Z; reflexivity. }
  assert (P1 : p1 = S754_zero (sign_of a)).
  { unfold p1. rewrite Z. destruct d1 as [s1 | s1 | | s1 m1 e1]; try discriminate;
      cbn [SFmul SFabs]; now rewrite xorb_false_r. }
  assert (F2 : SFis_finite (SFabs d2) = true).
  { destruct d2 as [s2 | s2 | | s2 m2 e2]; try reflexivity; exfalso; apply H;
      rewrite P1; unfold p2; rewrite Z; cbn [SFmul SFabs SFadd]; reflexivity. }
  assert (P2 : p2 = S754_zero (sign_of a)).
  { unfold p2. rewrite Z. destruct d2 as [s2 | s2 | | s2 m2 e2]; try discriminate;
      cbn [SFmul SFabs]; now rewrite xorb_false_r. }
  repeat split; try assumption.
  rewrite P1, P2.
  replace (SFadd prec emax (S754_zero (sign_of a)) (S754_zero (sign_of a)))
    with (S754_zero (sign_of a)) by (now destruct (sign_of a)).
  destruct (SFmul_sign a d3) as [N | S]; fold p3 in N || fold p3 in S.
  - rewrite N. reflexivity.
  - rewrite <- S. destruct p3 as [[] | [] | | [] m e]; reflexivity.
Qed.
End ExitAll.

(** ** Accepted trades in binary64 *)

Module Trade.
Import IEEE Round Mono Sum Levels.
Local Open Scope float_scope.

(** The two distances of an accepted trade are positive, and they are the
    absolute distances that the levels and the leverage are computed
    from. *)
Lemma Sized_positive (st : State float) (r : Result float) :
  calculateRiskReward st = Sized r ->
  has_sign false (Prim2SF (riskPerCoin r)) /\
  has_sign false (Prim2SF (rewardPerCoin r)) /\
  riskPerCoin r = abs (entryPrice st - stopLoss st) /\
  rewardPerCoin r = abs (takeProfit st - entryPrice st).
Proof.
  intros H. apply Sized_distances in H. destruct H as [D _].
  destruct (positionType st); cbn [distances lt sub ieee] in D;
    injection D as <- <- V; apply andb_prop in V; destruct V as [V1 V2].
  - pose proof (F64.sub_positive _ _ V1) as P1.
    pose proof (F64.sub_positive _ _ V2) as P2.
    repeat split; try assumption; symmetry; now apply abs_positive.
  - pose proof (F64.sub_positive _ _ V1) as P1.
    pose proof (F64.sub_positive _ _ V2) as P2.
    repeat split; try assumption; symmetry; now apply abs_sub_swap.
Qed.

(** The quotient of two positive Numbers has a clear sign bit, or is NaN
    (the quotient of two infinities). *)
Lemma SFdiv_positive (x y : spec_float) :
  has_sign false x -> has_sign false y ->
  unsigned_or_nan (SFdiv prec emax x y).
Proof.
  destruct x as [[] | [] | | [] mx ex]; cbn [has_sign]; try easy;
    destruct y as [[] | [] | | [] my ey]; cbn [has_sign]; try easy; intros _ _.
  - now left.
  - now right.
  - now right.
  - right. apply SFdiv_unsigned.
Qed.

(** It is not NaN when one of the two is finite. *)
Lemma SFdiv_positive_finite (x y : spec_float) :
  has_sign false x -> has_sign false y ->
  SFis_finite x = true \/ SFis_finite y = true ->
  unsigned (SFdiv prec emax x y) = true.
Proof.
  destruct x as [[] | [] | | [] mx ex]; cbn [has_sign]; try easy;
    destruct y as [[] | [] | | [] my ey]; cbn [has_sign]; try easy; intros _ _ F.
  - destruct F as [F | F]; discriminate F.
  - apply SFdiv_unsigned.
Qed.

Lemma ratio_unsigned (st : State float) (r : Result float) :
  calculateRiskReward st = Sized r ->
  unsigned_or_nan (Prim2SF (ratio r)).
Proof.
  intros H. destruct (Sized_positive st r H) as (P1 & P2 & _).
  apply Sized_distances in H. destruct H as [_ ->].
  cbn [div ieee]. rewrite div_spec. now apply SFdiv_positive.
Qed.
End Trade.

(** ** The amounts of a sized position *)

Lemma Sized_amounts {T : Type} {N : JSNumber T} (st : State T) (r : Result T) :
  calculateRiskReward st = Sized r ->
  truthy (totalCapital st) = true ->
  let info := calculateOptimalLeverage (entryPrice st) (stopLoss st) (totalCapital st)
                (riskPercentage st) (assetAllocation st) (maxLeverage st) in
  maxRiskAmount r = (totalCapital st * riskPercentage st) / int 100 /\
  allocatedAmount r = (totalCapital st * assetAllocation st) / int 100 /\
  positionValue r = allocatedAmount r * optimal info /\
  recommendedAssets r = positionValue r / entryPrice st /\
  potentialLoss r = recommendedAssets r * riskPerCoin r /\
  potentialProfit r = recommendedAssets r * rewardPerCoin r.
Proof.
  unfold calculateRiskReward. intros H Hc. rewrite Hc in H. revert H.
  destruct (negb _ || _ || _); try discriminate.
  destruct (distances _ _ _ _) as [[risk reward] valid].
  destruct (negb valid || _ || _); try discriminate.
  intros [= <-]; cbn; repeat split.
Qed.

Lemma Sized_money {T : Type} {N : JSNumber T} (st : State T) (r : Result T) :
  calculateRiskReward st = Sized r ->
  (potentialLoss r = recommendedAssets r * riskPerCoin r /\
   potentialProfit r = recommendedAssets r * rewardPerCoin r) \/
  (recommendedAssets r = int 0 /\ potentialLoss r = int 0 /\ potentialProfit r = int 0).
Proof.
  unfold calculateRiskReward.
  destruct (negb _ || _ || _); try discriminate.
  destruct (distances _ _ _ _) as [[risk reward] valid].
  destruct (negb valid || _ || _); try discriminate.
  destruct (truthy (totalCapital st)); intros [= <-]; cbn;
    [left | right]; repeat split.
Qed.

Module ExitAllF.
Import IEEE Round Mono Sum Scale Pow2 ScaleF ExitAll.
Local Open Scope float_scope.

Lemma mul_one (x : float) : x * 1 = x.
Proof.
  apply Prim2SF_inj. rewrite mul_spec. apply SFmul_one, Prim2SF_valid.
Qed.

(** A Number of the window times the power of two on its left. *)
Lemma mul_scaled_l (k : Z) (c x : float) :
  power_of_two k c -> in_window k x -> Prim2SF (c * x) = SFshift k (Prim2SF x).
Proof.
  intros Hc W. destruct (in_window_inv k x W) as (s & m & e & E & _ & _ & _ & V).
  rewrite mul_spec, E, Hc. cbn [SFshift]. now apply SFmul_pow2_l.
Qed.

Lemma is_zero_SF (x : float) (s : bool) : Prim2SF x = S754_zero s -> is_zero x = true.
Proof.
  intros E. unfold is_zero. rewrite eqb_spec, E. now destruct s.
Qed.

(** The profits of [calculatePartialTPProfits] with both percentages at
    0. *)
Lemma profits_at_zero (st : State float) (levels : TPLevels float)
    (recommendedAssets riskPerCoin entry : float) :
  partialTP1Percent st = int 0 -> partialTP2Percent st = int 0 ->
  let p := calculatePartialTPProfits st levels recommendedAssets riskPerCoin entry in
  let reward := abs (price (tp3 levels) - entry) in
  assets (leg3 p) = recommendedAssets /\
  profit (leg3 p) = recommendedAssets * reward /\
  avgExitRMultiple p = totalProfit p / (recommendedAssets * riskPerCoin) /\
  (is_nan (totalProfit p) = false ->
   totalProfit p = recommendedAssets * reward /\
   assets (leg1 p) = assets (leg2 p) /\ profit (leg1 p) = profit (leg2 p) /\
   is_zero (assets (leg1 p)) = true /\ is_zero (profit (leg1 p)) = true).
Proof.
  intros H1 H2 p reward. subst p.
  cbn [calculatePartialTPProfits assets profit leg1 leg2 leg3 totalProfit avgExitRMultiple].
  rewrite H1, H2. cbn [add sub mul div Math_abs ieee].
  change (@int float ieee 0 / @int float ieee 100) with zero.
  change (@int float ieee 1 - zero - zero) with one.
  rewrite mul_one. fold reward.
  split; [reflexivity | ]. split; [reflexivity | ]. split; [reflexivity | ].
  intros NN. apply F64.is_nan_false in NN.
  rewrite !add_spec, !mul_spec, !abs_spec in NN.
  change (Prim2SF zero) with (S754_zero false) in NN.
  unfold reward in *. rewrite abs_spec in NN.
  destruct (total_at_target _ _ _ _ NN) as (T & Fa & F1 & F2 & Z & P1 & P2).
  split; [ | split; [ | split; [ | split]]].
  - apply Prim2SF_inj. rewrite !add_spec, !mul_spec, !abs_spec.
    change (Prim2SF zero) with (S754_zero false). exact T.
  - reflexivity.
  - apply Prim2SF_inj. rewrite !mul_spec, !abs_spec.
    change (Prim2SF zero) with (S754_zero false).
    unfold SF64mul. rewrite P1. exact (eq_sym P2).
  - apply is_zero_SF with (sign_of (Prim2SF recommendedAssets)).
    rewrite mul_spec. exact Z.
  - apply is_zero_SF with (sign_of (Prim2SF recommendedAssets)).
    rewrite !mul_spec, abs_spec. exact P1.
Qed.
End ExitAllF.

(** *** A rounding is off by one unit in the last place at most *)

Module Near.
Import IEEE Round Mono Sum Scale Pow2.
Local Open Scope Z_scope.

Lemma valid_enough (s : bool) (m : positive) (e : Z) :
  valid_binary (S754_finite s m e) = true -> enough (Zpos m) e.
Proof.
  intros V. cbn [SpecFloat.valid_binary] in V. unfold bounded, canonical_mantissa in V.
  apply andb_true_iff in V. destruct V as [V _]. apply Z.eqb_eq in V.
  unfold enough. cbn [Zdigits2]. rewrite V. lia.
Qed.

(** A mantissa of 53 digits at an exponent of the format is a Number. *)
Lemma valid_normal (s : bool) (m : positive) (e : Z) :
  2 ^ 52 <= Zpos m < 2 ^ 53 -> emin <= e <= 971 ->
  valid_binary (S754_finite s m e) = true.
Proof.
  intros [L U] E.
  assert (D : Zpos (digits2_pos m) = 53).
  { pose proof (Zdigits2_le (Zpos m) 53 ltac:(lia) ltac:(lia) U) as D1.
    pose proof (Zdigits2_gt (Zpos m) 52 ltac:(lia) L) as D2.
    cbn [Zdigits2] in D1, D2. lia. }
  cbn [SpecFloat.valid_binary]. unfold bounded, canonical_mantissa.
  apply andb_true_iff. split; [apply Z.eqb_eq | apply Z.leb_le].
  - rewrite D. unfold SpecFloat.fexp. unfold_consts. lia.
  - unfold_consts. lia.
Qed.

(** The next Number above a normal one. *)
Lemma successor (m : positive) (e : Z) :
  valid_binary (S754_finite false m e) = true -> emin < e -> e <= 970 ->
  exists m' e',
    valid_binary (S754_finite false m' e') = true /\ e <= e' /\
    Zpos m' * 2 ^ (e' - e) = Zpos m + 1 /\
    SFleb (S754_finite false m' e') (S754_finite false m e) = false.
Proof.
  intros V N B. pose proof (normal_mantissa _ _ _ V N) as L.
  pose proof (finite_lt_pow _ _ _ V) as U.
  destruct (Z_lt_le_dec (Zpos m + 1) (2 ^ 53)) as [H | H].
  - exists (m + 1)%positive, e. split; [ | split; [ | split]].
    + apply valid_normal; [ | unfold_consts; lia].
      rewrite Pos2Z.inj_add. lia.
    + lia.
    + rewrite Z.sub_diag, Pos2Z.inj_add. change (2 ^ 0) with 1. lia.
    + unfold SFleb. cbn [SFcompare]. rewrite Z.compare_refl.
      change (PosDef.Pos.compare_cont Eq (m + 1) m) with (Pos.compare (m + 1) m).
      destruct (Pos.compare_spec (m + 1) m); first [reflexivity | lia].
  - exists 4503599627370496%positive, (e + 1). split; [ | split; [ | split]].
    + apply valid_normal; [ | unfold_consts; lia].
      change (Zpos 4503599627370496) with (2 ^ 52). lia.
    + lia.
    + replace (e + 1 - e) with 1 by lia.
      change (Zpos 4503599627370496 * 2 ^ 1) with (2 ^ 53). lia.
    + unfold SFleb. cbn [SFcompare].
      destruct (Z.compare_spec (e + 1) e); first [reflexivity | lia].
Qed.

(** A Number below a normal one, a unit in the last place away at most. *)
Lemma predecessor (m : positive) (e : Z) :
  valid_binary (S754_finite false m e) = true -> emin < e ->
  exists m' e',
    valid_binary (S754_finite false m' e') = true /\ e - 1 <= e' /\
    (Zpos m - 1) * 2 ^ (e - (e - 1)) <= Zpos m' * 2 ^ (e' - (e - 1)) /\
    SFleb (S754_finite false m e) (S754_finite false m' e') = false.
Proof.
  intros V N. pose proof (normal_mantissa _ _ _ V N) as L.
  pose proof (finite_lt_pow _ _ _ V) as U.
  pose proof (valid_emin _ _ _ V) as [_ E].
  replace (e - (e - 1)) with 1 by lia. change (2 ^ 1) with 2.
  destruct (Z_lt_le_dec (2 ^ 52) (Zpos m)) as [H | H].
  - assert (P : exists p, Zpos p = Zpos m - 1).
    { destruct (Zpos m - 1) as [ | p | p] eqn:Ep; try lia. now exists p. }
    destruct P as [p Hp]. exists p, e. split; [ | split; [ | split]].
    + apply valid_normal; [ | unfold_consts; lia]. lia.
    + lia.
    + replace (e - (e - 1)) with 1 by lia. change (2 ^ 1) with 2. lia.
    + unfold SFleb. cbn [SFcompare]. rewrite Z.compare_refl.
      change (PosDef.Pos.compare_cont Eq m p) with (Pos.compare m p).
      destruct (Pos.compare_spec m p); first [reflexivity | lia].
  - exists 9007199254740991%positive, (e - 1). split; [ | split; [ | split]].
    + apply valid_normal; [ | unfold_consts; lia].
      change (Zpos 9007199254740991) with (2 ^ 53 - 1). lia.
    + lia.
    + rewrite Z.sub_diag. change (2 ^ 0) with 1.
      change (Zpos 9007199254740991) with (2 ^ 53 - 1). lia.
    + unfold SFleb. cbn [SFcompare].
      destruct (Z.compare_spec e (e - 1)); first [reflexivity | lia].
Qed.

(** What is rounded to a normal Number is within a unit in the last place
    of it. *)
Lemma round_near (m e : Z) (l : location) (n d : Z) (mF : positive) (eF e0 : Z) :
  0 <= n -> 0 < d ->
  code (shr_record_of_loc m l) = rcode n d -> enough m e ->
  binary_round_aux prec emax false m e l = S754_finite false mF eF ->
  valid_binary (S754_finite false mF eF) = true ->
  emin < eF -> eF <= 970 -> e0 <= e -> e0 < eF ->
  (Zpos mF - 1) * d * 2 ^ (eF - e0) <= n * 2 ^ (e - e0)
  <= (Zpos mF + 1) * d * 2 ^ (eF - e0).
Proof.
  intros Hn Hd Hc Hen HF V N B E0 E0'.
  pose proof (pow2_pos (eF - e0) ltac:(lia)) as PF.
  split.
  - destruct (Z_le_gt_dec ((Zpos mF - 1) * d * 2 ^ (eF - e0)) (n * 2 ^ (e - e0)))
      as [ | G]; [assumption | exfalso].
    destruct (predecessor mF eF V N) as (m' & e' & V' & E' & M & C).
    assert (L : SFleb (binary_round_aux prec emax false m e l)
                      (binary_round_aux prec emax false (Zpos m') e' loc_Exact) = true).
    { apply round_le with (n1 := n) (d1 := d) (n2 := Zpos m') (d2 := 1) (e0 := e0);
        try lia; try assumption; try apply rcode_exact.
      - now apply valid_enough with false.
      - rewrite Z.mul_1_r.
        replace (e' - e0) with ((e' - (eF - 1)) + (eF - 1 - e0)) by lia.
        rewrite pow2_split by lia.
        replace (eF - e0) with (1 + (eF - 1 - e0)) in G by lia.
        rewrite pow2_split in G by lia. change (2 ^ 1) with 2 in G.
        replace (eF - (eF - 1)) with 1 in M by lia. change (2 ^ 1) with 2 in M.
        pose proof (pow2_pos (eF - 1 - e0) ltac:(lia)) as P1.
        nia. }
    rewrite HF, (binary_round_aux_canonical false m' e' V') in L. congruence.
  - destruct (Z_le_gt_dec (n * 2 ^ (e - e0)) ((Zpos mF + 1) * d * 2 ^ (eF - e0)))
      as [ | G]; [assumption | exfalso].
    destruct (successor mF eF V N B) as (m' & e' & V' & E' & M & C).
    assert (L : SFleb (binary_round_aux prec emax false (Zpos m') e' loc_Exact)
                      (binary_round_aux prec emax false m e l) = true).
    { apply round_le with (n1 := Zpos m') (d1 := 1) (n2 := n) (d2 := d) (e0 := e0);
        try lia; try assumption; try apply rcode_exact.
      - now apply valid_enough with false.
      - rewrite Z.mul_1_r.
        replace (e' - e0) with ((e' - eF) + (eF - e0)) by lia.
        rewrite pow2_split by lia. nia. }
    rewrite HF, (binary_round_aux_canonical false m' e' V') in L. congruence.
Qed.
End Near.

Module NearQ.
Import IEEE Round Mono Sum Scale Pow2 Near.
Local Open Scope Q_scope.

Lemma pow2_Q_pos (e : Z) : 0 < 2 ^ e.
Proof. apply Qpower_0_lt. reflexivity. Qed.

Lemma scaled_Q (c t e0 : Z) :
  (e0 <= t)%Z -> inject_Z (c * 2 ^ (t - e0)) * 2 ^ e0 == inject_Z c * 2 ^ t.
Proof.
  intros H. rewrite inject_Z_mult, Zpower_Qpower by lia.
  change (inject_Z 2) with 2.
  rewrite <- Qmult_assoc, <- Qpower_plus by discriminate.
  now replace (t - e0 + e0)%Z with t by lia.
Qed.

Lemma Zle_scaled (a b ta tb e0 : Z) :
  (e0 <= ta)%Z -> (e0 <= tb)%Z ->
  (a * 2 ^ (ta - e0) <= b * 2 ^ (tb - e0))%Z ->
  inject_Z a * 2 ^ ta <= inject_Z b * 2 ^ tb.
Proof.
  intros Ha Hb H. rewrite <- (scaled_Q a ta e0 Ha), <- (scaled_Q b tb e0 Hb).
  apply Qmult_le_compat_r; [now rewrite <- Zle_Qle | ].
  apply Qlt_le_weak, pow2_Q_pos.
Qed.

(** A unit in the last place of a normal Number is [2^-52] of it at
    most. *)
Lemma ulp_relative (m : positive) (e : Z) :
  valid_binary (S754_finite false m e) = true -> (emin < e)%Z ->
  2 ^ e <= SF2Q (S754_finite false m e) * (1 # 4503599627370496).
Proof.
  intros V N. pose proof (normal_mantissa _ _ _ V N) as L.
  cbn [SF2Q cond_Zopp]. pose proof (pow2_Q_pos e) as P.
  assert (H : 4503599627370496 <= inject_Z (Zpos m)).
  { change 4503599627370496 with (inject_Z (2 ^ 52)). now rewrite <- Zle_Qle. }
  setoid_replace (inject_Z (Zpos m) * 2 ^ e * (1 # 4503599627370496))
    with (inject_Z (Zpos m) * (1 # 4503599627370496) * 2 ^ e) by ring.
  setoid_replace (2 ^ e) with (1 * 2 ^ e) at 1 by ring.
  apply Qmult_le_compat_r; [ | now apply Qlt_le_weak].
  lra.
Qed.

(** The product of two positive Numbers that rounds to a normal Number
    [F] is between [F * (1 - 2^-52)] and [F * (1 + 2^-52)]. *)
Lemma SFmul_near (mx : positive) (ex : Z) (my : positive) (ey : Z)
    (mF : positive) (eF : Z) :
  valid_binary (S754_finite false mx ex) = true ->
  valid_binary (S754_finite false my ey) = true ->
  SFmul prec emax (S754_finite false mx ex) (S754_finite false my ey)
  = S754_finite false mF eF ->
  valid_binary (S754_finite false mF eF) = true ->
  (emin < eF)%Z -> (eF <= 970)%Z ->
  let x := SF2Q (S754_finite false mx ex) * SF2Q (S754_finite false my ey) in
  let F := SF2Q (S754_finite false mF eF) in
  F * (1 - (1 # 4503599627370496)) <= x <= F * (1 + (1 # 4503599627370496)).
Proof.
  intros Vx Vy E V N B x F.
  cbn [SFmul xorb] in E.
  set (e0 := Z.min (ex + ey) (eF - 1)).
  destruct (round_near (Zpos (mx * my)) (ex + ey) loc_Exact (Zpos (mx * my)) 1
              mF eF e0 ltac:(lia) ltac:(lia) (rcode_exact _)
              (mul_enough false mx ex false my ey Vx Vy) E V N B
              ltac:(unfold e0; lia) ltac:(unfold e0; lia)) as [Lo Hi].
  rewrite Z.mul_1_r in Lo, Hi.
  apply Zle_scaled in Lo; try (unfold e0; lia).
  apply Zle_scaled in Hi; try (unfold e0; lia).
  pose proof (ulp_relative mF eF V N) as U.
  assert (X : x == inject_Z (Zpos (mx * my)) * 2 ^ (ex + ey)).
  { unfold x. cbn [SF2Q cond_Zopp].
    rewrite Pos2Z.inj_mul, inject_Z_mult, Qpower_plus by discriminate. ring. }
  rewrite X. unfold F in *. cbn [SF2Q cond_Zopp] in *.
  unfold Z.sub in Lo. rewrite inject_Z_plus in Lo, Hi.
  change (inject_Z (- (1))) with (- (1)) in Lo. change (inject_Z 1) with 1 in Hi.
  split; lra.
Qed.

(** The quotient of two positive Numbers that rounds to a normal Number
    [F] is between [F * (1 - 2^-52)] and [F * (1 + 2^-52)]. *)
Lemma SFdiv_near (mx : positive) (ex : Z) (my : positive) (ey : Z)
    (mF : positive) (eF : Z) :
  SFdiv prec emax (S754_finite false mx ex) (S754_finite false my ey)
  = S754_finite false mF eF ->
  valid_binary (S754_finite false mF eF) = true ->
  (emin < eF)%Z -> (eF <= 970)%Z ->
  let x := SF2Q (S754_finite false mx ex) in
  let y := SF2Q (S754_finite false my ey) in
  let F := SF2Q (S754_finite false mF eF) in
  F * (1 - (1 # 4503599627370496)) * y <= x <= F * (1 + (1 # 4503599627370496)) * y.
Proof.
  intros E V N B x y F.
  destruct (SFdiv_finite false mx ex false my ey)
    as (q & e' & l & s & E' & Hs & He & Hc & Hq & Hen).
  rewrite E' in E. cbn [xorb] in E.
  set (e0 := Z.min e' (eF - 1)).
  assert (P : (0 < 2 ^ s)%Z) by (apply Mono.pow2_pos; lia).
  destruct (round_near q e' l (Zpos mx * 2 ^ s) (Zpos my) mF eF e0
              ltac:(lia) ltac:(lia) Hc Hen E V N B
              ltac:(unfold e0; lia) ltac:(unfold e0; lia)) as [Lo Hi].
  apply Zle_scaled in Lo; try (unfold e0; lia).
  apply Zle_scaled in Hi; try (unfold e0; lia).
  pose proof (ulp_relative mF eF V N) as U.
  pose proof (pow2_Q_pos ey) as Py.
  assert (S : inject_Z (Zpos mx * 2 ^ s) * 2 ^ e' * 2 ^ ey == x).
  { unfold x. cbn [SF2Q cond_Zopp].
    rewrite inject_Z_mult, Zpower_Qpower by lia. change (inject_Z 2) with 2.
    rewrite <- !Qmult_assoc, <- !Qpower_plus by discriminate.
    now replace (s + (e' + ey))%Z with ex by lia. }
  assert (Y : 0 < inject_Z (Zpos my)) by (change 0 with (inject_Z 0); now rewrite <- Zlt_Qlt).
  unfold F, y in *. cbn [SF2Q cond_Zopp] in *.
  rewrite !inject_Z_mult in Lo, Hi.
  unfold Z.sub in Lo. rewrite inject_Z_plus in Lo, Hi.
  change (inject_Z (- (1))) with (- (1)) in Lo. change (inject_Z 1) with 1 in Hi.
  rewrite <- S. rewrite inject_Z_mult.
  set (M := inject_Z (Zpos mF)) in *. set (Y' := inject_Z (Zpos my)) in *.
  set (X' := inject_Z (Zpos mx) * inject_Z (2 ^ s) * 2 ^ e') in *.
  set (pF := 2 ^ eF) in *. set (py := 2 ^ ey) in *.
  assert (PF : 0 < pF) by apply pow2_Q_pos.
  split.
  - apply Qle_trans with ((M + - (1)) * Y' * pF * py).
    + setoid_replace (M * pF * (1 - (1 # 4503599627370496)) * (Y' * py))
        with ((M * pF - M * pF * (1 # 4503599627370496)) * (Y' * py)) by ring.
      setoid_replace ((M + - (1)) * Y' * pF * py)
        with ((M * pF - pF) * (Y' * py)) by ring.
      apply Qmult_le_compat_r; [lra | ].
      apply Qlt_le_weak, Qmult_lt_0_compat; assumption.
    + apply Qmult_le_compat_r; [exact Lo | now apply Qlt_le_weak].
  - apply Qle_trans with ((M + 1) * Y' * pF * py).
    + apply Qmult_le_compat_r; [exact Hi | now apply Qlt_le_weak].
    + setoid_replace (M * pF * (1 + (1 # 4503599627370496)) * (Y' * py))
        with ((M * pF + M * pF * (1 # 4503599627370496)) * (Y' * py)) by ring.
      setoid_replace ((M + 1) * Y' * pF * py)
        with ((M * pF + pF) * (Y' * py)) by ring.
      apply Qmult_le_compat_r; [lra | ].
      apply Qlt_le_weak, Qmult_lt_0_compat; assumption.
Qed.
End NearQ.

Module Blend.
Import IEEE Round Mono Sum Scale Pow2 Near NearQ.
Local Open Scope Q_scope.

(** Four roundings, each within [2^-52] of its result, keep the quotient
    of the two products within [2^-49] of the quotient of the two
    factors. *)
Lemma blended_near (A w r P L q v : Q) :
  0 < A -> 0 < w -> 0 < r -> 0 < P -> 0 < L -> 0 < q -> 0 < v ->
  P * (1 - (1 # 4503599627370496)) <= A * w <= P * (1 + (1 # 4503599627370496)) ->
  L * (1 - (1 # 4503599627370496)) <= A * r <= L * (1 + (1 # 4503599627370496)) ->
  q * (1 - (1 # 4503599627370496)) * r <= w <= q * (1 + (1 # 4503599627370496)) * r ->
  v * (1 - (1 # 4503599627370496)) * L <= P <= v * (1 + (1 # 4503599627370496)) * L ->
  Qabs (v - q) <= q * (1 # 562949953421312).
Proof.
  intros HA Hw Hr HP HL Hq Hv [P1 P2] [L1 L2] [Q1 Q2] [V1 V2].
  set (u := 1 # 4503599627370496) in *.
  assert (U0 : 0 < 1 - u) by reflexivity.
  assert (U1 : 0 < 1 + u) by reflexivity.
  (* v (1-u)^2 L <= q (1+u)^2 L *)
  assert (Up : v * ((1 - u) * (1 - u)) * L <= q * ((1 + u) * (1 + u)) * L).
  { apply Qle_trans with (P * (1 - u)).
    - setoid_replace (v * ((1 - u) * (1 - u)) * L) with (v * (1 - u) * L * (1 - u)) by ring.
      apply Qmult_le_compat_r; [exact V1 | now apply Qlt_le_weak].
    - apply Qle_trans with (A * w); [exact P1 | ].
      apply Qle_trans with (A * (q * (1 + u) * r)).
      + apply Qmult_le_l; assumption.
      + setoid_replace (A * (q * (1 + u) * r)) with (q * (1 + u) * (A * r)) by ring.
        setoid_replace (q * ((1 + u) * (1 + u)) * L) with (q * (1 + u) * (L * (1 + u))) by ring.
        apply Qmult_le_l; [ | exact L2].
        apply Qmult_lt_0_compat; assumption. }
  assert (Lo : q * ((1 - u) * (1 - u)) * L <= v * ((1 + u) * (1 + u)) * L).
  { apply Qle_trans with (P * (1 + u)).
    - apply Qle_trans with (A * w); [ | exact P2].
      apply Qle_trans with (A * (q * (1 - u) * r)).
      + setoid_replace (A * (q * (1 - u) * r)) with (q * (1 - u) * (A * r)) by ring.
        setoid_replace (q * ((1 - u) * (1 - u)) * L) with (q * (1 - u) * (L * (1 - u))) by ring.
        apply Qmult_le_l; [ | exact L1].
        apply Qmult_lt_0_compat; assumption.
      + apply Qmult_le_l; assumption.
    - setoid_replace (v * ((1 + u) * (1 + u)) * L) with (v * (1 + u) * L * (1 + u)) by ring.
      apply Qmult_le_compat_r; [exact V2 | now apply Qlt_le_weak]. }
  apply Qmult_le_r in Up; [ | exact HL]. apply Qmult_le_r in Lo; [ | exact HL].
  set (k := 1 # 562949953421312).
  assert (N1 : (1 + u) * (1 + u) <= (1 + k) * ((1 - u) * (1 - u))) by (vm_compute; discriminate).
  assert (N2 : (1 - k) * ((1 + u) * (1 + u)) <= (1 - u) * (1 - u)) by (vm_compute; discriminate).
  assert (S0 : 0 < (1 - u) * (1 - u)) by reflexivity.
  assert (S1 : 0 < (1 + u) * (1 + u)) by reflexivity.
  assert (Hi' : v <= q * (1 + k)).
  { apply (Qmult_le_r _ _ ((1 - u) * (1 - u))); [exact S0 | ].
    apply Qle_trans with (q * ((1 + u) * (1 + u))); [exact Up | ].
    setoid_replace (q * (1 + k) * ((1 - u) * (1 - u)))
      with (q * ((1 + k) * ((1 - u) * (1 - u)))) by ring.
    apply Qmult_le_l; assumption. }
  assert (Lo' : q * (1 - k) <= v).
  { apply (Qmult_le_r _ _ ((1 + u) * (1 + u))); [exact S1 | ].
    apply Qle_trans with (q * ((1 - u) * (1 - u))); [ | exact Lo].
    setoid_replace (q * (1 - k) * ((1 + u) * (1 + u)))
      with (q * ((1 - k) * ((1 + u) * (1 + u)))) by ring.
    apply Qmult_le_l; assumption. }
  apply Qabs_Qle_condition. split; lra.
Qed.
End Blend.

Module BlendF.
Import IEEE Round Mono Sum Scale Pow2 Near NearQ Blend.
Local Open Scope float_scope.

Lemma SF2Q_pos (m : positive) (e : Z) : (0 < SF2Q (S754_finite false m e))%Q.
Proof.
  cbn [SF2Q cond_Zopp]. apply Qmult_lt_0_compat; [reflexivity | apply pow2_Q_pos].
Qed.

(** A product by a positive Number that is a positive finite Number is the
    product of two positive finite Numbers. *)
Lemma SFmul_positive_inv (a w : spec_float) (mP : positive) (eP : Z) :
  has_sign false w ->
  SFmul prec emax a w = S754_finite false mP eP ->
  exists ma ea mw ew, a = S754_finite false ma ea /\ w = S754_finite false mw ew.
Proof.
  intros Pw E.
  destruct w as [ | [] | | [] mw ew]; cbn [has_sign] in Pw; try discriminate;
    try contradiction;
    destruct a as [sa | sa | | [] ma ea]; try discriminate E.
  - exfalso. cbn [SFmul xorb] in E.
    change true with (negb false) in E. rewrite <- binary_round_aux_opp in E.
    pose proof (binary_round_aux_unsigned (Zpos (ma * mw)) (ea + ew) loc_Exact
                  ltac:(lia)) as U.
    destruct (binary_round_aux prec emax false _ _ _) as [[] | [] | | [] ? ?];
      discriminate.
  - now exists ma, ea, mw, ew.
Qed.

(** The quotient of the two products [a * w] and [a * r] against the
    quotient of [w] and [r]: they differ by [2^-49] of the latter at most,
    when the four results are normal. *)
Lemma quotient_of_products (a w r : float) :
  has_sign false (Prim2SF w) -> has_sign false (Prim2SF r) ->
  normal (a * w) -> normal (a * r) -> normal (w / r) -> normal (a * w / (a * r)) ->
  (Qabs (value (a * w / (a * r)) - value (w / r))
   <= value (w / r) * (1 # 562949953421312))%Q.
Proof.
  intros Pw Pr NP NL Nq Nv. unfold normal, value in *.
  pose proof (Prim2SF_valid a) as Va. pose proof (Prim2SF_valid w) as Vw.
  pose proof (Prim2SF_valid r) as Vr.
  pose proof (Prim2SF_valid (a * w)) as VP. pose proof (Prim2SF_valid (a * r)) as VL.
  pose proof (Prim2SF_valid (w / r)) as Vq.
  pose proof (Prim2SF_valid (a * w / (a * r))) as Vv.
  rewrite (div_spec (a * w)) in *. rewrite (div_spec w) in *.
  destruct (Prim2SF (a * w)) as [ | | | [] mP eP] eqn:EP; try contradiction.
  destruct (Prim2SF (a * r)) as [ | | | [] mL eL] eqn:EL; try contradiction.
  rewrite mul_spec in EP, EL.
  destruct (SFmul_positive_inv _ _ _ _ Pw EP) as (ma & ea & mw & ew & Ea & Ew).
  destruct (SFmul_positive_inv _ _ _ _ Pr EL) as (ma' & ea' & mr & er & _ & Er).
  rewrite Ea, Ew, Er in *.
  destruct (SF64div (S754_finite false mw ew) (S754_finite false mr er))
    as [ | | | [] mq eq] eqn:Eq; try contradiction.
  destruct (SF64div (S754_finite false mP eP) (S754_finite false mL eL))
    as [ | | | [] mv ev] eqn:Ev; try contradiction.
  unfold SF64div, SF64mul in *.
  apply blended_near with (A := SF2Q (S754_finite false ma ea))
                          (w := SF2Q (S754_finite false mw ew))
                          (r := SF2Q (S754_finite false mr er))
                          (P := SF2Q (S754_finite false mP eP))
                          (L := SF2Q (S754_finite false mL eL));
    try apply SF2Q_pos.
  - apply SFmul_near; try assumption; unfold_consts; lia.
  - apply SFmul_near; try assumption; unfold_consts; lia.
  - apply SFdiv_near; try assumption; unfold_consts; lia.
  - apply SFdiv_near; try assumption; unfold_consts; lia.
Qed.
End BlendF.

(** ** C5: scale invariance of the ratio *)

(** In unrounded arithmetic the ratio is scale-invariant for every positive
    constant: for every accepted trade with rational prices, long or short,
    in either variant of the screen, and every positive rational [c], the
    trade with entry, stop and target multiplied by [c] is accepted and has
    the same ratio.  (On binary64 this fails
    for constants that are not powers of two, as shown below.) *)
Lemma ratio_scale_invariant_unrounded
    (st : State Exact.num) (st' : Manual.State Exact.num)
    (r : Result Exact.num) (r' : Manual.Result Exact.num)
    (e s t e' s' t' c : Q) :
  entryPrice st = Exact.fin e -> stopLoss st = Exact.fin s ->
  takeProfit st = Exact.fin t ->
  Manual.entryPrice st' = Exact.fin e' -> Manual.stopLoss st' = Exact.fin s' ->
  Manual.takeProfit st' = Exact.fin t' ->
  (0 < c)%Q ->
  calculateRiskReward st = Sized r ->
  Manual.calculateRiskReward st' = Manual.Sized r' ->
  (exists rc, calculateRiskReward (scaled (Exact.fin c) st) = Sized rc /\
              ratio rc = ratio r) /\
  (exists rc, Manual.calculateRiskReward (scaled' (Exact.fin c) st') = Manual.Sized rc /\
              Manual.ratio rc = Manual.ratio r').
Proof.
  intros He Hs Ht He' Hs' Ht' Hc H H'. split.
  - assert (A : accepted (positionType st) (X.fin e) (X.fin s) (X.fin t) = true).
    { rewrite <- He, <- Hs, <- Ht. apply Sized_accepted. now exists r. }
    destruct (proj2 (Sized_accepted (scaled (Exact.fin c) st))) as [rc Hrc].
    { cbn [scaled positionType entryPrice stopLoss takeProfit].
      rewrite He, Hs, Ht. now apply X.accepted_scaled. }
    exists rc. split; [assumption | ].
    apply Sized_distances in H. destruct H as [D ->].
    apply Sized_distances in Hrc. destruct Hrc as [Dc ->].
    cbn [scaled positionType entryPrice stopLoss takeProfit] in Dc.
    rewrite He, Hs, Ht in D, Dc.
    exact (ratio_scaled_fin _ e s t c _ _ _ _ Hc A D Dc).
  - assert (A : accepted (Manual.positionType st') (X.fin e') (X.fin s') (X.fin t') = true).
    { rewrite <- He', <- Hs', <- Ht'. apply Manual_Sized_accepted. now exists r'. }
    destruct (proj2 (Manual_Sized_accepted (scaled' (Exact.fin c) st'))) as [rc Hrc].
    { cbn [scaled' Manual.positionType Manual.entryPrice Manual.stopLoss Manual.takeProfit].
      rewrite He', Hs', Ht'. now apply X.accepted_scaled. }
    exists rc. split; [assumption | ].
    apply Manual_Sized_distances in H'. destruct H' as [D ->].
    apply Manual_Sized_distances in Hrc. destruct Hrc as [Dc ->].
    cbn [scaled' Manual.positionType Manual.entryPrice Manual.stopLoss Manual.takeProfit] in Dc.
    rewrite He', Hs', Ht' in D, Dc.
    exact (ratio_scaled_fin _ e' s' t' c _ _ _ _ Hc A D Dc).
Qed.

(** C5, amended.  On binary64 the ratio is invariant under a scaling by a
    power of two that keeps the prices in range: when [c] is the Number
    [2^k] and entry, stop and target, and their products by [c], have
    magnitudes from [2^-969] up to, not including, [2^1022], then for every
    accepted trade, long or short, in either variant of the screen, the
    trade with entry, stop and target multiplied by [c] is accepted and its
    ratio is the same Number, bit for bit.  (For other constants the three
    products can round, and the scaled trade can be rejected or have
    another ratio.) *)
Theorem ratio_scale_invariant (k : Z) (c : float) :
  power_of_two k c ->
  (forall (st : State float) (r : Result float),
     in_window k (entryPrice st) -> in_window k (stopLoss st) ->
     in_window k (takeProfit st) ->
     calculateRiskReward st = Sized r ->
     exists rc, calculateRiskReward (scaled c st) = Sized rc /\ ratio rc = ratio r) /\
  (forall (st : Manual.State float) (r : Manual.Result float),
     in_window k (Manual.entryPrice st) -> in_window k (Manual.stopLoss st) ->
     in_window k (Manual.takeProfit st) ->
     Manual.calculateRiskReward st = Manual.Sized r ->
     exists rc, Manual.calculateRiskReward (scaled' c st) = Manual.Sized rc /\
                Manual.ratio rc = Manual.ratio r).
Proof.
  intros Hc. split.
  - intros st r We Ws Wt H.
    assert (A : accepted (positionType st) (entryPrice st) (stopLoss st) (takeProfit st)
                = true) by (apply Sized_accepted; now exists r).
    destruct (ScaleF.accepted_pow2 k c _ _ _ _ Hc We Ws Wt A) as [Ac Q].
    destruct (proj2 (Sized_accepted (scaled c st)) Ac) as [rc Hrc].
    exists rc. split; [exact Hrc | ].
    apply Sized_distances in H. destruct H as [D ->].
    apply Sized_distances in Hrc. destruct Hrc as [Dc ->].
    cbn [scaled positionType entryPrice stopLoss takeProfit] in Dc.
    rewrite D, Dc in Q. exact Q.
  - intros st r We Ws Wt H.
    assert (A : accepted (Manual.positionType st) (Manual.entryPrice st)
                  (Manual.stopLoss st) (Manual.takeProfit st) = true)
      by (apply Manual_Sized_accepted; now exists r).
    destruct (ScaleF.accepted_pow2 k c _ _ _ _ Hc We Ws Wt A) as [Ac Q].
    destruct (proj2 (Manual_Sized_accepted (scaled' c st)) Ac) as [rc Hrc].
    exists rc. split; [exact Hrc | ].
    apply Manual_Sized_distances in H. destruct H as [D ->].
    apply Manual_Sized_distances in Hrc. destruct Hrc as [Dc ->].
    cbn [scaled' Manual.positionType Manual.entryPrice Manual.stopLoss
         Manual.takeProfit] in Dc.
    rewrite D, Dc in Q. exact Q.
Qed.

(** The worked scenario with its prices divided by 8: entry 12.5, stop
    11.875 and target 14.375 have the ratio 3 of the scenario. *)
Lemma ratio_scale_invariant_scenario :
  (exists rc, calculateRiskReward (T:=float) (scaled (lit 125 3) scenario) = Sized rc /\
              ratio rc = int 3) /\
  (exists rc, Manual.calculateRiskReward (T:=float) (scaled' (lit 125 3) scenario')
                = Manual.Sized rc /\
              Manual.ratio rc = int 3).
Proof.
  assert (Hc : power_of_two (-3) (lit 125 3)) by (vm_compute; reflexivity).
  destruct (ratio_scale_invariant (-3) (lit 125 3) Hc) as [H H'].
  eassert (E : calculateRiskReward (T:=float) scenario = Sized _)
    by (vm_compute; reflexivity).
  eassert (E' : Manual.calculateRiskReward (T:=float) scenario' = Manual.Sized _)
    by (vm_compute; reflexivity).
  split.
  - assert (We : in_window (-3) (entryPrice (T:=float) scenario)) by (vm_compute; repeat split; discriminate).
    assert (Ws : in_window (-3) (stopLoss (T:=float) scenario))
      by (vm_compute; repeat split; discriminate).
    assert (Wt : in_window (-3) (takeProfit (T:=float) scenario))
      by (vm_compute; repeat split; discriminate).
    destruct (H scenario _ We Ws Wt E) as (rc & H1 & H2).
    exists rc. split; [exact H1 | ]. rewrite H2. reflexivity.
  - assert (We : in_window (-3) (Manual.entryPrice (T:=float) scenario'))
      by (vm_compute; repeat split; discriminate).
    assert (Ws : in_window (-3) (Manual.stopLoss (T:=float) scenario'))
      by (vm_compute; repeat split; discriminate).
    assert (Wt : in_window (-3) (Manual.takeProfit (T:=float) scenario'))
      by (vm_compute; repeat split; discriminate).
    destruct (H' scenario' _ We Ws Wt E') as (rc & H1 & H2).
    exists rc. split; [exact H1 | ]. rewrite H2. reflexivity.
Defined.

(** C5 as stated fails in binary64.  The scenario has ratio 3; with entry,
    stop and target multiplied by 0.01 (1, 0.9500000000000001 and
    1.1500000000000001) the ratio is above 3, and for the trade entered as
    1, 0.95 and 1.15 it is below 3.  The long trade with entry
    100.00000000000003, stop 100.00000000000001 and target
    100.00000000000006 is accepted with ratio 2; multiplied by 0.01 it is
    rejected (entry and stop both become 1.0000000000000002), multiplied by
    5 it has ratio 3, and multiplied by 3 it has ratio 1.  Out of range a
    power of two fails as well: the long trade of 4, 3 and 7 times the
    smallest Number has ratio 3 and is rejected when halved, and the long
    trade 1e308, 0.9e308, 1.3e308 is rejected when doubled. *)
Lemma ratio_not_scale_invariant :
  (exists r rc rd : Result float,
     calculateRiskReward scenario = Sized r /\
     calculateRiskReward (scaled (lit 1 2) scenario) = Sized rc /\
     calculateRiskReward
       (trade long (int 1) (lit 95 2) (lit 115 2) (int 10000) (int 1) (int 10) (int 75)
          true (int 50) (int 30)) = Sized rd /\
     ratio r = int 3 /\
     (ratio r <? ratio rc) = true /\
     (ratio rd <? ratio r) = true) /\
  (let st := trade long 0x1.9000000000002p+6%float 0x1.9000000000001p+6%float
               0x1.9000000000004p+6%float (int 10000) (int 1) (int 10) (int 75)
               true (int 50) (int 30) in
   exists r r5 r3 : Result float,
     calculateRiskReward st = Sized r /\ ratio r = int 2 /\
     calculateRiskReward (scaled (lit 1 2) st) = InvalidDirection long /\
     calculateRiskReward (scaled (int 5) st) = Sized r5 /\ ratio r5 = int 3 /\
     calculateRiskReward (scaled (int 3) st) = Sized r3 /\ ratio r3 = int 1) /\
  (let st := trade long 0x1p-1072%float 0x0.cp-1072%float 0x1.cp-1072%float
               (int 10000) (int 1) (int 10) (int 75) true (int 50) (int 30) in
   exists r : Result float,
     power_of_two (-1) (lit 5 1) /\
     calculateRiskReward st = Sized r /\ ratio r = int 3 /\
     calculateRiskReward (scaled (lit 5 1) st) = InvalidDirection long) /\
  (let st := trade long 0x1.1ccf385ebc8a0p+1023%float 0x1.005419221015dp+1023%float
               0x1.72409614c1e6ap+1023%float
               (int 10000) (int 1) (int 10) (int 75) true (int 50) (int 30) in
   exists r : Result float,
     power_of_two 1 (int 2) /\
     calculateRiskReward st = Sized r /\
     calculateRiskReward (scaled (int 2) st) = InvalidDirection long).
Proof.
  split; [ | split; [ | split]].
  - do 3 eexists. repeat split; vm_compute; reflexivity.
  - do 3 eexists. repeat split; vm_compute; reflexivity.
  - eexists. repeat split; vm_compute; reflexivity.
  - eexists. repeat split; vm_compute; reflexivity.
Qed.

(** ** C6: the blended exit multiple *)

(** In unrounded arithmetic, for every accepted trade with rational prices,
    partial take-profits enabled and both percentages 0, if the number of
    units held is a nonzero rational (so the capital is present, and the
    allocation and the leverage are not zero), the [avgExitRMultiple] of
    [calculatePartialTPProfits] is the single-exit ratio.  (On binary64
    the two products round, as shown below.) *)
Lemma exit_multiple_is_ratio_unrounded
    (st : State Exact.num) (r : Result Exact.num) (e s t u : Q) :
  entryPrice st = Exact.fin e -> stopLoss st = Exact.fin s ->
  takeProfit st = Exact.fin t ->
  enablePartialTP st = true ->
  partialTP1Percent st = int 0 -> partialTP2Percent st = int 0 ->
  calculateRiskReward st = Sized r ->
  recommendedAssets r = Exact.fin u -> ~ u == 0 ->
  exists p, partialTPProfits r = Some p /\ avgExitRMultiple p = ratio r.
Proof.
  intros He Hs Ht Hen H1 H2 H Hu Hu0.
  destruct (Sized_fin st r e s t He Hs Ht H) as (R1 & _ & R & P1 & P2 & _).
  destruct (Qabs_distances _ e s t P1 P2) as [_ A2].
  assert (Hc : truthy (totalCapital st) = true).
  { destruct (truthy (totalCapital st)) eqn:E; [reflexivity | exfalso].
    destruct (Sized_unsized st r H E) as [E0 _].
    rewrite Hu, X.int_fin in E0. apply X.fin_inj in E0.
    apply Hu0. rewrite E0. reflexivity. }
  destruct (Sized_sizing st r H Hc) as (_ & _ & _ & Hp).
  rewrite Hen in Hp. eexists. split; [exact Hp | ].
  rewrite R, R1, Hu, He, Hs, Ht.
  destruct (levels_fin (positionType st) e s t) as (q1 & q2 & L1 & L2 & L3).
  cbn [calculatePartialTPProfits avgExitRMultiple]. cbv zeta.
  rewrite L1, L2, L3, H1, H2.
  set (risk := risk_of (positionType st) e s) in *.
  set (reward := reward_of (positionType st) e t) in *.
  assert (Z100 : ~ inject_Z 100 == 0) by (change (inject_Z 100) with 100; lra).
  X.to_fin. rewrite !X.div_fin by assumption. X.to_fin.
  assert (Zd : ~ u * risk == 0) by nra.
  rewrite X.div_fin by assumption. apply X.fin_eq.
  change (inject_Z 0) with 0. change (inject_Z 1) with 1.
  change (inject_Z 100) with 100. rewrite A2. field. split; lra.
Qed.

(** C6, amended.  On binary64, for every accepted trade with capital,
    partial take-profits enabled and both percentages 0, the third leg of
    [calculatePartialTPProfits] holds all the units and its profit is the
    potential profit of the single exit, and [avgExitRMultiple] is
    [totalProfit / potentialLoss].  Whenever the total profit is a Number
    (not NaN), the first two legs hold and earn zero, the total profit is
    the potential profit bit for bit, and [avgExitRMultiple] is
    [potentialProfit / potentialLoss], that is
    [(units * reward) / (units * risk)]: the ratio [reward / risk] with the
    two products rounded.  It is then within [2^-49] of the ratio,
    relatively, when the potential profit, the potential loss, the ratio
    and the multiple itself are positive normal Numbers ([2^-1021] or more
    and below [2^1023]); and it is the ratio itself, bit for bit, when the
    number of units is a power of two [2^k] and the two distances, and
    their products by it, have magnitudes from [2^-969] up to [2^1022]. *)
Theorem exit_multiple_is_ratio (st : State float) (r : Result float) :
  calculateRiskReward st = Sized r ->
  truthy (totalCapital st) = true ->
  enablePartialTP st = true ->
  partialTP1Percent st = int 0 -> partialTP2Percent st = int 0 ->
  exists p,
    partialTPProfits r = Some p /\
    assets (leg3 p) = recommendedAssets r /\
    profit (leg3 p) = potentialProfit r /\
    avgExitRMultiple p = totalProfit p / potentialLoss r /\
    (is_nan (totalProfit p) = false ->
     totalProfit p = potentialProfit r /\
     assets (leg1 p) = assets (leg2 p) /\ profit (leg1 p) = profit (leg2 p) /\
     is_zero (assets (leg1 p)) = true /\ is_zero (profit (leg1 p)) = true /\
     avgExitRMultiple p = potentialProfit r / potentialLoss r /\
     (normal (potentialProfit r) -> normal (potentialLoss r) ->
      normal (ratio r) -> normal (avgExitRMultiple p) ->
      (Qabs (value (avgExitRMultiple p) - value (ratio r))
       <= value (ratio r) * (1 # 562949953421312))%Q) /\
     forall k : Z,
       power_of_two k (recommendedAssets r) ->
       in_window k (riskPerCoin r) -> in_window k (rewardPerCoin r) ->
       avgExitRMultiple p = ratio r).
Proof.
  intros H Hc Hen H1 H2.
  destruct (Trade.Sized_positive st r H) as (Prisk & Preward & E1 & E2).
  destruct (Sized_sizing st r H Hc) as (_ & _ & _ & Hp).
  destruct (Sized_amounts st r H Hc) as (_ & _ & _ & _ & L & P).
  destruct (Sized_distances st r H) as [_ R].
  rewrite Hen in Hp. eexists. split; [exact Hp | ].
  destruct (ExitAllF.profits_at_zero st
              (calculatePartialTPLevels (entryPrice st) (stopLoss st) (takeProfit st)
                 (positionType st))
              (recommendedAssets r) (riskPerCoin r) (entryPrice st) H1 H2)
    as (A3 & P3 & Av & Rest).
  cbv zeta in A3, P3, Av, Rest.
  change (price (tp3 (calculatePartialTPLevels (entryPrice st) (stopLoss st)
                        (takeProfit st) (positionType st))))
    with (takeProfit st) in P3, Rest.
  rewrite <- E2 in P3, Rest.
  change (@mul float ieee) with PrimFloat.mul in L, P.
  rewrite <- P in P3, Rest. rewrite <- L in Av.
  split; [exact A3 | ]. split; [exact P3 | ]. split; [exact Av | ].
  intros NN. destruct (Rest NN) as (T & B1 & B2 & Z1 & Z2).
  split; [exact T | ]. split; [exact B1 | ]. split; [exact B2 | ].
  split; [exact Z1 | ]. split; [exact Z2 | ].
  split; [rewrite Av, T; reflexivity | ].
  split.
  { rewrite Av, T, P, L, R. cbn [mul div ieee].
    now apply BlendF.quotient_of_products. }
  intros k Hk Wr Ww. rewrite Av, T, P, L, R.
  apply (ScaleF.div_scaled k).
  - now apply ExitAllF.mul_scaled_l.
  - now apply ExitAllF.mul_scaled_l.
  - exact Preward.
  - exact Prisk.
  - destruct (ScaleF.in_window_inv k _ Ww) as (s & m & e & -> & _). reflexivity.
  - destruct (ScaleF.in_window_inv k _ Wr) as (s & m & e & -> & _). reflexivity.
Qed.

(** The worked scenario with a capital of 8000 and both percentages 0: the
    16 units leave at the target, and the blended multiple is the ratio
    3.  For entry 1.31, stop 0.61 and target 2.54 the blended multiple is
    not the ratio, and within [2^-49] of it. *)
Lemma exit_multiple_is_ratio_example :
  (exists r p,
     calculateRiskReward (T:=float)
       (trade long (int 100) (int 95) (int 115) (int 8000) (int 1) (int 10)
          (int 75) true (int 0) (int 0)) = Sized r /\
     partialTPProfits r = Some p /\
     assets (leg3 p) = int 16 /\
     totalProfit p = potentialProfit r /\
     avgExitRMultiple p = ratio r) /\
  (exists r p,
     calculateRiskReward (T:=float)
       (trade long (lit 131 2) (lit 61 2) (lit 254 2) (int 10000) (int 1) (int 10)
          (int 75) true (int 0) (int 0)) = Sized r /\
     partialTPProfits r = Some p /\
     avgExitRMultiple p <> ratio r /\
     (Qabs (value (avgExitRMultiple p) - value (ratio r))
      <= value (ratio r) * (1 # 562949953421312))%Q).
Proof.
  split.
  - pose (st := trade (T:=float) long (int 100) (int 95) (int 115) (int 8000)
                  (int 1) (int 10) (int 75) true (int 0) (int 0)).
    eassert (H : calculateRiskReward st = Sized _) by (vm_compute; reflexivity).
    destruct (exit_multiple_is_ratio st _ H eq_refl eq_refl eq_refl eq_refl)
      as (p & Hp & A3 & _ & _ & Rest).
    assert (NN : is_nan (totalProfit p) = false).
    { injection Hp as <-. reflexivity. }
    destruct (Rest NN) as (T & _ & _ & _ & _ & _ & _ & K).
    eexists. exists p. split; [exact H | ]. split; [exact Hp | ].
    split; [rewrite A3; reflexivity | ]. split; [exact T | ].
    apply (K 4%Z).
    + vm_compute. reflexivity.
    + vm_compute. repeat split; discriminate.
    + vm_compute. repeat split; discriminate.
  - pose (st := trade (T:=float) long (lit 131 2) (lit 61 2) (lit 254 2) (int 10000)
                  (int 1) (int 10) (int 75) true (int 0) (int 0)).
    eassert (H : calculateRiskReward st = Sized _) by (vm_compute; reflexivity).
    destruct (exit_multiple_is_ratio st _ H eq_refl eq_refl eq_refl eq_refl)
      as (p & Hp & _ & _ & _ & Rest).
    assert (NN : is_nan (totalProfit p) = false).
    { injection Hp as <-. reflexivity. }
    destruct (Rest NN) as (_ & _ & _ & _ & _ & _ & B & _).
    eexists. exists p. split; [exact H | ]. split; [exact Hp | ]. split.
    + injection Hp as <-. vm_compute. intros E.
      apply (f_equal Prim2SF) in E. vm_compute in E. discriminate E.
    + apply B; injection Hp as <-; vm_compute; repeat split; discriminate.
Defined.

(** C6 as stated fails.  In binary64, for the long trade with entry 1.31,
    stop 0.61 and target 2.54 and both percentages 0, the blended multiple is
    1.7571428571428571 and the ratio 1.757142857142857.  With an allocation
    of 0 no unit is held and the blended multiple of the scenario is NaN
    (0 / 0), its ratio being 3.  And the total profit is NaN, with a
    potential profit of 600, for the long trade with entry 1e308, stop
    0.5e308 and target 1.6e308, whose second level overflows; it is NaN
    with an infinite potential profit for a capital of 1e308 at entry 0.001,
    stop 0.00095 and target 0.00115, where the number of units overflows.
    With a capital of 2e-322 on the first trade the two products underflow
    (3 units of the smallest Number held, a profit of 4 and a loss of 2 of
    them), and the blended multiple is 2. *)
Lemma exit_multiple_not_ratio :
  (exists (r : Result float) p,
     calculateRiskReward
       (trade long (lit 131 2) (lit 61 2) (lit 254 2) (int 10000) (int 1) (int 10)
          (int 75) true (int 0) (int 0)) = Sized r /\
     partialTPProfits r = Some p /\
     (ratio r <? avgExitRMultiple p) = true) /\
  (exists (r : Result float) p,
     calculateRiskReward
       (trade long (int 100) (int 95) (int 115) (int 10000) (int 1) (int 0)
          (int 75) true (int 0) (int 0)) = Sized r /\
     partialTPProfits r = Some p /\
     ratio r = int 3 /\ is_nan (avgExitRMultiple p) = true) /\
  (exists (r : Result float) p levels,
     calculateRiskReward
       (trade long 0x1.1ccf385ebc8a0p+1023%float 0x1.1ccf385ebc8a0p+1022%float
          0x1.c7b1f3cac7433p+1023%float (int 10000) (int 1) (int 10)
          (int 75) true (int 0) (int 0)) = Sized r /\
     partialTPProfits r = Some p /\ partialTPLevels r = Some levels /\
     price (tp2 levels) = infinity /\
     potentialProfit r = int 600 /\
     is_nan (totalProfit p) = true /\ is_nan (avgExitRMultiple p) = true) /\
  (exists (r : Result float) p,
     calculateRiskReward
       (trade long (lit 1 3) (lit 95 5) (lit 115 5) 0x1.1ccf385ebc8a0p+1023%float
          (int 1) (int 10) (int 75) true (int 0) (int 0)) = Sized r /\
     partialTPProfits r = Some p /\
     recommendedAssets r = infinity /\ potentialProfit r = infinity /\
     is_nan (totalProfit p) = true) /\
  (exists (r : Result float) p,
     calculateRiskReward
       (trade long (lit 131 2) (lit 61 2) (lit 254 2) 0x0.0000000000028p-1022%float
          (int 1) (int 10) (int 75) true (int 0) (int 0)) = Sized r /\
     partialTPProfits r = Some p /\
     totalProfit p = potentialProfit r /\
     (ratio r <? lit 176 2) = true /\ avgExitRMultiple p = int 2).
Proof.
  split; [ | split; [ | split; [ | split]]].
  - do 2 eexists. repeat split; vm_compute; reflexivity.
  - do 2 eexists. repeat split; vm_compute; reflexivity.
  - do 3 eexists. repeat split; vm_compute; reflexivity.
  - do 2 eexists. repeat split; vm_compute; reflexivity.
  - do 2 eexists. repeat split; vm_compute; reflexivity.
Qed.

(** ** C7: the second level at a ratio of 2 *)

(** In unrounded arithmetic, with rational prices, the second level of a
    trade whose ratio of total reward to risk is exactly 2 is 1.5
    risk-units from the entry: its R-multiple is 1.5, and its price is not
    the one at 2 risk-units.  (On binary64 the sum and the
    difference round, as shown below.) *)
Lemma tp2_at_ratio_two_unrounded (pt : PositionType) (e s t : Q) :
  Math_abs (Exact.fin t - Exact.fin e) / Math_abs (Exact.fin e - Exact.fin s) = int 2 ->
  let away x :=
    match pt with long => Exact.fin e + x | short => Exact.fin e - x end in
  let levels :=
    calculatePartialTPLevels (Exact.fin e) (Exact.fin s) (Exact.fin t) pt in
  price (tp2 levels) = away (Math_abs (Exact.fin e - Exact.fin s) * lit 15 1) /\
  price (tp2 levels) <> away (Math_abs (Exact.fin e - Exact.fin s) * int 2) /\
  rMultiple (tp2 levels) = lit 15 1.
Proof.
  intros HX away levels.
  assert (PX : price (tp2 levels)
               = away (Math_abs (Exact.fin e - Exact.fin s) * lit 15 1)).
  { unfold levels. rewrite tp2_price. fold away. rewrite HX. reflexivity. }
  X.to_fin_in HX.
  apply X.div_fin_inv in HX. destruct HX as [Hr _].
  assert (P : (0 < Qabs (e - s))%Q).
  { pose proof (Qabs_nonneg (e - s)). lra. }
  set (r := Qabs (e - s)) in *.
  assert (L : inject_Z 15 / inject_Z (10 ^ Z.of_nat 1) == 15 # 10) by reflexivity.
  split; [ | split].
  - exact PX.
  - rewrite PX. unfold away. destruct pt; X.to_fin; fold r; intros E;
      apply X.fin_inj in E; rewrite L in E; change (inject_Z 2) with 2 in E; lra.
  - change (rMultiple (tp2 levels))
      with (Math_abs (price (tp2 levels) - Exact.fin e) / Math_abs (Exact.fin e - Exact.fin s)).
    rewrite PX. unfold away.
    destruct pt; X.to_fin; fold r; rewrite X.div_fin by assumption; apply X.fin_eq;
      rewrite L.
    + rewrite Qabs_pos; [field; lra | lra].
    + rewrite Qabs_neg; [field; lra | lra].
Qed.

(** C7, amended.  On binary64, [calculatePartialTPLevels] computes the
    price of the second level by one of three rules, chosen by the ratio of
    total reward to risk: [entry + riskPerUnit * 2] (long) or
    [entry - riskPerUnit * 2] (short) when the ratio is 3 or more;
    [entry +/- riskPerUnit * 1.5] when the ratio is 2 or more but not 3 or
    more; the midpoint of the first level and the target otherwise.  The
    rule of 2 risk-units is that of a ratio of 3 or more only.  So when the
    ratio is exactly 2 the price is [entry +/- riskPerUnit * 1.5], the
    R-multiple of the level is the distance of that price from the entry
    divided by the risk, and the level is never beyond the price
    [entry +/- riskPerUnit * 2] (not above it for a long, not below it for a
    short).  (The two prices can round to the same Number, and the
    R-multiple need not be 1.5: the sum and the difference round.) *)
Theorem tp2_at_ratio_two (pt : PositionType) (entry stop target : float) :
  let riskPerCoin := Math_abs (entry - stop) in
  let rrRatio := Math_abs (target - entry) / riskPerCoin in
  let away x := match pt with long => entry + x | short => entry - x end in
  let levels := calculatePartialTPLevels entry stop target pt in
  (rrRatio = int 2 ->
   price (tp2 levels) = away (riskPerCoin * lit 15 1) /\
   rMultiple (tp2 levels)
     = Math_abs (away (riskPerCoin * lit 15 1) - entry) / riskPerCoin /\
   match pt with
   | long => (away (riskPerCoin * int 2) <? price (tp2 levels)) = false
   | short => (price (tp2 levels) <? away (riskPerCoin * int 2)) = false
   end) /\
  ((rrRatio >=? int 3) = true ->
   price (tp2 levels) = away (riskPerCoin * int 2)) /\
  ((rrRatio >=? int 3) = false -> (rrRatio >=? int 2) = true ->
   price (tp2 levels) = away (riskPerCoin * lit 15 1)) /\
  ((rrRatio >=? int 3) = false -> (rrRatio >=? int 2) = false ->
   price (tp2 levels) = (price (tp1 levels) + target) / int 2).
Proof.
  intros riskPerCoin rrRatio away levels.
  assert (P : price (tp2 levels) =
              if rrRatio >=? int 3 then away (riskPerCoin * int 2)
              else if rrRatio >=? int 2 then away (riskPerCoin * lit 15 1)
              else (away riskPerCoin + target) / int 2)
    by apply tp2_price.
  split; [ | split; [ | split]].
  - intros H.
    assert (E : price (tp2 levels) = away (riskPerCoin * lit 15 1)).
    { rewrite P, H. reflexivity. }
    split; [exact E | ]. split.
    + change (rMultiple (tp2 levels))
        with (Math_abs (price (tp2 levels) - entry) / riskPerCoin).
      now rewrite E.
    + rewrite E. unfold away, riskPerCoin. cbn [Math_abs ieee lt add sub mul].
      destruct pt; apply Antitone.fle_not_lt.
      * apply AddMonoF.add_fle, AddMonoF.half_more_fle.
      * apply AddMonoF.sub_fle, AddMonoF.half_more_fle.
  - intros H. rewrite P, H. reflexivity.
  - intros H3 H2. rewrite P, H3, H2. reflexivity.
  - intros H3 H2. rewrite P, H3, H2. unfold away, levels. now destruct pt.
Qed.

(** Entry 100, stop 95 and target 110: the ratio is 2, the second level is
    at 107.5 and its R-multiple is 1.5. *)
Lemma tp2_at_ratio_two_example :
  let levels := calculatePartialTPLevels (T:=float) (int 100) (int 95) (int 110) long in
  price (tp2 levels) = int 100 + Math_abs (int 100 - int 95) * lit 15 1 /\
  price (tp2 levels) = lit 1075 1 /\
  rMultiple (tp2 levels) = lit 15 1.
Proof.
  destruct (tp2_at_ratio_two long (int 100) (int 95) (int 110)) as [H _].
  destruct H as (H1 & H2 & _); [reflexivity | ].
  split; [exact H1 | ]. split.
  - rewrite H1. reflexivity.
  - rewrite H2. reflexivity.
Defined.

(** C7 as stated fails in binary64.  For entry 3.3, stop 2.59 and target
    4.72 the ratio of total reward to risk is exactly 2, the second level is
    at 4.365, and its R-multiple is 1.5000000000000007, not 1.5.  For entry
    9007199254740992, stop 9007199254740990 and target 9007199254740996 the
    ratio is exactly 2 and the second level is at 9007199254740996, the
    price that is 2 risk-units from the entry, with an R-multiple of 2. *)
Lemma tp2_multiple_not_exact :
  (let entry : float := lit 33 1 in
   let stop := lit 259 2 in
   let target := lit 472 2 in
   let levels := calculatePartialTPLevels entry stop target long in
   Math_abs (target - entry) / Math_abs (entry - stop) = int 2 /\
   price (tp2 levels) = lit 4365 3 /\
   (lit 15 1 <? rMultiple (tp2 levels)) = true) /\
  (let entry : float := 0x1p+53%float in
   let stop := 0x1.ffffffffffffep+52%float in
   let target := 0x1.0000000000002p+53%float in
   let levels := calculatePartialTPLevels entry stop target long in
   Math_abs (entry - stop) = int 2 /\
   Math_abs (target - entry) / Math_abs (entry - stop) = int 2 /\
   price (tp2 levels) = entry + Math_abs (entry - stop) * lit 15 1 /\
   price (tp2 levels) = entry + Math_abs (entry - stop) * int 2 /\
   price (tp2 levels) = target /\
   rMultiple (tp2 levels) = int 2).
Proof. split; vm_compute; repeat split. Qed.

(** ** C8: sizing and the capital field *)

Lemma positive_truthy (c : float) :
  (int 0 <? c) = true -> is_nan c || is_zero c = false.
Proof.
  cbn [lt ieee]. unfold is_nan, is_zero. rewrite ltb_spec, !eqb_spec.
  change (Prim2SF (int 0)) with (S754_zero false).
  change (Prim2SF zero) with (S754_zero false).
  unfold SFltb, SFeqb.
  destruct (Prim2SF c) as [s | [] | | [] m e] eqn:E; cbn [SFcompare]; try discriminate;
    intros _; cbn [SFcompare]; try reflexivity;
    rewrite Z.compare_refl;
    change (PosDef.Pos.compare_cont Eq m m) with (Pos.compare m m);
    now rewrite Pos.compare_refl.
Qed.

(** C8, amended.  The leverage recommendation and the sizing are computed
    exactly when the capital field parses to a nonzero Number (the guard is
    the truthiness of [capital]): when it is absent or unparsable (NaN) or
    zero, the sizing fields of the result are zero and the leverage
    information and the partial-exit plan are absent; for every other
    capital, in particular for every capital above zero, they are the
    computed ones (the partial-exit profits when the feature is enabled). *)
Theorem sizing_iff_capital (st : State float) (r : Result float) :
  calculateRiskReward st = Sized r ->
  let entry := entryPrice st in
  let capital := totalCapital st in
  (is_nan capital || is_zero capital = true ->
     maxRiskAmount r = int 0 /\ allocatedAmount r = int 0 /\
     positionValue r = int 0 /\ recommendedAssets r = int 0 /\
     potentialLoss r = int 0 /\ potentialProfit r = int 0 /\
     leverageInfo r = None /\ partialTPLevels r = None /\
     partialTPProfits r = None) /\
  (is_nan capital || is_zero capital = false ->
     let info := calculateOptimalLeverage entry (stopLoss st) capital
                   (riskPercentage st) (assetAllocation st) (maxLeverage st) in
     let levels := calculatePartialTPLevels entry (stopLoss st) (takeProfit st)
                     (positionType st) in
     maxRiskAmount r = (capital * riskPercentage st) / int 100 /\
     allocatedAmount r = (capital * assetAllocation st) / int 100 /\
     leverageInfo r = Some info /\
     positionValue r = allocatedAmount r * optimal info /\
     recommendedAssets r = positionValue r / entry /\
     potentialLoss r = recommendedAssets r * riskPerCoin r /\
     potentialProfit r = recommendedAssets r * rewardPerCoin r /\
     partialTPLevels r = Some levels /\
     partialTPProfits r =
       if enablePartialTP st then
         Some (calculatePartialTPProfits st levels (recommendedAssets r)
                 (riskPerCoin r) entry)
       else None) /\
  ((int 0 <? capital) = true -> is_nan capital || is_zero capital = false).
Proof.
  intros H entry capital. split; [ | split; [ | apply positive_truthy]];
    intros Hc; revert H; unfold calculateRiskReward;
    fold entry; fold capital;
    change (truthy capital) with (negb (is_nan capital || is_zero capital));
    rewrite Hc; cbn [negb];
    destruct (negb (truthy entry) || _ || _); try discriminate;
    destruct (distances _ _ _ _) as [[risk reward] valid];
    destruct (negb valid || _ || _); try discriminate;
    intros [= <-]; cbn; repeat split.
Qed.

Lemma sizing_iff_capital_scenario :
  exists (r : Result float) (info : LeverageInfo float),
    calculateRiskReward scenario = Sized r /\
    leverageInfo r = Some info /\
    positionValue r = allocatedAmount r * optimal info.
Proof.
  eassert (H : calculateRiskReward (T:=float) scenario = Sized _)
    by (vm_compute; reflexivity).
  destruct (sizing_iff_capital scenario _ H) as (_ & Hs & _).
  destruct (Hs eq_refl) as (_ & _ & Hi & Hp & _).
  eexists. eexists. split; [exact H | ]. split; [exact Hi | exact Hp].
Defined.

(** C8 as stated fails: the sizing is not computed only when the capital is
    above zero.  With a capital of -10000 the trade of the scenario is sized:
    leverage 2 and a position value of -2000. *)
Lemma sizing_of_negative_capital :
  let st := trade long (int 100) (int 95) (int 115) (int (-10000)) (int 1) (int 10)
              (int 75) true (int 50) (int 30) in
  (int 0 <? totalCapital st) = false /\
  exists r info,
    calculateRiskReward st = Sized r /\
    leverageInfo r = Some info /\
    optimal info = int 2 /\
    positionValue r = int (-2000) /\
    partialTPLevels r <> None.
Proof.
  split; [reflexivity | ].
  eexists. eexists. split; [vm_compute; reflexivity | ].
  repeat split; try (vm_compute; reflexivity). discriminate.
Qed.

(** ** C9: the exchange rate *)

(** C9.  The exchange rate has no effect on the computation: for any two
    values of the rate, and whatever the sources of the rate answer (none,
    some or all of them failing), [calculateRiskReward] returns the same
    result, whatever the Numbers are. *)
Theorem exchange_rate_irrelevant {T : Type} {N : JSNumber T}
    (st : State T) (rate1 rate2 : T) (apis : list (Response T)) :
  calculateRiskReward (setExchangeRate rate1 st)
    = calculateRiskReward (setExchangeRate rate2 st) /\
  calculateRiskReward (fetchExchangeRate apis st) = calculateRiskReward st.
Proof.
  split; [reflexivity | ].
  revert st. induction apis as [ | [ | | rate | number] rest IH]; intros st;
    cbn [fetchExchangeRate]; try apply IH.
  - reflexivity.
  - destruct (truthy rate && (rate >? int 0)); [reflexivity | apply IH].
  - destruct (number >? int 0); [ | apply IH].
    rewrite IH. reflexivity.
Qed.

(** ** C10: the levels of a trade with a ratio below 1 *)

(** In unrounded arithmetic, with rational prices, the two levels are
    strictly beyond the target. *)
Lemma levels_strictly_beyond
    (st : State Exact.num) (r : Result Exact.num) (e s t : Q) :
  entryPrice st = Exact.fin e -> stopLoss st = Exact.fin s ->
  takeProfit st = Exact.fin t ->
  calculateRiskReward st = Sized r ->
  (ratio r <? int 1) = true ->
  let levels := calculatePartialTPLevels (entryPrice st) (stopLoss st)
                  (takeProfit st) (positionType st) in
  price (tp3 levels) = takeProfit st /\
  price (tp2 levels) = (price (tp1 levels) + takeProfit st) / int 2 /\
  match positionType st with
  | long => (price (tp3 levels) <? price (tp1 levels)) = true /\
            (price (tp3 levels) <? price (tp2 levels)) = true
  | short => (price (tp1 levels) <? price (tp3 levels)) = true /\
             (price (tp2 levels) <? price (tp3 levels)) = true
  end.
Proof.
  intros He Hs Ht H Hlt levels.
  destruct (Sized_fin st r e s t He Hs Ht H) as (_ & _ & R & P1 & P2 & _).
  rewrite R, X.int_fin in Hlt. apply X.lt_fin in Hlt. change (inject_Z 1) with 1 in Hlt.
  destruct (Qabs_distances _ e s t P1 P2) as [A1 A2].
  set (risk := risk_of (positionType st) e s) in *.
  set (reward := reward_of (positionType st) e t) in *.
  assert (Hrr : (reward < risk)%Q).
  { assert (E : reward / risk * risk == reward) by (field; lra). nra. }
  assert (P : price (tp2 levels) = (price (tp1 levels) + takeProfit st) / int 2).
  { unfold levels. rewrite tp2_price. rewrite He, Hs, Ht. X.to_fin.
    assert (Z : ~ Qabs (e - s) == 0) by lra.
    rewrite X.div_fin by assumption.
    replace (X.fin (inject_Z 3) <=? X.fin (Qabs (t - e) / Qabs (e - s))) with false.
    2:{ symmetry. apply X.le_fin_false. rewrite A1, A2.
        change (inject_Z 3) with 3. lra. }
    replace (X.fin (inject_Z 2) <=? X.fin (Qabs (t - e) / Qabs (e - s))) with false.
    2:{ symmetry. apply X.le_fin_false. rewrite A1, A2.
        change (inject_Z 2) with 2. lra. }
    cbn [calculatePartialTPLevels tp1 price].
    destruct (positionType st); X.to_fin; reflexivity. }
  split; [reflexivity | ]. split; [exact P | ].
  rewrite P. unfold levels. cbn [calculatePartialTPLevels tp1 tp3 price].
  rewrite He, Hs, Ht. unfold risk, reward, risk_of, reward_of in *.
  assert (Z2 : ~ inject_Z 2 == 0) by (change (inject_Z 2) with 2; lra).
  destruct (positionType st); X.to_fin; rewrite X.div_fin by assumption;
    rewrite !X.lt_fin; change (inject_Z 2) with 2;
    (split; [lra | ]).
  - apply Qlt_shift_div_l; lra.
  - apply Qlt_shift_div_r; lra.
Qed.

(** C10, amended.  For every accepted trade whose ratio is below 1,
    [calculatePartialTPLevels] returns the target as the third level and the
    midpoint of the first level and the target as the second, and the first
    two levels are not between the entry and the target.  On binary64 the
    first level is at the target or beyond it (not below it for a long, not
    above it for a short), and so is the second level whenever the sum
    [tp1.price + target] is finite.  In unrounded arithmetic, with rational
    prices, both levels are strictly beyond the target.  (On binary64 they
    can coincide with the target.) *)
Theorem levels_beyond_target :
  (forall (st : State float) (r : Result float),
     calculateRiskReward st = Sized r ->
     (ratio r <? int 1) = true ->
     let levels := calculatePartialTPLevels (entryPrice st) (stopLoss st)
                     (takeProfit st) (positionType st) in
     price (tp3 levels) = takeProfit st /\
     price (tp2 levels) = (price (tp1 levels) + takeProfit st) / int 2 /\
     match positionType st with
     | long => (price (tp3 levels) <=? price (tp1 levels)) = true /\
               (is_finite (price (tp1 levels) + takeProfit st) = true ->
                (price (tp3 levels) <=? price (tp2 levels)) = true)
     | short => (price (tp1 levels) <=? price (tp3 levels)) = true /\
                (is_finite (price (tp1 levels) + takeProfit st) = true ->
                 (price (tp2 levels) <=? price (tp3 levels)) = true)
     end) /\
  (forall (st : State Exact.num) (r : Result Exact.num) (e s t : Q),
     entryPrice st = Exact.fin e -> stopLoss st = Exact.fin s ->
     takeProfit st = Exact.fin t ->
     calculateRiskReward st = Sized r ->
     (ratio r <? int 1) = true ->
     let levels := calculatePartialTPLevels (entryPrice st) (stopLoss st)
                     (takeProfit st) (positionType st) in
     price (tp3 levels) = takeProfit st /\
     price (tp2 levels) = (price (tp1 levels) + takeProfit st) / int 2 /\
     match positionType st with
     | long => (price (tp3 levels) <? price (tp1 levels)) = true /\
               (price (tp3 levels) <? price (tp2 levels)) = true
     | short => (price (tp1 levels) <? price (tp3 levels)) = true /\
                (price (tp2 levels) <? price (tp3 levels)) = true
     end).
Proof.
  split.
  - intros st r H Hlt levels.
    destruct (Sized_distances st r H) as [D R].
    pose proof (proj1 (Sized_accepted st) (ex_intro _ r H)) as A.
    unfold accepted in A. rewrite D in A.
    repeat (apply andb_true_iff in A; destruct A as [A ?]).
    rewrite R in Hlt.
    set (entry := entryPrice st) in *. set (stop := stopLoss st) in *.
    set (target := takeProfit st) in *.
    cbn [truthy ieee] in *.
    assert (P : Math_abs (target - entry) / Math_abs (entry - stop)
                = rewardPerCoin r / riskPerCoin r /\
                match positionType st with
                | long => (target <=? entry + Math_abs (entry - stop))%float = true
                | short => (entry - Math_abs (entry - stop) <=? target)%float = true
                end).
    { cbn [Math_abs sub div lt le ieee] in *.
      destruct (positionType st); cbn [distances sub lt ieee] in D;
        injection D as D1 D2 D3; apply andb_true_iff in D3; destruct D3 as [V1 V2];
        rewrite <- D1, <- D2 in Hlt |- *.
      - rewrite (Levels.abs_positive _ (F64.sub_positive _ _ V1)).
        rewrite (Levels.abs_positive _ (F64.sub_positive _ _ V2)).
        split; [reflexivity | ].
        rewrite <- (Levels.abs_positive _ (F64.sub_positive _ _ V1)).
        now apply Levels.first_level_long.
      - rewrite (Levels.abs_sub_swap _ _ V1), (Levels.abs_sub_swap _ _ V2).
        split; [reflexivity | ].
        rewrite <- (Levels.abs_sub_swap _ _ V1).
        now apply Levels.first_level_short. }
    destruct P as [Prr P1].
    assert (P2 : price (tp2 levels) = (price (tp1 levels) + target) / int 2).
    { unfold levels. rewrite tp2_price. fold entry stop target. rewrite Prr.
      cbn [le lt ieee] in *.
      destruct (Levels.below_one_not_above _ Hlt) as [C2 C3].
      change (@int float ieee 3) with 3%float.
      change (@int float ieee 2) with 2%float.
      rewrite C3, C2.
      cbn [calculatePartialTPLevels tp1 price]. fold entry stop.
      destruct (positionType st); reflexivity. }
    split; [reflexivity | ]. split; [exact P2 | ].
    rewrite P2. unfold levels. cbn [calculatePartialTPLevels tp1 tp3 price].
    fold entry stop target. cbn [le add div sub ieee].
    destruct (positionType st).
    + split; [exact P1 | ]. intros F.
      now apply Levels.midpoint_lower.
    + split; [exact P1 | ]. intros F.
      now apply Levels.midpoint_upper.
  - exact levels_strictly_beyond.
Qed.

Lemma levels_beyond_target_example :
  let levels :=
    calculatePartialTPLevels (T:=float) (int 100) (int 90) (int 105) long in
  let levelsX :=
    calculatePartialTPLevels (T:=Exact.num) (int 100) (int 90) (int 105) long in
  ((price (tp3 levels) <=? price (tp1 levels)) = true /\
   (price (tp3 levels) <=? price (tp2 levels)) = true) /\
  ((price (tp3 levelsX) <? price (tp1 levelsX)) = true /\
   (price (tp3 levelsX) <? price (tp2 levelsX)) = true).
Proof.
  destruct levels_beyond_target as [F X].
  pose (st := trade (T:=float) long (int 100) (int 90) (int 105) (int 10000)
                (int 1) (int 10) (int 75) true (int 50) (int 30)).
  pose (stX := trade (T:=Exact.num) long (int 100) (int 90) (int 105) (int 10000)
                 (int 1) (int 10) (int 75) true (int 50) (int 30)).
  eassert (H : calculateRiskReward st = Sized _) by (vm_compute; reflexivity).
  eassert (HX : calculateRiskReward stX = Sized _) by (vm_compute; reflexivity).
  split.
  - destruct (F st _ H ltac:(vm_compute; reflexivity)) as (_ & _ & H1 & H2).
    split; [exact H1 | apply H2; vm_compute; reflexivity].
  - destruct (X stX _ (inject_Z 100) (inject_Z 90) (inject_Z 105)
                (X.int_fin 100) (X.int_fin 90) (X.int_fin 105) HX eq_refl)
      as (_ & _ & H1 & H2).
    split; [exact H1 | exact H2].
Defined.

(** C10 as stated fails in binary64: the long trade with entry 0.92, stop
    0.65 and target 1.19 is accepted with a ratio below 1 (the risk is
    0.27000000000000002 and the reward 0.26999999999999991), and its first
    and second levels are equal to the target, not above it. *)
Lemma levels_at_target :
  let entry : float := lit 92 2 in
  let stop := lit 65 2 in
  let target := lit 119 2 in
  let levels := calculatePartialTPLevels entry stop target long in
  exists r,
    calculateRiskReward
      (trade long entry stop target (int 10000) (int 1) (int 10) (int 75)
         true (int 50) (int 30)) = Sized r /\
    (ratio r <? int 1) = true /\
    (rewardPerCoin r <? riskPerCoin r) = true /\
    partialTPLevels r = Some levels /\
    price (tp1 levels) = price (tp3 levels) /\
    price (tp2 levels) = price (tp3 levels) /\
    (price (tp3 levels) <? price (tp1 levels)) = false /\
    (price (tp3 levels) <? price (tp2 levels)) = false.
Proof.
  eexists. split; [vm_compute; reflexivity | ]. vm_compute. repeat split.
Qed.

(** The finiteness of the sum matters: for the long trade with entry
    -0x1.430f88276e87ap+1023, stop two units in the last place below it and
    target one unit above it, the ratio is 0.5, the first level is one unit
    above the target, and the sum of the first level and the target
    overflows: the second level is -Infinity. *)
Lemma second_level_overflow :
  let entry := (-0x1.430f88276e87ap+1023)%float in
  let stop := (-0x1.430f88276e87cp+1023)%float in
  let target := (-0x1.430f88276e879p+1023)%float in
  let levels := calculatePartialTPLevels entry stop target long in
  exists r,
    calculateRiskReward
      (trade long entry stop target (int 10000) (int 1) (int 10) (int 75)
         true (int 50) (int 30)) = Sized r /\
    ratio r = lit 5 1 /\
    partialTPLevels r = Some levels /\
    (price (tp3 levels) <? price (tp1 levels)) = true /\
    price (tp1 levels) + target = neg_infinity /\
    price (tp2 levels) = neg_infinity /\
    (price (tp2 levels) <? price (tp3 levels)) = true.
Proof.
  eexists. split; [vm_compute; reflexivity | ]. vm_compute. repeat split.
Qed.

(** * The rest of the screen *)

(** ** The exchange rate on the screen *)

Section Refresh.
Context {T : Type} {N : JSNumber T}.

(** The state after a refresh is the state before it, or the state before
    it with the rate of one of the answers that are stored. *)
Lemma fetchExchangeRate_cases (apis : list (Response T)) (st : State T) :
  fetchExchangeRate apis st = st \/
  exists response rate,
    In response apis /\ usable response = true /\
    (response = Rate rate \/ response = NonNumber rate) /\
    fetchExchangeRate apis st = setExchangeRate rate st.
Proof.
  revert st. induction apis as [ | [ | | rate | number] rest IH]; intros st;
    cbn [fetchExchangeRate].
  - now left.
  - destruct (IH st) as [E | (response & rate & I & U & R & E)]; [now left | right].
    exists response, rate. repeat split; try assumption. now right.
  - destruct (IH st) as [E | (response & rate & I & U & R & E)]; [now left | right].
    exists response, rate. repeat split; try assumption. now right.
  - destruct (truthy rate && (rate >? int 0)) eqn:U.
    + right. exists (Rate rate), rate. repeat split; try assumption; now left.
    + destruct (IH st) as [E | (response & rate' & I & U' & R & E)]; [now left | right].
      exists response, rate'. repeat split; try assumption. now right.
  - destruct (number >? int 0) eqn:U.
    + right.
      destruct (IH (setExchangeRate number st))
        as [E | (response & rate' & I & U' & R & E)].
      * exists (NonNumber number), number. rewrite E.
        repeat split; try assumption; [now left | now right].
      * exists response, rate'. rewrite E.
        repeat split; try assumption. now right.
    + destruct (IH st) as [E | (response & rate' & I & U' & R & E)]; [now left | right].
      exists response, rate'. repeat split; try assumption. now right.
Qed.

(** Without a source that ends the loop, the sources are consulted to the
    last one. *)
Lemma fetchExchangeRate_app (before later : list (Response T)) (st : State T) :
  forallb (fun response => negb (breaks response)) before = true ->
  exists st',
    fetchExchangeRate (before ++ later) st = fetchExchangeRate later st' /\
    forall rate, setExchangeRate rate st' = setExchangeRate rate st.
Proof.
  revert st. induction before as [ | response rest IH]; intros st H.
  - exists st. split; reflexivity.
  - cbn [forallb] in H. apply andb_prop in H. destruct H as [B H].
    destruct response as [ | | rate | number]; cbn [app fetchExchangeRate];
      try (now apply IH).
    + cbn [breaks] in B. apply negb_true_iff in B. rewrite B. now apply IH.
    + destruct (number >? int 0); [ | now apply IH].
      destruct (IH (setExchangeRate number st) H) as (st' & E & S).
      exists st'. split; [exact E | ]. intros rate. now rewrite S.
Qed.
End Refresh.

Lemma fetchExchangeRate_usable (apis : list (Response float)) (st : State float) :
  truthy (exchangeRate st) && (exchangeRate st >? int 0) = true ->
  truthy (exchangeRate (fetchExchangeRate apis st))
  && (exchangeRate (fetchExchangeRate apis st) >? int 0) = true.
Proof.
  intros H.
  destruct (fetchExchangeRate_cases apis st)
    as [-> | (response & rate & _ & U & [-> | ->] & ->)]; try assumption.
  cbn [usable] in U. cbn [setExchangeRate exchangeRate]. rewrite U, andb_true_r.
  change (truthy rate) with (negb (is_nan rate || is_zero rate)).
  now rewrite positive_truthy.
Qed.

(** X1.  A refresh keeps the stored rate usable: if the rate is truthy and
    above zero before [fetchExchangeRate], it is so afterwards, whatever the
    sources answer; and the rate afterwards is the one before or the rate of
    one of the answers, a Number or not (binary64). *)
Theorem rate_stays_usable (apis : list (Response float)) (st : State float) :
  truthy (exchangeRate st) && (exchangeRate st >? int 0) = true ->
  let rate := exchangeRate (fetchExchangeRate apis st) in
  truthy rate && (rate >? int 0) = true /\
  (rate = exchangeRate st \/ In (Rate rate) apis \/ In (NonNumber rate) apis).
Proof.
  intros H rate. split.
  - exact (fetchExchangeRate_usable apis st H).
  - subst rate.
    destruct (fetchExchangeRate_cases apis st)
      as [-> | (response & rate & I & _ & [-> | ->] & ->)];
      [now left | now right; left | now right; right].
Qed.

Lemma rate_stays_usable_example :
  let st := scenario (T:=float) in
  let apis :=
    Failed :: Rate (int (-1)) :: NonNumber (lit 561 1) :: NoRate
      :: Rate (lit 5610 2) :: nil in
  let rate := exchangeRate (fetchExchangeRate apis st) in
  truthy rate && (rate >? int 0) = true /\
  (rate = exchangeRate st \/ In (Rate rate) apis \/ In (NonNumber rate) apis).
Proof.
  apply (rate_stays_usable
           (Failed :: Rate (int (-1)) :: NonNumber (lit 561 1) :: NoRate
              :: Rate (lit 5610 2) :: nil)
           (scenario (T:=float))).
  reflexivity.
Defined.

(** X2.  The first usable Number wins.  When no source is usable, the state
    is left as it was.  When no source before it ends the loop, a Number
    that is truthy and above zero is stored and the sources after it are
    not consulted; a value that is not a Number and converts to a Number
    above zero is stored as well, but the sources after it are consulted
    from that state, and it is the rate after the refresh when none of them
    is usable. *)
Theorem first_usable_rate_wins {T : Type} {N : JSNumber T}
    (before later : list (Response T)) (rate : T) (st : State T) :
  (forallb (fun response => negb (usable response)) before = true ->
   fetchExchangeRate before st = st) /\
  (forallb (fun response => negb (breaks response)) before = true ->
   (breaks (Rate rate) = true ->
    fetchExchangeRate (before ++ Rate rate :: later) st = setExchangeRate rate st) /\
   (usable (NonNumber rate) = true ->
    fetchExchangeRate (before ++ NonNumber rate :: later) st
    = fetchExchangeRate later (setExchangeRate rate st) /\
    (forallb (fun response => negb (usable response)) later = true ->
     fetchExchangeRate (before ++ NonNumber rate :: later) st
     = setExchangeRate rate st))).
Proof.
  assert (Unusable : forall (apis : list (Response T)) (st0 : State T),
             forallb (fun response => negb (usable response)) apis = true ->
             fetchExchangeRate apis st0 = st0).
  { intros apis st0 H.
    destruct (fetchExchangeRate_cases apis st0)
      as [E | (response & rate' & I & U & _)]; [exact E | exfalso].
    rewrite forallb_forall in H. specialize (H response I).
    rewrite U in H. discriminate H. }
  split; [apply Unusable | ].
  intros H. destruct (fetchExchangeRate_app before (Rate rate :: later) st H)
    as (st1 & E1 & S1).
  destruct (fetchExchangeRate_app before (NonNumber rate :: later) st H)
    as (st2 & E2 & S2).
  split.
  - intros B. rewrite E1. cbn [fetchExchangeRate]. cbn [breaks] in B.
    rewrite B. apply S1.
  - intros U. cbn [usable] in U.
    assert (E : fetchExchangeRate (before ++ NonNumber rate :: later) st
                = fetchExchangeRate later (setExchangeRate rate st)).
    { rewrite E2. cbn [fetchExchangeRate]. rewrite U, S2. reflexivity. }
    split; [exact E | ]. intros L. rewrite E. now apply Unusable.
Qed.

Lemma first_usable_rate_wins_example :
  let st := scenario (T:=float) in
  let before := Failed :: Rate (int 0) :: NonNumber (lit 561 1) :: NoRate :: nil in
  fetchExchangeRate (before ++ Rate (lit 5610 2) :: Rate (int 60) :: nil) st
    = setExchangeRate (lit 5610 2) st /\
  fetchExchangeRate (before ++ NonNumber (lit 57 0) :: Rate nan :: Failed :: nil) st
    = setExchangeRate (lit 57 0) st /\
  fetchExchangeRate (Failed :: Rate nan :: NonNumber (int (-1)) :: NoRate :: nil) st = st.
Proof.
  pose (st := scenario (T:=float)).
  pose (before := Failed :: Rate (int 0) :: NonNumber (lit 561 1) :: NoRate :: nil
                  : list (Response float)).
  destruct (first_usable_rate_wins before (Rate (int 60) :: nil) (lit 5610 2) st)
    as [_ H1].
  destruct (first_usable_rate_wins before (Rate nan :: Failed :: nil) (lit 57 0) st)
    as [_ H2].
  destruct (first_usable_rate_wins
              (Failed :: Rate nan :: NonNumber (int (-1)) :: NoRate :: nil)
              nil (int 0) st) as [H3 _].
  split; [ | split].
  - apply H1; reflexivity.
  - apply H2; reflexivity.
  - apply H3. reflexivity.
Defined.

Module PesoAmount.
Import IEEE Round Mono.
Local Open Scope float_scope.

Lemma binary_round_aux_not_nan (s : bool) (m : positive) (e : Z) (l : location) :
  binary_round_aux prec emax s (Zpos m) e l <> S754_nan.
Proof.
  pose proof (binary_round_aux_unsigned (Zpos m) e l ltac:(lia)) as U.
  destruct s.
  - rewrite <- (binary_round_aux_opp false). cbn [negb].
    destruct (binary_round_aux prec emax false (Zpos m) e l); discriminate.
  - destruct (binary_round_aux prec emax false (Zpos m) e l); discriminate.
Qed.

(** The product of a truthy Number and a Number above zero is a Number. *)
Lemma mul_not_nan (x y : float) :
  IEEE.truthy x = true -> (0 <? y) = true -> is_nan (x * y) = false.
Proof.
  intros Tx Py. apply Levels.truthy_nonzero in Tx. rewrite ltb_spec in Py.
  apply F64.is_nan_false. rewrite mul_spec.
  change (Prim2SF 0) with (S754_zero false) in Py.
  destruct (Prim2SF x) as [sx | sx | | sx mx ex]; try contradiction;
    destruct (Prim2SF y) as [sy | [] | | [] my ey]; try discriminate;
    cbn [SFmul]; try discriminate.
  apply binary_round_aux_not_nan.
Qed.
End PesoAmount.

(** X3.  No peso amount on the screen is NaN, whatever the sources of the
    rate answer: when the stored rate is truthy and above zero before a
    refresh, [formatPHP] afterwards gives the zero label for a falsy amount
    (0 or NaN) and a Number for every other amount (binary64). *)
Theorem pesos_never_nan (apis : list (Response float)) (st : State float)
    (usdAmount : float) :
  truthy (exchangeRate st) && (exchangeRate st >? int 0) = true ->
  match formatPHP (fetchExchangeRate apis st) usdAmount with
  | ZeroLabel => truthy usdAmount = false
  | Amount phpAmount => truthy usdAmount = true /\ is_nan phpAmount = false
  end.
Proof.
  intros H. pose proof (fetchExchangeRate_usable apis st H) as U.
  apply andb_prop in U. destruct U as [_ U].
  unfold formatPHP. destruct (truthy usdAmount) eqn:Tu; cbn [negb].
  - split; [reflexivity | ]. now apply PesoAmount.mul_not_nan.
  - reflexivity.
Qed.

Lemma pesos_never_nan_example :
  match formatPHP
          (fetchExchangeRate (Failed :: Rate nan :: Rate (lit 5610 2) :: nil)
             (scenario (T:=float))) (int 100) with
  | ZeroLabel => truthy (T:=float) (int 100) = false
  | Amount phpAmount => truthy (T:=float) (int 100) = true /\ is_nan phpAmount = false
  end.
Proof.
  apply (pesos_never_nan (Failed :: Rate nan :: Rate (lit 5610 2) :: nil)
           (scenario (T:=float)) (int 100)).
  reflexivity.
Defined.

(** ** The grade of a ratio *)

(** X4.  The colour and the label of a ratio always go together (emerald
    with Excellent, blue with Good, amber with Fair, rose with Poor), and
    the colour of the screen is slate exactly when there is no result to
    grade. *)
Theorem colour_matches_label {T : Type} {N : JSNumber T} (ratio : T) (results : Outcome T) :
  ((getRatioColor ratio, getRatioLabel ratio) = ("emerald", "Excellent") \/
   (getRatioColor ratio, getRatioLabel ratio) = ("blue", "Good") \/
   (getRatioColor ratio, getRatioLabel ratio) = ("amber", "Fair") \/
   (getRatioColor ratio, getRatioLabel ratio) = ("rose", "Poor"))%string /\
  (color results = "slate"%string <-> forall r, results <> Sized r).
Proof.
  split.
  - unfold getRatioColor, getRatioLabel.
    destruct (ratio >=? int 3); [now left | ].
    destruct (ratio >=? int 2); [now right; left | ].
    destruct (ratio >=? int 1); [now right; right; left | now right; right; right].
  - destruct results as [ | p | r]; cbn [color].
    + split; [discriminate | reflexivity].
    + split; [discriminate | reflexivity].
    + split.
      * unfold getRatioColor.
        destruct (_ >=? int 3); [discriminate | ].
        destruct (_ >=? int 2); [discriminate | ].
        destruct (_ >=? int 1); discriminate.
      * intros H. now destruct (H r).
Qed.


Module Grade.
Import IEEE Round Mono Sum Levels.
Local Open Scope Z_scope.

(** The Number just below 1. *)
Abbreviation below_one := (S754_finite false 9007199254740991 (-53)).

(** The quotient of a positive Number by a larger one is below 1: it is at
    most [1 - 2^-53], the Number just below 1. *)
Lemma div_le_below_one (mx : positive) (ex : Z) (my : positive) (ey : Z) :
  valid_binary (S754_finite false mx ex) = true ->
  valid_binary (S754_finite false my ey) = true ->
  SFltb (S754_finite false mx ex) (S754_finite false my ey) = true ->
  SFleb (SFdiv prec emax (S754_finite false mx ex) (S754_finite false my ey))
        below_one = true.
Proof.
  intros Vx Vy L.
  rewrite <- (binary_round_aux_canonical false 9007199254740991 (-53) eq_refl).
  destruct (SFdiv_finite false mx ex false my ey)
    as (q & e' & l & s & -> & Hs & He & Hc & Hq & Hen).
  cbn [xorb].
  pose proof (pow2_pos s Hs) as Ps.
  pose proof (finite_lt_pow _ _ _ Vx) as Bx.
  pose proof (finite_lt_pow _ _ _ Vy) as By.
  pose proof (valid_emin _ _ _ Vx) as [Ex _].
  pose proof (valid_emin _ _ _ Vy) as [Ey _].
  set (e0 := Z.min (-53) e').
  apply round_le with (n1 := Zpos mx * 2 ^ s) (d1 := Zpos my)
                      (n2 := 9007199254740991) (d2 := 1) (e0 := e0).
  - apply Z.mul_nonneg_nonneg; lia.
  - lia.
  - lia.
  - lia.
  - exact Hc.
  - apply rcode_exact.
  - exact Hen.
  - unfold enough. cbv. discriminate.
  - unfold e0. lia.
  - unfold e0. lia.
  - rewrite Z.mul_1_r.
    (* the value of the dividend is at most (1 - 2^-53) times the one of the
       divisor *)
    assert (V : Zpos mx * 2 ^ 53 * 2 ^ (ex - Z.min ex ey)
                <= 9007199254740991 * Zpos my * 2 ^ (ey - Z.min ex ey)).
    { unfold SFltb in L. cbn [SFcompare] in L.
      change 9007199254740991 with (2 ^ 53 - 1).
      destruct (Z.compare_spec ex ey) as [E | E | E]; try discriminate.
      - subst ey. rewrite Z.min_id, Z.sub_diag. cbn [Z.pow]. rewrite !Z.mul_1_r.
        change (PosDef.Pos.compare_cont Eq mx my) with (Pos.compare mx my) in L.
        destruct (Pos.compare_spec mx my); try discriminate. nia.
      - rewrite Z.min_l by lia. rewrite Z.sub_diag. cbn [Z.pow]. rewrite Z.mul_1_r.
        pose proof (normal_mantissa _ _ _ Vy ltac:(lia)) as Ny.
        assert (P : 2 <= 2 ^ (ey - ex)).
        { change 2 with (2 ^ 1) at 1. apply pow2_le. lia. }
        nia. }
    (* brought to the exponents of the two roundings *)
    set (z := Z.min ex ey) in *.
    assert (E1 : 2 ^ s * 2 ^ (e' - e0) * 2 ^ (ey - z) * 2 ^ 53
                 = 2 ^ (ex - z) * 2 ^ (-53 - e0) * 2 ^ 53 * 2 ^ 53).
    { assert (G : forall a b c d, 0 <= a -> 0 <= b -> 0 <= c -> 0 <= d ->
                    2 ^ a * 2 ^ b * 2 ^ c * 2 ^ d = 2 ^ (a + b + c + d)).
      { intros. rewrite !pow2_split by lia. ring. }
      rewrite (G s (e' - e0) (ey - z) 53), (G (ex - z) (-53 - e0) 53 53)
        by (unfold z, e0; lia).
      f_equal. lia. }
    pose proof (pow2_pos (ey - z) ltac:(unfold z; lia)) as P1.
    pose proof (pow2_pos (e' - e0) ltac:(unfold e0; lia)) as P2.
    pose proof (pow2_pos (-53 - e0) ltac:(unfold e0; lia)) as P3.
    pose proof (pow2_pos (ex - z) ltac:(unfold z; lia)) as P4.
    pose proof (pow2_pos 53 ltac:(lia)) as P5.
    set (A := 2 ^ s) in *. set (B := 2 ^ (e' - e0)) in *.
    set (C := 2 ^ (ey - z)) in *. set (D := 2 ^ (ex - z)) in *.
    set (F := 2 ^ (-53 - e0)) in *. set (K := 2 ^ 53) in *.
    clearbody A B C D F K.
    apply Z.mul_le_mono_pos_r with (C * K); [nia | ].
    replace (Zpos mx * A * B * (C * K)) with (Zpos mx * (A * B * C * K)) by ring.
    rewrite E1.
    replace (Zpos mx * (D * F * K * K)) with ((Zpos mx * K * D) * (F * K)) by ring.
    replace (9007199254740991 * Zpos my * F * (C * K))
      with ((9007199254740991 * Zpos my * C) * (F * K)) by ring.
    apply Z.mul_le_mono_nonneg_r; [nia | exact V].
Qed.

Lemma SFleb_ltb_trans (x y z : spec_float) :
  SFleb x y = true -> SFltb y z = true -> SFltb x z = true.
Proof.
  unfold SFleb, SFltb.
  destruct x as [[] | [] | | [] mx ex], y as [[] | [] | | [] my ey],
    z as [[] | [] | | [] mz ez]; cbn [SFcompare];
    try discriminate; try reflexivity; intros H1 H2; SF.cmp_cases.
Qed.

(** The quotient of two positive Numbers is below 1 exactly when the
    dividend is below the divisor, unless it is NaN. *)
Lemma div_lt_one_iff (x y : spec_float) :
  valid_binary x = true -> valid_binary y = true ->
  has_sign false x -> has_sign false y ->
  SFdiv prec emax x y <> S754_nan ->
  (SFltb (SFdiv prec emax x y) (Prim2SF one) = true <-> SFltb x y = true).
Proof.
  intros Vx Vy Px Py NN. split.
  - apply div_below_one; try assumption; now apply has_sign_unsigned.
  - destruct x as [[] | [] | | [] mx ex]; cbn [has_sign] in Px; try easy;
      destruct y as [[] | [] | | [] my ey]; cbn [has_sign] in Py; try easy.
    intros L. apply SFleb_ltb_trans with below_one; [ | reflexivity].
    now apply div_le_below_one.
Qed.
End Grade.

Module GradeF.
Import IEEE Round Mono Sum Levels Grade.
Local Open Scope float_scope.

Lemma SFleb_false_ltb (x y : spec_float) :
  x <> S754_nan -> y <> S754_nan -> SFleb y x = false -> SFltb x y = true.
Proof.
  unfold SFltb, SFleb.
  destruct x as [[] | [] | | [] mx ex], y as [[] | [] | | [] my ey];
    cbn [SFcompare]; try congruence; intros _ _ H; SF.cmp_cases.
Qed.

(** The label is [Poor] exactly when the ratio is below 1 or NaN. *)
Lemma poor_below_one (x : float) :
  getRatioLabel x = "Poor"%string <-> (1 <=? x) = false.
Proof.
  unfold getRatioLabel. cbn [le ieee].
  change (@int float ieee 3) with 3. change (@int float ieee 2) with 2.
  change (@int float ieee 1) with 1.
  split.
  - destruct (3 <=? x); [discriminate | ].
    destruct (2 <=? x); [discriminate | ].
    destruct (1 <=? x); [discriminate | reflexivity].
  - intros H1.
    assert (G : forall c : float, SFleb (Prim2SF 1) (Prim2SF c) = true ->
                  (c <=? x) = false).
    { intros c Hc. destruct (c <=? x) eqn:E; [exfalso | reflexivity].
      rewrite leb_spec in E, H1.
      rewrite (SF.SFleb_trans _ _ _ Hc E) in H1. discriminate. }
    rewrite (G 3 eq_refl), (G 2 eq_refl), H1. reflexivity.
Qed.

Lemma ratio_below_one (x y : float) :
  has_sign false (Prim2SF x) -> has_sign false (Prim2SF y) ->
  is_nan (x / y) = false ->
  ((1 <=? x / y) = false <-> (x <? y) = true).
Proof.
  intros Px Py NN. apply F64.is_nan_false in NN.
  rewrite leb_spec, ltb_spec. rewrite div_spec in *.
  rewrite <- (div_lt_one_iff _ _ (Prim2SF_valid x) (Prim2SF_valid y) Px Py NN).
  split.
  - apply SFleb_false_ltb; [assumption | discriminate].
  - apply SFltb_not_le.
Qed.
End GradeF.

(** X5.  The grade of an accepted trade is [Poor] exactly when the reward
    per unit is below the risk per unit, as long as the ratio is a Number
    (not NaN): the rounding of the quotient never lifts a losing ratio to 1
    and never drops a break-even ratio below it. *)
Theorem poor_iff_reward_below_risk (st : State float) (r : Result float) :
  calculateRiskReward st = Sized r ->
  is_nan (ratio r) = false ->
  (getRatioLabel (ratio r) = "Poor"%string <->
   (rewardPerCoin r <? riskPerCoin r) = true).
Proof.
  intros H NN.
  destruct (Trade.Sized_positive st r H) as (P1 & P2 & _).
  destruct (Sized_distances st r H) as [_ R]. rewrite R in *.
  rewrite GradeF.poor_below_one.
  now apply GradeF.ratio_below_one.
Qed.

Lemma poor_iff_reward_below_risk_example :
  exists r,
    calculateRiskReward (T:=float)
      (trade long (int 100) (int 90) (lit 10999 2) (int 10000) (int 1) (int 10)
         (int 75) true (int 50) (int 30)) = Sized r /\
    (getRatioLabel (ratio r) = "Poor"%string <->
     (rewardPerCoin r <? riskPerCoin r) = true).
Proof.
  pose (st := trade (T:=float) long (int 100) (int 90) (lit 10999 2) (int 10000)
                (int 1) (int 10) (int 75) true (int 50) (int 30)).
  eassert (H : calculateRiskReward st = Sized _) by (vm_compute; reflexivity).
  eexists. split; [exact H | ].
  apply (poor_iff_reward_below_risk st _ H). reflexivity.
Defined.

(** X6.  The ratio of an accepted trade is never negative: it is not below
    zero, and it is zero or more (so not NaN) as soon as one of the two
    distances is finite (binary64). *)
Theorem ratio_never_negative (st : State float) (r : Result float) :
  calculateRiskReward st = Sized r ->
  (ratio r <? int 0) = false /\
  (is_finite (riskPerCoin r) = true \/ is_finite (rewardPerCoin r) = true ->
   (int 0 <=? ratio r) = true).
Proof.
  intros H.
  destruct (Trade.Sized_positive st r H) as (P1 & P2 & _).
  pose proof (Trade.ratio_unsigned st r H) as U.
  destruct (Sized_distances st r H) as [_ R].
  cbn [lt le ieee]. rewrite ltb_spec, leb_spec.
  change (Prim2SF (int 0)) with (S754_zero false). split.
  - destruct U as [-> | U]; [reflexivity | ].
    now destruct (Prim2SF (ratio r)) as [[] | [] | | [] m e].
  - intros F. apply Mono.zero_le_unsigned.
    rewrite R. cbn [div ieee]. rewrite div_spec.
    apply Trade.SFdiv_positive_finite; try assumption.
    destruct F as [F | F]; apply Levels.is_finite_SF in F; [now right | now left].
Qed.

Lemma ratio_never_negative_example :
  exists r,
    calculateRiskReward (scenario (T:=float)) = Sized r /\
    (ratio r <? int 0) = false /\
    (is_finite (riskPerCoin r) = true \/ is_finite (rewardPerCoin r) = true ->
     (int 0 <=? ratio r) = true).
Proof.
  eassert (H : calculateRiskReward (scenario (T:=float)) = Sized _)
    by (vm_compute; reflexivity).
  eexists. split; [exact H | ].
  exact (ratio_never_negative (scenario (T:=float)) _ H).
Defined.

(** ** The block of the position details *)

(** X7.  The render throws a TypeError in the block of the position details
    exactly when the capital field is not empty, the trade is accepted and
    the capital parses to a falsy Number (0 or NaN): the block is guarded by
    the text of the field, and the result then has no [leverageInfo] for its
    cell [Risk % Move]. *)
Theorem position_details_throw {T : Type} {N : JSNumber T}
    (totalCapitalText : string) (st : State T) :
  positionDetails totalCapitalText (calculateRiskReward st) = TypeError <->
  nonempty totalCapitalText = true /\
  accepted (positionType st) (entryPrice st) (stopLoss st) (takeProfit st) = true /\
  truthy (totalCapital st) = false.
Proof.
  split.
  - intros H. destruct (calculateRiskReward st) as [ | p | r] eqn:E;
      cbn [positionDetails] in H; try discriminate.
    destruct (nonempty totalCapitalText); try discriminate.
    split; [reflexivity | ]. split.
    + apply Sized_accepted. now exists r.
    + destruct (truthy (totalCapital st)) eqn:C; [ | reflexivity].
      destruct (Sized_sizing st r E C) as (L & _). rewrite L in H. discriminate.
  - intros (Ht & A & C). apply Sized_accepted in A. destruct A as [r E].
    rewrite E. cbn [positionDetails]. rewrite Ht.
    destruct (Sized_unsized st r E C) as (_ & -> & _). reflexivity.
Qed.

(** A capital of 0 typed on the worked scenario. *)
Lemma position_details_throw_example :
  positionDetails "0"
    (calculateRiskReward (T:=float)
       (trade long (int 100) (int 95) (int 115) (int 0) (int 1) (int 10) (int 75)
          true (int 50) (int 30))) = TypeError.
Proof.
  apply position_details_throw. vm_compute. repeat split.
Defined.

(** ** The win rate a ratio needs *)

Module WinRate.
Import IEEE Round Mono Sum Levels.
Local Open Scope Z_scope.

Abbreviation SFone := (S754_finite false 4503599627370496 (-52)).

(** [1 + x] for a finite positive [x]. *)
Lemma one_plus_finite (m : positive) (e : Z) :
  exists p,
    SFadd prec emax SFone (S754_finite false m e)
    = binary_round prec emax false p (Z.min (-52) e) /\
    Zpos p = units (Z.min (-52) e) false 4503599627370496 (-52)
             + units (Z.min (-52) e) false m e.
Proof.
  rewrite SFadd_finite.
  pose proof (units_sign (Z.min (-52) e) false 4503599627370496 (-52) ltac:(lia)) as P1.
  pose proof (units_sign (Z.min (-52) e) false m e ltac:(lia)) as P2.
  cbn beta iota in P1, P2.
  destruct (units (Z.min (-52) e) false 4503599627370496 (-52)
            + units (Z.min (-52) e) false m e) as [ | p | p] eqn:E; try lia.
  exists p. split; reflexivity.
Qed.

(** [1 + x] grows with [x], among the Numbers with a clear sign bit. *)
Lemma one_plus_le (x y : spec_float) :
  valid_binary x = true -> valid_binary y = true ->
  unsigned x = true -> unsigned y = true -> SFleb x y = true ->
  unsigned (SFadd prec emax SFone x) = true /\
  unsigned (SFadd prec emax SFone y) = true /\
  SFleb (SFadd prec emax SFone x) (SFadd prec emax SFone y) = true.
Proof.
  intros Vx Vy Ux Uy L.
  destruct x as [[] | [] | | [] mx ex]; try discriminate;
    destruct y as [[] | [] | | [] my ey]; try discriminate;
    try (repeat split; reflexivity).
  - (* x = +0, y finite *)
    destruct (one_plus_finite my ey) as (p & -> & Hp).
    split; [reflexivity | ]. split; [apply binary_round_unsigned | ].
    cbn [SFadd].
    rewrite <- (binary_normalize_finite false 4503599627370496 (-52) false eq_refl).
    cbn [cond_Zopp binary_normalize].
    apply binary_round_mono with (Z.min (-52) ey); try lia.
    rewrite Z.sub_diag, Z.mul_1_r, Hp.
    pose proof (units_sign (Z.min (-52) ey) false my ey ltac:(lia)) as P2.
    cbn beta iota in P2. unfold units at 1. cbn [cond_Zopp]. lia.
  - (* x finite, y = +infinity *)
    destruct (one_plus_finite mx ex) as (p & -> & Hp).
    split; [apply binary_round_unsigned | ]. split; [reflexivity | ].
    cbn [SFadd]. apply unsigned_le_infinity, binary_round_unsigned.
  - (* both finite *)
    destruct (one_plus_finite mx ex) as (p & -> & Hp).
    destruct (one_plus_finite my ey) as (q & -> & Hq).
    split; [apply binary_round_unsigned | ]. split; [apply binary_round_unsigned | ].
    set (z := Z.min (-52) (Z.min ex ey)).
    apply binary_round_mono with z; try (unfold z; lia).
    rewrite Hp, Hq, !Z.mul_add_distr_r.
    rewrite <- !units_shift by (unfold z; lia).
    pose proof (finite_le_value mx ex my ey z Vx Vy L
                  ltac:(unfold z; lia) ltac:(unfold z; lia)) as V.
    unfold units. cbn [cond_Zopp]. lia.
Qed.

Lemma one_plus_ge_one (x : spec_float) :
  valid_binary x = true -> unsigned x = true ->
  unsigned (SFadd prec emax SFone x) = true /\
  SFleb SFone (SFadd prec emax SFone x) = true.
Proof.
  intros Vx Ux.
  destruct (one_plus_le (S754_zero false) x eq_refl Vx eq_refl Ux
              (zero_le_unsigned x Ux)) as (_ & U & L).
  split; [exact U | exact L].
Qed.

(** A quotient by a Number of 1 or more is a Number with a clear sign
    bit. *)
Lemma div_by_one_or_more (c z : spec_float) (mc : positive) (ec : Z) :
  c = S754_finite false mc ec ->
  unsigned z = true -> SFleb SFone z = true ->
  unsigned (SFdiv prec emax c z) = true.
Proof.
  intros -> Uz L.
  destruct z as [[] | [] | | [] mz ez]; try discriminate.
  - reflexivity.
  - apply SFdiv_unsigned.
Qed.
End WinRate.

Module WinRateF.
Import IEEE Round Mono Sum Levels WinRate.
Local Open Scope float_scope.

(** The win rate needed falls as the ratio grows. *)
Lemma win_rate_antitone (x y : float) :
  unsigned (Prim2SF x) = true -> unsigned (Prim2SF y) = true ->
  (x <=? y) = true ->
  (100 / (1 + y) <=? 100 / (1 + x)) = true /\
  (0 <=? 100 / (1 + y)) = true.
Proof.
  intros Ux Uy L. rewrite leb_spec in L.
  destruct (one_plus_le _ _ (Prim2SF_valid x) (Prim2SF_valid y) Ux Uy L)
    as (U1 & U2 & L12).
  destruct (one_plus_ge_one _ (Prim2SF_valid x) Ux) as (_ & G1).
  destruct (one_plus_ge_one _ (Prim2SF_valid y) Uy) as (_ & G2).
  change SFone with (Prim2SF 1) in *. rewrite <- !add_spec in *.
  pose proof (div_by_one_or_more (Prim2SF 100) _ _ _ eq_refl U1 G1) as D1.
  pose proof (div_by_one_or_more (Prim2SF 100) _ _ _ eq_refl U2 G2) as D2.
  rewrite <- !div_spec in D1, D2.
  split.
  - rewrite leb_spec, !div_spec.
    destruct (SFdiv_le_r (Prim2SF 100) (Prim2SF (1 + x)) (Prim2SF (1 + y))
                (Prim2SF_valid _) (Prim2SF_valid _) eq_refl
                (or_intror (or_intror (conj U1 (conj U2 L12)))))
      as [E | [E | (_ & _ & E)]].
    + rewrite <- div_spec in E. rewrite E in D2. discriminate.
    + rewrite <- div_spec in E. rewrite E in D1. discriminate.
    + exact E.
  - rewrite leb_spec. apply zero_le_unsigned. exact D2.
Qed.
End WinRateF.

Lemma positionDetails_shown {T : Type} {N : JSNumber T}
    (totalCapitalText : string) (results : Outcome T) (d : PositionDetails T) :
  positionDetails totalCapitalText results = Shown d ->
  exists r info,
    results = Sized r /\ nonempty totalCapitalText = true /\
    leverageInfo r = Some info /\
    riskMove d = riskPercentageMove info /\
    winRateNeeded d = int 100 / (int 1 + ratio r) /\
    rrRatio d = ratio r.
Proof.
  destruct results as [ | p | r]; cbn [positionDetails]; try discriminate.
  destruct (nonempty totalCapitalText); try discriminate.
  destruct (leverageInfo r) as [info | ] eqn:L; try discriminate.
  intros [= <-]. exists r, info. cbn. repeat split; try reflexivity. exact L.
Qed.

Module Details.
Import IEEE Round.
Local Open Scope float_scope.

(** The ratio shown is a Number with a clear sign bit, if it is not NaN. *)
Lemma ratio_shown (totalCapitalText : string) (st : State float)
    (d : PositionDetails float) :
  positionDetails totalCapitalText (calculateRiskReward st) = Shown d ->
  is_nan (rrRatio d) = false ->
  unsigned (Prim2SF (rrRatio d)) = true /\
  winRateNeeded d = 100 / (1 + rrRatio d).
Proof.
  intros H NN. destruct (positionDetails_shown _ _ _ H) as (r & info & E & _ & _ & _ & W & R).
  rewrite W, R in *. split; [ | reflexivity].
  destruct (Trade.ratio_unsigned st r E) as [U | U]; [ | exact U].
  apply F64.is_nan_false in NN. contradiction.
Qed.
End Details.

(** X8.  The win rate needed that the block of the position details shows,
    [100 / (1 + ratio)], is between 0 and 100 whenever the ratio is a Number
    (not NaN), and at most 50 when the ratio is 1 or more (binary64). *)
Theorem win_rate_needed_bounds (totalCapitalText : string) (st : State float)
    (d : PositionDetails float) :
  positionDetails totalCapitalText (calculateRiskReward st) = Shown d ->
  is_nan (rrRatio d) = false ->
  (int 0 <=? winRateNeeded d) = true /\
  (winRateNeeded d <=? int 100) = true /\
  ((int 1 <=? rrRatio d) = true -> (winRateNeeded d <=? int 50) = true).
Proof.
  intros H NN. destruct (Details.ratio_shown _ _ _ H NN) as [U ->].
  cbn [le ieee].
  assert (Z0 : PrimFloat.leb zero (rrRatio d) = true).
  { rewrite leb_spec. now apply Mono.zero_le_unsigned. }
  destruct (WinRateF.win_rate_antitone zero (rrRatio d) eq_refl U Z0) as [A B].
  split; [exact B | ]. split; [exact A | ].
  intros L.
  destruct (WinRateF.win_rate_antitone one (rrRatio d) eq_refl U L) as [A' _].
  exact A'.
Qed.

Lemma win_rate_needed_bounds_example :
  exists d,
    positionDetails "10000" (calculateRiskReward (scenario (T:=float))) = Shown d /\
    (int 0 <=? winRateNeeded d) = true /\
    (winRateNeeded d <=? int 100) = true /\
    ((int 1 <=? rrRatio d) = true -> (winRateNeeded d <=? int 50) = true).
Proof.
  eassert (H : positionDetails "10000" (calculateRiskReward (scenario (T:=float)))
               = Shown _) by (vm_compute; reflexivity).
  eexists. split; [exact H | ].
  apply (win_rate_needed_bounds "10000" (scenario (T:=float)) _ H). reflexivity.
Defined.

(** X9.  Of two trades whose position details are shown, the one with the
    higher ratio never needs the higher win rate (binary64). *)
Theorem higher_ratio_lower_win_rate
    (text1 text2 : string) (st1 st2 : State float) (d1 d2 : PositionDetails float) :
  positionDetails text1 (calculateRiskReward st1) = Shown d1 ->
  positionDetails text2 (calculateRiskReward st2) = Shown d2 ->
  (rrRatio d1 <=? rrRatio d2) = true ->
  (winRateNeeded d2 <=? winRateNeeded d1) = true.
Proof.
  intros H1 H2 L. cbn [le ieee] in *.
  destruct (Antitone.leb_not_nan _ _ L) as [N1 N2].
  destruct (Details.ratio_shown _ _ _ H1 N1) as [U1 ->].
  destruct (Details.ratio_shown _ _ _ H2 N2) as [U2 ->].
  now destruct (WinRateF.win_rate_antitone _ _ U1 U2 L).
Qed.

Lemma higher_ratio_lower_win_rate_example :
  exists d1 d2,
    positionDetails "10000" (calculateRiskReward (scenario (T:=float))) = Shown d1 /\
    positionDetails "500"
      (calculateRiskReward (T:=float)
         (trade short (int 100) (int 104) (int 80) (int 500) (int 2) (int 25)
            (int 20) false (int 50) (int 30))) = Shown d2 /\
    (winRateNeeded d2 <=? winRateNeeded d1) = true.
Proof.
  pose (st2 := trade (T:=float) short (int 100) (int 104) (int 80) (int 500) (int 2)
                 (int 25) (int 20) false (int 50) (int 30)).
  eassert (H1 : positionDetails "10000" (calculateRiskReward (scenario (T:=float)))
                = Shown _) by (vm_compute; reflexivity).
  eassert (H2 : positionDetails "500" (calculateRiskReward st2) = Shown _)
    by (vm_compute; reflexivity).
  eexists. eexists. split; [exact H1 | ]. split; [exact H2 | ].
  apply (higher_ratio_lower_win_rate "10000" "500" (scenario (T:=float)) st2 _ _ H1 H2).
  reflexivity.
Defined.

(** ** The floor of the recommended leverage *)

Module Floor.
Import IEEE Round Mono Sum Pow2.
Local Open Scope float_scope.

(** Math.round does not lift a Number below 1 above 1. *)
Lemma round_below_one (x : float) : (x <? 1) = true -> (IEEE.round x <=? 1) = true.
Proof.
  rewrite ltb_spec, leb_spec, round_spec. intros H.
  pose proof (Prim2SF_valid x) as V.
  change (Prim2SF 1) with (S754_finite false 4503599627370496 (-52)) in *.
  destruct (unsigned (Prim2SF x)) eqn:U.
  - destruct (SFround_le (Prim2SF x) (S754_finite false 4503599627370496 (-52)) V eq_refl)
      as [N | [N | (_ & _ & L)]].
    + right; right. repeat split; [exact U | now apply SF.SFltb_leb].
    + exfalso. pose proof (SFround_unsigned _ V U) as B. rewrite N in B.
      discriminate B.
    + discriminate N.
    + exact L.
  - assert (E : Prim2SF x = SFopp (SFopp (Prim2SF x)))
      by (now rewrite Antitone.SFopp_involutive).
    rewrite E.
    apply SF.SFleb_trans with (S754_zero false); [ | reflexivity].
    apply SFround_signed.
    + now destruct (Prim2SF x).
    + destruct (Prim2SF x) as [[] | [] | | [] m e]; try discriminate; reflexivity.
Qed.

(** A clamp of a Number that is at most 1 is 1. *)
Lemma clamp_one (v maxLev : float) :
  (v <=? 1) = true -> is_nan maxLev = false ->
  IEEE.max 1 (IEEE.min v maxLev) = 1.
Proof.
  intros Hv Nm. destruct (Antitone.leb_not_nan _ _ Hv) as [Nv _].
  assert (Hm : (IEEE.min v maxLev <=? 1) = true).
  { destruct (F64.min_cases v maxLev Nv Nm) as [[-> _] | [-> H]];
      [assumption | eapply F64.leb_trans; eassumption]. }
  assert (N1 : is_nan 1 = false) by reflexivity.
  destruct (F64.max_cases 1 (IEEE.min v maxLev) N1 (Antitone.min_not_nan _ _ Nv Nm))
    as [[-> _] | [-> H1]]; [reflexivity | ].
  apply Prim2SF_inj. rewrite leb_spec in Hm, H1.
  change (Prim2SF 1) with (S754_finite false 4503599627370496 (-52)) in *.
  now apply SFleb_antisym.
Qed.
End Floor.

(** X10.  The recommendation has a floor of 1 that the risk budget does
    not lower: when the unrounded optimal leverage, the one at which the
    loss at the stop is the budget, is below 1, the recommended leverage is
    1, whatever the maximal leverage is, provided it is a Number
    (binary64). *)
Theorem leverage_floor (entry stop capital riskPct allocation maxLev : float) :
  (optimalLeverage entry stop capital riskPct allocation <? int 1) = true ->
  is_nan maxLev = false ->
  optimal (calculateOptimalLeverage entry stop capital riskPct allocation maxLev)
  = int 1.
Proof.
  intros H Nm. cbn [lt ieee] in H.
  pose proof (Floor.clamp_one _ maxLev (Floor.round_below_one _ H) Nm) as C.
  cbn [optimal calculateOptimalLeverage]. cbn [Math_max Math_min Math_round ieee].
  change (@int float ieee 1) with 1%float. rewrite C.
  exact (Antitone.safetyLadder_one _).
Qed.

(** A stop 20% below the entry with a risk of 1% on an allocation of 10%:
    the optimal leverage is 0.5, the recommended one 1. *)
Lemma leverage_floor_example :
  optimalLeverage (T:=float) (int 100) (int 80) (int 10000) (int 1) (int 10) = lit 5 1 /\
  optimal (calculateOptimalLeverage (T:=float) (int 100) (int 80) (int 10000) (int 1)
             (int 10) (int 75)) = int 1.
Proof.
  split; [reflexivity | ].
  apply (leverage_floor (int 100) (int 80) (int 10000) (int 1) (int 10) (int 75));
    reflexivity.
Defined.

(** ** The potential profit against the potential loss *)

Module Money.
Import IEEE Round Mono Sum.
Local Open Scope float_scope.

(** Of two positive distances, the longer one earns at least as much, for a
    number of units that is not negative. *)
Lemma product_order (a x y : float) :
  has_sign false (Prim2SF x) -> has_sign false (Prim2SF y) ->
  (y <? x) = false -> (a <? 0) = false ->
  (a * y <? a * x) = false.
Proof.
  intros Px Py H Ha.
  assert (L : SFleb (Prim2SF x) (Prim2SF y) = true).
  { rewrite ltb_spec in H. apply SF.SFleb_total; try assumption;
      intros E; rewrite E in *; contradiction. }
  destruct (is_nan a) eqn:Na.
  { apply Antitone.fle_not_lt. left. apply Antitone.is_nan_true. rewrite mul_spec.
    apply Antitone.is_nan_true in Na. now rewrite Na. }
  destruct (unsigned (Prim2SF a)) eqn:Ua.
  - apply Antitone.fle_not_lt, Antitone.ule_fle. rewrite !mul_spec.
    apply SFmul_le; try apply Prim2SF_valid; try assumption.
    + now apply F64.is_nan_false.
    + right; right. repeat split; try assumption; now apply has_sign_unsigned.
  - rewrite !ltb_spec in *. rewrite !mul_spec.
    change (Prim2SF 0) with (S754_zero false) in Ha.
    apply F64.is_nan_false in Na.
    destruct (Prim2SF a) as [[] | [] | | [] ma ea]; try discriminate; try congruence.
    destruct (Prim2SF x) as [ | [] | | [] mx ex]; try contradiction;
      try discriminate;
      destruct (Prim2SF y) as [ | [] | | [] my ey]; try contradiction;
      try discriminate; reflexivity.
Qed.
End Money.

(** X22.  The potential profit follows the grade: for an accepted trade
    whose label is not [Poor], with a number of units that is not negative,
    the potential profit is not below the potential loss, roundings
    included (binary64). *)
Theorem profit_follows_grade (st : State float) (r : Result float) :
  calculateRiskReward st = Sized r ->
  getRatioLabel (ratio r) <> "Poor"%string ->
  (recommendedAssets r <? int 0) = false ->
  (potentialProfit r <? potentialLoss r) = false.
Proof.
  intros H G A.
  destruct (Trade.Sized_positive st r H) as (Prisk & Preward & _).
  destruct (Sized_distances st r H) as [_ R].
  destruct (Sized_money st r H) as [[L P] | (_ & -> & ->)]; [ | reflexivity].
  rewrite L, P. cbn [lt mul ieee] in *.
  assert (G1 : (1 <=? ratio r)%float = true).
  { destruct (1 <=? ratio r)%float eqn:E; [reflexivity | exfalso].
    apply G. now apply GradeF.poor_below_one. }
  destruct (Antitone.leb_not_nan _ _ G1) as [_ NN].
  rewrite R in G1, NN. cbn [div ieee] in G1, NN.
  assert (W : (rewardPerCoin r <? riskPerCoin r)%float = false).
  { destruct (rewardPerCoin r <? riskPerCoin r)%float eqn:E; [exfalso | reflexivity].
    apply (GradeF.ratio_below_one _ _ Preward Prisk NN) in E. congruence. }
  now apply Money.product_order.
Qed.

(** The worked scenario: a profit of 300 against a loss of 100. *)
Lemma profit_follows_grade_example :
  exists r,
    calculateRiskReward (T:=float) scenario = Sized r /\
    potentialProfit r = int 300 /\ potentialLoss r = int 100 /\
    (potentialProfit r <? potentialLoss r) = false.
Proof.
  eassert (H : calculateRiskReward (T:=float) scenario = Sized _)
    by (vm_compute; reflexivity).
  eexists. split; [exact H | ]. split; [reflexivity | ]. split; [reflexivity | ].
  apply (profit_follows_grade scenario _ H).
  - vm_compute. discriminate.
  - reflexivity.
Defined.

(** ** The potential profit against the ratio *)

Module Profit.
Import IEEE Round Mono Sum Near NearQ Blend BlendF.
Local Open Scope Q_scope.

(** Three roundings, each within [2^-52] of its result, keep a product
    within [2^-50] of the product of the quotient and the other product. *)
Lemma product_near (A w r P L q : Q) :
  0 < A -> 0 < w -> 0 < r -> 0 < P -> 0 < L -> 0 < q ->
  P * (1 - (1 # 4503599627370496)) <= A * w <= P * (1 + (1 # 4503599627370496)) ->
  L * (1 - (1 # 4503599627370496)) <= A * r <= L * (1 + (1 # 4503599627370496)) ->
  q * (1 - (1 # 4503599627370496)) * r <= w <= q * (1 + (1 # 4503599627370496)) * r ->
  Qabs (P - q * L) <= q * L * (1 # 1125899906842624).
Proof.
  intros HA Hw Hr HP HL Hq [P1 P2] [L1 L2] [Q1 Q2].
  set (u := 1 # 4503599627370496) in *.
  assert (U0 : 0 < 1 - u) by reflexivity.
  assert (U1 : 0 < 1 + u) by reflexivity.
  assert (QL : 0 < q * L) by (apply Qmult_lt_0_compat; assumption).
  assert (Up : P * (1 - u) <= q * L * ((1 + u) * (1 + u))).
  { apply Qle_trans with (A * w); [exact P1 | ].
    apply Qle_trans with (A * (q * (1 + u) * r)).
    - apply Qmult_le_l; assumption.
    - setoid_replace (A * (q * (1 + u) * r)) with (q * (1 + u) * (A * r)) by ring.
      setoid_replace (q * L * ((1 + u) * (1 + u))) with (q * (1 + u) * (L * (1 + u)))
        by ring.
      apply Qmult_le_l; [ | exact L2]. apply Qmult_lt_0_compat; assumption. }
  assert (Lo : q * L * ((1 - u) * (1 - u)) <= P * (1 + u)).
  { apply Qle_trans with (A * w); [ | exact P2].
    apply Qle_trans with (A * (q * (1 - u) * r)).
    - setoid_replace (A * (q * (1 - u) * r)) with (q * (1 - u) * (A * r)) by ring.
      setoid_replace (q * L * ((1 - u) * (1 - u))) with (q * (1 - u) * (L * (1 - u)))
        by ring.
      apply Qmult_le_l; [ | exact L1]. apply Qmult_lt_0_compat; assumption.
    - apply Qmult_le_l; assumption. }
  set (k := 1 # 1125899906842624).
  assert (N1 : (1 + u) * (1 + u) <= (1 + k) * (1 - u)) by (vm_compute; discriminate).
  assert (N2 : (1 - k) * (1 + u) <= (1 - u) * (1 - u)) by (vm_compute; discriminate).
  assert (Hi' : P <= q * L * (1 + k)).
  { apply (Qmult_le_r _ _ (1 - u)); [exact U0 | ].
    apply Qle_trans with (q * L * ((1 + u) * (1 + u))); [exact Up | ].
    setoid_replace (q * L * (1 + k) * (1 - u)) with (q * L * ((1 + k) * (1 - u))) by ring.
    apply Qmult_le_l; assumption. }
  assert (Lo' : q * L * (1 - k) <= P).
  { apply (Qmult_le_r _ _ (1 + u)); [exact U1 | ].
    apply Qle_trans with (q * L * ((1 - u) * (1 - u))); [ | exact Lo].
    setoid_replace (q * L * (1 - k) * (1 + u)) with (q * L * ((1 - k) * (1 + u))) by ring.
    apply Qmult_le_l; assumption. }
  apply Qabs_Qle_condition. split; lra.
Qed.

Local Open Scope float_scope.

(** The product [a * w] against the quotient [w / r] times the product
    [a * r]. *)
Lemma product_of_quotient (a w r : float) :
  has_sign false (Prim2SF w) -> has_sign false (Prim2SF r) ->
  normal (a * w) -> normal (a * r) -> normal (w / r) ->
  (Qabs (value (a * w) - value (w / r) * value (a * r))
   <= value (w / r) * value (a * r) * (1 # 1125899906842624))%Q.
Proof.
  intros Pw Pr NP NL Nq. unfold normal, value in *.
  pose proof (Prim2SF_valid a) as Va. pose proof (Prim2SF_valid w) as Vw.
  pose proof (Prim2SF_valid r) as Vr.
  pose proof (Prim2SF_valid (a * w)) as VP. pose proof (Prim2SF_valid (a * r)) as VL.
  pose proof (Prim2SF_valid (w / r)) as Vq.
  rewrite (div_spec w) in *.
  destruct (Prim2SF (a * w)) as [ | | | [] mP eP] eqn:EP; try contradiction.
  destruct (Prim2SF (a * r)) as [ | | | [] mL eL] eqn:EL; try contradiction.
  rewrite mul_spec in EP, EL.
  destruct (SFmul_positive_inv _ _ _ _ Pw EP) as (ma & ea & mw & ew & Ea & Ew).
  destruct (SFmul_positive_inv _ _ _ _ Pr EL) as (ma' & ea' & mr & er & _ & Er).
  rewrite Ea, Ew, Er in *.
  destruct (SF64div (S754_finite false mw ew) (S754_finite false mr er))
    as [ | | | [] mq eq] eqn:Eq; try contradiction.
  unfold SF64div, SF64mul in *.
  apply product_near with (A := SF2Q (S754_finite false ma ea))
                          (w := SF2Q (S754_finite false mw ew))
                          (r := SF2Q (S754_finite false mr er));
    try apply SF2Q_pos.
  - apply SFmul_near; try assumption; unfold_consts; lia.
  - apply SFmul_near; try assumption; unfold_consts; lia.
  - apply SFdiv_near; try assumption; unfold_consts; lia.
Qed.
End Profit.

(** X11.  The potential profit is the ratio times the potential loss, up to
    rounding: for an accepted trade whose potential profit, potential loss
    and ratio are positive normal Numbers, the potential profit differs
    from the ratio times the potential loss by [2^-50] of that product at
    most (binary64). *)
Theorem profit_is_ratio_times_loss (st : State float) (r : Result float) :
  calculateRiskReward st = Sized r ->
  normal (potentialProfit r) -> normal (potentialLoss r) -> normal (ratio r) ->
  (Qabs (value (potentialProfit r) - value (ratio r) * value (potentialLoss r))
   <= value (ratio r) * value (potentialLoss r) * (1 # 1125899906842624))%Q.
Proof.
  intros H NP NL Nq.
  destruct (Trade.Sized_positive st r H) as (Prisk & Preward & _).
  destruct (Sized_distances st r H) as [_ R].
  destruct (Sized_money st r H) as [[L P] | (_ & _ & E)].
  - rewrite L, P, R in *. cbn [mul div ieee] in *.
    now apply Profit.product_of_quotient.
  - rewrite E in NP. contradiction NP.
Qed.

(** Entry 1.31, stop 0.61 and target 2.54 with a capital of 10000. *)
Lemma profit_is_ratio_times_loss_example :
  exists r,
    calculateRiskReward (T:=float)
      (trade long (lit 131 2) (lit 61 2) (lit 254 2) (int 10000) (int 1) (int 10)
         (int 75) true (int 50) (int 30)) = Sized r /\
    (Qabs (value (potentialProfit r) - value (ratio r) * value (potentialLoss r))
     <= value (ratio r) * value (potentialLoss r) * (1 # 1125899906842624))%Q.
Proof.
  eassert (H : calculateRiskReward (T:=float)
                 (trade long (lit 131 2) (lit 61 2) (lit 254 2) (int 10000) (int 1)
                    (int 10) (int 75) true (int 50) (int 30)) = Sized _)
    by (vm_compute; reflexivity).
  eexists. split; [exact H | ].
  apply (profit_is_ratio_times_loss _ _ H); vm_compute; repeat split; discriminate.
Defined.

(** ** The final level *)

(** X14.  The final level of the partial-exit plan is the target itself and
    its R-multiple is the ratio of the result, bit for bit: the absolute
    distances the plan divides are the directed distances of the ratio. *)
Theorem final_level_is_target (st : State float) (r : Result float) :
  calculateRiskReward st = Sized r ->
  truthy (totalCapital st) = true ->
  exists levels,
    partialTPLevels r = Some levels /\
    price (tp3 levels) = takeProfit st /\
    rMultiple (tp3 levels) = ratio r.
Proof.
  intros H C.
  destruct (Trade.Sized_positive st r H) as (_ & _ & E1 & E2).
  destruct (Sized_sizing st r H C) as (_ & _ & L & _).
  destruct (Sized_distances st r H) as [_ R].
  eexists. split; [exact L | ]. split; [reflexivity | ].
  cbn [calculatePartialTPLevels tp3 rMultiple]. cbn [Math_abs ieee sub].
  now rewrite <- E1, <- E2.
Qed.

Lemma final_level_is_target_example :
  exists r levels,
    calculateRiskReward (T:=float)
      (trade short (int 100) (int 104) (int 91) (int 10000) (int 1) (int 10)
         (int 75) true (int 50) (int 30)) = Sized r /\
    partialTPLevels r = Some levels /\
    price (tp3 levels) = int 91 /\
    rMultiple (tp3 levels) = ratio r.
Proof.
  pose (st := trade (T:=float) short (int 100) (int 104) (int 91) (int 10000) (int 1)
                (int 10) (int 75) true (int 50) (int 30)).
  eassert (H : calculateRiskReward st = Sized _) by (vm_compute; reflexivity).
  destruct (final_level_is_target st _ H eq_refl) as (levels & L & P & M).
  eexists. exists levels. split; [exact H | ]. split; [exact L | ].
  split; [exact P | exact M].
Defined.

(** ** The explanation of the leverage *)

Module Explain.
Import IEEE.
Local Open Scope float_scope.

Lemma min_not_above (a c : float) :
  is_nan c = false -> (c <? IEEE.min a c) = false.
Proof.
  intros Nc. apply Antitone.fle_not_lt.
  destruct (is_nan a) eqn:Na.
  - left. now apply Antitone.min_nan_l.
  - right; right. destruct (F64.min_cases a c Na Nc) as [[-> H] | [-> H]];
      [exact H | now apply F64.leb_refl].
Qed.
End Explain.

(** X15.  The explanation shown names the cap that was applied: with
    [High risk distance] the recommended leverage is never above 2, with
    [Moderate risk distance] never above 5, with [Balanced risk distance]
    never above 10, with [Low risk distance] never above 20, and with
    [Tight stop loss] it is the clamped leverage, uncapped (binary64). *)
Theorem explanation_names_cap
    (entry stop capital riskPct allocation maxLev : float) :
  let info := calculateOptimalLeverage entry stop capital riskPct allocation maxLev in
  let clamped :=
    Math_max (int 1)
      (Math_min (Math_round (optimalLeverage entry stop capital riskPct allocation))
         maxLev) in
  (explanation info = "High risk distance - using minimal leverage for safety"%string ->
   (optimal info >? int 2) = false) /\
  (explanation info = "Moderate risk distance - conservative leverage recommended"%string ->
   (optimal info >? int 5) = false) /\
  (explanation info = "Balanced risk distance - moderate leverage suitable"%string ->
   (optimal info >? int 10) = false) /\
  (explanation info = "Low risk distance - higher leverage acceptable"%string ->
   (optimal info >? int 20) = false) /\
  (explanation info = "Tight stop loss - maximum safe leverage calculated"%string ->
   optimal info = clamped).
Proof.
  cbv zeta. cbn [calculateOptimalLeverage explanation optimal].
  unfold getLeverageExplanation, safetyLadder.
  set (rpm := Math_abs (entry - stop) / entry * int 100).
  set (clamped := Math_max _ _).
  destruct (rpm >=? int 10); [ | destruct (rpm >=? int 5);
    [ | destruct (rpm >=? int 3); [ | destruct (rpm >=? int 2)]]];
    repeat split; intros E; try discriminate E; try reflexivity;
    apply Explain.min_not_above; reflexivity.
Qed.

Lemma explanation_names_cap_example :
  let info :=
    calculateOptimalLeverage (T:=float) (int 100) (int 88) (int 10000) (int 2) (int 10)
      (int 75) in
  explanation info = "High risk distance - using minimal leverage for safety"%string /\
  (optimal info >? int 2) = false.
Proof.
  split; [reflexivity | ].
  apply (explanation_names_cap (int 100) (int 88) (int 10000) (int 2) (int 10) (int 75)).
  reflexivity.
Defined.

(** ** The warning on the risk settings *)



Module Tags.
Import IEEE.
Local Open Scope float_scope.

(** A Number that is at most 2 and not at least 1 is below 1. *)
Lemma risk_below_one (x : float) :
  (x <=? 2) = true -> ((1 <=? x) = false <-> (x <? 1) = true).
Proof.
  intros H. destruct (Antitone.leb_not_nan _ _ H) as [Nx _].
  apply F64.is_nan_false in Nx.
  rewrite leb_spec, ltb_spec. split.
  - apply GradeF.SFleb_false_ltb; [assumption | discriminate].
  - apply Sum.SFltb_not_le.
Qed.
End Tags.

(** X17.  On the second variant, for an accepted trade with the capital
    field filled in: when the warning on the risk settings is not shown, the
    two tags read [Safe] and [Optimal]; but the tags can read [Safe] and
    [Optimal] with the warning shown, which happens exactly when the risk
    per trade is below 1 (the field starts at 0.5) (binary64). *)
Theorem manual_warning_against_tags (totalCapitalText : string)
    (st : Manual.State float) (r : Manual.Result float) :
  Manual.calculateRiskReward st = Manual.Sized r ->
  nonempty totalCapitalText = true ->
  (ManualScreen.isRiskManagementValid totalCapitalText st = true ->
   ManualScreen.riskTag st = "Safe"%string /\
   ManualScreen.allocationTag st = "Optimal"%string) /\
  (ManualScreen.riskTag st = "Safe"%string ->
   ManualScreen.allocationTag st = "Optimal"%string ->
   (ManualScreen.isRiskManagementValid totalCapitalText st = false <->
    (Manual.riskPercentage st <? int 1) = true)).
Proof.
  intros H Ht.
  unfold ManualScreen.isRiskManagementValid, ManualScreen.riskTag,
    ManualScreen.allocationTag.
  rewrite H, Ht. cbn [negb]. cbv zeta.
  destruct ((Manual.assetAllocation st >=? int 10)
            && (Manual.assetAllocation st <=? int 25)).
  - destruct (Manual.riskPercentage st <=? int 2) eqn:R2.
    + rewrite !andb_true_r. split.
      * now split.
      * intros _ _. now apply Tags.risk_below_one.
    + rewrite !andb_false_r. cbn [andb]. split; [discriminate | discriminate].
  - rewrite !andb_false_r. split; [discriminate | ]. intros _ E. discriminate E.
Qed.

(** A risk per trade of 0.5 on the worked scenario. *)
Lemma manual_warning_against_tags_example :
  let st := {| Manual.entryPrice := int 100;
               Manual.stopLoss := int 95;
               Manual.takeProfit := int 115;
               Manual.totalCapital := int 10000;
               Manual.riskPercentage := lit 5 1;
               Manual.assetAllocation := int 10;
               Manual.leverage := int 1;
               Manual.positionType := long;
               Manual.exchangeRate := lit 5852 2 |} : Manual.State float in
  ManualScreen.riskTag st = "Safe"%string /\
  ManualScreen.allocationTag st = "Optimal"%string /\
  ManualScreen.isRiskManagementValid "10000" st = false.
Proof.
  intros st. split; [reflexivity | ]. split; [reflexivity | ].
  eassert (H : Manual.calculateRiskReward st = Manual.Sized _)
    by (vm_compute; reflexivity).
  apply (manual_warning_against_tags "10000" st _ H); reflexivity.
Defined.

(** ** The recommendation of the second variant *)

(** X18.  The leverage recommendation of the second variant is always the
    low end of a range inside [1, 5], and it is above 1 only for a ratio of
    2 or more with a stop at most 3% away from the entry (binary64). *)
Theorem manual_recommendation_bounds (ratio riskPerCoin entry : float) :
  let rec := Manual.getLeverageRecommendation ratio riskPerCoin entry in
  Manual.recommended rec = Manual.min rec /\
  (int 1 <=? Manual.min rec) = true /\
  (Manual.min rec <=? Manual.max rec) = true /\
  (Manual.max rec <=? int 5) = true /\
  ((Manual.recommended rec >? int 1) = true ->
   (ratio >=? int 2) = true /\ ((riskPerCoin / entry) * int 100 <=? int 3) = true).
Proof.
  cbv zeta. unfold Manual.getLeverageRecommendation.
  set (pct := riskPerCoin / entry * int 100).
  assert (Up : (ratio >=? int 3) = true -> (ratio >=? int 2) = true).
  { cbn [le ieee]. intros H. eapply F64.leb_trans; [ | exact H]. reflexivity. }
  assert (Down : (pct <=? int 2) = true -> (pct <=? int 3) = true).
  { cbn [le ieee]. intros H. eapply F64.leb_trans; [exact H | ]. reflexivity. }
  destruct (ratio >=? int 3) eqn:R3, (pct <=? int 2) eqn:P2,
    (ratio >=? int 2) eqn:R2, (pct <=? int 3) eqn:P3,
    ((ratio >=? lit 15 1) && (pct <=? int 5));
    cbn [andb Manual.recommended Manual.min Manual.max];
    repeat split; try reflexivity; try discriminate;
    try (now apply Up); try (now apply Down).
Qed.

Lemma manual_recommendation_bounds_example :
  let rec := Manual.getLeverageRecommendation (T:=float) (int 3) (int 2) (int 100) in
  Manual.recommended rec = int 3 /\
  ((Manual.recommended rec >? int 1) = true ->
   (int 3 >=? int 2) = true /\ ((int 2 / int 100) * int 100 <=? int 3) = true).
Proof.
  split; [reflexivity | ].
  exact (proj2 (proj2 (proj2 (proj2
           (manual_recommendation_bounds (int 3) (int 2) (int 100)))))).
Defined.

(** ** What the grade depends on *)

(** X19.  The direction check, the two distances, the ratio and with them
    the colour of the screen depend on the three prices and the direction
    only: two states that agree on them are rejected together and have the
    same distances, ratio and colour, whatever their capital, risk,
    allocation, maximal leverage, exchange rate and partial exits. *)
Theorem grade_depends_on_prices {T : Type} {N : JSNumber T} (st1 st2 : State T) :
  entryPrice st1 = entryPrice st2 -> stopLoss st1 = stopLoss st2 ->
  takeProfit st1 = takeProfit st2 -> positionType st1 = positionType st2 ->
  match calculateRiskReward st1, calculateRiskReward st2 with
  | Null, Null => True
  | InvalidDirection p1, InvalidDirection p2 => p1 = p2
  | Sized r1, Sized r2 =>
      riskPerCoin r1 = riskPerCoin r2 /\ rewardPerCoin r1 = rewardPerCoin r2 /\
      ratio r1 = ratio r2
  | _, _ => False
  end /\
  color (calculateRiskReward st1) = color (calculateRiskReward st2).
Proof.
  intros He Hs Ht Hp. unfold calculateRiskReward. rewrite He, Hs, Ht, Hp.
  destruct (negb _ || _ || _); [now split | ].
  destruct (distances _ _ _ _) as [[risk reward] valid].
  destruct (negb valid || _ || _); [now split | ].
  destruct (truthy (totalCapital st1)), (truthy (totalCapital st2)); now split.
Qed.

Lemma grade_depends_on_prices_example :
  color (calculateRiskReward (scenario (T:=float)))
  = color (calculateRiskReward (T:=float)
             (trade long (int 100) (int 95) (int 115) (int 0) (int 2) (int 50)
                (int 3) false (int 10) (int 10))).
Proof.
  apply (grade_depends_on_prices (scenario (T:=float))
           (trade long (int 100) (int 95) (int 115) (int 0) (int 2) (int 50)
              (int 3) false (int 10) (int 10)));
    reflexivity.
Defined.

(** ** The order of the levels *)

Module Forward.
Import IEEE Round Mono Sum AddMono AddMonoF.
Local Open Scope float_scope.

(** A Number plus a distance is not below the Number. *)
Lemma add_distance (x d : float) : (x + abs d <? x) = false.
Proof.
  destruct (is_nan x) eqn:Nx.
  { rewrite ltb_spec. apply Antitone.is_nan_true in Nx. rewrite Nx.
    unfold SFltb. now destruct (Prim2SF (x + abs d)). }
  destruct (is_nan d) eqn:Nd.
  { rewrite ltb_spec, add_spec, abs_spec. apply Antitone.is_nan_true in Nd.
    rewrite Nd. cbn [SFabs]. now destruct (Prim2SF x). }
  apply F64.is_nan_false in Nx, Nd.
  assert (Z : fle 0 (abs d)).
  { right; right. rewrite leb_spec, abs_spec. apply zero_le_unsigned.
    now apply Antitone.SFabs_unsigned. }
  pose proof (add_fle x _ _ Z) as H.
  rewrite ltb_spec. destruct H as [H | [H | H]].
  - apply Antitone.is_nan_true in H. rewrite add_spec in H.
    change (Prim2SF 0) with (S754_zero false) in H.
    exfalso. destruct (Prim2SF x) as [[] | [] | | [] m e]; try discriminate H.
    now apply Nx.
  - apply Antitone.is_nan_true in H. rewrite H. reflexivity.
  - rewrite leb_spec in H. rewrite add_spec in H at 1.
    change (Prim2SF 0) with (S754_zero false) in H.
    destruct (Prim2SF x) as [[] | [] | | [] m e] eqn:Ex; try (now elim Nx);
      cbn [SF64add SFadd] in H;
      destruct (Prim2SF (x + abs d)) as [[] | [] | | [] m' e'];
      unfold SFleb, SFltb in *; cbn [SFcompare] in *;
      try discriminate; try reflexivity; SF.cmp_cases.
Qed.

(** A Number minus a distance is not above the Number. *)
Lemma sub_distance (x d : float) : (x <? x - abs d) = false.
Proof.
  destruct (is_nan d) eqn:Nd.
  { rewrite ltb_spec, sub_spec, abs_spec. apply Antitone.is_nan_true in Nd.
    rewrite Nd. cbn [SFabs]. unfold SFltb. now destruct (Prim2SF x). }
  apply F64.is_nan_false in Nd.
  assert (Z : fle 0 (abs d)).
  { right; right. rewrite leb_spec, abs_spec. apply zero_le_unsigned.
    now apply Antitone.SFabs_unsigned. }
  pose proof (sub_fle x _ _ Z) as H.
  assert (E : x - 0 = x).
  { apply Prim2SF_inj. rewrite sub_spec. change (Prim2SF 0) with (S754_zero false).
    now destruct (Prim2SF x) as [[] | [] | | [] m e]. }
  rewrite E in H. now apply Antitone.fle_not_lt.
Qed.

(** A distance is not above its multiple by 1.5 or by 2. *)
Lemma distance_multiple (d c : float) :
  SFleb (Prim2SF 1) (Prim2SF c) = true -> unsigned (Prim2SF c) = true ->
  fle (abs d) (abs d * c).
Proof.
  intros L U.
  destruct (is_nan d) eqn:Nd.
  { left. apply Antitone.is_nan_true. rewrite abs_spec.
    apply Antitone.is_nan_true in Nd. now rewrite Nd. }
  apply F64.is_nan_false in Nd.
  rewrite <- (ExitAllF.mul_one (abs d)) at 1.
  apply Antitone.ule_fle. rewrite !mul_spec, abs_spec.
  apply SFmul_le; try apply Prim2SF_valid.
  - apply Antitone.SFabs_valid, Prim2SF_valid.
  - now apply Antitone.SFabs_unsigned.
  - destruct (Prim2SF d); try discriminate; congruence.
  - right; right. repeat split; assumption.
Qed.
End Forward.

(** X21.  The levels do not go backwards: the first level is never on the
    loss side of the entry, and with a ratio of total reward to risk of 2
    or more the second level is never nearer to the entry than the first
    (not below it for a long, not above it for a short), roundings
    included; the third level is the target (binary64). *)
Theorem levels_in_order (pt : PositionType) (entry stop target : float) :
  let riskPerCoin := Math_abs (entry - stop) in
  let rrRatio := Math_abs (target - entry) / riskPerCoin in
  let levels := calculatePartialTPLevels entry stop target pt in
  price (tp3 levels) = target /\
  match pt with
  | long =>
      (price (tp1 levels) <? entry) = false /\
      ((rrRatio >=? int 2) = true ->
       (price (tp2 levels) <? price (tp1 levels)) = false)
  | short =>
      (entry <? price (tp1 levels)) = false /\
      ((rrRatio >=? int 2) = true ->
       (price (tp1 levels) <? price (tp2 levels)) = false)
  end.
Proof.
  intros riskPerCoin rrRatio levels. split; [reflexivity | ].
  assert (P : price (tp2 levels) =
              let away x := match pt with long => entry + x | short => entry - x end in
              if rrRatio >=? int 3 then away (riskPerCoin * int 2)
              else if rrRatio >=? int 2 then away (riskPerCoin * lit 15 1)
              else (away riskPerCoin + target) / int 2)
    by apply tp2_price.
  cbv zeta in P.
  assert (M : forall c : float,
             SFleb (Prim2SF 1) (Prim2SF c) = true ->
             Round.unsigned (Prim2SF c) = true ->
             fle riskPerCoin (riskPerCoin * c)).
  { intros c. apply Forward.distance_multiple. }
  assert (P1 : price (tp1 levels) =
               match pt with long => entry + riskPerCoin | short => entry - riskPerCoin end)
    by (now destruct pt).
  destruct pt; rewrite P1; (split; [ | intros H2; rewrite P, H2]).
  - apply Forward.add_distance.
  - apply Antitone.fle_not_lt.
    destruct (rrRatio >=? int 3); apply AddMonoF.add_fle, M; reflexivity.
  - apply Forward.sub_distance.
  - apply Antitone.fle_not_lt.
    destruct (rrRatio >=? int 3); apply AddMonoF.sub_fle, M; reflexivity.
Qed.

(** Entry 100, stop 95 and target 110: the levels are 105, 107.5 and 110. *)
Lemma levels_in_order_example :
  let levels := calculatePartialTPLevels (T:=float) (int 100) (int 95) (int 110) long in
  price (tp1 levels) = int 105 /\ price (tp2 levels) = lit 1075 1 /\
  price (tp3 levels) = int 110 /\
  (price (tp1 levels) <? int 100) = false /\
  (price (tp2 levels) <? price (tp1 levels)) = false.
Proof.
  destruct (levels_in_order long (int 100) (int 95) (int 110)) as (H3 & H1 & H2).
  split; [reflexivity | ]. split; [reflexivity | ]. split; [exact H3 | ].
  split; [exact H1 | ]. apply H2. reflexivity.
Defined.
